(** * xenforo-dl: fetcher, resume logic and traversal orchestrator

    A shallow embedding of the parts of xenforo-dl that decide how pages
    and attachments are fetched, how an interrupted thread download is
    resumed, and how forums, threads and pages are traversed:

    - [src/lib/utils/URLHelper.ts]      : module [URLHelper]
    - [src/lib/utils/Fetcher.ts]        : module [Fetcher]
    - [src/lib/parsers/Parser.ts]       : the id/url/title checks of [Parser]
    - [src/lib/XenForoDownloader.ts]    : module [XenForoDownloader]

    JavaScript numbers that hold ids and counts are doubles with an
    integer value, written as that integer ([Z]); a text is a [string] of
    its UTF-8 bytes; an optional field is an [option]; JavaScript
    truthiness is written out ([truthy_Z], [truthy_string], [truthy_opt]).
    File-system calls succeed.  A fetch may return, reject, or never
    return.

    Promises are taken in one schedule: the jobs handed to [Promise.all]
    run one after the other, from left to right, each to its end before the
    next begins, and no job is begun after one that rejects.  The program
    starts them together and lets a limiter run several at a time, so this
    is the run in which the limiter takes one job at a time in the order of
    the list; what is proved of a single job does not depend on it. *)

From Stdlib Require Import ZArith List String Ascii Bool Lia DecimalString Sorted.
From stdpp Require Import base option list strings gmap.

(** ** JavaScript values *)

Definition truthy_Z (z : Z) : bool := negb (z =? 0)%Z.

Definition truthy_string (s : string) : bool := negb (String.eqb s "").

Definition truthy_opt (o : option string) : bool :=
  match o with
  | Some s => truthy_string s
  | None => false
  end.

(** A JavaScript number that holds an id or a count is a double with an
    integer value, and is written as that integer; [Infinity] stands for
    the number of that name (every double is smaller than [2^1024]). *)
Definition Infinity : Z := 2 ^ 1024.

(** The double nearest to the natural number [n], the one with the even
    significand when two are as near, and [Infinity] from [2^1024 - 2^970]
    on: the number a text of decimal digits is read as. *)
Definition round_to_double (n : Z) : Z :=
  let e := (Z.log2 n - 52)%Z in
  if (e <=? 0)%Z then n
  else
    let q := Z.shiftr n e in
    let r := (n - Z.shiftl q e)%Z in
    let half := Z.shiftl 1 (e - 1) in
    let q' :=
      if (r <? half)%Z then q
      else if (half <? r)%Z then (q + 1)%Z
      else if Z.even q then q else (q + 1)%Z in
    let v := Z.shiftl q' e in
    if (Infinity <=? v)%Z then Infinity else v.

(** The decimal digits of an integer. *)
Definition decimal (z : Z) : string := NilZero.string_of_int (Z.to_int z).

(** Number::toString looks for the fewest digits [s] that, followed by
    zeros, are read back as [x].  With [j] zeros there are two candidates,
    the multiples of [10^j] below and above [x]; of two that are read back
    as [x] the nearer is taken, and the even one when they are as near. *)
Definition shortest_at (x : Z) (j : nat) : option Z :=
  let p := (10 ^ Z.of_nat j)%Z in
  let lo := (x / p)%Z in
  let hi := (lo + 1)%Z in
  let ok (s : Z) := (0 <? s)%Z && (round_to_double (s * p) =? x)%Z in
  match ok lo, ok hi with
  | true, true =>
      match (x - lo * p ?= hi * p - x)%Z with
      | Lt => Some lo
      | Gt => Some hi
      | Eq => if Z.even lo then Some lo else Some hi
      end
  | true, false => Some lo
  | false, true => Some hi
  | false, false => None
  end.

(** The digits and the number of zeros after them: as many zeros as can
    be, at most [j]. *)
Fixpoint shortest (x : Z) (j : nat) : Z * nat :=
  match shortest_at x j with
  | Some s => (s, j)
  | None =>
      match j with
      | O => (x, O)
      | S j' => shortest x j'
      end
  end.

Fixpoint zeros (j : nat) : string :=
  match j with
  | O => EmptyString
  | S j' => String "0" (zeros j')
  end.

(** Number::toString for a number that is not negative: below [2^53] every
    integer is a double and is written with all its digits; from there on
    the digits are the fewest that are read back as the same double, with
    zeros after them up to 21 places and with an exponent beyond. *)
Definition nonneg_to_string (x : Z) : string :=
  if (x <? 9007199254740992)%Z then decimal x
  else if (Infinity <=? x)%Z then "Infinity"
  else
    let (s, j) := shortest x (String.length (decimal x)) in
    let ds := decimal s in
    let n := (String.length ds + j)%nat in
    if (n <=? 21)%nat then ds +:+ zeros j
    else
      match ds with
      | String d rest =>
          String d (match rest with
                    | EmptyString => EmptyString
                    | _ => "." +:+ rest
                    end)
          +:+ "e+" +:+ decimal (Z.of_nat (n - 1))
      | EmptyString => EmptyString
      end.

(** [`${n}`] for a number [n] with an integer value. *)
Definition number_to_string (z : Z) : string :=
  if (z <? 0)%Z then "-" +:+ nonneg_to_string (- z) else nonneg_to_string z.

(** The errors the program distinguishes: [AbortError] of node-fetch,
    [FetcherError] (Fetcher.ts, lines 26-37) and every other [Error]. *)
Inductive JsError : Type :=
| AbortError (message : string)
| FetcherError (message : string) (url : string) (fatal : bool)
| PlainError (message : string).

Definition error_message (e : JsError) : string :=
  match e with
  | AbortError m => m
  | FetcherError m _ _ => m
  | PlainError m => m
  end.

Inductive LogLevel : Type := LInfo | LDebug | LWarn | LError.

(** ** URLHelper.ts *)

Module URLHelper.

Definition is_digit (c : ascii) : bool :=
  let n := nat_of_ascii c in (48 <=? n)%nat && (n <=? 57)%nat.

(** The regular expression dot matches every character but the line
    terminators: LF, CR, U+2028 and U+2029.  A text is held as its UTF-8
    bytes, in which the last two are [E2 80 A8] and [E2 80 A9]; the dot and
    the digits of the pattern are single bytes that stand in no other
    character, so the pattern can be matched byte by byte. *)
Definition line_terminator_at (s : string) : bool :=
  match s with
  | EmptyString => false
  | String c s' =>
      let n := nat_of_ascii c in
      (n =? 10)%nat || (n =? 13)%nat
      || ((n =? 226)%nat
          && match s' with
             | String c1 (String c2 _) =>
                 (nat_of_ascii c1 =? 128)%nat
                 && ((nat_of_ascii c2 =? 168)%nat || (nat_of_ascii c2 =? 169)%nat)
             | _ => false
             end)
  end.

Fixpoint strip_prefix (p s : string) : option string :=
  match p with
  | EmptyString => Some s
  | String a p' =>
      match s with
      | EmptyString => None
      | String b s' => if Ascii.eqb a b then strip_prefix p' s' else None
      end
  end.

Fixpoint take_digits (s : string) : string :=
  match s with
  | EmptyString => EmptyString
  | String c s' => if is_digit c then String c (take_digits s') else EmptyString
  end.

Definition starts_with_digit (s : string) : bool :=
  match s with
  | EmptyString => false
  | String c _ => is_digit c
  end.

(** [(.+)\.(\d+)] matched at the start of [s], [consumed] characters of the
    first group already taken: the group is greedy, so the dot chosen is
    the last one that is followed by a digit.  The result is the length of
    the first group and the text of the second. *)
Fixpoint match_slug_id (consumed : nat) (s : string) : option (nat * string) :=
  match s with
  | EmptyString => None
  | String c s' =>
      if line_terminator_at s then None
      else
        match match_slug_id (S consumed) s' with
        | Some r => Some r
        | None =>
            if Ascii.eqb c "."%char && (0 <? consumed)%nat && starts_with_digit s'
            then Some (consumed, take_digits s')
            else None
        end
  end.

Definition match_here (prefix s : string) : option (string * string) :=
  match strip_prefix prefix s with
  | Some rest =>
      match match_slug_id 0 rest with
      | Some (n, ds) => Some (substring 0 n rest, ds)
      | None => None
      end
  | None => None
  end.

(** [/<prefix>(.+)\.(\d+)/.exec(s)]: the leftmost position with a match. *)
Fixpoint regex_exec (prefix s : string) : option (string * string) :=
  match match_here prefix s with
  | Some r => Some r
  | None =>
      match s with
      | EmptyString => None
      | String _ s' => regex_exec prefix s'
      end
  end.

(** The number a run of decimal digits writes, after [acc]. *)
Fixpoint digits_value (acc : N) (s : string) : N :=
  match s with
  | EmptyString => acc
  | String c s' => digits_value (10 * acc + (N_of_ascii c - 48))%N s'
  end.

(** [Number(digits)] for a run of decimal digits: the double nearest to
    the number they write. *)
Definition Number (digits : string) : Z :=
  round_to_double (Z.of_N (digits_value 0 digits)).

Record ParsedURL : Type := { slug : string; id : Z }.

(** lines 28-41 *)
Definition parseForumURL (url : option string) : option ParsedURL :=
  match url with
  | None => None
  | Some u =>
      if negb (truthy_string u) then None
      else
        match regex_exec "/forums/" u with
        | Some (m1, m2) =>
            if truthy_string m2 then Some {| slug := m1; id := Number m2 |} else None
        | None => None
        end
  end.

(** lines 43-56 *)
Definition parseThreadURL (url : option string) : option ParsedURL :=
  match url with
  | None => None
  | Some u =>
      if negb (truthy_string u) then None
      else
        match regex_exec "/threads/" u with
        | Some (m1, m2) =>
            if truthy_string m2 then Some {| slug := m1; id := Number m2 |} else None
        | None => None
        end
  end.

Inductive DownloadTargetType : Type := TThread | TForum | TUnknown.

(** lines 6-26; [href] is [new URL(url).toString()], [None] when the
    constructor throws. *)
Definition getTargetTypeByURL (href : string -> option string) (url : string)
  : JsError + DownloadTargetType :=
  match href url with
  | None => inl (PlainError "Invalid URL")
  | Some u =>
      match parseForumURL (Some u) with
      | Some _ => inr TForum
      | None =>
          match parseThreadURL (Some u) with
          | Some _ => inr TThread
          | None => inr TUnknown
          end
      end
  end.

End URLHelper.

(** ** Entities (entities/Thread.ts, entities/Forum.ts) *)

Record ThreadMessageAttachment : Type := {
  att_id : Z;
  att_index : Z;
  att_url : string;
  att_filename : option string
}.

Record ThreadMessage : Type := {
  msg_id : Z;
  msg_index : string;
  msg_author : option string;
  msg_publishedAt : option string;
  msg_body : option string;
  msg_attachments : list ThreadMessageAttachment
}.

Record Crumb : Type := { crumb_url : string; crumb_title : string }.

Record ThreadPage : Type := {
  tp_id : Z;
  tp_url : string;
  tp_title : string;
  tp_breadcrumbs : list Crumb;
  tp_messages : list ThreadMessage;
  tp_currentPage : Z;
  tp_totalPages : Z;
  tp_nextURL : option string
}.

(** [ForumLike] and [ThreadLike]: a link with a title. *)
Record Link : Type := { link_url : string; link_title : string }.

Record ForumPage : Type := {
  fp_id : Z;
  fp_url : string;
  fp_title : string;
  fp_subforums : list Link;
  fp_threads : list Link;
  fp_currentPage : Z;
  fp_totalPages : Z;
  fp_nextURL : option string
}.

Record GenericPage : Type := { gp_forums : list Link }.

(** ** HTTP exchanges (node-fetch) *)

Inductive Method : Type := GET | HEAD.

Record Request : Type := {
  req_url : string;
  req_method : Method;
  req_userAgent : option string;
  req_cookie : option string
}.

(** A response body read to its end, or failing after [written] was
    delivered (a broken connection, or an abort while streaming). *)
Inductive Body : Type :=
| BodyOk (data : string)
| BodyFails (written : string) (e : JsError).

Record Response : Type := {
  res_status : Z;
  res_statusText : string;
  res_location : option string;
  res_contentDisposition : option string;
  res_url : string;
  res_body : option Body
}.

(** What one call of [fetch] does: the promise rejects (network error,
    abort) or resolves to a response.  [Repeats r] is a server that gives
    the answer [r] to this request and to every request after it. *)
Inductive FetchOutcome : Type :=
| Rejects (e : JsError)
| Resolves (r : Response)
| Repeats (r : Response).

Definition res_ok (r : Response) : bool :=
  (200 <=? res_status r)%Z && (res_status r <? 300)%Z.

(** ** The world outside the program

    The libraries the program calls and the site it crawls.
    - [sanitizeFilename]: the sanitize-filename package;
    - [path_resolve a b]: [path.resolve(a, b)], [path_sep]: [path.sep],
      [path_dirname p]: [path.parse(p).dir];
    - [url_href u]: [new URL(u).toString()], [url_host u]: [new URL(u).host],
      [None] when the constructor throws;
    - [disposition_filename h]: [contentDisposition.parse(h).parameters.filename],
      [None] when the parse throws;
    - [formatThreadHeader], [formatMessage]: templates/Thread.ts and
      templates/Message.ts (the text they produce is not looked into);
    - [site u]: what the network answers, request after request, to a fetch
      that starts at [u];
    - [cheerioThread], [cheerioForum], [cheerioGeneric]: the fields the
      parser reads off a page with cheerio, before its own checks. *)
Class World : Type := {
  sanitizeFilename : string -> string;
  path_resolve : string -> string -> string;
  path_sep : string;
  path_dirname : string -> string;
  url_href : string -> option string;
  url_host : string -> option string;
  disposition_filename : string -> option (option string);
  formatThreadHeader : ThreadPage -> string;
  formatMessage : ThreadMessage -> string;
  site : string -> list FetchOutcome;
  cheerioThread : string -> string -> ThreadPage;
  cheerioForum : string -> string -> ForumPage;
  cheerioGeneric : string -> string -> GenericPage
}.

(** ** State, effects and the result of a call *)

Record DownloadStats : Type := {
  processedForumCount : nat;
  processedThreadCount : nat;
  processedMessageCount : nat;
  skippedExistingAttachmentCount : nat;
  downloadedAttachmentCount : nat;
  errorCount : nat
}.

(** The persisted resume marker as JSON: a field may be missing. *)
Record StatusJson : Type := {
  j_threadID : option Z;
  j_url : option string;
  j_messageID : option Z
}.

Record DownloadStatus : Type := {
  ds_threadID : Z;
  ds_url : string;
  ds_messageID : Z
}.

Inductive File : Type :=
| FData (content : string)
| FJson (j : StatusJson).

(** What the program does to the outside, in the order it does it.  Of the
    log calls only those of level [error] and [warn] are recorded. *)
Inductive Event : Type :=
| EvRequest (r : Request)
| EvSleep (ms : Z)
| EvLog (component : string) (level : LogLevel) (text : string) (err : option JsError)
| EvEnsureDir (p : string)
| EvPipe (p : string) (written : string)
| EvRename (src dst : string)
| EvUnlink (p : string)
| EvWriteFile (p : string) (content : string)
| EvSaveMessage (p : string) (m : ThreadMessage)
| EvSaveStatus (p : string) (s : DownloadStatus).

(** [st_net] is what the network will answer to the next requests of the
    fetch in progress.  File-system calls succeed: faults come from the
    network, the parser and the content of files. *)
Record State : Type := {
  st_stats : DownloadStats;
  st_files : gmap string File;
  st_dirs : gset string;
  st_net : list FetchOutcome;
  st_trace : list Event
}.

Definition set_stats (f : DownloadStats -> DownloadStats) (st : State) : State :=
  {| st_stats := f (st_stats st); st_files := st_files st; st_dirs := st_dirs st;
     st_net := st_net st; st_trace := st_trace st |}.

Definition set_files (f : gmap string File -> gmap string File) (st : State) : State :=
  {| st_stats := st_stats st; st_files := f (st_files st); st_dirs := st_dirs st;
     st_net := st_net st; st_trace := st_trace st |}.

Definition set_dirs (f : gset string -> gset string) (st : State) : State :=
  {| st_stats := st_stats st; st_files := st_files st; st_dirs := f (st_dirs st);
     st_net := st_net st; st_trace := st_trace st |}.

Definition set_net (net : list FetchOutcome) (st : State) : State :=
  {| st_stats := st_stats st; st_files := st_files st; st_dirs := st_dirs st;
     st_net := net; st_trace := st_trace st |}.

Definition emit (evs : list Event) (st : State) : State :=
  {| st_stats := st_stats st; st_files := st_files st; st_dirs := st_dirs st;
     st_net := st_net st; st_trace := st_trace st ++ evs |}.

(** A call returns, throws, or does not come to an end ([Stuck]): it is
    still running when the fuel of the traversal is used up, or it waits
    for a fetch that never returns. *)
Inductive Res (A : Type) : Type :=
| Ret (a : A)
| Throw (e : JsError)
| Stuck.

Arguments Ret {A} a.
Arguments Throw {A} e.
Arguments Stuck {A}.

Definition M (A : Type) : Type := State -> Res A * State.

Definition ret {A : Type} (a : A) : M A := fun st => (Ret a, st).

Definition throw {A : Type} (e : JsError) : M A := fun st => (Throw e, st).

Definition bind {A B : Type} (m : M A) (k : A -> M B) : M B :=
  fun st =>
    match m st with
    | (Ret a, st') => k a st'
    | (Throw e, st') => (Throw e, st')
    | (Stuck, st') => (Stuck, st')
    end.

Notation "'let*' x ':=' m 'in' k" := (bind m (fun x => k))
  (at level 10, x name, m at level 100, k at level 200).
Notation "'do*' m 'in' k" := (bind m (fun _ => k))
  (at level 10, m at level 100, k at level 200).

(** [try { m } catch (error) { h error }] *)
Definition try_catch {A : Type} (m : M A) (h : JsError -> M A) : M A :=
  fun st =>
    match m st with
    | (Throw e, st') => h e st'
    | r => r
    end.

Definition effect (f : State -> State) : M unit := fun st => (Ret tt, f st).

Definition get {A : Type} (f : State -> A) : M A := fun st => (Ret (f st), st).

(** [for (const x of l) { await f(x) }] *)
Fixpoint for_each {A : Type} (f : A -> M unit) (l : list A) : M unit :=
  match l with
  | [] => ret tt
  | x :: l' => do* f x in for_each f l'
  end.

(** [l.map(f)] for an effectful [f], the results in order. *)
Fixpoint map_each {A B : Type} (f : A -> M B) (l : list A) : M (list B) :=
  match l with
  | [] => ret []
  | x :: l' => let* y := f x in let* ys := map_each f l' in ret (y :: ys)
  end.

Definition log (component : string) (level : LogLevel) (text : string)
  (err : option JsError) : M unit :=
  effect (emit [EvLog component level text err]).

(** File-system calls. *)
Definition existsSync (p : string) (st : State) : bool :=
  bool_decide (is_Some (st_files st !! p)) || bool_decide (p ∈ st_dirs st).

Definition ensureDirSync (p : string) : M unit :=
  effect (fun st => emit [EvEnsureDir p] (set_dirs (fun d => {[p]} ∪ d) st)).

Definition unlinkSync (p : string) : M unit :=
  effect (fun st => emit [EvUnlink p] (set_files (delete p) st)).

Definition renameSync (src dst : string) : M unit :=
  effect (fun st =>
    emit [EvRename src dst]
      (set_files (fun fs =>
         match fs !! src with
         | Some f => <[dst := f]> (delete src fs)
         | None => fs
         end) st)).

Definition lstatSync (p : string) : M unit :=
  fun st =>
    if existsSync p st then (Ret tt, st)
    else (Throw (PlainError "ENOENT: no such file or directory"), st).

(** ** Fetcher.ts *)

Module Fetcher.

Section WithWorld.

Context {W : World}.

(** [this.#cookie] *)
Variable cookie : option string.

Definition USER_AGENT : string :=
  "Mozilla/5.0 (Windows NT 10.0; Win64; x64) AppleWebKit/537.36 (KHTML, like Gecko) Chrome/119.0.0.0 Safari/537.36 Edg/119.0.0.0".

Definition is_abort_or_fatal (error : JsError) : bool :=
  match error with
  | AbortError _ => true
  | FetcherError _ _ fatal => fatal
  | PlainError _ => false
  end.

(** [new Request(url, { method })]: throws on a string that is no URL. *)
Definition newRequest (url : string) (method : Method) : option Request :=
  match url_host url with
  | Some _ =>
      Some {| req_url := url; req_method := method;
              req_userAgent := None; req_cookie := None |}
  | None => None
  end.

(** lines 200-205 *)
Definition setHeaders (request : Request) (setCookie : bool) : Request :=
  let request :=
    {| req_url := req_url request; req_method := req_method request;
       req_userAgent := Some USER_AGENT; req_cookie := req_cookie request |} in
  if truthy_opt cookie && setCookie
  then {| req_url := req_url request; req_method := req_method request;
          req_userAgent := req_userAgent request; req_cookie := cookie |}
  else request.

Definition is_redirect (res : Response) : bool :=
  (300 <=? res_status res)%Z && (res_status res <? 400)%Z.

(** [fetch(request)] against the answers [net]: the result, and the answers
    left.  With no answer left the network is down. *)
Definition fetch_on (net : list FetchOutcome) : Res Response * list FetchOutcome :=
  match net with
  | [] => (Throw (PlainError "network unreachable"), [])
  | Rejects e :: net' => (Throw e, net')
  | Resolves res :: net' => (Ret res, net')
  | Repeats res :: _ => (Ret res, net)
  end.

(** lines 161-176: [#fetchWithRedirect(url, method, signal, useCookie)],
    with the requests sent, in order.  The function follows a redirect by
    calling itself and counts no hops: against a server that answers every
    request with a redirect the call never returns ([Stuck]; of the
    requests, which go on without end, the first is recorded).  A redirect
    that names no place is fetched once more with the same request (line
    173); that second call lets the library follow redirects, and the
    requests the library makes on its own are not among the events: the
    next answer is what the call resolves to. *)
Fixpoint fetchWithRedirect (net : list FetchOutcome) (url : string)
  (method : Method) (useCookie : bool)
  : Res Response * list Event * list FetchOutcome :=
  match newRequest url method with
  | None => (Throw (PlainError "Invalid URL"), [], net)
  | Some request0 =>
      let request := setHeaders request0 useCookie in
      match net with
      | [] => (Throw (PlainError "network unreachable"), [EvRequest request], [])
      | Rejects e :: net' => (Throw e, [EvRequest request], net')
      | Resolves res :: net' =>
          if is_redirect res then
            match res_location res with
            | Some toURL =>
                if truthy_string toURL then
                  match url_host url, url_host toURL with
                  | Some host, Some toHost =>
                      let redirectWithCookie := String.eqb host toHost in
                      let '(r, evs, rest) :=
                        fetchWithRedirect net' toURL method redirectWithCookie in
                      (r, EvRequest request :: evs, rest)
                  | _, _ =>
                      (Throw (PlainError "Invalid URL"), [EvRequest request], net')
                  end
                else
                  let '(r, rest) := fetch_on net' in
                  (r, [EvRequest request; EvRequest request], rest)
            | None =>
                let '(r, rest) := fetch_on net' in
                (r, [EvRequest request; EvRequest request], rest)
            end
          else (Ret res, [EvRequest request], net')
      | Repeats res :: _ =>
          if is_redirect res then
            match res_location res with
            | Some toURL =>
                if truthy_string toURL then
                  match url_host url, url_host toURL with
                  | Some _, Some _ => (Stuck, [EvRequest request], net)
                  | _, _ => (Throw (PlainError "Invalid URL"), [EvRequest request], net)
                  end
                else (Ret res, [EvRequest request; EvRequest request], net)
            | None => (Ret res, [EvRequest request; EvRequest request], net)
            end
          else (Ret res, [EvRequest request], net)
      end
  end.

(** A call from outside the function: [useCookie] takes its default. *)
Definition fetchWithRedirectM (url : string) (method : Method) : M Response :=
  fun st =>
    let '(r, evs, rest) := fetchWithRedirect (st_net st) url method true in
    (r, emit evs (set_net rest st)).

(** [await res.text()] *)
Definition text (res : Response) : M string :=
  match res_body res with
  | None => ret ""
  | Some (BodyOk data) => ret data
  | Some (BodyFails _ e) => throw e
  end.

(** Modelled from the spec: [sleepBeforeExecute] of utils/Misc.ts is not
    among the source files; the retry policy of the spec has a fixed delay
    of [retryIntervalMs] between attempts, so the call waits [ms] and then
    runs [fn]. *)
Definition sleepBeforeExecute {A : Type} (fn : M A) (ms : Z) : M A :=
  do* effect (emit [EvSleep ms]) in fn.

Definition retriedMsg (rt : nat) : string :=
  if (0 <? rt)%nat
  then " (retried " +:+ number_to_string (Z.of_nat rt) +:+ " times)"
  else "".

Record FetchArgs : Type := {
  fa_url : string;
  fa_maxRetries : nat;
  fa_retryInterval : Z
}.

(** lines 57-84: [fetchHTML(args, rt)].  [budget] bounds the recursion: it
    is [maxRetries - rt] in every call that [fetchHTML] below makes. *)
Fixpoint fetchHTML_rt (budget : nat) (args : FetchArgs) (rt : nat)
  : M (string * string) :=
  try_catch
    (let* res := fetchWithRedirectM (fa_url args) GET in
     let* html := text res in
     ret (html, res_url res))
    (fun error =>
       if is_abort_or_fatal error then throw error
       else if (rt <? fa_maxRetries args)%nat then
         match budget with
         | S b =>
             do* log "Fetcher" LError "Error fetching - will retry" (Some error) in
             sleepBeforeExecute (fetchHTML_rt b args (S rt)) (fa_retryInterval args)
         | O => fun st => (Stuck, st)
         end
       else
         throw (FetcherError (error_message error +:+ retriedMsg rt) (fa_url args) false)).

Definition fetchHTML (args : FetchArgs) : M (string * string) :=
  fetchHTML_rt (fa_maxRetries args) args 0.

(** lines 86-117 *)
Fixpoint fetchFilenameByHeaders_rt (budget : nat) (args : FetchArgs) (rt : nat)
  : M (option string) :=
  match url_href (fa_url args) with
  | None => throw (PlainError "Invalid URL")
  | Some urlObj =>
      try_catch
        (let* res := fetchWithRedirectM (fa_url args) HEAD in
         match res_contentDisposition res with
         | Some disposition =>
             if truthy_string disposition then
               match disposition_filename disposition with
               | Some filename =>
                   ret (if truthy_opt filename then filename else None)
               | None => throw (PlainError "invalid parameter format")
               end
             else ret None
         | None => ret None
         end)
        (fun error =>
           if is_abort_or_fatal error then throw error
           else if (rt <? fa_maxRetries args)%nat then
             match budget with
             | S b =>
                 do* log "Fetcher" LError "Error fetching (HEAD) - will retry" (Some error) in
                 sleepBeforeExecute (fetchFilenameByHeaders_rt b args (S rt))
                   (fa_retryInterval args)
             | O => fun st => (Stuck, st)
             end
           else
             throw (FetcherError (error_message error +:+ retriedMsg rt) urlObj false))
  end.

Definition fetchFilenameByHeaders (args : FetchArgs) : M (option string) :=
  fetchFilenameByHeaders_rt (fa_maxRetries args) args 0.

Record DownloadAttachmentParams : Type := {
  src : string;
  dest : string;
  maxRetries : nat;
  retryInterval : Z
}.

(** lines 207-220, with a body required *)
Definition assertResponseOK (response : Response) (originURL : string) : M Body :=
  if negb (res_ok response) then
    throw (FetcherError
             (number_to_string (res_status response) +:+ " - " +:+ res_statusText response)
             originURL false)
  else
    match res_body response with
    | None => throw (FetcherError "Empty response body" originURL false)
    | Some body => ret body
    end.

(** lines 188-198 *)
Definition cleanupDownload (tmpFilePath : string) : M unit :=
  fun st =>
    if existsSync tmpFilePath st then unlinkSync tmpFilePath st else (Ret tt, st).

(** [try { m } finally { f }] *)
Definition try_finally {A : Type} (m : M A) (f : M unit) : M A :=
  fun st =>
    let '(r, st') := m st in
    match f st' with
    | (Ret _, st'') => (r, st'')
    | (Throw e, st'') => (Throw e, st'')
    | (Stuck, st'') => (Stuck, st'')
    end.

(** lines 178-186 *)
Definition commitDownload (tmpFilePath destFilePath : string) : M unit :=
  try_finally
    (do* lstatSync tmpFilePath in renameSync tmpFilePath destFilePath)
    (cleanupDownload tmpFilePath).

(** [pipeline(res.body, fs.createWriteStream(tmpFilePath))] *)
Definition pipeline (body : Body) (tmpFilePath : string) : M unit :=
  let write (data : string) : M unit :=
    effect (fun st =>
      emit [EvPipe tmpFilePath data]
        (set_files (fun fs => <[tmpFilePath := FData data]> fs) st)) in
  match body with
  | BodyOk data => write data
  | BodyFails written e => do* write written in throw e
  end.

(** [dest] is an absolute, normalised path (XenForoDownloader.ts builds it
    with [path.resolve], line 425): [path.resolve(dest)] is [dest], and
    [path.resolve(destDir, destFilename + '.part')] is [dest + '.part']. *)
Definition tmpFilePathOf (destFilePath : string) : string :=
  destFilePath +:+ ".part".

(** lines 126-142: the response body goes to the [.part] file, which is
    then renamed; whatever fails, the [.part] file is cleaned up and the
    error thrown again. *)
Definition saveBody (body : Body) (destFilePath : string) : M unit :=
  let destDir := path_dirname destFilePath in
  let tmpFilePath := tmpFilePathOf destFilePath in
  try_catch
    (do* ensureDirSync destDir in
     do* pipeline body tmpFilePath in
     commitDownload tmpFilePath destFilePath)
    (fun error =>
       do* cleanupDownload tmpFilePath in
       throw error).

(** lines 125-143: the [try] block of [downloadAttachment] *)
Definition attemptDownload (res : Response) (params : DownloadAttachmentParams) : M unit :=
  let* body := assertResponseOK res (src params) in
  saveBody body (dest params).

(** lines 119-159: [downloadAttachment(params, rt)] *)
Fixpoint downloadAttachment_rt (budget : nat) (params : DownloadAttachmentParams)
  (rt : nat) : M unit :=
  match newRequest (src params) GET with
  | None => throw (PlainError "Invalid URL")
  | Some _ =>
      let* res := fetchWithRedirectM (src params) GET in
      try_catch
        (attemptDownload res params)
        (fun error =>
           if is_abort_or_fatal error then throw error
           else if (rt <? maxRetries params)%nat then
             match budget with
             | S b =>
                 do* log "Fetcher" LError "Error downloading attachment - will retry" (Some error) in
                 sleepBeforeExecute (downloadAttachment_rt b params (S rt))
                   (retryInterval params)
             | O => fun st => (Stuck, st)
             end
           else
             throw (FetcherError (error_message error +:+ retriedMsg rt) (src params) false))
  end.

Definition downloadAttachment (params : DownloadAttachmentParams) : M unit :=
  downloadAttachment_rt (maxRetries params) params 0.

End WithWorld.

End Fetcher.

(** ** Parser.ts: the checks the parser makes on what it has read *)

Module Parser.

Section WithWorld.

Context {W : World}.

Definition with_messages (tp : ThreadPage) (messages : list ThreadMessage) : ThreadPage :=
  {| tp_id := tp_id tp; tp_url := tp_url tp; tp_title := tp_title tp;
     tp_breadcrumbs := tp_breadcrumbs tp; tp_messages := messages;
     tp_currentPage := tp_currentPage tp; tp_totalPages := tp_totalPages tp;
     tp_nextURL := tp_nextURL tp |}.

(** lines 23-127: the page is refused without a thread id (line 27), a
    canonical url or a title (line 34); a message without an id is skipped
    (lines 60-63 and 116). *)
Definition parseThreadPage (html originURL : string) : JsError + ThreadPage :=
  let raw := cheerioThread html originURL in
  if negb (truthy_Z (tp_id raw)) then
    inl (PlainError ("Failed to obtain thread ID from " +:+ originURL))
  else if negb (truthy_string (tp_url raw)) || negb (truthy_string (tp_title raw)) then
    inl (PlainError ("Failed to obtain 'url' and 'title' from " +:+ originURL))
  else
    inr (with_messages raw
           (List.filter (fun m => truthy_Z (msg_id m)) (tp_messages raw))).

(** lines 129-174 *)
Definition parseForumPage (html originURL : string) : JsError + ForumPage :=
  let raw := cheerioForum html originURL in
  if negb (truthy_Z (fp_id raw)) then
    inl (PlainError ("Failed to obtain forum ID from " +:+ originURL))
  else if negb (truthy_string (fp_url raw)) || negb (truthy_string (fp_title raw)) then
    inl (PlainError ("Failed to obtain 'url' and 'title' from " +:+ originURL))
  else inr raw.

(** lines 176-184 *)
Definition parseGenericPage (html url : string) : GenericPage :=
  cheerioGeneric html url.

End WithWorld.

End Parser.

(** ** XenForoDownloader.ts *)

Module XenForoDownloader.

Inductive ParentForumsAndSections : Type := PAll | PImmediate | PNone.

Record DirStructure : Type := {
  dir_site : bool;
  dir_parentForumsAndSections : ParentForumsAndSections;
  dir_thread : bool;
  dir_attachments : bool
}.

Record RequestConfig : Type := {
  rq_maxRetries : nat;
  rq_maxConcurrent : nat;
  rq_minTime_page : Z;
  rq_minTime_attachment : Z;
  rq_cookie : option string
}.

Record DownloaderConfig : Type := {
  outDir : string;
  dirStructure : DirStructure;
  request : RequestConfig;
  overwrite : bool;
  continue : bool;
  targetURL : string
}.

(** lines 49-52 *)
Record DownloadThreadContext : Type := {
  continued : bool;
  continueFromMessageID : option Z
}.

(** The calls of the traversal: [#process], [#downloadThread],
    [#downloadForum] and [#downloadGeneric]. *)
Inductive Call : Type :=
| CProcess (url : string)
| CThread (url : string) (context : option DownloadThreadContext)
| CForum (url : string)
| CGeneric (url : string).

Definition incr_processedForumCount (s : DownloadStats) : DownloadStats :=
  {| processedForumCount := S (processedForumCount s);
     processedThreadCount := processedThreadCount s;
     processedMessageCount := processedMessageCount s;
     skippedExistingAttachmentCount := skippedExistingAttachmentCount s;
     downloadedAttachmentCount := downloadedAttachmentCount s;
     errorCount := errorCount s |}.

Definition incr_processedThreadCount (s : DownloadStats) : DownloadStats :=
  {| processedForumCount := processedForumCount s;
     processedThreadCount := S (processedThreadCount s);
     processedMessageCount := processedMessageCount s;
     skippedExistingAttachmentCount := skippedExistingAttachmentCount s;
     downloadedAttachmentCount := downloadedAttachmentCount s;
     errorCount := errorCount s |}.

Definition incr_processedMessageCount (s : DownloadStats) : DownloadStats :=
  {| processedForumCount := processedForumCount s;
     processedThreadCount := processedThreadCount s;
     processedMessageCount := S (processedMessageCount s);
     skippedExistingAttachmentCount := skippedExistingAttachmentCount s;
     downloadedAttachmentCount := downloadedAttachmentCount s;
     errorCount := errorCount s |}.

Definition incr_skippedExistingAttachmentCount (s : DownloadStats) : DownloadStats :=
  {| processedForumCount := processedForumCount s;
     processedThreadCount := processedThreadCount s;
     processedMessageCount := processedMessageCount s;
     skippedExistingAttachmentCount := S (skippedExistingAttachmentCount s);
     downloadedAttachmentCount := downloadedAttachmentCount s;
     errorCount := errorCount s |}.

Definition incr_downloadedAttachmentCount (s : DownloadStats) : DownloadStats :=
  {| processedForumCount := processedForumCount s;
     processedThreadCount := processedThreadCount s;
     processedMessageCount := processedMessageCount s;
     skippedExistingAttachmentCount := skippedExistingAttachmentCount s;
     downloadedAttachmentCount := S (downloadedAttachmentCount s);
     errorCount := errorCount s |}.

Definition incr_errorCount (s : DownloadStats) : DownloadStats :=
  {| processedForumCount := processedForumCount s;
     processedThreadCount := processedThreadCount s;
     processedMessageCount := processedMessageCount s;
     skippedExistingAttachmentCount := skippedExistingAttachmentCount s;
     downloadedAttachmentCount := downloadedAttachmentCount s;
     errorCount := S (errorCount s) |}.

(** [messages.findIndex(p)]: the first index at which [p] holds. *)
Fixpoint findIndex {A : Type} (p : A -> bool) (l : list A) : option nat :=
  match l with
  | [] => None
  | x :: l' => if p x then Some 0 else option_map S (findIndex p l')
  end.

(** lines 192-201: what is left of [threadPage.messages] after the
    [splice]. *)
Definition dropContinued (context : option DownloadThreadContext)
  (messages : list ThreadMessage) : list ThreadMessage :=
  match context with
  | Some ctx =>
      match continueFromMessageID ctx with
      | Some m =>
          if truthy_Z m then
            match findIndex (fun msg => (msg_id msg =? m)%Z) messages with
            | Some i => skipn (i + 1) messages
            | None => messages
            end
          else messages
      | None => messages
      end
  | None => messages
  end.

Definition is_continued (context : option DownloadThreadContext) : bool :=
  match context with
  | Some ctx => continued ctx
  | None => false
  end.

(** [context?.continued && context?.continueFromMessageID], as a test *)
Definition is_continued_from_message (context : option DownloadThreadContext) : bool :=
  match context with
  | Some ctx =>
      continued ctx &&
      match continueFromMessageID ctx with
      | Some m => truthy_Z m
      | None => false
      end
  | None => false
  end.

Section WithWorld.

Context {W : World}.

(** [this.config] *)
Variable config : DownloaderConfig.

(** lines 378-380 *)
Definition isErrorNonContinuable (error : JsError) : bool :=
  match error with
  | AbortError _ => true
  | FetcherError _ _ fatal => fatal
  | PlainError _ => false
  end.

Definition is_limiter_stop (error : JsError) : bool :=
  String.eqb (error_message error) "LimiterStopOnError".

(** lines 129-133 *)
Definition updateStatsOnError (error : JsError) : M unit :=
  if negb (is_limiter_stop error)
  then effect (set_stats incr_errorCount)
  else ret tt.

(** lines 135-141: a message that carries the limiter's stop error is not
    logged. *)
Definition xlog (level : LogLevel) (text : string) (err : option JsError) : M unit :=
  match err with
  | Some e =>
      if is_limiter_stop e then ret tt
      else log "XenForoDownloader" level text err
  | None => log "XenForoDownloader" level text err
  end.

(** lines 382-391: [__pushPathPart] *)
Definition pushPathPart (pathParts : list string) (title : string) (id : option Z)
  : list string :=
  match id with
  | Some i =>
      if truthy_Z i
      then pathParts ++ [sanitizeFilename (title +:+ "." +:+ number_to_string i)]
      else pathParts ++ [sanitizeFilename title]
  | None => pathParts ++ [sanitizeFilename title]
  end.

(** [URLHelper.parseForumURL(crumb.url)?.id] *)
Definition crumb_forum_id (crumb : Crumb) : option Z :=
  option_map URLHelper.id (URLHelper.parseForumURL (Some (crumb_url crumb))).

(** lines 397-402: the [forEach] over the breadcrumbs, from index [i] on. *)
Fixpoint pushAllCrumbs (i : nat) (crumbs : list Crumb) (pathParts : list string)
  : list string :=
  match crumbs with
  | [] => pathParts
  | crumb :: rest =>
      let pathParts :=
        if (0 <? i)%nat && truthy_string (crumb_title crumb)
        then pushPathPart pathParts (crumb_title crumb) (crumb_forum_id crumb)
        else pathParts in
      pushAllCrumbs (S i) rest pathParts
  end.

(** lines 382-416 *)
Definition getThreadSavePath (thread : ThreadPage) : string :=
  let pathParts : list string := [] in
  let pathParts :=
    match tp_breadcrumbs thread with
    | crumb0 :: _ =>
        if dir_site (dirStructure config) && truthy_string (crumb_title crumb0)
        then pushPathPart pathParts (crumb_title crumb0) None
        else pathParts
    | [] => pathParts
    end in
  let pathParts :=
    if (1 <? length (tp_breadcrumbs thread))%nat then
      match dir_parentForumsAndSections (dirStructure config) with
      | PAll => pushAllCrumbs 0 (tp_breadcrumbs thread) pathParts
      | PImmediate =>
          match last (tp_breadcrumbs thread) with
          | Some crumb =>
              if truthy_string (crumb_title crumb)
              then pushPathPart pathParts (crumb_title crumb) (crumb_forum_id crumb)
              else pathParts
          | None => pathParts
          end
      | PNone => pathParts
      end
    else pathParts in
  let pathParts :=
    if dir_thread (dirStructure config) && truthy_string (tp_title thread)
    then pushPathPart pathParts (tp_title thread) (Some (tp_id thread))
    else pathParts in
  path_resolve (outDir config) (String.concat path_sep pathParts).

(** lines 453-459 *)
Definition getMessageAttachmentFilename (attachment : ThreadMessageAttachment) : string :=
  match att_filename attachment with
  | Some filename =>
      if truthy_string filename
      then sanitizeFilename
             ("attach-" +:+ number_to_string (att_id attachment) +:+ " - " +:+ filename)
      else sanitizeFilename
             ("attach-" +:+ number_to_string (att_id attachment) +:+ "-"
              +:+ number_to_string (att_index attachment))
  | None =>
      sanitizeFilename
        ("attach-" +:+ number_to_string (att_id attachment) +:+ "-"
         +:+ number_to_string (att_index attachment))
  end.

(** [fetcher.downloadAttachment(...)] scheduled on the attachment limiter:
    the network answers with what the site holds for [src].  A job that a
    stopped limiter drops rejects with the limiter's error; here it is a
    first answer [Rejects e], which [downloadAttachment] lets through as
    it is. *)
Definition scheduleDownload (src dest : string) : M unit :=
  fun st =>
    Fetcher.downloadAttachment (rq_cookie (request config))
      {| Fetcher.src := src; Fetcher.dest := dest;
         Fetcher.maxRetries := rq_maxRetries (request config);
         Fetcher.retryInterval := rq_minTime_attachment (request config) |}
      (set_net (site src) st).

(** lines 418-451 *)
Definition downloadMessageAttachment (attachment : ThreadMessageAttachment)
  (destDir : string) : M unit :=
  let filename := getMessageAttachmentFilename attachment in
  let destPath := path_resolve destDir filename in
  fun st =>
    if existsSync destPath st && negb (overwrite config) then
      (Ret tt, set_stats incr_skippedExistingAttachmentCount st)
    else
      try_catch
        (do* scheduleDownload (att_url attachment) destPath in
         effect (set_stats incr_downloadedAttachmentCount))
        (fun error =>
           if isErrorNonContinuable error then throw error
           else
             do* xlog LError "Error downloading attachment: " (Some error) in
             updateStatsOnError error)
        st.

(** lines 461-473 *)
Definition createMessageFile (threadPage : ThreadPage) (destDir : string)
  (overwrite : bool) : M string :=
  let filename :=
    sanitizeFilename
      ("messages-" +:+ number_to_string (tp_id threadPage) +:+ "-p"
       +:+ number_to_string (tp_currentPage threadPage) +:+ " - "
       +:+ tp_title threadPage +:+ ".txt") in
  let destPath := path_resolve destDir filename in
  fun st =>
    if negb overwrite && existsSync destPath st then (Ret destPath, st)
    else
      let threadHeader := formatThreadHeader threadPage in
      (Ret destPath,
       emit [EvWriteFile destPath threadHeader]
         (set_files (fun fs => <[destPath := FData threadHeader]> fs) st)).

Definition with_attachments (m : ThreadMessage)
  (attachments : list ThreadMessageAttachment) : ThreadMessage :=
  {| msg_id := msg_id m; msg_index := msg_index m; msg_author := msg_author m;
     msg_publishedAt := msg_publishedAt m; msg_body := msg_body m;
     msg_attachments := attachments |}.

Definition with_filename (a : ThreadMessageAttachment) (filename : option string)
  : ThreadMessageAttachment :=
  {| att_id := att_id a; att_index := att_index a; att_url := att_url a;
     att_filename := filename |}.

(** [fse.appendFileSync(file, text)] *)
Definition appendFile (file text : string) (fs : gmap string File) : gmap string File :=
  match fs !! file with
  | Some (FData content) => <[file := FData (content +:+ text)]> fs
  | _ => <[file := FData text]> fs
  end.

(** lines 475-489 *)
Definition saveMessage (message : ThreadMessage) (file : string) : M unit :=
  let attachments :=
    map (fun attachment =>
           with_filename attachment (Some (getMessageAttachmentFilename attachment)))
        (msg_attachments message) in
  let messageOut := formatMessage (with_attachments message attachments) in
  effect (fun st =>
    emit [EvSaveMessage file message] (set_files (appendFile file messageOut) st)).

(** lines 491-494 *)
Definition getDownloadStatusFilePath (thread : ThreadPage) (threadSavePath : string)
  : string :=
  let filename := sanitizeFilename (".dl-status-" +:+ number_to_string (tp_id thread)) in
  path_resolve threadSavePath filename.

Definition truthy_optZ (o : option Z) : bool :=
  match o with
  | Some z => truthy_Z z
  | None => false
  end.

(** lines 496-506 *)
Definition checkPreviousDownload (thread : ThreadPage) (threadSavePath : string)
  : M (option DownloadStatus) :=
  let file := getDownloadStatusFilePath thread threadSavePath in
  fun st =>
    if existsSync file st then
      match st_files st !! file with
      | Some (FJson json) =>
          match j_threadID json, j_url json, j_messageID json with
          | Some threadID, Some url, Some messageID =>
              if negb (truthy_Z threadID) || negb (truthy_string url)
                 || negb (truthy_Z messageID)
              then (Throw (PlainError "Failed to read previous download status: invalid format"), st)
              else (Ret (Some {| ds_threadID := threadID; ds_url := url;
                                 ds_messageID := messageID |}), st)
          | _, _, _ =>
              (Throw (PlainError "Failed to read previous download status: invalid format"), st)
          end
      | _ => (Throw (PlainError "Unexpected token in JSON"), st)
      end
    else (Ret None, st).

(** lines 508-522 *)
Definition saveDownloadStatus (thread : ThreadPage) (lastSavedMessage : ThreadMessage)
  (threadSavePath : string) : M unit :=
  let status :=
    {| ds_threadID := tp_id thread; ds_url := tp_url thread;
       ds_messageID := msg_id lastSavedMessage |} in
  let file := getDownloadStatusFilePath thread threadSavePath in
  effect (fun st =>
    emit [EvSaveStatus file status]
      (set_files (fun fs =>
         <[file := FJson {| j_threadID := Some (ds_threadID status);
                            j_url := Some (ds_url status);
                            j_messageID := Some (ds_messageID status) |}]> fs) st)).

(** lines 365-376 *)
Definition fetchPage (url : string) : M (string * string) :=
  fun st =>
    Fetcher.fetchHTML (rq_cookie (request config))
      {| Fetcher.fa_url := url;
         Fetcher.fa_maxRetries := rq_maxRetries (request config);
         Fetcher.fa_retryInterval := rq_minTime_page (request config) |}
      (set_net (site url) st).

(** lines 169-170 *)
Definition fetchThreadPage (url : string) : M ThreadPage :=
  let* r := fetchPage url in
  match Parser.parseThreadPage (fst r) url with
  | inl e => throw e
  | inr threadPage => ret threadPage
  end.

(** lines 291-292 *)
Definition fetchForumPage (url : string) : M ForumPage :=
  let* r := fetchPage url in
  match Parser.parseForumPage (fst r) url with
  | inl e => throw e
  | inr forumPage => ret forumPage
  end.

(** lines 174-190: the status of a previous download, when one is to be
    continued. *)
Definition resumeCheck (context : option DownloadThreadContext) (threadPage : ThreadPage)
  : M (option DownloadStatus) :=
  if negb (is_continued context) && continue config then
    try_catch
      (checkPreviousDownload threadPage (getThreadSavePath threadPage))
      (fun error =>
         do* xlog LError "Error occurred while checking previous download:" (Some error) in
         do* xlog LWarn "Ignoring 'continue' flag" None in
         ret None)
  else ret None.

(** lines 212-229: [__setAttachmentFilename] *)
Definition setAttachmentFilename (attachment : ThreadMessageAttachment)
  : M ThreadMessageAttachment :=
  try_catch
    (let* filename :=
       (fun st =>
          Fetcher.fetchFilenameByHeaders (rq_cookie (request config))
            {| Fetcher.fa_url := att_url attachment;
               Fetcher.fa_maxRetries := rq_maxRetries (request config);
               Fetcher.fa_retryInterval := rq_minTime_page (request config) |}
            (set_net (site (att_url attachment)) st)) in
     ret (with_filename attachment filename))
    (fun error =>
       if isErrorNonContinuable error then throw error
       else
         do* xlog LWarn "Failed to obtain filename from headers:" (Some error) in
         ret attachment).

(** lines 203-231: every attachment without a filename gets one from a
    HEAD request; [Promise.all] over the lookups is the loop that runs them
    in the order of the messages and of their attachments. *)
Definition resolveFilenames (messages : list ThreadMessage) : M (list ThreadMessage) :=
  map_each
    (fun msg =>
       let* attachments :=
         map_each
           (fun attachment =>
              if negb (truthy_opt (att_filename attachment))
              then setAttachmentFilename attachment
              else ret attachment)
           (msg_attachments msg) in
       ret (with_attachments msg attachments))
    messages.

(** lines 250-260: the attachments of one message.  [Promise.all] over the
    downloads is the loop that runs them in the order of the list, one
    after the other; two attachments with one destination are therefore
    seen here in one order only. *)
Definition downloadAttachments (attachmentSavePath : string) (message : ThreadMessage)
  : M unit :=
  let hasAttachments := (0 <? length (msg_attachments message))%nat in
  if hasAttachments then
    do* ensureDirSync attachmentSavePath in
    for_each
      (fun attachment => downloadMessageAttachment attachment attachmentSavePath)
      (msg_attachments message)
  else ret tt.

(** lines 249-265: the body of the loop over the messages of a page. *)
Definition processMessage (threadPage : ThreadPage)
  (attachmentSavePath threadSavePath messageFile : string)
  (message : ThreadMessage) : M unit :=
  do* downloadAttachments attachmentSavePath message in
  do* saveMessage message messageFile in
  do* effect (set_stats incr_processedMessageCount) in
  saveDownloadStatus threadPage message threadSavePath.

(** lines 203-266: file names, directories, transcript file, messages. *)
Definition persistPage (context : option DownloadThreadContext) (threadPage : ThreadPage)
  : M unit :=
  let* messages := resolveFilenames (tp_messages threadPage) in
  let threadPage := Parser.with_messages threadPage messages in
  let threadSavePath := getThreadSavePath threadPage in
  let attachmentSavePath :=
    if dir_attachments (dirStructure config)
    then path_resolve threadSavePath "attachments"
    else threadSavePath in
  do* ensureDirSync threadSavePath in
  let* messageFile :=
    createMessageFile threadPage threadSavePath
      (negb (is_continued_from_message context)) in
  for_each
    (processMessage threadPage attachmentSavePath threadSavePath messageFile)
    (tp_messages threadPage).

(** lines 276-284 *)
Definition afterThreadPage (self : Call -> M unit) (threadPage : option ThreadPage)
  : M unit :=
  match threadPage with
  | Some tp =>
      match tp_nextURL tp with
      | Some nextURL =>
          if truthy_string nextURL then
            let context :=
              if continue config
              then Some {| continued := true; continueFromMessageID := None |}
              else None in
            self (CThread nextURL context)
          else effect (set_stats incr_processedThreadCount)
      | None => effect (set_stats incr_processedThreadCount)
      end
  | None => ret tt
  end.

(** lines 269-275, 311-317 and 349-355: the [catch] of a handler *)
Definition onError (error : JsError) : M unit :=
  if isErrorNonContinuable error then throw error
  else
    do* xlog LError "" (Some error) in
    updateStatsOnError error.

(** lines 267-284: what follows the [try] block, given how it ended. *)
Definition finishThreadPage (self : Call -> M unit) (threadPage : option ThreadPage)
  (r : Res unit * State) : Res unit * State :=
  match r with
  | (Ret _, st) => afterThreadPage self threadPage st
  | (Throw error, st) => (do* onError error in afterThreadPage self threadPage) st
  | (Stuck, st) => (Stuck, st)
  end.

(** lines 165-285: [#downloadThread], its calls of itself going through
    [self]. *)
Definition downloadThread_with (self : Call -> M unit) (url : string)
  (context : option DownloadThreadContext) : M unit :=
  fun st =>
    match fetchThreadPage url st with
    | (Stuck, st1) => (Stuck, st1)
    | (Throw error, st1) => finishThreadPage self None (Throw error, st1)
    | (Ret threadPage, st1) =>
        match resumeCheck context threadPage st1 with
        | (Ret (Some prevDownload), st2) =>
            self (CThread (ds_url prevDownload)
                    (Some {| continued := true;
                             continueFromMessageID := Some (ds_messageID prevDownload) |}))
              st2
        | (Ret None, st2) =>
            let threadPage :=
              Parser.with_messages threadPage
                (dropContinued context (tp_messages threadPage)) in
            finishThreadPage self (Some threadPage) (persistPage context threadPage st2)
        | (Throw error, st2) =>
            finishThreadPage self (Some threadPage) (Throw error, st2)
        | (Stuck, st2) => (Stuck, st2)
        end
    end.

(** lines 318-332 *)
Definition afterForumPage (self : Call -> M unit) (forumPage : option ForumPage)
  : M unit :=
  let subforums (fp : ForumPage) : M unit :=
    do* (if (0 <? length (fp_subforums fp))%nat
         then for_each (fun subforum => self (CForum (link_url subforum)))
                (fp_subforums fp)
         else ret tt) in
    effect (set_stats incr_processedForumCount) in
  match forumPage with
  | Some fp =>
      match fp_nextURL fp with
      | Some nextURL =>
          if truthy_string nextURL then self (CForum nextURL) else subforums fp
      | None => subforums fp
      end
  | None => ret tt
  end.

(** lines 311-332: what follows the [try] block, given how it ended. *)
Definition finishForumPage (self : Call -> M unit) (forumPage : option ForumPage)
  (r : Res unit * State) : Res unit * State :=
  match r with
  | (Ret _, st) => afterForumPage self forumPage st
  | (Throw error, st) => (do* onError error in afterForumPage self forumPage) st
  | (Stuck, st) => (Stuck, st)
  end.

(** lines 287-333: [#downloadForum] *)
Definition downloadForum_with (self : Call -> M unit) (url : string) : M unit :=
  fun st =>
    match fetchForumPage url st with
    | (Stuck, st1) => (Stuck, st1)
    | (Throw error, st1) => finishForumPage self None (Throw error, st1)
    | (Ret forumPage, st1) =>
        finishForumPage self (Some forumPage)
          ((if (0 <? length (fp_threads forumPage))%nat
            then for_each (fun thread => self (CProcess (link_url thread)))
                   (fp_threads forumPage)
            else ret tt) st1)
    end.

(** lines 335-356: [#downloadGeneric] *)
Definition downloadGeneric_with (self : Call -> M unit) (url : string) : M unit :=
  try_catch
    (let* r := fetchPage url in
     let page := Parser.parseGenericPage (fst r) url in
     if (0 <? length (gp_forums page))%nat
     then for_each (fun forum => self (CProcess (link_url forum))) (gp_forums page)
     else ret tt)
    onError.

(** lines 147-163: [#process] *)
Definition process_with (self : Call -> M unit) (url : string) : M unit :=
  match URLHelper.getTargetTypeByURL url_href url with
  | inl e => throw e
  | inr URLHelper.TThread => self (CThread url None)
  | inr URLHelper.TForum => self (CForum url)
  | inr URLHelper.TUnknown => self (CGeneric url)
  end.

(** The traversal: each call spends one unit of [fuel]; [Stuck] is a
    traversal that is not over when the fuel is. *)
Fixpoint run (fuel : nat) (c : Call) : M unit :=
  match fuel with
  | O => fun st => (Stuck, st)
  | S n =>
      match c with
      | CProcess url => process_with (run n) url
      | CThread url context => downloadThread_with (run n) url context
      | CForum url => downloadForum_with (run n) url
      | CGeneric url => downloadGeneric_with (run n) url
      end
  end.

Definition process (fuel : nat) (url : string) : M unit := run fuel (CProcess url).

Definition downloadThread (fuel : nat) (url : string)
  (context : option DownloadThreadContext) : M unit :=
  run fuel (CThread url context).

Definition downloadForum (fuel : nat) (url : string) : M unit :=
  run fuel (CForum url).

Definition downloadGeneric (fuel : nat) (url : string) : M unit :=
  run fuel (CGeneric url).

End WithWorld.

End XenForoDownloader.

(** ** A small world for the examples

    POSIX paths, names that need no sanitizing, URLs of the form
    [scheme://host/path], and a site given by a table. *)

Module Demo.

Import XenForoDownloader.

Fixpoint after_scheme (s : string) : option string :=
  match URLHelper.strip_prefix "://" s with
  | Some rest => Some rest
  | None =>
      match s with
      | EmptyString => None
      | String _ s' => after_scheme s'
      end
  end.

Fixpoint take_host (s : string) : string :=
  match s with
  | EmptyString => EmptyString
  | String c s' =>
      if Ascii.eqb c "/" || Ascii.eqb c "?" || Ascii.eqb c "#"
      then EmptyString
      else String c (take_host s')
  end.

Definition host (u : string) : option string :=
  match after_scheme u with
  | Some rest => if truthy_string (take_host rest) then Some (take_host rest) else None
  | None => None
  end.

Fixpoint has_slash (s : string) : bool :=
  match s with
  | EmptyString => false
  | String c s' => Ascii.eqb c "/" || has_slash s'
  end.

Fixpoint dirname (s : string) : string :=
  match s with
  | EmptyString => EmptyString
  | String c s' => if has_slash s' then String c (dirname s') else EmptyString
  end.

Definition resolve (a b : string) : string :=
  if truthy_string b then a +:+ "/" +:+ b else a.

Definition world (pages : string -> list FetchOutcome)
  (threads : string -> ThreadPage) (forums : string -> ForumPage)
  (generic : string -> GenericPage) : World :=
  {| sanitizeFilename := fun s => s;
     path_resolve := resolve;
     path_sep := "/";
     path_dirname := dirname;
     url_href := fun u => match host u with Some _ => Some u | None => None end;
     url_host := host;
     disposition_filename := fun h => Some (Some h);
     formatThreadHeader := fun tp => tp_title tp;
     formatMessage := fun m => msg_index m;
     site := pages;
     cheerioThread := fun html _ => threads html;
     cheerioForum := fun html _ => forums html;
     cheerioGeneric := fun html _ => generic html |}.

Definition respond (status : Z) (location : option string) (body : option Body)
  : FetchOutcome :=
  Resolves {| res_status := status; res_statusText := ""; res_location := location;
              res_contentDisposition := None; res_url := ""; res_body := body |}.

Definition ok (data : string) : FetchOutcome := respond 200 None (Some (BodyOk data)).

Definition redirect (location : string) : FetchOutcome :=
  respond 302 (Some location) None.

Definition message (id : Z) (attachments : list ThreadMessageAttachment) : ThreadMessage :=
  {| msg_id := id; msg_index := "#"; msg_author := None; msg_publishedAt := None;
     msg_body := None; msg_attachments := attachments |}.

Definition attachment (id : Z) (url : string) (filename : option string)
  : ThreadMessageAttachment :=
  {| att_id := id; att_index := 0; att_url := url; att_filename := filename |}.

Definition threadPage (id : Z) (url title : string) (breadcrumbs : list Crumb)
  (messages : list ThreadMessage) (nextURL : option string) : ThreadPage :=
  {| tp_id := id; tp_url := url; tp_title := title; tp_breadcrumbs := breadcrumbs;
     tp_messages := messages; tp_currentPage := 1; tp_totalPages := 1;
     tp_nextURL := nextURL |}.

Definition forumPage (id : Z) (url title : string) (subforums threads : list Link)
  (nextURL : option string) : ForumPage :=
  {| fp_id := id; fp_url := url; fp_title := title; fp_subforums := subforums;
     fp_threads := threads; fp_currentPage := 1; fp_totalPages := 1;
     fp_nextURL := nextURL |}.

Definition noThread : ThreadPage := threadPage 0 "" "" [] [] None.

Definition noForum : ForumPage := forumPage 0 "" "" [] [] None.

Definition noGeneric : GenericPage := {| gp_forums := [] |}.

Definition stats0 : DownloadStats :=
  {| processedForumCount := 0; processedThreadCount := 0; processedMessageCount := 0;
     skippedExistingAttachmentCount := 0; downloadedAttachmentCount := 0;
     errorCount := 0 |}.

Definition state0 : State :=
  {| st_stats := stats0; st_files := ∅; st_dirs := ∅; st_net := []; st_trace := [] |}.

Definition dirs (site all thread attachments : bool) : DirStructure :=
  {| dir_site := site;
     dir_parentForumsAndSections := if all then PAll else PNone;
     dir_thread := thread; dir_attachments := attachments |}.

Definition config (cookie : option string) (overwrite continue : bool) : DownloaderConfig :=
  {| outDir := "/out"; dirStructure := dirs true true true true;
     request := {| rq_maxRetries := 3; rq_maxConcurrent := 10; rq_minTime_page := 500;
                   rq_minTime_attachment := 200; rq_cookie := cookie |};
     overwrite := overwrite; continue := continue; targetURL := "" |}.

End Demo.

(** ** templates/Thread.ts *)

Module ThreadHeaderTemplate.

(** The replacement text of [String.prototype.replaceAll] when the pattern
    is a string: [$$] stands for a dollar sign, [$&] for the text matched,
    [$`] for the text before the match and [$'] for the text after it; any
    other dollar sign stands for itself (there are no capture groups). *)
Fixpoint expand (replacement matched before after : string) : string :=
  match replacement with
  | EmptyString => EmptyString
  | String c rest =>
      if Ascii.eqb c "$" then
        match rest with
        | String d rest' =>
            if Ascii.eqb d "$" then String "$" (expand rest' matched before after)
            else if Ascii.eqb d "&" then matched +:+ expand rest' matched before after
            else if Ascii.eqb d "`" then before +:+ expand rest' matched before after
            else if Ascii.eqb d "'" then after +:+ expand rest' matched before after
            else String c (expand rest matched before after)
        | EmptyString => String c EmptyString
        end
      else String c (expand rest matched before after)
  end.

(** The scan of [replaceAll], from left to right, [before] being the text
    already passed: at a match the expanded replacement is put out and the
    scan goes on after the match.  [fuel] bounds the number of steps. *)
Fixpoint replaceAll_scan (search replacement : string) (fuel : nat)
  (before s : string) : string :=
  match fuel with
  | O => s
  | S fuel' =>
      match URLHelper.strip_prefix search s with
      | Some after =>
          expand replacement search before after
          +:+ replaceAll_scan search replacement fuel' (before +:+ search) after
      | None =>
          match s with
          | EmptyString => EmptyString
          | String c s' =>
              String c
                (replaceAll_scan search replacement fuel'
                   (before +:+ String c EmptyString) s')
          end
      end
  end.

(** [s.replaceAll(search, replacement)] for a [search] text that is not
    empty, as the placeholders of the templates are. *)
Definition replaceAll (search replacement s : string) : string :=
  replaceAll_scan search replacement (S (String.length s)) "" s.

Definition RULE : string :=
  "===============================================================================".

Definition NL : string := String (ascii_of_nat 10) EmptyString.

(** lines 3-9 *)
Definition THREAD_HEADER_TEMPLATE : string :=
  RULE +:+ NL +:+ "{thread.title}" +:+ NL +:+ "{thread.url}" +:+ NL
  +:+ RULE +:+ NL +:+ NL.

(** lines 13-17 *)
Definition format (title url : string) : string :=
  replaceAll "{thread.url}" url
    (replaceAll "{thread.title}" title THREAD_HEADER_TEMPLATE).

End ThreadHeaderTemplate.

(** ** Words for the statements *)

Module Spec.

Import XenForoDownloader.

(** The cookie header of each request sent, in order. *)
Definition cookies_sent (evs : list Event) : list (option string) :=
  omap (fun e => match e with EvRequest r => Some (req_cookie r) | _ => None end) evs.

(** The urls requested, in order. *)
Definition urls_requested (evs : list Event) : list string :=
  omap (fun e => match e with EvRequest r => Some (req_url r) | _ => None end) evs.

Definition sleeps (evs : list Event) : list Z :=
  omap (fun e => match e with EvSleep ms => Some ms | _ => None end) evs.

(** A redirect that names where to go. *)
Definition redirects_on (res : Response) : bool :=
  Fetcher.is_redirect res && truthy_opt (res_location res).

(** The answers [net] let every fetch come to an end: no server among them
    answers every request with a redirect. *)
Definition settles (net : list FetchOutcome) : bool :=
  forallb
    (fun o =>
       match o with
       | Repeats res => negb (redirects_on res)
       | _ => true
       end) net.

(** A site on which every fetch comes to an end. *)
Class Settling (W : World) : Prop :=
  site_settles : forall u : string, settles (site u) = true.

(** A computation that comes to an end when the answers of the network
    let every fetch do so. *)
Definition ends_when_settled {A : Type} (m : M A) : Prop :=
  forall st, settles (st_net st) = true -> fst (m st) <> Stuck.

(** The answers left are among those there were. *)
Definition net_shrinks (st st' : State) : Prop := suffix (st_net st') (st_net st).

(** The thread page of the claim about directory layout. *)
Definition helloPage (u0 u1 u2 url : string) (messages : list ThreadMessage)
  (currentPage totalPages : Z) (nextURL : option string) : ThreadPage :=
  {| tp_id := 42; tp_url := url; tp_title := "Hello";
     tp_breadcrumbs :=
       [ {| crumb_url := u0; crumb_title := "Site" |};
         {| crumb_url := u1; crumb_title := "CategoryA" |};
         {| crumb_url := u2; crumb_title := "ForumB" |} ];
     tp_messages := messages; tp_currentPage := currentPage;
     tp_totalPages := totalPages; tp_nextURL := nextURL |}.

(** Site directory, all ancestor forums and the thread directory. *)
Definition allDirs (out : string) (attachments : bool) (rq : RequestConfig)
  (ow ct : bool) (target : string) : DownloaderConfig :=
  {| outDir := out;
     dirStructure := {| dir_site := true; dir_parentForumsAndSections := PAll;
                        dir_thread := true; dir_attachments := attachments |};
     request := rq; overwrite := ow; continue := ct; targetURL := target |}.

(** The directory of an ancestor forum: its title followed by a dot and the
    id read from its url; the title alone when the url is not read as a
    forum url, or when the id read is 0. *)
Definition ancestor_segment {W : World} (title url : string) : string :=
  match URLHelper.parseForumURL (Some url) with
  | Some p =>
      if (URLHelper.id p =? 0)%Z then sanitizeFilename title
      else sanitizeFilename (title +:+ "." +:+ number_to_string (URLHelper.id p))
  | None => sanitizeFilename title
  end.

Definition emptyWorld : World :=
  Demo.world (fun _ => []) (fun _ => Demo.noThread) (fun _ => Demo.noForum)
    (fun _ => Demo.noGeneric).

(** A computation relates the state it starts in to the state it ends in
    by [R], however it ends. *)
Definition preserves (R : State -> State -> Prop) {A : Type} (m : M A) : Prop :=
  forall st r st', m st = (r, st') -> R st st'.

(** A computation that needs no fuel. *)
Definition never_stuck {A : Type} (m : M A) : Prop :=
  forall st, fst (m st) <> Stuck.

(** The trace grows by events that all satisfy [P]. *)
Definition extends_with (P : Event -> bool) (st st' : State) : Prop :=
  exists evs, st_trace st' = st_trace st ++ evs /\ forallb P evs = true.

(** Events of [#saveMessage] and [#saveDownloadStatus]. *)
Definition is_save (e : Event) : bool :=
  match e with
  | EvSaveMessage _ _ | EvSaveStatus _ _ => true
  | _ => false
  end.

Definition not_save (e : Event) : bool := negb (is_save e).

(** What the fetcher does: requests, waits, its log, and the files of a
    download. *)
Definition fetcher_event (e : Event) : bool :=
  match e with
  | EvRequest _ | EvSleep _ | EvEnsureDir _ | EvPipe _ _ | EvRename _ _
  | EvUnlink _ => true
  | EvLog component _ _ _ => String.eqb component "Fetcher"
  | _ => false
  end.

(** The counters stay and the trace grows by events of the fetcher. *)
Definition fetcher_step (st st' : State) : Prop :=
  st_stats st' = st_stats st /\ extends_with fetcher_event st st'.

(** No message is saved or counted and no marker is written. *)
Definition quiet_step (st st' : State) : Prop :=
  processedMessageCount (st_stats st') = processedMessageCount (st_stats st)
  /\ extends_with not_save st st'.

(** The ids of the messages appended to a transcript, in order. *)
Definition saved_ids (evs : list Event) : list Z :=
  omap (fun e => match e with EvSaveMessage _ m => Some (msg_id m) | _ => None end) evs.

(** The [messageID]s written to a download-status record, in order. *)
Definition status_ids (evs : list Event) : list Z :=
  omap (fun e => match e with EvSaveStatus _ s => Some (ds_messageID s) | _ => None end)
    evs.

(** A disk that already holds the attachment [attach-5 - a.png]. *)
Definition diskWithAttachment : State :=
  set_files (fun fs => <["/out/attachments/attach-5 - a.png" := FData "old"]> fs)
    Demo.state0.

Definition pngAttachment : ThreadMessageAttachment :=
  Demo.attachment 5 "https://site.example/attachments/a-png.5/" (Some "a.png").

Definition is_request (e : Event) : bool :=
  match e with
  | EvRequest _ => true
  | _ => false
  end.

(** A step that only talks to the network: counters, files and directories
    stay, the trace grows by events of the fetcher, and the answers left
    are a tail of the answers there were. *)
Definition net_step (st st' : State) : Prop :=
  st_stats st' = st_stats st
  /\ st_files st' = st_files st
  /\ st_dirs st' = st_dirs st
  /\ extends_with fetcher_event st st'
  /\ suffix (st_net st') (st_net st).

(** A step of the fetcher that may also write files: the counters stay,
    the trace grows by events of the fetcher, and the answers left are a
    tail of the answers there were. *)
Definition disk_step (st st' : State) : Prop :=
  st_stats st' = st_stats st
  /\ extends_with fetcher_event st st'
  /\ suffix (st_net st') (st_net st).

(** In a run of events, every resume marker comes right after the append
    of the message it names. *)
Inductive marked : list Event -> Prop :=
| marked_nil : marked []
| marked_other (e : Event) (evs : list Event) :
    is_save e = false -> marked evs -> marked (e :: evs)
| marked_append (p : string) (m : ThreadMessage) (evs : list Event) :
    marked evs -> marked (EvSaveMessage p m :: evs)
| marked_pair (p q : string) (m : ThreadMessage) (s : DownloadStatus) (evs : list Event) :
    ds_messageID s = msg_id m ->
    marked evs -> marked (EvSaveMessage p m :: EvSaveStatus q s :: evs).

(** The messages with ids [ids] are appended and counted, each followed by
    its marker, and nothing else is appended, counted or marked. *)
Definition page_step (ids : list Z) (st st' : State) : Prop :=
  exists evs,
    st_trace st' = st_trace st ++ evs
    /\ marked evs
    /\ saved_ids evs = ids
    /\ status_ids evs = ids
    /\ processedMessageCount (st_stats st')
       = processedMessageCount (st_stats st) + length ids.

(** Events of a page without messages: the save directory, and the header
    of a transcript file that did not exist. *)
Definition is_housekeeping (e : Event) : bool :=
  match e with
  | EvEnsureDir _ | EvWriteFile _ _ => true
  | _ => false
  end.

(** A thread of two pages: messages 10, 20, 30 and then 40, 50. *)
Definition helloURL : string := "https://site.example/threads/hello.42/".

Definition helloURL2 : string := "https://site.example/threads/hello.42/page-2".

Definition helloCrumbs : list Crumb :=
  [ {| crumb_url := "https://site.example/"; crumb_title := "Site" |};
    {| crumb_url := "https://site.example/forums/forumb.7/"; crumb_title := "ForumB" |} ].

Definition helloPage1 : ThreadPage :=
  Demo.threadPage 42 helloURL "Hello" helloCrumbs
    [Demo.message 10 []; Demo.message 20 []; Demo.message 30 []] (Some helloURL2).

Definition helloPage2 : ThreadPage :=
  Demo.threadPage 42 helloURL2 "Hello" helloCrumbs
    [Demo.message 40 []; Demo.message 50 []] None.

Definition helloWorld : World :=
  Demo.world
    (fun u =>
       if String.eqb u helloURL then [Demo.ok "page 1"]
       else if String.eqb u helloURL2 then [Demo.ok "page 2"]
       else [])
    (fun html =>
       if String.eqb html "page 1" then helloPage1
       else if String.eqb html "page 2" then helloPage2
       else Demo.noThread)
    (fun _ => Demo.noForum)
    (fun _ => Demo.noGeneric).

Definition continuingFrom (m : Z) : option DownloadThreadContext :=
  Some {| continued := true; continueFromMessageID := Some m |}.

(** The state after the first page of the thread is fetched and parsed. *)
Definition afterHelloPage1 : State :=
  snd (fetchThreadPage (W := helloWorld) (Demo.config None false true) helloURL
         Demo.state0).

Definition noCalls : Call -> M unit := fun _ => ret tt.

(** [data] is the whole body of a successful response among the answers
    [net]. *)
Definition complete_body (net : list FetchOutcome) (data : string) : Prop :=
  exists res,
    (In (Resolves res) net \/ In (Repeats res) net)
    /\ res_ok res = true /\ res_body res = Some (BodyOk data).

(** The event writes the file at [p]. *)
Definition writes_path (p : string) (e : Event) : bool :=
  match e with
  | EvPipe q _ | EvWriteFile q _ | EvSaveMessage q _ | EvSaveStatus q _
  | EvRename _ q => String.eqb q p
  | _ => false
  end.

(** In a run of events, [dest] is written only by the rename of its
    [.part] file, and only right after a whole body was piped into that
    file. *)
Inductive whole_commits (net : list FetchOutcome) (dest : string) : list Event -> Prop :=
| wc_nil : whole_commits net dest []
| wc_other (e : Event) (evs : list Event) :
    writes_path dest e = false ->
    whole_commits net dest evs -> whole_commits net dest (e :: evs)
| wc_commit (data : string) (evs : list Event) :
    complete_body net data ->
    whole_commits net dest evs ->
    whole_commits net dest
      (EvPipe (Fetcher.tmpFilePathOf dest) data
       :: EvRename (Fetcher.tmpFilePathOf dest) dest :: evs).

(** What a call of [downloadAttachment] that ended with [r] has done. *)
Definition download_post {W : World} (params : Fetcher.DownloadAttachmentParams)
  (st : State) (r : Res unit) (st' : State) : Prop :=
  let destPath := Fetcher.dest params in
  let tmpPath := Fetcher.tmpFilePathOf destPath in
  (exists evs,
     st_trace st' = st_trace st ++ evs /\ whole_commits (st_net st) destPath evs)
  /\ suffix (st_net st') (st_net st)
  /\ match r with
     | Ret _ =>
         (exists data,
            complete_body (st_net st) data
            /\ st_files st' !! destPath = Some (FData data))
         /\ st_files st' !! tmpPath = None
         /\ path_dirname destPath ∈ st_dirs st'
     | Throw _ =>
         st_files st' !! destPath = st_files st !! destPath
         /\ (st_files st' !! tmpPath = None
             \/ st_files st' !! tmpPath = st_files st !! tmpPath)
     | Stuck => settles (st_net st) = false
     end.

(** The result of a computation depends on the state only through the
    answers of the network, and so do the answers it leaves. *)
Definition net_only {A : Type} (m : M A) : Prop :=
  forall st1 st2,
    st_net st1 = st_net st2 ->
    fst (m st1) = fst (m st2) /\ st_net (snd (m st1)) = st_net (snd (m st2)).

(** The thread page a url leads to, when its fetch and parse succeed. *)
Definition threadPageAt {W : World} (config : DownloaderConfig) (url : string)
  : option ThreadPage :=
  match fst (fetchThreadPage config url Demo.state0) with
  | Ret threadPage => Some threadPage
  | _ => None
  end.

(** The message ids of a thread from the page at [url] on, page after page
    along the next-page links, for at most [n] pages. *)
Fixpoint thread_ids {W : World} (config : DownloaderConfig) (n : nat) (url : string)
  : list Z :=
  match n with
  | O => []
  | S k =>
      match threadPageAt config url with
      | Some threadPage =>
          map msg_id (tp_messages threadPage)
          ++ match tp_nextURL threadPage with
             | Some nextURL =>
                 if truthy_string nextURL then thread_ids config k nextURL else []
             | None => []
             end
      | None => []
      end
  end.

(** Message ids grow within each page and from page to page. *)
Definition ids_increase {W : World} (config : DownloaderConfig) : Prop :=
  forall n url, StronglySorted Z.le (thread_ids config n url).

(** A context with which the thread handler does not look for a previous
    download. *)
Definition no_resume (config : DownloaderConfig) (context : option DownloadThreadContext)
  : bool :=
  is_continued context || negb (continue config).

(** The markers written are, in order, among the ids [bound], and each
    comes right after the append of its message. *)
Definition thread_step (bound : list Z) (st st' : State) : Prop :=
  exists evs,
    st_trace st' = st_trace st ++ evs
    /\ marked evs
    /\ sublist (status_ids evs) bound.

(** Every marker in [evs] comes right after the append of the message it
    names. *)
Definition markers_follow_appends (evs : list Event) : Prop :=
  forall pre q s post,
    evs = pre ++ EvSaveStatus q s :: post ->
    exists pre' p m,
      pre = pre' ++ [EvSaveMessage p m] /\ msg_id m = ds_messageID s.

(** What the calls of the handler by itself are known to do: from a
    context that looks for no previous download, the markers written are
    among the ids of the thread from the page called on. *)
Definition follows_chain {W : World} (config : DownloaderConfig)
  (self : Call -> M unit) (n : nat) : Prop :=
  forall url context st r st',
    no_resume config context = true ->
    self (CThread url context) st = (r, st') ->
    thread_step (thread_ids config n url) st st'.

(** The ids of the pages that follow a page. *)
Definition rest_ids {W : World} (config : DownloaderConfig) (n : nat)
  (threadPage : option ThreadPage) : list Z :=
  match threadPage with
  | Some tp =>
      match tp_nextURL tp with
      | Some nextURL =>
          if truthy_string nextURL then thread_ids config n nextURL else []
      | None => []
      end
  | None => []
  end.

(** The forum page a url leads to, when its fetch and parse succeed. *)
Definition forumPageAt {W : World} (config : DownloaderConfig) (url : string)
  : option ForumPage :=
  match fst (fetchForumPage config url Demo.state0) with
  | Ret forumPage => Some forumPage
  | _ => None
  end.

(** The generic page a url leads to, when its fetch succeeds. *)
Definition genericPageAt {W : World} (config : DownloaderConfig) (url : string)
  : option GenericPage :=
  match fst (fetchPage config url Demo.state0) with
  | Ret r => Some (Parser.parseGenericPage (fst r) url)
  | _ => None
  end.

Definition next_link (nextURL : option string) : list string :=
  match nextURL with
  | Some next => if truthy_string next then [next] else []
  | None => []
  end.

(** The urls the traversal can be led to by the page at [url]: the next
    page of a thread; the threads, the subforums and the next page of a
    forum; the forums of a generic page. *)
Definition links {W : World} (config : DownloaderConfig) (url : string) : list string :=
  match threadPageAt config url with
  | Some tp => next_link (tp_nextURL tp)
  | None => []
  end
  ++ match forumPageAt config url with
     | Some fp =>
         map link_url (fp_threads fp) ++ map link_url (fp_subforums fp)
         ++ next_link (fp_nextURL fp)
     | None => []
     end
  ++ match genericPageAt config url with
     | Some gp => map link_url (gp_forums gp)
     | None => []
     end.

(** The link structure of the site is well-founded: a rank, bounded by
    [bound], falls along every link. *)
Definition ranked {W : World} (config : DownloaderConfig) (rank : string -> nat)
  (bound : nat) : Prop :=
  (forall url, rank url <= bound)
  /\ (forall url next, In next (links config url) -> rank next < rank url).

(** The call is over with some amount of fuel. *)
Definition crawl_ends {W : World} (config : DownloaderConfig) (c : Call) (st : State)
  : Prop :=
  exists fuel, fst (run config fuel c st) <> Stuck.

(** Whenever [m] is over, [m'] ends in the same way. *)
Definition over_as {A : Type} (m m' : M A) : Prop :=
  forall st r st', m st = (r, st') -> r <> Stuck -> m' st = (r, st').




(** A thread whose url redirects to itself. *)
Definition mazeURL : string := "https://site.example/threads/maze.9/".

Definition mazeWorld : World :=
  Demo.world
    (fun u =>
       if String.eqb u mazeURL
       then [Repeats {| res_status := 302; res_statusText := "Found";
                        res_location := Some mazeURL; res_contentDisposition := None;
                        res_url := mazeURL; res_body := None |}]
       else [])
    (fun _ => Demo.noThread) (fun _ => Demo.noForum) (fun _ => Demo.noGeneric).

(** A board with one thread of two pages and one subforum. *)
Definition boardURL : string := "https://site.example/forums/forumb.7/".

Definition subURL : string := "https://site.example/forums/sub.8/".

Definition boardForum : ForumPage :=
  Demo.forumPage 7 boardURL "ForumB"
    [ {| link_url := subURL; link_title := "Sub" |} ]
    [ {| link_url := helloURL; link_title := "Hello" |} ] None.

Definition subForum : ForumPage := Demo.forumPage 8 subURL "Sub" [] [] None.

Definition boardWorld : World :=
  Demo.world
    (fun u =>
       if String.eqb u boardURL then [Demo.ok "board"]
       else if String.eqb u subURL then [Demo.ok "sub"]
       else if String.eqb u helloURL then [Demo.ok "page 1"]
       else if String.eqb u helloURL2 then [Demo.ok "page 2"]
       else [])
    (fun html =>
       if String.eqb html "page 1" then helloPage1
       else if String.eqb html "page 2" then helloPage2
       else Demo.noThread)
    (fun html =>
       if String.eqb html "board" then boardForum
       else if String.eqb html "sub" then subForum
       else Demo.noForum)
    (fun _ => Demo.noGeneric).

Definition boardRank (url : string) : nat :=
  if String.eqb url boardURL then 2
  else if String.eqb url helloURL then 1
  else 0.




(** A computation throws only errors that satisfy [P]. *)
Definition throws_only (P : JsError -> bool) {A : Type} (m : M A) : Prop :=
  forall st e, fst (m st) = Throw e -> P e = true.





Definition notFound : FetchOutcome := Demo.respond 404 None None.

Definition brokenAttachment : ThreadMessageAttachment :=
  Demo.attachment 4 "https://site.example/attachments/gone.4/" (Some "gone.png").

(** A site that has lost one attachment and still has the other. *)
Definition lossyWorld : World :=
  Demo.world
    (fun u =>
       if String.eqb u (att_url brokenAttachment)
       then [notFound; notFound; notFound; notFound]
       else if String.eqb u (att_url pngAttachment) then [Demo.ok "png"]
       else [])
    (fun _ => Demo.noThread) (fun _ => Demo.noForum) (fun _ => Demo.noGeneric).

(** Words about the text of urls. *)

Fixpoint all_digits (s : string) : bool :=
  match s with
  | EmptyString => true
  | String c s' => URLHelper.is_digit c && all_digits s'
  end.

(** No line terminator stands anywhere in the text. *)
Fixpoint one_line (s : string) : bool :=
  match s with
  | EmptyString => true
  | String _ s' => negb (URLHelper.line_terminator_at s) && one_line s'
  end.

(** A dot that is followed by a digit. *)
Fixpoint has_dot_digit (s : string) : bool :=
  match s with
  | EmptyString => false
  | String c s' =>
      (Ascii.eqb c "."%char && URLHelper.starts_with_digit s') || has_dot_digit s'
  end.

(** [p] is found somewhere in [s]. *)
Fixpoint occurs_in (p s : string) : bool :=
  match URLHelper.strip_prefix p s with
  | Some _ => true
  | None =>
      match s with
      | EmptyString => false
      | String _ s' => occurs_in p s'
      end
  end.

(** The text [<pre><marker><slug>.<digits><post>]. *)
Definition slug_url (pre marker slug digits post : string) : string :=
  pre +:+ marker +:+ slug +:+ "." +:+ digits +:+ post.

(** The requests sent, in order. *)
Definition requests (evs : list Event) : list Request :=
  omap (fun e => match e with EvRequest r => Some r | _ => None end) evs.

(** Every redirect among the answers names a url of [host]. *)
Definition stays_on {W : World} (host : string) (net : list FetchOutcome) : bool :=
  forallb
    (fun o =>
       match o with
       | Resolves res | Repeats res =>
           negb (Fetcher.is_redirect res)
           || match res_location res with
              | Some toURL =>
                  match url_host toURL with
                  | Some toHost => String.eqb host toHost
                  | None => true
                  end
              | None => true
              end
       | Rejects _ => true
       end) net.

(** An error after which the fetcher tries again. *)
Definition retriable (e : JsError) : bool := negb (Fetcher.is_abort_or_fatal e).

(** A response the fetcher does not take for a redirect, whatever its
    status otherwise. *)
Definition final_response (res : Response) : bool := negb (Fetcher.is_redirect res).

(** The text of a body that arrives whole; a response without a body reads
    as the empty text. *)
Definition body_text (res : Response) : option string :=
  match res_body res with
  | None => Some ""
  | Some (BodyOk data) => Some data
  | Some (BodyFails _ _) => None
  end.

(** What a fetch of [url] leaves after [k] attempts that failed and one
    more: the answers [rest], [k] waits of [ms] and [k + 1] requests of
    [url]; counters, files and directories as they were. *)
Definition retried (url : string) (ms : Z) (k : nat) (rest : list FetchOutcome)
  (st st' : State) : Prop :=
  st_net st' = rest
  /\ st_stats st' = st_stats st
  /\ st_files st' = st_files st
  /\ st_dirs st' = st_dirs st
  /\ exists evs,
       st_trace st' = st_trace st ++ evs
       /\ sleeps evs = repeat ms k
       /\ urls_requested evs = repeat url (S k).

(** The same before the last attempt: [k] waits, [k] requests. *)
Definition retrying (url : string) (ms : Z) (k : nat) (rest : list FetchOutcome)
  (st st' : State) : Prop :=
  st_net st' = rest
  /\ st_stats st' = st_stats st
  /\ st_files st' = st_files st
  /\ st_dirs st' = st_dirs st
  /\ exists evs,
       st_trace st' = st_trace st ++ evs
       /\ sleeps evs = repeat ms k
       /\ urls_requested evs = repeat url k.

(** An error page: status 404, with a body. *)
Definition errorPage : Response :=
  {| res_status := 404; res_statusText := "Not Found"; res_location := None;
     res_contentDisposition := None; res_url := "https://site.example/x";
     res_body := Some (BodyOk "<html>gone</html>") |}.

Definition pageArgs : Fetcher.FetchArgs :=
  {| Fetcher.fa_url := "https://site.example/x"; Fetcher.fa_maxRetries := 3;
     Fetcher.fa_retryInterval := 500 |}.

Definition resetError : JsError := PlainError "ECONNRESET".

(** The state in which the network will give the answers [net]. *)
Definition answering (net : list FetchOutcome) : State := set_net net Demo.state0.

Definition flakyAnswers : list FetchOutcome :=
  [Rejects resetError; Rejects resetError; Resolves errorPage; Demo.ok "next"].

Definition deadAnswers : list FetchOutcome :=
  [Rejects resetError; Rejects resetError; Rejects resetError;
   Rejects (PlainError "ETIMEDOUT"); Demo.ok "late"].

Definition abortedAnswers : list FetchOutcome :=
  [Rejects resetError; Rejects (AbortError "aborted"); Demo.ok "late"].

(** A response that is no redirect and has no 2xx status. *)
Definition bad_status (res : Response) : bool :=
  final_response res && negb (res_ok res).

(** The message of the error [#assertResponseOK] throws for it. *)
Definition status_line (res : Response) : string :=
  number_to_string (res_status res) +:+ " - " +:+ res_statusText res.

(** Events that are neither a request nor a wait. *)
Definition local_event (e : Event) : bool :=
  match e with
  | EvRequest _ | EvSleep _ => false
  | _ => true
  end.

(** A step that asks nothing of the network and does not wait; it may
    write files. *)
Definition local_step (st st' : State) : Prop :=
  st_net st' = st_net st
  /\ st_stats st' = st_stats st
  /\ extends_with local_event st st'.

Definition downloadParams : Fetcher.DownloadAttachmentParams :=
  {| Fetcher.src := "https://site.example/attachments/a-png.5/";
     Fetcher.dest := "/out/attachments/attach-5 - a.png";
     Fetcher.maxRetries := 3; Fetcher.retryInterval := 200 |}.

Definition busy : Response :=
  {| res_status := 503; res_statusText := "Service Unavailable"; res_location := None;
     res_contentDisposition := None; res_url := ""; res_body := None |}.

Definition pngResponse : Response :=
  {| res_status := 200; res_statusText := "OK"; res_location := None;
     res_contentDisposition := None; res_url := ""; res_body := Some (BodyOk "png") |}.

(** The resume marker of [thread] that names [message]. *)
Definition marker_of (thread : ThreadPage) (message : ThreadMessage) : DownloadStatus :=
  {| ds_threadID := tp_id thread; ds_url := tp_url thread;
     ds_messageID := msg_id message |}.

(** A stored record all of whose fields are there and truthy. *)
Definition well_formed_record (j : StatusJson) : option DownloadStatus :=
  match j_threadID j, j_url j, j_messageID j with
  | Some threadID, Some url, Some messageID =>
      if truthy_Z threadID && truthy_string url && truthy_Z messageID
      then Some {| ds_threadID := threadID; ds_url := url; ds_messageID := messageID |}
      else None
  | _, _, _ => None
  end.

(** A record left by the download of another thread. *)
Definition foreignRecord : StatusJson :=
  {| j_threadID := Some 7%Z;
     j_url := Some "https://site.example/threads/other.7/page-4";
     j_messageID := Some 99%Z |}.

Definition diskWithForeignRecord : State :=
  set_files (fun fs => <["/out/Site/ForumB.7/Hello.42/.dl-status-42" := FJson foreignRecord]> fs)
    Demo.state0.

(** A status file that holds no JSON. *)
Definition diskWithBrokenRecord : State :=
  set_files (fun fs => <["/out/Site/ForumB.7/Hello.42/.dl-status-42" := FData "{"]> fs)
    Demo.state0.

(** Every attachment of every message has a file name. *)
Definition all_named (messages : list ThreadMessage) : bool :=
  forallb (fun m => forallb (fun a => truthy_opt (att_filename a)) (msg_attachments m))
    messages.

(** A stretch of a crawl: messages are appended, counted and marked, each
    one followed at once by the marker that names it. *)
Definition crawl_step (st st' : State) : Prop :=
  exists ids, page_step ids st st'.

(** Site directory, the forum next to the thread, and the thread. *)
Definition immediateDirs (out : string) (attachments : bool) (rq : RequestConfig)
  (ow ct : bool) (target : string) : DownloaderConfig :=
  {| outDir := out;
     dirStructure := {| dir_site := true; dir_parentForumsAndSections := PImmediate;
                        dir_thread := true; dir_attachments := attachments |};
     request := rq; overwrite := ow; continue := ct; targetURL := target |}.

(** No directory at all (the flag [-] of the command line). *)
Definition flatDirs (out : string) (rq : RequestConfig) (ow ct : bool) (target : string)
  : DownloaderConfig :=
  {| outDir := out;
     dirStructure := {| dir_site := false; dir_parentForumsAndSections := PNone;
                        dir_thread := false; dir_attachments := false |};
     request := rq; overwrite := ow; continue := ct; targetURL := target |}.

(** The character [c] is nowhere in [s]. *)
Fixpoint lacks (c : ascii) (s : string) : bool :=
  match s with
  | EmptyString => true
  | String d s' => negb (Ascii.eqb c d) && lacks c s'
  end.

(** A text with no brace that opens and no dollar sign. *)
Definition plain_text (s : string) : bool := lacks "{" s && lacks "$" s.

(** The header as it is meant to look. *)
Definition header_of (title url : string) : string :=
  ThreadHeaderTemplate.RULE +:+ ThreadHeaderTemplate.NL
  +:+ title +:+ ThreadHeaderTemplate.NL
  +:+ url +:+ ThreadHeaderTemplate.NL
  +:+ ThreadHeaderTemplate.RULE +:+ ThreadHeaderTemplate.NL +:+ ThreadHeaderTemplate.NL.

(** In a run of events, every append of a message to a transcript is
    followed at once by the status record that names the message, and no
    status record is written otherwise: the marker moves message by
    message. *)
Inductive appends_are_marked : list Event -> Prop :=
| am_nil : appends_are_marked []
| am_other (e : Event) (evs : list Event) :
    is_save e = false -> appends_are_marked evs -> appends_are_marked (e :: evs)
| am_pair (p q : string) (m : ThreadMessage) (s : DownloadStatus) (evs : list Event) :
    ds_messageID s = msg_id m ->
    appends_are_marked evs ->
    appends_are_marked (EvSaveMessage p m :: EvSaveStatus q s :: evs).

End Spec.

(** * Theorems *)

Import XenForoDownloader.

(** ** Directory layout *)

Section DirectoryLayout.

Context {W : World}.

Lemma truthy_Z_true (z : Z) : z <> 0%Z -> truthy_Z z = true.
Proof.
  intros Hz. unfold truthy_Z. apply negb_true_iff. now apply Z.eqb_neq.
Qed.

Lemma crumb_forum_id_parsed (c : Crumb) (p : URLHelper.ParsedURL) :
  URLHelper.parseForumURL (Some (crumb_url c)) = Some p ->
  crumb_forum_id c = Some (URLHelper.id p).
Proof. intros Hp. unfold crumb_forum_id. now rewrite Hp. Qed.

Lemma pushPathPart_with_id (parts : list string) (title : string) (i : Z) :
  i <> 0%Z ->
  pushPathPart parts title (Some i)
  = parts ++ [sanitizeFilename (title +:+ "." +:+ number_to_string i)].
Proof. intros Hi. unfold pushPathPart. now rewrite truthy_Z_true. Qed.

Lemma pushPathPart_ancestor (parts : list string) (title url : string) :
  pushPathPart parts title
    (crumb_forum_id {| crumb_url := url; crumb_title := title |})
  = parts ++ [Spec.ancestor_segment title url].
Proof.
  unfold pushPathPart, crumb_forum_id, Spec.ancestor_segment. cbn [crumb_url].
  destruct (URLHelper.parseForumURL (Some url)) as [p |]; cbn [option_map];
    [| reflexivity].
  unfold truthy_Z. now destruct (URLHelper.id p =? 0)%Z.
Qed.

(** C8, amended: breadcrumbs [Site, CategoryA, ForumB], title "Hello", id 42,
    with the site directory, all ancestor forums and the thread directory
    enabled.  Whatever the urls of the breadcrumbs are, the save path is
    [outDir/Site/A/B/Hello.42], where [A] and [B] are the directories of
    CategoryA and ForumB: the title with the id read from the url of the
    breadcrumb, and the title alone when that url is not read as a forum
    url or the id read is 0.  So when the urls of CategoryA and ForumB are
    forum urls with nonzero ids [i1] and [i2], the save path is
    [outDir/Site/CategoryA.i1/ForumB.i2/Hello.42].  Every segment is
    sanitized, the segments are joined with the path separator and the
    result is resolved against [outDir]. *)
Theorem C8_thread_save_path
  (out u0 u1 u2 url target : string) (messages : list ThreadMessage)
  (currentPage totalPages : Z) (nextURL : option string) (attachments ow ct : bool)
  (rq : RequestConfig) :
  let savePath :=
    getThreadSavePath (Spec.allDirs out attachments rq ow ct target)
      (Spec.helloPage u0 u1 u2 url messages currentPage totalPages nextURL) in
  let segment (title u : string) (s : string) : Prop :=
    match URLHelper.parseForumURL (Some u) with
    | Some p =>
        (URLHelper.id p <> 0%Z
         /\ s = sanitizeFilename (title +:+ "." +:+ number_to_string (URLHelper.id p)))
        \/ (URLHelper.id p = 0%Z /\ s = sanitizeFilename title)
    | None => s = sanitizeFilename title
    end in
  (exists a b,
      segment "CategoryA" u1 a /\ segment "ForumB" u2 b
      /\ savePath
         = path_resolve out
             (String.concat path_sep
                [sanitizeFilename "Site"; a; b; sanitizeFilename "Hello.42"]))
  /\ (forall p1 p2,
        URLHelper.parseForumURL (Some u1) = Some p1 ->
        URLHelper.parseForumURL (Some u2) = Some p2 ->
        URLHelper.id p1 <> 0%Z ->
        URLHelper.id p2 <> 0%Z ->
        savePath
        = path_resolve out
            (String.concat path_sep
               [ sanitizeFilename "Site";
                 sanitizeFilename ("CategoryA." +:+ number_to_string (URLHelper.id p1));
                 sanitizeFilename ("ForumB." +:+ number_to_string (URLHelper.id p2));
                 sanitizeFilename "Hello.42" ])).
Proof.
  cbv zeta.
  assert (Hpath :
            getThreadSavePath (Spec.allDirs out attachments rq ow ct target)
              (Spec.helloPage u0 u1 u2 url messages currentPage totalPages nextURL)
            = path_resolve out
                (String.concat path_sep
                   [sanitizeFilename "Site"; Spec.ancestor_segment "CategoryA" u1;
                    Spec.ancestor_segment "ForumB" u2; sanitizeFilename "Hello.42"])).
  { unfold getThreadSavePath, Spec.allDirs, Spec.helloPage; cbn [tp_breadcrumbs
      tp_title tp_id dirStructure dir_site dir_parentForumsAndSections dir_thread
      outDir crumb_title crumb_url length pushAllCrumbs].
    cbn -[crumb_forum_id pushPathPart number_to_string String.concat
          Spec.ancestor_segment].
    rewrite !pushPathPart_ancestor.
    rewrite pushPathPart_with_id by discriminate. reflexivity. }
  assert (Hseg : forall title u,
             match URLHelper.parseForumURL (Some u) with
             | Some p =>
                 (URLHelper.id p <> 0%Z
                  /\ Spec.ancestor_segment title u
                     = sanitizeFilename
                         (title +:+ "." +:+ number_to_string (URLHelper.id p)))
                 \/ (URLHelper.id p = 0%Z
                     /\ Spec.ancestor_segment title u = sanitizeFilename title)
             | None => Spec.ancestor_segment title u = sanitizeFilename title
             end).
  { intros title u. unfold Spec.ancestor_segment.
    destruct (URLHelper.parseForumURL (Some u)) as [p |]; [| reflexivity].
    destruct (URLHelper.id p =? 0)%Z eqn:E.
    - right. split; [now apply Z.eqb_eq | reflexivity].
    - left. split; [now apply Z.eqb_neq | reflexivity]. }
  split.
  - exists (Spec.ancestor_segment "CategoryA" u1), (Spec.ancestor_segment "ForumB" u2).
    split; [apply Hseg |]. split; [apply Hseg | exact Hpath].
  - intros p1 p2 H1 H2 Hi1 Hi2. rewrite Hpath. unfold Spec.ancestor_segment.
    rewrite H1, H2.
    apply Z.eqb_neq in Hi1, Hi2. now rewrite Hi1, Hi2.
Qed.

End DirectoryLayout.

Lemma C8_thread_save_path_witness :
  getThreadSavePath (W := Spec.emptyWorld)
    (Spec.allDirs "/out" true (request (Demo.config None false false)) false false "")
    (Spec.helloPage "https://site.example/"
       "https://site.example/forums/categorya.3/"
       "https://site.example/forums/forumb.7/"
       "https://site.example/threads/hello.42/" [] 1 1 None)
  = "/out/Site/CategoryA.3/ForumB.7/Hello.42"
  /\ URLHelper.parseForumURL (Some "https://site.example/categories/categorya/") = None
  /\ getThreadSavePath (W := Spec.emptyWorld)
       (Spec.allDirs "/out" true (request (Demo.config None false false)) false false "")
       (Spec.helloPage "https://site.example/"
          "https://site.example/categories/categorya/"
          "https://site.example/forums/forumb.7/"
          "https://site.example/threads/hello.42/" [] 1 1 None)
     = "/out/Site/CategoryA/ForumB.7/Hello.42".
Proof.
  split; [| split; [reflexivity |]].
  - exact (proj2 (C8_thread_save_path (W := Spec.emptyWorld) "/out"
                    "https://site.example/"
                    "https://site.example/forums/categorya.3/"
                    "https://site.example/forums/forumb.7/"
                    "https://site.example/threads/hello.42/" "" [] 1 1 None true false
                    false (request (Demo.config None false false)))
             {| URLHelper.slug := "categorya"; URLHelper.id := 3 |}
             {| URLHelper.slug := "forumb"; URLHelper.id := 7 |}
             eq_refl eq_refl ltac:(discriminate) ltac:(discriminate)).
  - destruct (proj1 (C8_thread_save_path (W := Spec.emptyWorld) "/out"
                       "https://site.example/"
                       "https://site.example/categories/categorya/"
                       "https://site.example/forums/forumb.7/"
                       "https://site.example/threads/hello.42/" "" [] 1 1 None true
                       false false (request (Demo.config None false false))))
      as (a & b & Ha & Hb & Hp).
    vm_compute in Ha, Hb. destruct Hb as [[_ Hb] | [Hz _]]; [| discriminate Hz].
    rewrite Hp, Ha, Hb. reflexivity.
Defined.

(** C8 as stated fails for a breadcrumb whose forum url carries the id 0:
    the id parsed is 0, and the segment is the title alone. *)
Lemma C8_counterexample_id_zero :
  URLHelper.parseForumURL (Some "https://site.example/forums/categorya.0/")
  = Some {| URLHelper.slug := "categorya"; URLHelper.id := 0 |}
  /\ getThreadSavePath (W := Spec.emptyWorld)
       (Spec.allDirs "/out" true (request (Demo.config None false false)) false false "")
       (Spec.helloPage "https://site.example/"
          "https://site.example/forums/categorya.0/"
          "https://site.example/forums/forumb.7/"
          "https://site.example/threads/hello.42/" [] 1 1 None)
     = "/out/Site/CategoryA/ForumB.7/Hello.42"
  /\ getThreadSavePath (W := Spec.emptyWorld)
       (Spec.allDirs "/out" true (request (Demo.config None false false)) false false "")
       (Spec.helloPage "https://site.example/"
          "https://site.example/forums/categorya.0/"
          "https://site.example/forums/forumb.7/"
          "https://site.example/threads/hello.42/" [] 1 1 None)
     <> "/out/Site/CategoryA.0/ForumB.7/Hello.42".
Proof.
  split; [reflexivity | split; [reflexivity | discriminate]].
Qed.

(** How ids are written in the names of directories and files. *)
Lemma number_to_string_examples :
  number_to_string 42 = "42"
  /\ number_to_string (-7) = "-7"
  /\ number_to_string 9007199254740992 = "9007199254740992"
  /\ number_to_string 73786976294838206464 = "73786976294838210000"
  /\ number_to_string 123456789012345683968 = "123456789012345680000"
  /\ number_to_string (10 ^ 21) = "1e+21"
  /\ number_to_string 99999999999999991611392 = "1e+23"
  /\ number_to_string (2 ^ 100) = "1.2676506002282294e+30"
  /\ number_to_string Infinity = "Infinity".
Proof. vm_compute. repeat split. Qed.

(** The directory of a forum whose url writes the id [10^23]. *)
Lemma huge_forum_id_is_written_with_an_exponent :
  pushPathPart (W := Spec.emptyWorld) [] "CategoryA"
    (crumb_forum_id
       {| crumb_url := "https://site.example/forums/categorya.100000000000000000000000/";
          crumb_title := "CategoryA" |})
  = ["CategoryA.1e+23"].
Proof. vm_compute. reflexivity. Qed.

(** ** Redirects and the cookie *)

(** C3 (evaluated at the failing input): the cookie is [sid=1], the fetch
    starts at [a.example], which redirects to [b.example], which redirects
    to another page of [b.example].  The second request crosses hosts and
    carries no cookie; the third is compared with the second hop only and
    carries the cookie again, to a host that is not the original one. *)
Theorem C3_cookie_sent_again_after_host_change :
  let '(_, evs, _) :=
    Fetcher.fetchWithRedirect (W := Spec.emptyWorld) (Some "sid=1")
      [ Demo.redirect "https://b.example/y";
        Demo.redirect "https://b.example/z";
        Demo.ok "page" ]
      "https://a.example/x" GET true in
  Spec.urls_requested evs
  = ["https://a.example/x"; "https://b.example/y"; "https://b.example/z"]
  /\ Spec.cookies_sent evs = [Some "sid=1"; None; Some "sid=1"].
Proof. split; reflexivity. Qed.

(** ** Retries *)

(** C4 (evaluated at the failing input): the first request of an attachment
    download is refused by the network, the second would succeed, and
    [maxRetries] is 3.  [downloadAttachment] fetches outside its [try]
    block: it rejects with the network's error at once, without a retry
    and without a [FetcherError]; [fetchHTML] on the same network waits
    and succeeds at its second attempt. *)
Theorem C4_network_error_of_download_not_retried :
  let st :=
    set_net [Rejects (PlainError "ECONNREFUSED"); Demo.ok "data"] Demo.state0 in
  let download :=
    Fetcher.downloadAttachment (W := Spec.emptyWorld) None
      {| Fetcher.src := "https://a.example/f"; Fetcher.dest := "/out/f";
         Fetcher.maxRetries := 3; Fetcher.retryInterval := 200 |} st in
  let page :=
    Fetcher.fetchHTML (W := Spec.emptyWorld) None
      {| Fetcher.fa_url := "https://a.example/f"; Fetcher.fa_maxRetries := 3;
         Fetcher.fa_retryInterval := 200 |} st in
  fst download = Throw (PlainError "ECONNREFUSED")
  /\ Spec.urls_requested (st_trace (snd download)) = ["https://a.example/f"]
  /\ Spec.sleeps (st_trace (snd download)) = []
  /\ fst page = Ret ("data", "")
  /\ Spec.urls_requested (st_trace (snd page))
     = ["https://a.example/f"; "https://a.example/f"]
  /\ Spec.sleeps (st_trace (snd page)) = [200%Z].
Proof. repeat split; reflexivity. Qed.

(** ** Existing attachments *)

(** C7: when the file an attachment resolves to exists and [overwrite] is
    off, the download of the attachment returns at once: nothing is
    requested or logged (the trace is unchanged), no file or directory
    changes, [skippedExistingAttachmentCount] grows by one and the other
    counters stay. *)
Theorem C7_existing_attachment_is_skipped {W : World} (config : DownloaderConfig)
  (attachment : ThreadMessageAttachment) (destDir : string) (st : State) :
  existsSync (path_resolve destDir (getMessageAttachmentFilename attachment)) st = true ->
  overwrite config = false ->
  exists st',
    downloadMessageAttachment config attachment destDir st = (Ret tt, st')
    /\ st_trace st' = st_trace st
    /\ st_files st' = st_files st
    /\ st_dirs st' = st_dirs st
    /\ skippedExistingAttachmentCount (st_stats st')
       = S (skippedExistingAttachmentCount (st_stats st))
    /\ downloadedAttachmentCount (st_stats st')
       = downloadedAttachmentCount (st_stats st)
    /\ errorCount (st_stats st') = errorCount (st_stats st)
    /\ processedMessageCount (st_stats st') = processedMessageCount (st_stats st).
Proof.
  intros Hexists Hoverwrite.
  exists (set_stats incr_skippedExistingAttachmentCount st).
  unfold downloadMessageAttachment.
  rewrite Hexists, Hoverwrite. cbn.
  repeat split; reflexivity.
Qed.

Lemma C7_existing_attachment_is_skipped_witness :
  exists st',
    downloadMessageAttachment (W := Spec.emptyWorld) (Demo.config None false false)
      Spec.pngAttachment "/out/attachments" Spec.diskWithAttachment
    = (Ret tt, st')
    /\ st_trace st' = []
    /\ st_files st' = st_files Spec.diskWithAttachment
    /\ st_dirs st' = ∅
    /\ skippedExistingAttachmentCount (st_stats st') = 1
    /\ downloadedAttachmentCount (st_stats st') = 0
    /\ errorCount (st_stats st') = 0
    /\ processedMessageCount (st_stats st') = 0.
Proof.
  apply (C7_existing_attachment_is_skipped (W := Spec.emptyWorld)
           (Demo.config None false false) Spec.pngAttachment "/out/attachments"
           Spec.diskWithAttachment).
  - vm_compute. reflexivity.
  - reflexivity.
Defined.

(** ** Reasoning about computations *)

Section Computations.

Variable R : State -> State -> Prop.

Context {HR : PreOrder R}.

Lemma preserves_ret {A : Type} (a : A) : Spec.preserves R (ret a).
Proof. intros st r st' H. inversion H; subst. reflexivity. Qed.

Lemma preserves_throw {A : Type} (e : JsError) : Spec.preserves R (@throw A e).
Proof. intros st r st' H. inversion H; subst. reflexivity. Qed.

Lemma preserves_bind {A B : Type} (m : M A) (k : A -> M B) :
  Spec.preserves R m -> (forall a, Spec.preserves R (k a)) ->
  Spec.preserves R (bind m k).
Proof.
  intros Hm Hk st r st' H. unfold bind in H.
  destruct (m st) as [[a | e |] st1] eqn:E.
  - transitivity st1; [eapply Hm; eauto | eapply Hk; eauto].
  - inversion H; subst. eapply Hm; eauto.
  - inversion H; subst. eapply Hm; eauto.
Qed.

Lemma preserves_try_catch {A : Type} (m : M A) (h : JsError -> M A) :
  Spec.preserves R m -> (forall e, Spec.preserves R (h e)) ->
  Spec.preserves R (try_catch m h).
Proof.
  intros Hm Hh st r st' H. unfold try_catch in H.
  destruct (m st) as [[a | e |] st1] eqn:E.
  - inversion H; subst. eapply Hm; eauto.
  - transitivity st1; [eapply Hm; eauto | eapply Hh; eauto].
  - inversion H; subst. eapply Hm; eauto.
Qed.

Lemma preserves_effect (f : State -> State) :
  (forall st, R st (f st)) -> Spec.preserves R (effect f).
Proof. intros Hf st r st' H. inversion H; subst. apply Hf. Qed.

Lemma preserves_get {A : Type} (f : State -> A) : Spec.preserves R (get f).
Proof. intros st r st' H. inversion H; subst. reflexivity. Qed.

Lemma preserves_for_each {A : Type} (f : A -> M unit) (l : list A) :
  (forall x, Spec.preserves R (f x)) -> Spec.preserves R (for_each f l).
Proof.
  intros Hf. induction l as [| x l IH]; cbn [for_each].
  - apply preserves_ret.
  - apply preserves_bind; [apply Hf | intros _; exact IH].
Qed.

Lemma preserves_map_each {A B : Type} (f : A -> M B) (l : list A) :
  (forall x, Spec.preserves R (f x)) -> Spec.preserves R (map_each f l).
Proof.
  intros Hf. induction l as [| x l IH]; cbn [map_each].
  - apply preserves_ret.
  - apply preserves_bind; [apply Hf | intros y].
    apply preserves_bind; [exact IH | intros ys; apply preserves_ret].
Qed.

Lemma preserves_try_finally {A : Type} (m : M A) (f : M unit) :
  Spec.preserves R m -> Spec.preserves R f ->
  Spec.preserves R (Fetcher.try_finally m f).
Proof.
  intros Hm Hf st r st' H. unfold Fetcher.try_finally in H.
  destruct (m st) as [r1 st1] eqn:E.
  destruct (f st1) as [[u | e |] st2] eqn:F; inversion H; subst;
    (transitivity st1; [eapply Hm; eauto | eapply Hf; eauto]).
Qed.

End Computations.

Lemma preserves_weaken (R R' : State -> State -> Prop) {A : Type} (m : M A) :
  (forall st st', R st st' -> R' st st') ->
  Spec.preserves R m -> Spec.preserves R' m.
Proof. intros HRR Hm st r st' H. apply HRR. eapply Hm; eauto. Qed.

Lemma never_stuck_ret {A : Type} (a : A) : Spec.never_stuck (ret a).
Proof. intros st. discriminate. Qed.

Lemma never_stuck_throw {A : Type} (e : JsError) : Spec.never_stuck (@throw A e).
Proof. intros st. discriminate. Qed.

Lemma never_stuck_effect (f : State -> State) : Spec.never_stuck (effect f).
Proof. intros st. discriminate. Qed.

Lemma never_stuck_bind {A B : Type} (m : M A) (k : A -> M B) :
  Spec.never_stuck m -> (forall a, Spec.never_stuck (k a)) ->
  Spec.never_stuck (bind m k).
Proof.
  intros Hm Hk st. unfold bind. specialize (Hm st).
  destruct (m st) as [[a | e |] st1]; cbn in *; try discriminate.
  - apply Hk.
  - congruence.
Qed.

Lemma never_stuck_try_catch {A : Type} (m : M A) (h : JsError -> M A) :
  Spec.never_stuck m -> (forall e, Spec.never_stuck (h e)) ->
  Spec.never_stuck (try_catch m h).
Proof.
  intros Hm Hh st. unfold try_catch. specialize (Hm st).
  destruct (m st) as [[a | e |] st1]; cbn in *; try discriminate.
  - apply Hh.
  - congruence.
Qed.

Lemma never_stuck_for_each {A : Type} (f : A -> M unit) (l : list A) :
  (forall x, Spec.never_stuck (f x)) -> Spec.never_stuck (for_each f l).
Proof.
  intros Hf. induction l as [| x l IH]; cbn [for_each].
  - apply never_stuck_ret.
  - apply never_stuck_bind; [apply Hf | intros _; exact IH].
Qed.

Lemma never_stuck_map_each {A B : Type} (f : A -> M B) (l : list A) :
  (forall x, Spec.never_stuck (f x)) -> Spec.never_stuck (map_each f l).
Proof.
  intros Hf. induction l as [| x l IH]; cbn [map_each].
  - apply never_stuck_ret.
  - apply never_stuck_bind; [apply Hf | intros y].
    apply never_stuck_bind; [exact IH | intros ys; apply never_stuck_ret].
Qed.

Lemma never_stuck_try_finally {A : Type} (m : M A) (f : M unit) :
  Spec.never_stuck m -> Spec.never_stuck f ->
  Spec.never_stuck (Fetcher.try_finally m f).
Proof.
  intros Hm Hf st. unfold Fetcher.try_finally. specialize (Hm st).
  destruct (m st) as [r1 st1]. specialize (Hf st1).
  destruct (f st1) as [[u | e |] st2]; cbn in *; congruence.
Qed.

(** The relations used below are preorders. *)

Lemma extends_with_preorder (P : Event -> bool) :
  PreOrder (Spec.extends_with P).
Proof.
  split.
  - intros st. exists []. split; [now rewrite app_nil_r | reflexivity].
  - intros st1 st2 st3 [e1 [H1 P1]] [e2 [H2 P2]]. exists (e1 ++ e2). split.
    + now rewrite H2, H1, app_assoc.
    + rewrite forallb_app. now rewrite P1, P2.
Qed.

#[local] Existing Instance extends_with_preorder.

Lemma fetcher_step_preorder : PreOrder Spec.fetcher_step.
Proof.
  split.
  - intros st. split; reflexivity.
  - intros st1 st2 st3 [S1 E1] [S2 E2]. split; [congruence | etransitivity; eauto].
Qed.

Lemma quiet_step_preorder : PreOrder Spec.quiet_step.
Proof.
  split.
  - intros st. split; reflexivity.
  - intros st1 st2 st3 [S1 E1] [S2 E2]. split; [congruence | etransitivity; eauto].
Qed.

#[export] Existing Instance extends_with_preorder.
#[export] Existing Instance fetcher_step_preorder.
#[export] Existing Instance quiet_step_preorder.

Lemma extends_with_emit (P : Event -> bool) (evs : list Event) (st : State) :
  forallb P evs = true -> Spec.extends_with P st (emit evs st).
Proof. intros HP. exists evs. split; [reflexivity | exact HP]. Qed.

Lemma extends_with_weaken (P Q : Event -> bool) (st st' : State) :
  (forall e, P e = true -> Q e = true) ->
  Spec.extends_with P st st' -> Spec.extends_with Q st st'.
Proof.
  intros HPQ [evs [H HP]]. exists evs. split; [exact H |].
  apply forallb_forall. intros e He. apply HPQ.
  now apply (proj1 (forallb_forall P evs) HP).
Qed.

Lemma fetcher_step_quiet (st st' : State) :
  Spec.fetcher_step st st' -> Spec.quiet_step st st'.
Proof.
  intros [HS HE]. split; [now rewrite HS |].
  eapply extends_with_weaken; [| exact HE].
  intros [] He; cbn in *; congruence.
Qed.

(** ** The fetcher: effects and totality *)

Section FetcherFacts.

Context {W : World}.

Variable cookie : option string.

Lemma fetch_on_facts (net : list FetchOutcome) :
  fst (Fetcher.fetch_on net) <> Stuck /\ suffix (snd (Fetcher.fetch_on net)) net.
Proof.
  destruct net as [| [e | res | res] net']; cbn; split; try discriminate.
  - reflexivity.
  - apply suffix_cons_r. reflexivity.
  - apply suffix_cons_r. reflexivity.
  - reflexivity.
Qed.

Lemma settles_suffix (net1 net0 : list FetchOutcome) :
  suffix net1 net0 -> Spec.settles net0 = true -> Spec.settles net1 = true.
Proof.
  intros [k ->] H. unfold Spec.settles in *. rewrite forallb_app in H.
  now apply andb_true_iff in H as [_ H].
Qed.

Lemma fetchWithRedirect_facts (net : list FetchOutcome) :
  forall (url : string) (method : Method) (useCookie : bool),
    let '(r, evs, rest) := Fetcher.fetchWithRedirect cookie net url method useCookie in
    (Spec.settles net = true -> r <> Stuck)
    /\ forallb Spec.is_request evs = true /\ suffix rest net.
Proof.
  induction net as [| o net' IH]; intros url method useCookie; cbn [Fetcher.fetchWithRedirect].
  - destruct (Fetcher.newRequest url method); repeat split; try discriminate; reflexivity.
  - destruct (Fetcher.newRequest url method) as [request0 |];
      [| repeat split; try discriminate; reflexivity].
    destruct o as [e | res | res].
    { repeat split; try discriminate. apply suffix_cons_r. reflexivity. }
    + destruct (Fetcher.is_redirect res).
      2:{ repeat split; try discriminate. apply suffix_cons_r. reflexivity. }
      assert (Hfallback :
        let '(r, evs, rest) :=
          (let '(r, rest) := Fetcher.fetch_on net' in
           (r, [EvRequest (Fetcher.setHeaders cookie request0 useCookie);
                EvRequest (Fetcher.setHeaders cookie request0 useCookie)], rest)) in
        (Spec.settles (Resolves res :: net') = true -> r <> Stuck)
        /\ forallb Spec.is_request evs = true /\ suffix rest (Resolves res :: net')).
      { pose proof (fetch_on_facts net') as [Hr Hs].
        destruct (Fetcher.fetch_on net') as [r rest]; cbn in *.
        repeat split; [intros _; exact Hr | now apply suffix_cons_r]. }
      destruct (res_location res) as [toURL |]; [| exact Hfallback].
      destruct (truthy_string toURL); [| exact Hfallback].
      destruct (url_host url) as [host |];
        [| repeat split; try discriminate; apply suffix_cons_r; reflexivity].
      destruct (url_host toURL) as [toHost |];
        [| repeat split; try discriminate; apply suffix_cons_r; reflexivity].
      specialize (IH toURL method (String.eqb host toHost)).
      destruct (Fetcher.fetchWithRedirect cookie net' toURL method (String.eqb host toHost))
        as [[r evs] rest].
      destruct IH as [Hr [He Hs]].
      repeat split; [exact Hr | exact He | now apply suffix_cons_r].
    + destruct (Fetcher.is_redirect res) eqn:Ered;
        [| repeat split; try discriminate; reflexivity].
      destruct (res_location res) as [toURL |] eqn:Eloc;
        [| repeat split; try discriminate; reflexivity].
      destruct (truthy_string toURL) eqn:Etruthy;
        [| repeat split; try discriminate; reflexivity].
      destruct (url_host url) as [host |];
        [| repeat split; try discriminate; reflexivity].
      destruct (url_host toURL) as [toHost |];
        [| repeat split; try discriminate; reflexivity].
      repeat split; try reflexivity.
      intros Hs. cbn in Hs. unfold Spec.redirects_on in Hs.
      rewrite Ered, Eloc in Hs. cbn in Hs. rewrite Etruthy in Hs. discriminate.
Qed.

End FetcherFacts.

Lemma net_step_preorder : PreOrder Spec.net_step.
Proof.
  split.
  - intros st. repeat split; reflexivity.
  - intros st1 st2 st3 (S1 & F1 & D1 & E1 & N1) (S2 & F2 & D2 & E2 & N2).
    repeat split; try congruence; etransitivity; eauto.
Qed.

#[export] Existing Instance net_step_preorder.

Lemma net_step_fetcher_step (st st' : State) :
  Spec.net_step st st' -> Spec.fetcher_step st st'.
Proof. intros (S1 & _ & _ & E1 & _). split; assumption. Qed.

Lemma net_step_emit (evs : list Event) (st : State) :
  forallb Spec.fetcher_event evs = true -> Spec.net_step st (emit evs st).
Proof.
  intros HP. repeat split; try reflexivity. now apply extends_with_emit.
Qed.

Lemma net_shrinks_preorder : PreOrder Spec.net_shrinks.
Proof.
  split.
  - intros st. unfold Spec.net_shrinks. reflexivity.
  - intros st1 st2 st3 H1 H2. unfold Spec.net_shrinks in *. etransitivity; eauto.
Qed.

#[export] Existing Instance net_shrinks_preorder.

Lemma net_step_shrinks (st st' : State) :
  Spec.net_step st st' -> Spec.net_shrinks st st'.
Proof. intros (_ & _ & _ & _ & N1). exact N1. Qed.

(** Computations that end when the network settles. *)

Lemma ends_of_never_stuck {A : Type} (m : M A) :
  Spec.never_stuck m -> Spec.ends_when_settled m.
Proof. intros H st _. apply H. Qed.

Lemma ends_bind {A B : Type} (m : M A) (k : A -> M B) :
  Spec.preserves Spec.net_shrinks m ->
  Spec.ends_when_settled m -> (forall a, Spec.ends_when_settled (k a)) ->
  Spec.ends_when_settled (bind m k).
Proof.
  intros Hp Hm Hk st Hs. unfold bind. specialize (Hm st Hs). specialize (Hp st).
  destruct (m st) as [[a | e |] st1]; cbn in *; try discriminate; [| congruence].
  apply Hk. eapply settles_suffix; [| exact Hs]. exact (Hp _ _ eq_refl).
Qed.

Lemma ends_try_catch {A : Type} (m : M A) (h : JsError -> M A) :
  Spec.preserves Spec.net_shrinks m ->
  Spec.ends_when_settled m -> (forall e, Spec.ends_when_settled (h e)) ->
  Spec.ends_when_settled (try_catch m h).
Proof.
  intros Hp Hm Hh st Hs. unfold try_catch. specialize (Hm st Hs). specialize (Hp st).
  destruct (m st) as [[a | e |] st1]; cbn in *; try discriminate; [| congruence].
  apply Hh. eapply settles_suffix; [| exact Hs]. exact (Hp _ _ eq_refl).
Qed.

Lemma ends_with_net {A : Type} (m : M A) (net : list FetchOutcome) :
  Spec.ends_when_settled m -> Spec.settles net = true ->
  Spec.never_stuck (fun st => m (set_net net st)).
Proof. intros Hm Hs st. apply Hm. exact Hs. Qed.

Ltac preorder := try (match goal with |- PreOrder _ => typeclasses eauto end).

Ltac preserves_step :=
  first
    [ apply preserves_ret; preorder
    | apply preserves_throw; preorder
    | apply preserves_get; preorder
    | apply preserves_bind; preorder; [| intros ?]
    | apply preserves_try_catch; preorder; [| intros ?]
    | apply preserves_try_finally; preorder
    | apply preserves_for_each; preorder; intros ?
    | apply preserves_map_each; preorder; intros ? ].

Ltac never_stuck_step :=
  first
    [ apply never_stuck_ret
    | apply never_stuck_throw
    | apply never_stuck_effect
    | apply never_stuck_bind; [| intros ?]
    | apply never_stuck_try_catch; [| intros ?]
    | apply never_stuck_try_finally
    | apply never_stuck_for_each; intros ?
    | apply never_stuck_map_each; intros ? ].

Section FetcherSteps.

Context {W : World}.

Variable cookie : option string.

Lemma request_is_fetcher_event (evs : list Event) :
  forallb Spec.is_request evs = true -> forallb Spec.fetcher_event evs = true.
Proof.
  intros H. apply forallb_forall. intros e He.
  pose proof (proj1 (forallb_forall _ _) H e He) as Hr.
  destruct e; cbn in *; congruence.
Qed.

Lemma fetchWithRedirectM_net_step (url : string) (method : Method) :
  Spec.preserves Spec.net_step (Fetcher.fetchWithRedirectM cookie url method).
Proof.
  intros st r st' H. unfold Fetcher.fetchWithRedirectM in H.
  pose proof (fetchWithRedirect_facts cookie (st_net st) url method true) as Hf.
  destruct (Fetcher.fetchWithRedirect cookie (st_net st) url method true)
    as [[r0 evs] rest].
  destruct Hf as (_ & He & Hs). inversion H; subst. repeat split; try reflexivity.
  - exists evs. split; [reflexivity | now apply request_is_fetcher_event].
  - exact Hs.
Qed.

Lemma fetchWithRedirectM_shrinks (url : string) (method : Method) :
  Spec.preserves Spec.net_shrinks (Fetcher.fetchWithRedirectM cookie url method).
Proof.
  eapply preserves_weaken; [apply net_step_shrinks | apply fetchWithRedirectM_net_step].
Qed.

Lemma fetchWithRedirectM_ends (url : string) (method : Method) :
  Spec.ends_when_settled (Fetcher.fetchWithRedirectM cookie url method).
Proof.
  intros st Hs. unfold Fetcher.fetchWithRedirectM.
  pose proof (fetchWithRedirect_facts cookie (st_net st) url method true) as Hf.
  destruct (Fetcher.fetchWithRedirect cookie (st_net st) url method true)
    as [[r0 evs] rest].
  destruct Hf as (Hr & _ & _). exact (Hr Hs).
Qed.

Lemma text_net_step (res : Response) : Spec.preserves Spec.net_step (Fetcher.text res).
Proof.
  unfold Fetcher.text. destruct (res_body res) as [[data | written e] |];
    preserves_step.
Qed.

Lemma text_never_stuck (res : Response) : Spec.never_stuck (Fetcher.text res).
Proof.
  unfold Fetcher.text. destruct (res_body res) as [[data | written e] |];
    never_stuck_step.
Qed.

Lemma log_net_step (level : LogLevel) (text : string) (err : option JsError) :
  Spec.preserves Spec.net_step (log "Fetcher" level text err).
Proof.
  apply preserves_effect; preorder. intros st. now apply net_step_emit.
Qed.

Lemma sleep_net_step {A : Type} (fn : M A) (ms : Z) :
  Spec.preserves Spec.net_step fn ->
  Spec.preserves Spec.net_step (Fetcher.sleepBeforeExecute fn ms).
Proof.
  intros Hfn. unfold Fetcher.sleepBeforeExecute. preserves_step; [| exact Hfn].
  apply preserves_effect; preorder. intros st. now apply net_step_emit.
Qed.

Lemma sleep_never_stuck {A : Type} (fn : M A) (ms : Z) :
  Spec.never_stuck fn -> Spec.never_stuck (Fetcher.sleepBeforeExecute fn ms).
Proof.
  intros Hfn. unfold Fetcher.sleepBeforeExecute. never_stuck_step; [| exact Hfn].
  never_stuck_step.
Qed.

Lemma stuck_preserves (R : State -> State -> Prop) {HR : PreOrder R} {A : Type} :
  Spec.preserves R (fun st : State => (@Stuck A, st)).
Proof. intros st r st' H. inversion H; subst. reflexivity. Qed.

Lemma fetchHTML_rt_net_step (budget : nat) (args : Fetcher.FetchArgs) :
  forall rt, Spec.preserves Spec.net_step (Fetcher.fetchHTML_rt cookie budget args rt).
Proof.
  induction budget as [| b IH]; intros rt; cbn [Fetcher.fetchHTML_rt].
  - preserves_step.
    + preserves_step; [apply fetchWithRedirectM_net_step |].
      preserves_step; [apply text_net_step | preserves_step].
    + destruct (Fetcher.is_abort_or_fatal e); [preserves_step |].
      destruct (rt <? Fetcher.fa_maxRetries args)%nat; [| preserves_step].
      apply stuck_preserves; preorder.
  - preserves_step.
    + preserves_step; [apply fetchWithRedirectM_net_step |].
      preserves_step; [apply text_net_step | preserves_step].
    + destruct (Fetcher.is_abort_or_fatal e); [preserves_step |].
      destruct (rt <? Fetcher.fa_maxRetries args)%nat; [| preserves_step].
      preserves_step; [apply log_net_step |].
      apply sleep_net_step. apply IH.
Qed.

Lemma sleep_ends {A : Type} (fn : M A) (ms : Z) :
  Spec.ends_when_settled fn -> Spec.ends_when_settled (Fetcher.sleepBeforeExecute fn ms).
Proof.
  intros Hfn st Hs. unfold Fetcher.sleepBeforeExecute, bind, effect. now apply Hfn.
Qed.

(** One attempt of [fetchHTML]: the [try] block. *)
Lemma fetch_text_net_step (args : Fetcher.FetchArgs) :
  Spec.preserves Spec.net_step
    (let* res := Fetcher.fetchWithRedirectM cookie (Fetcher.fa_url args) GET in
     let* html := Fetcher.text res in
     ret (html, res_url res)).
Proof.
  preserves_step; [apply fetchWithRedirectM_net_step |].
  preserves_step; [apply text_net_step | preserves_step].
Qed.

Lemma fetch_text_ends (args : Fetcher.FetchArgs) :
  Spec.ends_when_settled
    (let* res := Fetcher.fetchWithRedirectM cookie (Fetcher.fa_url args) GET in
     let* html := Fetcher.text res in
     ret (html, res_url res)).
Proof.
  apply ends_bind;
    [apply fetchWithRedirectM_shrinks | apply fetchWithRedirectM_ends | intros res].
  apply ends_of_never_stuck.
  never_stuck_step; [apply text_never_stuck | never_stuck_step].
Qed.

Lemma fetchHTML_rt_ends (budget : nat) (args : Fetcher.FetchArgs) :
  forall rt, Fetcher.fa_maxRetries args <= rt + budget ->
    Spec.ends_when_settled (Fetcher.fetchHTML_rt cookie budget args rt).
Proof.
  induction budget as [| b IH]; intros rt Hb; cbn [Fetcher.fetchHTML_rt];
    (apply ends_try_catch;
     [ eapply preserves_weaken; [apply net_step_shrinks | apply fetch_text_net_step]
     | apply fetch_text_ends
     | intros e ]);
    (destruct (Fetcher.is_abort_or_fatal e);
     [apply ends_of_never_stuck; never_stuck_step |]);
    (destruct (rt <? Fetcher.fa_maxRetries args)%nat eqn:Hlt;
     [| apply ends_of_never_stuck; never_stuck_step]).
  - apply Nat.ltb_lt in Hlt. lia.
  - intros st Hs. unfold bind, log, effect. apply sleep_ends; [| exact Hs].
    apply IH. lia.
Qed.

Lemma fetchHTML_net_step (args : Fetcher.FetchArgs) :
  Spec.preserves Spec.net_step (Fetcher.fetchHTML cookie args).
Proof. apply fetchHTML_rt_net_step. Qed.

Lemma fetchHTML_ends (args : Fetcher.FetchArgs) :
  Spec.ends_when_settled (Fetcher.fetchHTML cookie args).
Proof. apply fetchHTML_rt_ends. lia. Qed.

End FetcherSteps.

Lemma disk_step_preorder : PreOrder Spec.disk_step.
Proof.
  split.
  - intros st. repeat split; reflexivity.
  - intros st1 st2 st3 (S1 & E1 & N1) (S2 & E2 & N2).
    repeat split; try congruence; etransitivity; eauto.
Qed.

#[export] Existing Instance disk_step_preorder.

Lemma net_step_disk_step (st st' : State) :
  Spec.net_step st st' -> Spec.disk_step st st'.
Proof. intros (S1 & _ & _ & E1 & N1). repeat split; assumption. Qed.

Lemma disk_step_fetcher_step (st st' : State) :
  Spec.disk_step st st' -> Spec.fetcher_step st st'.
Proof. intros (S1 & E1 & _). split; assumption. Qed.

Lemma disk_step_files (evs : list Event) (g : gmap string File -> gmap string File)
  (st : State) :
  forallb Spec.fetcher_event evs = true ->
  Spec.disk_step st (emit evs (set_files g st)).
Proof.
  intros HP. repeat split; try reflexivity. exists evs. split; [reflexivity | exact HP].
Qed.

Lemma disk_step_dirs (evs : list Event) (g : gset string -> gset string) (st : State) :
  forallb Spec.fetcher_event evs = true ->
  Spec.disk_step st (emit evs (set_dirs g st)).
Proof.
  intros HP. repeat split; try reflexivity. exists evs. split; [reflexivity | exact HP].
Qed.

Lemma disk_step_emit (evs : list Event) (st : State) :
  forallb Spec.fetcher_event evs = true -> Spec.disk_step st (emit evs st).
Proof.
  intros HP. repeat split; try reflexivity. exists evs. split; [reflexivity | exact HP].
Qed.

Section FetcherDisk.

Context {W : World}.

Variable cookie : option string.

Lemma ensureDirSync_disk_step (p : string) : Spec.preserves Spec.disk_step (ensureDirSync p).
Proof. apply preserves_effect; preorder. intros st. now apply disk_step_dirs. Qed.

Lemma unlinkSync_disk_step (p : string) : Spec.preserves Spec.disk_step (unlinkSync p).
Proof. apply preserves_effect; preorder. intros st. now apply disk_step_files. Qed.

Lemma renameSync_disk_step (a b : string) : Spec.preserves Spec.disk_step (renameSync a b).
Proof. apply preserves_effect; preorder. intros st. now apply disk_step_files. Qed.

Lemma lstatSync_disk_step (p : string) : Spec.preserves Spec.disk_step (lstatSync p).
Proof.
  intros st r st' H. unfold lstatSync in H.
  destruct (existsSync p st); inversion H; subst; reflexivity.
Qed.

Lemma lstatSync_never_stuck (p : string) : Spec.never_stuck (lstatSync p).
Proof. intros st. unfold lstatSync. destruct (existsSync p st); discriminate. Qed.

Lemma cleanupDownload_disk_step (p : string) :
  Spec.preserves Spec.disk_step (Fetcher.cleanupDownload p).
Proof.
  intros st r st' H. unfold Fetcher.cleanupDownload in H.
  destruct (existsSync p st).
  - eapply unlinkSync_disk_step; eauto.
  - inversion H; subst; reflexivity.
Qed.

Lemma cleanupDownload_never_stuck (p : string) :
  Spec.never_stuck (Fetcher.cleanupDownload p).
Proof.
  intros st. unfold Fetcher.cleanupDownload. destruct (existsSync p st); discriminate.
Qed.

Lemma commitDownload_disk_step (a b : string) :
  Spec.preserves Spec.disk_step (Fetcher.commitDownload a b).
Proof.
  unfold Fetcher.commitDownload. preserves_step.
  - preserves_step; [apply lstatSync_disk_step | apply renameSync_disk_step].
  - apply cleanupDownload_disk_step.
Qed.

Lemma commitDownload_never_stuck (a b : string) :
  Spec.never_stuck (Fetcher.commitDownload a b).
Proof.
  unfold Fetcher.commitDownload. never_stuck_step.
  - never_stuck_step; [apply lstatSync_never_stuck | unfold renameSync; never_stuck_step].
  - apply cleanupDownload_never_stuck.
Qed.

Lemma pipeline_disk_step (body : Body) (p : string) :
  Spec.preserves Spec.disk_step (Fetcher.pipeline body p).
Proof.
  unfold Fetcher.pipeline. destruct body as [data | written e].
  - apply preserves_effect; preorder. intros st. now apply disk_step_files.
  - preserves_step; [| preserves_step].
    apply preserves_effect; preorder. intros st. now apply disk_step_files.
Qed.

Lemma pipeline_never_stuck (body : Body) (p : string) :
  Spec.never_stuck (Fetcher.pipeline body p).
Proof.
  unfold Fetcher.pipeline. destruct body as [data | written e]; repeat never_stuck_step.
Qed.

Lemma assertResponseOK_disk_step (res : Response) (u : string) :
  Spec.preserves Spec.disk_step (Fetcher.assertResponseOK res u).
Proof.
  unfold Fetcher.assertResponseOK. destruct (negb (res_ok res)); [preserves_step |].
  destruct (res_body res); preserves_step.
Qed.

Lemma assertResponseOK_never_stuck (res : Response) (u : string) :
  Spec.never_stuck (Fetcher.assertResponseOK res u).
Proof.
  unfold Fetcher.assertResponseOK. destruct (negb (res_ok res)); [never_stuck_step |].
  destruct (res_body res); never_stuck_step.
Qed.

Lemma fetchWithRedirectM_disk_step (url : string) (method : Method) :
  Spec.preserves Spec.disk_step (Fetcher.fetchWithRedirectM cookie url method).
Proof.
  eapply preserves_weaken; [apply net_step_disk_step | apply fetchWithRedirectM_net_step].
Qed.

Lemma log_disk_step (level : LogLevel) (text : string) (err : option JsError) :
  Spec.preserves Spec.disk_step (log "Fetcher" level text err).
Proof. apply preserves_effect; preorder. intros st. now apply disk_step_emit. Qed.

Lemma sleep_disk_step {A : Type} (fn : M A) (ms : Z) :
  Spec.preserves Spec.disk_step fn ->
  Spec.preserves Spec.disk_step (Fetcher.sleepBeforeExecute fn ms).
Proof.
  intros Hfn. unfold Fetcher.sleepBeforeExecute. preserves_step; [| exact Hfn].
  apply preserves_effect; preorder. intros st. now apply disk_step_emit.
Qed.

Lemma saveBody_disk_step (body : Body) (destFilePath : string) :
  Spec.preserves Spec.disk_step (Fetcher.saveBody body destFilePath).
Proof.
  unfold Fetcher.saveBody. preserves_step.
  - preserves_step; [apply ensureDirSync_disk_step |].
    preserves_step; [apply pipeline_disk_step | apply commitDownload_disk_step].
  - preserves_step; [apply cleanupDownload_disk_step | preserves_step].
Qed.

Lemma saveBody_never_stuck (body : Body) (destFilePath : string) :
  Spec.never_stuck (Fetcher.saveBody body destFilePath).
Proof.
  unfold Fetcher.saveBody. never_stuck_step.
  - never_stuck_step; [unfold ensureDirSync; never_stuck_step |].
    never_stuck_step; [apply pipeline_never_stuck | apply commitDownload_never_stuck].
  - never_stuck_step; [apply cleanupDownload_never_stuck | never_stuck_step].
Qed.

Lemma attemptDownload_disk_step (res : Response)
  (params : Fetcher.DownloadAttachmentParams) :
  Spec.preserves Spec.disk_step (Fetcher.attemptDownload res params).
Proof.
  unfold Fetcher.attemptDownload.
  preserves_step; [apply assertResponseOK_disk_step | apply saveBody_disk_step].
Qed.

Lemma attemptDownload_never_stuck (res : Response)
  (params : Fetcher.DownloadAttachmentParams) :
  Spec.never_stuck (Fetcher.attemptDownload res params).
Proof.
  unfold Fetcher.attemptDownload.
  never_stuck_step; [apply assertResponseOK_never_stuck | apply saveBody_never_stuck].
Qed.

Lemma downloadAttachment_rt_disk_step (budget : nat)
  (params : Fetcher.DownloadAttachmentParams) :
  forall rt,
    Spec.preserves Spec.disk_step (Fetcher.downloadAttachment_rt cookie budget params rt).
Proof.
  induction budget as [| b IH]; intros rt; cbn [Fetcher.downloadAttachment_rt];
    (destruct (Fetcher.newRequest (Fetcher.src params) GET); [| preserves_step]);
    (preserves_step; [apply fetchWithRedirectM_disk_step |]);
    (preserves_step; [apply attemptDownload_disk_step |]);
    (destruct (Fetcher.is_abort_or_fatal e); [preserves_step |]);
    (destruct (rt <? Fetcher.maxRetries params)%nat; [| preserves_step]).
  - apply stuck_preserves; preorder.
  - preserves_step; [apply log_disk_step | apply sleep_disk_step; apply IH].
Qed.

Lemma disk_step_shrinks (st st' : State) :
  Spec.disk_step st st' -> Spec.net_shrinks st st'.
Proof. intros (_ & _ & N1). exact N1. Qed.

Lemma downloadAttachment_rt_ends (budget : nat)
  (params : Fetcher.DownloadAttachmentParams) :
  forall rt, Fetcher.maxRetries params <= rt + budget ->
    Spec.ends_when_settled (Fetcher.downloadAttachment_rt cookie budget params rt).
Proof.
  induction budget as [| b IH]; intros rt Hb; cbn [Fetcher.downloadAttachment_rt];
    (destruct (Fetcher.newRequest (Fetcher.src params) GET);
     [| apply ends_of_never_stuck; never_stuck_step]);
    (apply ends_bind;
     [apply fetchWithRedirectM_shrinks | apply fetchWithRedirectM_ends | intros res]);
    (apply ends_try_catch;
     [ eapply preserves_weaken; [apply disk_step_shrinks | apply attemptDownload_disk_step]
     | apply ends_of_never_stuck, attemptDownload_never_stuck
     | intros e ]);
    (destruct (Fetcher.is_abort_or_fatal e);
     [apply ends_of_never_stuck; never_stuck_step |]);
    (destruct (rt <? Fetcher.maxRetries params)%nat eqn:Hlt;
     [| apply ends_of_never_stuck; never_stuck_step]).
  - apply Nat.ltb_lt in Hlt. lia.
  - intros st Hs. unfold bind, log, effect. apply sleep_ends; [| exact Hs].
    apply IH. lia.
Qed.

Lemma downloadAttachment_disk_step (params : Fetcher.DownloadAttachmentParams) :
  Spec.preserves Spec.disk_step (Fetcher.downloadAttachment cookie params).
Proof. apply downloadAttachment_rt_disk_step. Qed.

Lemma downloadAttachment_ends (params : Fetcher.DownloadAttachmentParams) :
  Spec.ends_when_settled (Fetcher.downloadAttachment cookie params).
Proof. apply downloadAttachment_rt_ends. lia. Qed.

Lemma fetchFilenameByHeaders_rt_net_step (budget : nat) (args : Fetcher.FetchArgs) :
  forall rt,
    Spec.preserves Spec.net_step (Fetcher.fetchFilenameByHeaders_rt cookie budget args rt).
Proof.
  induction budget as [| b IH]; intros rt; cbn [Fetcher.fetchFilenameByHeaders_rt];
    (destruct (url_href (Fetcher.fa_url args)); [| preserves_step]);
    (preserves_step;
     [ preserves_step; [apply fetchWithRedirectM_net_step |];
       destruct (res_contentDisposition a) as [d |]; [| preserves_step];
       destruct (truthy_string d); [| preserves_step];
       destruct (disposition_filename d); preserves_step
     | ]);
    (destruct (Fetcher.is_abort_or_fatal e); [preserves_step |]);
    (destruct (rt <? Fetcher.fa_maxRetries args)%nat; [| preserves_step]).
  - apply stuck_preserves; preorder.
  - preserves_step; [apply log_net_step | apply sleep_net_step; apply IH].
Qed.

Lemma fetchFilenameByHeaders_rt_ends (budget : nat) (args : Fetcher.FetchArgs) :
  forall rt, Fetcher.fa_maxRetries args <= rt + budget ->
    Spec.ends_when_settled (Fetcher.fetchFilenameByHeaders_rt cookie budget args rt).
Proof.
  induction budget as [| b IH]; intros rt Hb; cbn [Fetcher.fetchFilenameByHeaders_rt];
    (destruct (url_href (Fetcher.fa_url args));
     [| apply ends_of_never_stuck; never_stuck_step]);
    (apply ends_try_catch;
     [ eapply preserves_weaken; [apply net_step_shrinks |];
       preserves_step; [apply fetchWithRedirectM_net_step |];
       destruct (res_contentDisposition a) as [d |]; [| preserves_step];
       destruct (truthy_string d); [| preserves_step];
       destruct (disposition_filename d); preserves_step
     | apply ends_bind;
       [apply fetchWithRedirectM_shrinks | apply fetchWithRedirectM_ends | intros res];
       apply ends_of_never_stuck;
       destruct (res_contentDisposition res) as [d |]; [| never_stuck_step];
       destruct (truthy_string d); [| never_stuck_step];
       destruct (disposition_filename d); never_stuck_step
     | intros e ]);
    (destruct (Fetcher.is_abort_or_fatal e);
     [apply ends_of_never_stuck; never_stuck_step |]);
    (destruct (rt <? Fetcher.fa_maxRetries args)%nat eqn:Hlt;
     [| apply ends_of_never_stuck; never_stuck_step]).
  - apply Nat.ltb_lt in Hlt. lia.
  - intros st Hs. unfold bind, log, effect. apply sleep_ends; [| exact Hs].
    apply IH. lia.
Qed.

End FetcherDisk.

(** ** The orchestrator: what does not touch transcripts and markers *)

Lemma preserves_with_net (R : State -> State -> Prop) {A : Type} (m : M A)
  (net : list FetchOutcome) :
  (forall st st', R (set_net net st) st' -> R st st') ->
  Spec.preserves R m -> Spec.preserves R (fun st => m (set_net net st)).
Proof. intros HR Hm st r st' H. apply HR. eapply Hm; eauto. Qed.

Lemma fetcher_step_set_net (net : list FetchOutcome) (st st' : State) :
  Spec.fetcher_step (set_net net st) st' -> Spec.fetcher_step st st'.
Proof. intros [HS HE]. split; assumption. Qed.

Lemma quiet_step_emit (evs : list Event) (st : State) :
  forallb Spec.not_save evs = true -> Spec.quiet_step st (emit evs st).
Proof. intros HP. split; [reflexivity | now apply extends_with_emit]. Qed.

Lemma quiet_step_set_stats (f : DownloadStats -> DownloadStats) (st : State) :
  (forall s, processedMessageCount (f s) = processedMessageCount s) ->
  Spec.quiet_step st (set_stats f st).
Proof.
  intros Hf. split; [apply Hf |]. exists []. split; [| reflexivity].
  cbn. now rewrite app_nil_r.
Qed.

Section OrchestratorQuiet.

Context {W : World} {HS : Spec.Settling W}.

Variable config : DownloaderConfig.

Lemma fetchPage_fetcher_step (url : string) :
  Spec.preserves Spec.fetcher_step (fetchPage config url).
Proof.
  unfold fetchPage.
  apply (preserves_with_net Spec.fetcher_step
           (Fetcher.fetchHTML (rq_cookie (request config)) _) (site url)
           (fetcher_step_set_net (site url))).
  eapply preserves_weaken; [apply net_step_fetcher_step | apply fetchHTML_net_step].
Qed.

Lemma fetchPage_never_stuck (url : string) : Spec.never_stuck (fetchPage config url).
Proof. intros st. unfold fetchPage. apply fetchHTML_ends. apply Spec.site_settles. Qed.

Lemma fetchPage_quiet (url : string) : Spec.preserves Spec.quiet_step (fetchPage config url).
Proof.
  eapply preserves_weaken; [apply fetcher_step_quiet | apply fetchPage_fetcher_step].
Qed.

Lemma scheduleDownload_fetcher_step (src dest : string) :
  Spec.preserves Spec.fetcher_step (scheduleDownload config src dest).
Proof.
  unfold scheduleDownload.
  apply (preserves_with_net Spec.fetcher_step
           (Fetcher.downloadAttachment (rq_cookie (request config)) _) (site src)
           (fetcher_step_set_net (site src))).
  eapply preserves_weaken; [apply disk_step_fetcher_step | apply downloadAttachment_disk_step].
Qed.

Lemma scheduleDownload_never_stuck (src dest : string) :
  Spec.never_stuck (scheduleDownload config src dest).
Proof.
  intros st. unfold scheduleDownload. apply downloadAttachment_ends. apply Spec.site_settles.
Qed.

Lemma xlog_quiet (level : LogLevel) (text : string) (err : option JsError) :
  Spec.preserves Spec.quiet_step (xlog level text err).
Proof.
  unfold xlog, log. destruct err as [e |]; [destruct (is_limiter_stop e) |];
    try preserves_step;
    (apply preserves_effect; preorder; intros st; now apply quiet_step_emit).
Qed.

Lemma xlog_never_stuck (level : LogLevel) (text : string) (err : option JsError) :
  Spec.never_stuck (xlog level text err).
Proof.
  unfold xlog, log. destruct err as [e |]; [destruct (is_limiter_stop e) |];
    never_stuck_step.
Qed.

Lemma updateStatsOnError_quiet (error : JsError) :
  Spec.preserves Spec.quiet_step (updateStatsOnError error).
Proof.
  unfold updateStatsOnError. destruct (negb (is_limiter_stop error)); [| preserves_step].
  apply preserves_effect; preorder. intros st. now apply quiet_step_set_stats.
Qed.

Lemma updateStatsOnError_never_stuck (error : JsError) :
  Spec.never_stuck (updateStatsOnError error).
Proof.
  unfold updateStatsOnError. destruct (negb (is_limiter_stop error)); never_stuck_step.
Qed.

Lemma downloadMessageAttachment_quiet (attachment : ThreadMessageAttachment)
  (destDir : string) :
  Spec.preserves Spec.quiet_step (downloadMessageAttachment config attachment destDir).
Proof.
  intros st r st' H. unfold downloadMessageAttachment in H.
  destruct (existsSync _ st && negb (overwrite config)).
  - inversion H; subst. now apply quiet_step_set_stats.
  - revert st r st' H.
    change (Spec.preserves Spec.quiet_step
              (try_catch
                 (do* scheduleDownload config (att_url attachment)
                        (path_resolve destDir (getMessageAttachmentFilename attachment)) in
                  effect (set_stats incr_downloadedAttachmentCount))
                 (fun error =>
                    if isErrorNonContinuable error then throw error
                    else
                      do* xlog LError "Error downloading attachment: " (Some error) in
                      updateStatsOnError error))).
    preserves_step.
    + preserves_step.
      * eapply preserves_weaken; [apply fetcher_step_quiet |].
        apply scheduleDownload_fetcher_step.
      * apply preserves_effect; preorder. intros st. now apply quiet_step_set_stats.
    + destruct (isErrorNonContinuable e); [preserves_step |].
      preserves_step; [apply xlog_quiet | apply updateStatsOnError_quiet].
Qed.

Lemma downloadMessageAttachment_never_stuck (attachment : ThreadMessageAttachment)
  (destDir : string) :
  Spec.never_stuck (downloadMessageAttachment config attachment destDir).
Proof.
  intros st. unfold downloadMessageAttachment.
  destruct (existsSync _ st && negb (overwrite config)); [discriminate |].
  revert st.
  change (Spec.never_stuck
            (try_catch
               (do* scheduleDownload config (att_url attachment)
                      (path_resolve destDir (getMessageAttachmentFilename attachment)) in
                effect (set_stats incr_downloadedAttachmentCount))
               (fun error =>
                  if isErrorNonContinuable error then throw error
                  else
                    do* xlog LError "Error downloading attachment: " (Some error) in
                    updateStatsOnError error))).
  never_stuck_step.
  - never_stuck_step; [apply scheduleDownload_never_stuck | never_stuck_step].
  - destruct (isErrorNonContinuable e); [never_stuck_step |].
    never_stuck_step; [apply xlog_never_stuck | apply updateStatsOnError_never_stuck].
Qed.

Lemma ensureDirSync_quiet (p : string) : Spec.preserves Spec.quiet_step (ensureDirSync p).
Proof.
  apply preserves_effect; preorder. intros st. split; [reflexivity |].
  exists [EvEnsureDir p]. split; reflexivity.
Qed.

Lemma createMessageFile_quiet (threadPage : ThreadPage) (destDir : string) (ow : bool) :
  Spec.preserves Spec.quiet_step (createMessageFile threadPage destDir ow).
Proof.
  intros st r st' H. unfold createMessageFile in H.
  destruct (negb ow && existsSync _ st); inversion H; subst.
  - reflexivity.
  - split; [reflexivity |]. eexists [_]. split; reflexivity.
Qed.

Lemma createMessageFile_returns (threadPage : ThreadPage) (destDir : string) (ow : bool)
  (st : State) :
  exists p st', createMessageFile threadPage destDir ow st = (Ret p, st').
Proof.
  unfold createMessageFile. destruct (negb ow && existsSync _ st); eauto.
Qed.

Lemma fetchFilename_quiet (args : Fetcher.FetchArgs) (net : list FetchOutcome) :
  Spec.preserves Spec.quiet_step
    (fun st => Fetcher.fetchFilenameByHeaders (rq_cookie (request config)) args
                 (set_net net st)).
Proof.
  eapply preserves_weaken; [apply fetcher_step_quiet |].
  apply (preserves_with_net Spec.fetcher_step
           (Fetcher.fetchFilenameByHeaders (rq_cookie (request config)) args) net
           (fetcher_step_set_net net)).
  eapply preserves_weaken; [apply net_step_fetcher_step |].
  apply fetchFilenameByHeaders_rt_net_step.
Qed.

Lemma setAttachmentFilename_quiet (attachment : ThreadMessageAttachment) :
  Spec.preserves Spec.quiet_step (setAttachmentFilename config attachment).
Proof.
  unfold setAttachmentFilename. preserves_step.
  - preserves_step; [apply fetchFilename_quiet | preserves_step].
  - destruct (isErrorNonContinuable e); [preserves_step |].
    preserves_step; [apply xlog_quiet | preserves_step].
Qed.

Lemma setAttachmentFilename_never_stuck (attachment : ThreadMessageAttachment) :
  Spec.never_stuck (setAttachmentFilename config attachment).
Proof.
  unfold setAttachmentFilename. never_stuck_step.
  - never_stuck_step; [| never_stuck_step].
    intros st. apply fetchFilenameByHeaders_rt_ends; [lia | apply Spec.site_settles].
  - destruct (isErrorNonContinuable e); [never_stuck_step |].
    never_stuck_step; [apply xlog_never_stuck | never_stuck_step].
Qed.

Lemma resolveFilenames_quiet (messages : list ThreadMessage) :
  Spec.preserves Spec.quiet_step (resolveFilenames config messages).
Proof.
  unfold resolveFilenames. preserves_step. preserves_step; [| preserves_step].
  preserves_step. destruct (negb (truthy_opt (att_filename x0))); [| preserves_step].
  apply setAttachmentFilename_quiet.
Qed.

Lemma resolveFilenames_never_stuck (messages : list ThreadMessage) :
  Spec.never_stuck (resolveFilenames config messages).
Proof.
  unfold resolveFilenames. never_stuck_step. never_stuck_step; [| never_stuck_step].
  never_stuck_step. destruct (negb (truthy_opt (att_filename x0))); [| never_stuck_step].
  apply setAttachmentFilename_never_stuck.
Qed.

End OrchestratorQuiet.

(** ** Messages, transcripts and markers of one page *)

Lemma marked_app (a b : list Event) :
  Spec.marked a -> Spec.marked b -> Spec.marked (a ++ b).
Proof.
  intros Ha Hb. induction Ha; cbn.
  - exact Hb.
  - now apply Spec.marked_other.
  - now apply Spec.marked_append.
  - now apply Spec.marked_pair.
Qed.

Lemma not_save_marked (evs : list Event) :
  forallb Spec.not_save evs = true -> Spec.marked evs.
Proof.
  induction evs as [| e evs IH]; cbn; intros H.
  - constructor.
  - apply andb_true_iff in H as [He Hevs]. apply Spec.marked_other; [| now apply IH].
    unfold Spec.not_save in He. now apply negb_true_iff in He.
Qed.

Lemma not_save_saved_ids (evs : list Event) :
  forallb Spec.not_save evs = true -> Spec.saved_ids evs = [].
Proof.
  induction evs as [| e evs IH]; cbn; intros H; [reflexivity |].
  apply andb_true_iff in H as [He Hevs].
  destruct e; cbn in *; try discriminate; now apply IH.
Qed.

Lemma not_save_status_ids (evs : list Event) :
  forallb Spec.not_save evs = true -> Spec.status_ids evs = [].
Proof.
  induction evs as [| e evs IH]; cbn; intros H; [reflexivity |].
  apply andb_true_iff in H as [He Hevs].
  destruct e; cbn in *; try discriminate; now apply IH.
Qed.

Lemma saved_ids_app (a b : list Event) :
  Spec.saved_ids (a ++ b) = Spec.saved_ids a ++ Spec.saved_ids b.
Proof. apply omap_app. Qed.

Lemma status_ids_app (a b : list Event) :
  Spec.status_ids (a ++ b) = Spec.status_ids a ++ Spec.status_ids b.
Proof. apply omap_app. Qed.

Lemma page_step_trans (ids1 ids2 : list Z) (st1 st2 st3 : State) :
  Spec.page_step ids1 st1 st2 -> Spec.page_step ids2 st2 st3 ->
  Spec.page_step (ids1 ++ ids2) st1 st3.
Proof.
  intros (e1 & T1 & M1 & S1 & U1 & C1) (e2 & T2 & M2 & S2 & U2 & C2).
  exists (e1 ++ e2). repeat split.
  - now rewrite T2, T1, app_assoc.
  - now apply marked_app.
  - rewrite saved_ids_app. congruence.
  - rewrite status_ids_app. congruence.
  - rewrite C2, C1, length_app. lia.
Qed.

Lemma quiet_page_step (st st' : State) :
  Spec.quiet_step st st' -> Spec.page_step [] st st'.
Proof.
  intros (C & evs & T & P). exists evs. repeat split.
  - exact T.
  - now apply not_save_marked.
  - now apply not_save_saved_ids.
  - now apply not_save_status_ids.
  - cbn. lia.
Qed.

Lemma map_each_ret_map {A B C : Type} (f : A -> M B) (g : A -> C) (h : B -> C)
  (l : list A) :
  (forall x st y st', f x st = (Ret y, st') -> h y = g x) ->
  forall st ys st', map_each f l st = (Ret ys, st') -> map h ys = map g l.
Proof.
  intros Hf. induction l as [| x l IH]; cbn [map_each]; intros st ys st' H.
  - inversion H; subst. reflexivity.
  - unfold bind in H. destruct (f x st) as [[y | e |] st1] eqn:E; try discriminate.
    destruct (map_each f l st1) as [[ys1 | e |] st2] eqn:E2; try discriminate.
    inversion H; subst. cbn. f_equal; [eapply Hf; eauto | eapply IH; eauto].
Qed.

Section PageFacts.

Context {W : World}.

Variable config : DownloaderConfig.

Lemma resolveFilenames_ids (messages messages' : list ThreadMessage) (st st' : State) :
  resolveFilenames config messages st = (Ret messages', st') ->
  map msg_id messages' = map msg_id messages.
Proof.
  unfold resolveFilenames. apply map_each_ret_map.
  intros msg st0 y st1 H. unfold bind in H.
  destruct (map_each _ (msg_attachments msg) st0) as [[atts | e |] st2]; try discriminate.
  inversion H; subst. reflexivity.
Qed.

Lemma attachments_quiet (attachmentSavePath : string) (message : ThreadMessage) :
  Spec.preserves Spec.quiet_step (downloadAttachments config attachmentSavePath message).
Proof.
  unfold downloadAttachments.
  destruct (0 <? length (msg_attachments message))%nat; [| preserves_step].
  preserves_step; [apply ensureDirSync_quiet |].
  preserves_step. apply downloadMessageAttachment_quiet.
Qed.

(** One message of a page: either it is appended, counted and marked, or
    the downloads of its attachments end the page before anything of it is
    written. *)
Lemma processMessage_page_step (threadPage : ThreadPage)
  (attachmentSavePath threadSavePath messageFile : string) (message : ThreadMessage)
  (st : State) (r : Res unit) (st' : State) :
  processMessage config threadPage attachmentSavePath threadSavePath messageFile message st
  = (r, st') ->
  (r = Ret tt /\ Spec.page_step [msg_id message] st st')
  \/ (r <> Ret tt /\ Spec.page_step [] st st').
Proof.
  unfold processMessage. intros H. unfold bind at 1 in H.
  pose proof (attachments_quiet attachmentSavePath message st) as Hq.
  destruct (downloadAttachments config attachmentSavePath message st)
    as [[u | e |] st1] eqn:E.
  - left. cbn in H. inversion H; subst. split; [destruct u; reflexivity |].
    specialize (Hq _ _ eq_refl).
    apply (page_step_trans [] [msg_id message] st st1); [now apply quiet_page_step |].
    eexists [EvSaveMessage messageFile message; EvSaveStatus _ _]. cbn.
    repeat split.
    + rewrite <- app_assoc. reflexivity.
    + apply Spec.marked_pair; [reflexivity | constructor].
    + reflexivity.
    + lia.
  - right. inversion H; subst. split; [discriminate |].
    apply quiet_page_step. exact (Hq _ _ eq_refl).
  - right. inversion H; subst. split; [discriminate |].
    apply quiet_page_step. exact (Hq _ _ eq_refl).
Qed.

Lemma messages_page_step (threadPage : ThreadPage)
  (attachmentSavePath threadSavePath messageFile : string) (messages : list ThreadMessage) :
  forall st r st',
    for_each
      (processMessage config threadPage attachmentSavePath threadSavePath messageFile)
      messages st = (r, st') ->
    exists done,
      done `prefix_of` map msg_id messages
      /\ Spec.page_step done st st'
      /\ (r = Ret tt -> done = map msg_id messages).
Proof.
  induction messages as [| message messages IH]; cbn [for_each]; intros st r st' H.
  - inversion H; subst. exists []. repeat split.
    + reflexivity.
    + apply quiet_page_step. reflexivity.
  - unfold bind in H.
    destruct (processMessage config threadPage attachmentSavePath threadSavePath
                messageFile message st) as [r1 st1] eqn:E.
    apply processMessage_page_step in E as [[-> Hp] | [Hne Hp]].
    + destruct (IH _ _ _ H) as (done & Hpre & Hstep & Hret).
      exists (msg_id message :: done). repeat split.
      * cbn. now apply prefix_cons.
      * exact (page_step_trans [msg_id message] done _ _ _ Hp Hstep).
      * intros Hr. cbn. f_equal. now apply Hret.
    + assert (Hr : r = r1 /\ st' = st1)
        by (destruct r1 as [[] | e |]; [congruence | | ]; now inversion H).
      destruct Hr as [-> ->]. exists []. repeat split.
      * apply prefix_nil.
      * exact Hp.
      * intros Hr. congruence.
Qed.

(** A page: the messages appended, counted and marked are a first part of
    the messages of the page, in their order, and all of them when the page
    is persisted without an error. *)
Lemma persistPage_page_step (context : option DownloadThreadContext)
  (threadPage : ThreadPage) (st : State) (r : Res unit) (st' : State) :
  persistPage config context threadPage st = (r, st') ->
  exists done,
    done `prefix_of` map msg_id (tp_messages threadPage)
    /\ Spec.page_step done st st'
    /\ (r = Ret tt -> done = map msg_id (tp_messages threadPage)).
Proof.
  unfold persistPage. intros H. unfold bind at 1 in H.
  pose proof (resolveFilenames_quiet config (tp_messages threadPage) st) as Hq.
  destruct (resolveFilenames config (tp_messages threadPage) st)
    as [[messages | e |] st1] eqn:E.
  - specialize (Hq _ _ eq_refl). apply resolveFilenames_ids in E.
    unfold bind at 1 in H. cbn [ensureDirSync effect] in H.
    match type of H with
    | context [createMessageFile ?tp ?d ?o] =>
        destruct (createMessageFile_returns tp d o
                    (emit [EvEnsureDir d] (set_dirs (fun ds => {[d]} ∪ ds) st1)))
          as (mf & st2 & Hc);
        pose proof (createMessageFile_quiet tp d o _ _ _ Hc) as Hq2
    end.
    unfold bind at 1 in H. rewrite Hc in H. cbn [Parser.with_messages tp_messages] in H.
    apply messages_page_step in H as (done & Hpre & Hstep & Hret).
    rewrite E in Hpre, Hret.
    exists done. repeat split; try assumption.
    apply (page_step_trans [] done st st2); [| exact Hstep].
    apply quiet_page_step. etransitivity; [exact Hq |].
    etransitivity; [| exact Hq2].
    split; [reflexivity |]. eexists [_]. split; reflexivity.
  - inversion H; subst. exists []. repeat split; try discriminate.
    + apply prefix_nil.
    + apply quiet_page_step. exact (Hq _ _ eq_refl).
  - inversion H; subst. exists []. repeat split; try discriminate.
    + apply prefix_nil.
    + apply quiet_page_step. exact (Hq _ _ eq_refl).
Qed.

End PageFacts.

(** ** Resuming at a message *)

Lemma findIndex_Some {A : Type} (p : A -> bool) (l : list A) (i : nat) :
  findIndex p l = Some i ->
  exists pre x post,
    l = pre ++ x :: post /\ length pre = i /\ p x = true
    /\ Forall (fun y => p y = false) pre.
Proof.
  revert i. induction l as [| a l IH]; cbn; intros i H; [discriminate |].
  destruct (p a) eqn:Ha.
  - inversion H; subst. exists [], a, l. repeat split; [exact Ha | constructor].
  - destruct (findIndex p l) as [j |] eqn:E; cbn in H; [| discriminate].
    inversion H; subst. destruct (IH j eq_refl) as (pre & x & post & -> & Hlen & Hx & Hpre).
    exists (a :: pre), x, post. repeat split; cbn; try congruence.
    now constructor.
Qed.

Lemma findIndex_None {A : Type} (p : A -> bool) (l : list A) :
  findIndex p l = None -> Forall (fun y => p y = false) l.
Proof.
  induction l as [| a l IH]; cbn; intros H; [constructor |].
  destruct (p a) eqn:Ha; [discriminate |].
  destruct (findIndex p l); [discriminate |]. constructor; [exact Ha | now apply IH].
Qed.

Lemma findIndex_exists {A : Type} (p : A -> bool) (l : list A) (x : A) :
  In x l -> p x = true -> exists i, findIndex p l = Some i.
Proof.
  induction l as [| a l IH]; cbn; intros Hin Hx; [contradiction |].
  destruct (p a) eqn:Ha; [eauto |].
  destruct Hin as [-> | Hin]; [congruence |].
  destruct (IH Hin Hx) as [i ->]. cbn. eauto.
Qed.

Lemma with_messages_same (threadPage : ThreadPage) :
  Parser.with_messages threadPage (tp_messages threadPage) = threadPage.
Proof. destruct threadPage; reflexivity. Qed.

Section Resume.

Context {W : World}.

Variable config : DownloaderConfig.

(** The parser skips a message without an id, so no message of a parsed
    page has the id 0. *)
Lemma fetched_page_ids_nonzero (url : string) (st st1 : State) (threadPage : ThreadPage) :
  fetchThreadPage config url st = (Ret threadPage, st1) ->
  Forall (fun msg => msg_id msg <> 0%Z) (tp_messages threadPage).
Proof.
  unfold fetchThreadPage, bind. destruct (fetchPage config url st) as [[r | e |] st0];
    try discriminate.
  unfold Parser.parseThreadPage.
  destruct (negb (truthy_Z (tp_id _))); [discriminate |].
  destruct (negb (truthy_string _) || negb (truthy_string _)); [discriminate |].
  intros H. inversion H; subst. cbn [Parser.with_messages tp_messages].
  apply List.Forall_forall. intros msg Hin. apply filter_In in Hin as [_ Ht].
  unfold truthy_Z in Ht. apply negb_true_iff in Ht. now apply Z.eqb_neq in Ht.
Qed.

Lemma dropContinued_found (m : Z) (messages : list ThreadMessage) :
  m <> 0%Z ->
  In m (map msg_id messages) ->
  exists removed x remaining,
    messages = removed ++ x :: remaining
    /\ msg_id x = m
    /\ ~ In m (map msg_id removed)
    /\ dropContinued (Spec.continuingFrom m) messages = remaining.
Proof.
  intros Hm Hin. apply in_map_iff in Hin as (x0 & Hx0 & Hin).
  destruct (findIndex_exists (fun msg => (msg_id msg =? m)%Z) messages x0 Hin) as [i Hi];
    [now apply Z.eqb_eq |].
  destruct (findIndex_Some _ _ _ Hi) as (pre & x & post & -> & Hlen & Hx & Hpre).
  exists pre, x, post. repeat split.
  - now apply Z.eqb_eq.
  - intros Hc. apply in_map_iff in Hc as (y & Hy & Hyin).
    pose proof (proj1 (List.Forall_forall _ _) Hpre y Hyin) as Hf. cbn in Hf.
    apply Z.eqb_neq in Hf. congruence.
  - unfold dropContinued, Spec.continuingFrom. cbn [continueFromMessageID].
    rewrite truthy_Z_true by exact Hm. rewrite Hi.
    rewrite <- Hlen, Nat.add_1_r. clear.
    induction pre as [| a pre IH]; cbn; [reflexivity | exact IH].
Qed.

Lemma dropContinued_absent (m : Z) (messages : list ThreadMessage) :
  ~ In m (map msg_id messages) ->
  dropContinued (Spec.continuingFrom m) messages = messages.
Proof.
  intros Hnot. unfold dropContinued, Spec.continuingFrom. cbn [continueFromMessageID].
  destruct (truthy_Z m); [| reflexivity].
  destruct (findIndex (fun msg => (msg_id msg =? m)%Z) messages) as [i |] eqn:Hi;
    [| reflexivity].
  exfalso. destruct (findIndex_Some _ _ _ Hi) as (pre & x & post & -> & _ & Hx & _).
  apply Hnot. apply in_map_iff. exists x. split; [now apply Z.eqb_eq |].
  apply in_or_app. right. now left.
Qed.

(** With a context that is already continued, the thread handler goes from
    the parsed page to its messages without a look at the resume marker. *)
Lemma downloadThread_continued (self : Call -> M unit) (url : string) (m : Z)
  (st st1 : State) (threadPage : ThreadPage) :
  fetchThreadPage config url st = (Ret threadPage, st1) ->
  downloadThread_with config self url (Spec.continuingFrom m) st
  = finishThreadPage config self
      (Some (Parser.with_messages threadPage
               (dropContinued (Spec.continuingFrom m) (tp_messages threadPage))))
      (persistPage config (Spec.continuingFrom m)
         (Parser.with_messages threadPage
            (dropContinued (Spec.continuingFrom m) (tp_messages threadPage))) st1).
Proof.
  intros H. unfold downloadThread_with. rewrite H. reflexivity.
Qed.

(** A page without messages: the save directory is made sure of, the
    transcript file gets its header if it did not exist, and that is all. *)
Lemma persistPage_no_messages (context : option DownloadThreadContext)
  (threadPage : ThreadPage) (st : State) :
  tp_messages threadPage = [] ->
  exists st2 evs,
    persistPage config context threadPage st = (Ret tt, st2)
    /\ st_stats st2 = st_stats st
    /\ st_trace st2 = st_trace st ++ evs
    /\ forallb Spec.is_housekeeping evs = true.
Proof.
  intros Hnil. unfold persistPage. rewrite Hnil. cbn [resolveFilenames map_each].
  unfold bind at 1. cbn [ret]. unfold bind at 1. cbn [ensureDirSync effect].
  unfold bind at 1. unfold createMessageFile.
  match goal with
  | |- context [if ?c then _ else _] => destruct c
  end; cbn [Parser.with_messages tp_messages for_each ret].
  - eexists _, [_]. repeat split; reflexivity.
  - eexists _, [_; _]. split; [reflexivity |]. split; [reflexivity |].
    split; [cbn; rewrite <- app_assoc; reflexivity | reflexivity].
Qed.

(** C1: the thread handler is called with a continuing context that carries
    the message id [m], and the parsed page holds a message with that id.
    Then the messages of the page split into [removed], the first message
    [x] with id [m], and [remaining]; the handler persists the page with
    [remaining] as its messages, so what is appended, counted and marked
    is a first part of [remaining] in its order, all of it when no error
    ends the page; and when nothing remains, the page is persisted without
    an error, no counter changes, and the only events are the save
    directory and the header of a transcript file that did not exist: no
    message is appended or counted, no marker written, nothing requested. *)
Theorem C1_continuing_drops_through_marker (self : Call -> M unit) (url : string)
  (m : Z) (st st1 : State) (threadPage : ThreadPage) :
  fetchThreadPage config url st = (Ret threadPage, st1) ->
  In m (map msg_id (tp_messages threadPage)) ->
  exists removed x remaining,
    tp_messages threadPage = removed ++ x :: remaining
    /\ msg_id x = m
    /\ ~ In m (map msg_id removed)
    /\ dropContinued (Spec.continuingFrom m) (tp_messages threadPage) = remaining
    /\ downloadThread_with config self url (Spec.continuingFrom m) st
       = finishThreadPage config self (Some (Parser.with_messages threadPage remaining))
           (persistPage config (Spec.continuingFrom m)
              (Parser.with_messages threadPage remaining) st1)
    /\ (forall r st2,
          persistPage config (Spec.continuingFrom m)
            (Parser.with_messages threadPage remaining) st1 = (r, st2) ->
          exists done,
            done `prefix_of` map msg_id remaining
            /\ Spec.page_step done st1 st2
            /\ (r = Ret tt -> done = map msg_id remaining))
    /\ (remaining = [] ->
        exists st2 evs,
          persistPage config (Spec.continuingFrom m)
            (Parser.with_messages threadPage remaining) st1 = (Ret tt, st2)
          /\ st_stats st2 = st_stats st1
          /\ st_trace st2 = st_trace st1 ++ evs
          /\ forallb Spec.is_housekeeping evs = true).
Proof.
  intros Hfetch Hin.
  assert (Hm : m <> 0%Z).
  { apply in_map_iff in Hin as (x & <- & Hx).
    exact (proj1 (List.Forall_forall _ _) (fetched_page_ids_nonzero _ _ _ _ Hfetch) x Hx). }
  destruct (dropContinued_found m (tp_messages threadPage) Hm Hin)
    as (removed & x & remaining & Hsplit & Hx & Hnot & Hdrop).
  exists removed, x, remaining. repeat split; try assumption.
  - rewrite (downloadThread_continued self url m st st1 threadPage Hfetch).
    now rewrite Hdrop.
  - intros r st2 Hp. apply persistPage_page_step in Hp as (done & H1 & H2 & H3).
    exists done. repeat split; assumption.
  - intros ->. apply persistPage_no_messages. reflexivity.
Qed.

End Resume.

Lemma hello_page1_fetched :
  fetchThreadPage (W := Spec.helloWorld) (Demo.config None false true) Spec.helloURL
    Demo.state0
  = (Ret Spec.helloPage1, Spec.afterHelloPage1).
Proof. vm_compute. reflexivity. Qed.

Lemma C1_continuing_drops_through_marker_witness :
  exists removed x remaining,
    tp_messages Spec.helloPage1 = removed ++ x :: remaining
    /\ msg_id x = 20%Z
    /\ ~ In 20%Z (map msg_id removed)
    /\ dropContinued (Spec.continuingFrom 20) (tp_messages Spec.helloPage1) = remaining
    /\ downloadThread_with (W := Spec.helloWorld) (Demo.config None false true)
         Spec.noCalls Spec.helloURL (Spec.continuingFrom 20) Demo.state0
       = finishThreadPage (Demo.config None false true) Spec.noCalls
           (Some (Parser.with_messages Spec.helloPage1 remaining))
           (persistPage (W := Spec.helloWorld) (Demo.config None false true) (Spec.continuingFrom 20)
              (Parser.with_messages Spec.helloPage1 remaining) Spec.afterHelloPage1)
    /\ (forall r st2,
          persistPage (W := Spec.helloWorld) (Demo.config None false true) (Spec.continuingFrom 20)
            (Parser.with_messages Spec.helloPage1 remaining) Spec.afterHelloPage1
          = (r, st2) ->
          exists done,
            done `prefix_of` map msg_id remaining
            /\ Spec.page_step done Spec.afterHelloPage1 st2
            /\ (r = Ret tt -> done = map msg_id remaining))
    /\ (remaining = [] ->
        exists st2 evs,
          persistPage (W := Spec.helloWorld) (Demo.config None false true) (Spec.continuingFrom 20)
            (Parser.with_messages Spec.helloPage1 remaining) Spec.afterHelloPage1
          = (Ret tt, st2)
          /\ st_stats st2 = st_stats Spec.afterHelloPage1
          /\ st_trace st2 = st_trace Spec.afterHelloPage1 ++ evs
          /\ forallb Spec.is_housekeeping evs = true).
Proof.
  apply (C1_continuing_drops_through_marker (W := Spec.helloWorld)
           (Demo.config None false true) Spec.noCalls Spec.helloURL 20 Demo.state0
           Spec.afterHelloPage1 Spec.helloPage1).
  - exact hello_page1_fetched.
  - cbn. tauto.
Defined.

(** ** Downloads: the [.part] file and the destination *)

Lemma string_length_append (a b : string) :
  String.length (a +:+ b) = String.length a + String.length b.
Proof. induction a as [| c a IH]; simpl; [reflexivity | now f_equal]. Qed.

Lemma tmp_ne_dest (d : string) : Fetcher.tmpFilePathOf d <> d.
Proof.
  intros H. apply (f_equal String.length) in H. unfold Fetcher.tmpFilePathOf in H.
  rewrite string_length_append in H. cbn in H. lia.
Qed.

Lemma existsSync_file (p : string) (st : State) (f : File) :
  st_files st !! p = Some f -> existsSync p st = true.
Proof. intros H. unfold existsSync. rewrite H. reflexivity. Qed.

Section DownloadFiles.

Context {W : World}.

Variable cookie : option string.


Lemma commitDownload_ok (tmp dest : string) (f : File) (st : State) :
  tmp <> dest ->
  st_files st !! tmp = Some f ->
  exists st' tail,
    Fetcher.commitDownload tmp dest st = (Ret tt, st')
    /\ st_files st' !! dest = Some f
    /\ st_files st' !! tmp = None
    /\ st_dirs st' = st_dirs st
    /\ st_net st' = st_net st
    /\ st_trace st' = st_trace st ++ [EvRename tmp dest] ++ tail
    /\ forallb (fun e => negb (Spec.writes_path dest e)) tail = true.
Proof.
  intros Hne Hf.
  unfold Fetcher.commitDownload, Fetcher.try_finally, bind, lstatSync.
  rewrite (existsSync_file _ _ _ Hf).
  unfold renameSync, effect.
  match goal with
  | |- context [emit [EvRename tmp dest] ?s] => set (st1 := emit [EvRename tmp dest] s)
  end.
  assert (Hd : st_files st1 !! dest = Some f) by (cbn; rewrite Hf; apply lookup_insert_eq).
  assert (Ht : st_files st1 !! tmp = None).
  { cbn. rewrite Hf. rewrite lookup_insert_ne by congruence. apply lookup_delete_eq. }
  unfold Fetcher.cleanupDownload. destruct (existsSync tmp st1).
  - exists (emit [EvUnlink tmp] (set_files (delete tmp) st1)), [EvUnlink tmp].
    repeat split.
    + cbn -[st1]. rewrite lookup_delete_ne by congruence. exact Hd.
    + cbn -[st1]. apply lookup_delete_eq.
    + cbn. now rewrite <- app_assoc.
  - exists st1, []. repeat split; assumption.
Qed.

Lemma saveBody_ok (data dest : string) (st : State) :
  exists st' tail,
    Fetcher.saveBody (BodyOk data) dest st = (Ret tt, st')
    /\ st_files st' !! dest = Some (FData data)
    /\ st_files st' !! Fetcher.tmpFilePathOf dest = None
    /\ path_dirname dest ∈ st_dirs st'
    /\ st_net st' = st_net st
    /\ st_trace st'
       = st_trace st
         ++ [EvEnsureDir (path_dirname dest); EvPipe (Fetcher.tmpFilePathOf dest) data;
             EvRename (Fetcher.tmpFilePathOf dest) dest] ++ tail
    /\ forallb (fun e => negb (Spec.writes_path dest e)) tail = true.
Proof.
  pose proof (tmp_ne_dest dest) as Hne.
  set (st1 := emit [EvEnsureDir (path_dirname dest)]
                (set_dirs (fun d => {[path_dirname dest]} ∪ d) st)).
  set (st2 := emit [EvPipe (Fetcher.tmpFilePathOf dest) data]
                (set_files (fun fs => <[Fetcher.tmpFilePathOf dest := FData data]> fs) st1)).
  assert (H2 : st_files st2 !! Fetcher.tmpFilePathOf dest = Some (FData data)).
  { cbn. apply lookup_insert_eq. }
  destruct (commitDownload_ok _ dest _ st2 Hne H2)
    as (st3 & tail & Hc & Hd & Ht & Hdirs & Hnet & Htr & Htail).
  exists st3, tail.
  assert (Hrun : Fetcher.saveBody (BodyOk data) dest st = (Ret tt, st3)).
  { unfold Fetcher.saveBody, try_catch, bind at 1. cbn [ensureDirSync effect].
    fold st1. unfold bind. cbn [Fetcher.pipeline effect]. fold st2. now rewrite Hc. }
  split; [exact Hrun |]. split; [exact Hd |]. split; [exact Ht |].
  split; [rewrite Hdirs; cbn; apply elem_of_union_l, elem_of_singleton; reflexivity |].
  split; [exact Hnet |].
  split; [| exact Htail]. rewrite Htr. cbn. now rewrite <- !app_assoc.
Qed.

Lemma saveBody_fails (written dest : string) (e : JsError) (st : State) :
  exists st',
    Fetcher.saveBody (BodyFails written e) dest st = (Throw e, st')
    /\ st_files st' !! dest = st_files st !! dest
    /\ st_files st' !! Fetcher.tmpFilePathOf dest = None
    /\ st_net st' = st_net st
    /\ st_trace st'
       = st_trace st
         ++ [EvEnsureDir (path_dirname dest);
             EvPipe (Fetcher.tmpFilePathOf dest) written;
             EvUnlink (Fetcher.tmpFilePathOf dest)].
Proof.
  pose proof (tmp_ne_dest dest) as Hne.
  set (st1 := emit [EvEnsureDir (path_dirname dest)]
                (set_dirs (fun d => {[path_dirname dest]} ∪ d) st)).
  set (st2 := emit [EvPipe (Fetcher.tmpFilePathOf dest) written]
                (set_files (fun fs => <[Fetcher.tmpFilePathOf dest := FData written]> fs) st1)).
  assert (H2 : st_files st2 !! Fetcher.tmpFilePathOf dest = Some (FData written)).
  { cbn. apply lookup_insert_eq. }
  exists (emit [EvUnlink (Fetcher.tmpFilePathOf dest)]
            (set_files (delete (Fetcher.tmpFilePathOf dest)) st2)).
  repeat split.
  - unfold Fetcher.saveBody, try_catch, bind at 1. cbn [ensureDirSync effect].
    fold st1. unfold bind. cbn [Fetcher.pipeline effect bind throw]. fold st2.
    unfold Fetcher.cleanupDownload. rewrite (existsSync_file _ _ _ H2). reflexivity.
  - cbn. rewrite lookup_delete_ne by congruence. now rewrite lookup_insert_ne by congruence.
  - cbn. apply lookup_delete_eq.
  - cbn. now rewrite <- !app_assoc.
Qed.

Lemma complete_body_suffix (net1 net0 : list FetchOutcome) (data : string) :
  suffix net1 net0 -> Spec.complete_body net1 data -> Spec.complete_body net0 data.
Proof.
  intros [k ->] (res & Hin & Hok & Hbody). exists res. repeat split; try assumption.
  destruct Hin as [Hin | Hin]; [left | right]; apply in_or_app; now right.
Qed.

Lemma whole_commits_app (net : list FetchOutcome) (dest : string) (a b : list Event) :
  Spec.whole_commits net dest a -> Spec.whole_commits net dest b ->
  Spec.whole_commits net dest (a ++ b).
Proof.
  intros Ha Hb. induction Ha; cbn.
  - exact Hb.
  - now apply Spec.wc_other.
  - now apply Spec.wc_commit.
Qed.

Lemma whole_commits_suffix (net1 net0 : list FetchOutcome) (dest : string)
  (evs : list Event) :
  suffix net1 net0 -> Spec.whole_commits net1 dest evs -> Spec.whole_commits net0 dest evs.
Proof.
  intros Hs H. induction H.
  - constructor.
  - now apply Spec.wc_other.
  - apply Spec.wc_commit; [eapply complete_body_suffix; eauto | assumption].
Qed.

Lemma whole_commits_untouched (net : list FetchOutcome) (dest : string)
  (evs : list Event) :
  forallb (fun e => negb (Spec.writes_path dest e)) evs = true ->
  Spec.whole_commits net dest evs.
Proof.
  induction evs as [| e evs IH]; cbn; intros H; [constructor |].
  apply andb_true_iff in H as [He Hevs]. apply Spec.wc_other; [| now apply IH].
  now apply negb_true_iff in He.
Qed.

Lemma fetcher_requests_untouched (dest : string) (evs : list Event) :
  forallb Spec.is_request evs = true ->
  forallb (fun e => negb (Spec.writes_path dest e)) evs = true.
Proof.
  intros H. apply forallb_forall. intros e He.
  pose proof (proj1 (forallb_forall _ _) H e He) as Hr.
  destruct e; cbn in *; congruence.
Qed.

Lemma fetch_on_response (net : list FetchOutcome) (res : Response) :
  fst (Fetcher.fetch_on net) = Ret res ->
  In (Resolves res) net \/ In (Repeats res) net.
Proof.
  destruct net as [| [e | r | r] net']; cbn; intros H; try discriminate;
    inversion H; subst; [left | right]; now left.
Qed.

Lemma fetchWithRedirect_response (net : list FetchOutcome) :
  forall (url : string) (method : Method) (useCookie : bool) (res : Response),
    fst (fst (Fetcher.fetchWithRedirect cookie net url method useCookie)) = Ret res ->
    In (Resolves res) net \/ In (Repeats res) net.
Proof.
  induction net as [| o net' IH]; intros url method useCookie res;
    cbn [Fetcher.fetchWithRedirect].
  - destruct (Fetcher.newRequest url method); cbn; discriminate.
  - destruct (Fetcher.newRequest url method) as [request0 |]; [| cbn; discriminate].
    destruct o as [e | res0 | res0]; [cbn; discriminate | |].
    + destruct (Fetcher.is_redirect res0).
      2:{ cbn. intros H. inversion H; subst. left. now left. }
      assert (Hfallback :
        fst (fst (let '(r, rest) := Fetcher.fetch_on net' in
                  (r, [EvRequest (Fetcher.setHeaders cookie request0 useCookie);
                       EvRequest (Fetcher.setHeaders cookie request0 useCookie)], rest)))
        = Ret res ->
        In (Resolves res) (Resolves res0 :: net') \/ In (Repeats res) (Resolves res0 :: net')).
      { pose proof (fetch_on_response net' res) as Hr.
        destruct (Fetcher.fetch_on net') as [r rest]; cbn in *. intros H.
        destruct (Hr H) as [Hin | Hin]; [left | right]; now right. }
      destruct (res_location res0) as [toURL |]; [| exact Hfallback].
      destruct (truthy_string toURL); [| exact Hfallback].
      destruct (url_host url) as [host |]; [| cbn; discriminate].
      destruct (url_host toURL) as [toHost |]; [| cbn; discriminate].
      specialize (IH toURL method (String.eqb host toHost) res).
      destruct (Fetcher.fetchWithRedirect cookie net' toURL method (String.eqb host toHost))
        as [[r evs] rest].
      cbn in *. intros H. destruct (IH H) as [Hin | Hin]; [left | right]; now right.
    + assert (Hhere : forall evs : list Event,
                fst (fst (@Ret Response res0, evs, Repeats res0 :: net')) = Ret res ->
                In (Resolves res) (Repeats res0 :: net')
                \/ In (Repeats res) (Repeats res0 :: net')).
      { intros evs H. cbn in H. inversion H; subst. right. now left. }
      destruct (Fetcher.is_redirect res0); [| apply Hhere].
      destruct (res_location res0) as [toURL |]; [| apply Hhere].
      destruct (truthy_string toURL); [| apply Hhere].
      destruct (url_host url) as [host |]; [| cbn; discriminate].
      destruct (url_host toURL) as [toHost |]; cbn; discriminate.
Qed.

Lemma unsettled_suffix (net1 net0 : list FetchOutcome) :
  suffix net1 net0 -> Spec.settles net1 = false -> Spec.settles net0 = false.
Proof.
  intros Hs H1. destruct (Spec.settles net0) eqn:E; [| reflexivity].
  rewrite (settles_suffix _ _ Hs E) in H1. discriminate.
Qed.

(** One attempt, once the response is there. *)
Lemma attemptDownload_spec (res : Response) (params : Fetcher.DownloadAttachmentParams)
  (st : State) (r : Res unit) (st' : State) :
  Fetcher.attemptDownload res params st = (r, st') ->
  st_net st' = st_net st
  /\ match r with
     | Ret _ =>
         exists data tail,
           res_ok res = true
           /\ res_body res = Some (BodyOk data)
           /\ st_files st' !! Fetcher.dest params = Some (FData data)
           /\ st_files st' !! Fetcher.tmpFilePathOf (Fetcher.dest params) = None
           /\ path_dirname (Fetcher.dest params) ∈ st_dirs st'
           /\ st_trace st'
              = st_trace st
                ++ [EvEnsureDir (path_dirname (Fetcher.dest params));
                    EvPipe (Fetcher.tmpFilePathOf (Fetcher.dest params)) data;
                    EvRename (Fetcher.tmpFilePathOf (Fetcher.dest params))
                      (Fetcher.dest params)] ++ tail
           /\ forallb (fun e => negb (Spec.writes_path (Fetcher.dest params) e)) tail
              = true
     | Throw _ =>
         st_files st' !! Fetcher.dest params = st_files st !! Fetcher.dest params
         /\ (st_files st' !! Fetcher.tmpFilePathOf (Fetcher.dest params) = None
             \/ st_files st' !! Fetcher.tmpFilePathOf (Fetcher.dest params)
                = st_files st !! Fetcher.tmpFilePathOf (Fetcher.dest params))
         /\ exists evs,
              st_trace st' = st_trace st ++ evs
              /\ forallb (fun e => negb (Spec.writes_path (Fetcher.dest params) e)) evs
                 = true
     | Stuck => False
     end.
Proof.
  unfold Fetcher.attemptDownload, bind, Fetcher.assertResponseOK.
  destruct (res_ok res) eqn:Hok; cbn [negb].
  2:{ intros H. inversion H; subst. repeat split; [now right |].
      exists []. split; [now rewrite app_nil_r | reflexivity]. }
  destruct (res_body res) as [[data | written e] |] eqn:Hbody; cbn [ret throw].
  - destruct (saveBody_ok data (Fetcher.dest params) st)
      as (st2 & tail & Hrun & Hd & Ht & Hdir & Hnet & Htr & Htail).
    rewrite Hrun. intros H. inversion H; subst. split; [exact Hnet |].
    exists data, tail. repeat split; assumption.
  - destruct (saveBody_fails written (Fetcher.dest params) e st)
      as (st2 & Hrun & Hd & Ht & Hnet & Htr).
    rewrite Hrun. intros H. inversion H; subst. split; [exact Hnet |].
    repeat split; [exact Hd | now left |].
    eexists. split; [exact Htr |]. cbn.
    pose proof (tmp_ne_dest (Fetcher.dest params)) as Hne.
    apply String.eqb_neq in Hne. now rewrite Hne.
  - intros H. inversion H; subst. repeat split; [now right |].
    exists []. split; [now rewrite app_nil_r | reflexivity].
Qed.

Lemma download_post_after_failure (params : Fetcher.DownloadAttachmentParams)
  (st st3 : State) (evs : list Event) (r : Res unit) (st' : State) :
  st_trace st3 = st_trace st ++ evs ->
  forallb (fun e => negb (Spec.writes_path (Fetcher.dest params) e)) evs = true ->
  suffix (st_net st3) (st_net st) ->
  st_files st3 !! Fetcher.dest params = st_files st !! Fetcher.dest params ->
  (st_files st3 !! Fetcher.tmpFilePathOf (Fetcher.dest params) = None
   \/ st_files st3 !! Fetcher.tmpFilePathOf (Fetcher.dest params)
      = st_files st !! Fetcher.tmpFilePathOf (Fetcher.dest params)) ->
  Spec.download_post params st3 r st' ->
  Spec.download_post params st r st'.
Proof.
  intros Htr Hevs Hsuf Hd Ht ((evs' & Htr' & Hwc) & Hsuf' & Hr).
  split; [| split].
  - exists (evs ++ evs'). split; [now rewrite Htr', Htr, app_assoc |].
    apply whole_commits_app; [now apply whole_commits_untouched |].
    eapply whole_commits_suffix; eauto.
  - etransitivity; eauto.
  - destruct r as [u | e |]; [| | now apply (unsettled_suffix _ _ Hsuf)].
    + destruct Hr as ((data & Hc & Hdata) & Htmp & Hdir). repeat split; try assumption.
      exists data. split; [eapply complete_body_suffix; eauto | exact Hdata].
    + destruct Hr as (Hd' & Ht'). split; [congruence |].
      destruct Ht' as [Ht' | Ht']; [now left |].
      destruct Ht as [Ht | Ht]; [left | right]; congruence.
Qed.

Lemma download_post_throw_here (params : Fetcher.DownloadAttachmentParams)
  (st : State) (e : JsError) :
  Spec.download_post params st (Throw e) st.
Proof.
  split; [exists []; split; [now rewrite app_nil_r | constructor] |].
  split; [reflexivity | split; [reflexivity | now right]].
Qed.

(** The fetch and the first attempt: either the call is over, or the
    handler [h] of the [catch] runs in a state in which [dest] is as
    before and the [.part] file is gone or as before. *)
Lemma first_attempt_cases (params : Fetcher.DownloadAttachmentParams)
  (h : JsError -> M unit) (st : State) (r : Res unit) (st' : State) :
  (let* res := Fetcher.fetchWithRedirectM cookie (Fetcher.src params) GET in
   try_catch (Fetcher.attemptDownload res params) h) st = (r, st') ->
  Spec.download_post params st r st'
  \/ exists e st2 evs,
       h e st2 = (r, st')
       /\ st_trace st2 = st_trace st ++ evs
       /\ forallb (fun ev => negb (Spec.writes_path (Fetcher.dest params) ev)) evs = true
       /\ suffix (st_net st2) (st_net st)
       /\ st_files st2 !! Fetcher.dest params = st_files st !! Fetcher.dest params
       /\ (st_files st2 !! Fetcher.tmpFilePathOf (Fetcher.dest params) = None
           \/ st_files st2 !! Fetcher.tmpFilePathOf (Fetcher.dest params)
              = st_files st !! Fetcher.tmpFilePathOf (Fetcher.dest params)).
Proof.
  unfold bind at 1.
  pose proof (fetchWithRedirect_facts cookie (st_net st) (Fetcher.src params) GET true)
    as Hfacts.
  pose proof (fetchWithRedirect_response (st_net st) (Fetcher.src params) GET true)
    as Hresp.
  unfold Fetcher.fetchWithRedirectM.
  destruct (Fetcher.fetchWithRedirect cookie (st_net st) (Fetcher.src params) GET true)
    as [[r1 evs1] rest1].
  destruct Hfacts as (Hr1 & Hev1 & Hsuf1). cbn [fst] in Hresp.
  pose proof (fetcher_requests_untouched (Fetcher.dest params) evs1 Hev1) as Hun1.
  set (st1 := emit evs1 (set_net rest1 st)).
  destruct r1 as [res | e1 |].
  3:{ intros H. inversion H; subst. left. split; [| split].
      - exists evs1. split; [reflexivity | now apply whole_commits_untouched].
      - exact Hsuf1.
      - destruct (Spec.settles (st_net st)); [now destruct Hr1 | reflexivity]. }
  - unfold try_catch.
    pose proof (attemptDownload_spec res params st1) as Hatt.
    destruct (Fetcher.attemptDownload res params st1) as [[u | e |] st2];
      specialize (Hatt _ _ eq_refl); destruct Hatt as (Hnet2 & Hatt);
      [| | contradiction].
    + destruct Hatt as (data & tail & Hok & Hbody & Hd & Ht & Hdir & Htr & Htail).
      assert (Hc : Spec.complete_body (st_net st) data)
        by (exists res; repeat split; [now apply Hresp | exact Hok | exact Hbody]).
      intros H. inversion H; subst. left. split; [| split; [| split; [| split]]].
      * eexists. split; [rewrite Htr; cbn [st1 emit st_trace set_net];
                         rewrite <- app_assoc; reflexivity |].
        apply whole_commits_app; [now apply whole_commits_untouched |].
        apply Spec.wc_other; [reflexivity |].
        apply Spec.wc_commit; [exact Hc | now apply whole_commits_untouched].
      * rewrite Hnet2. exact Hsuf1.
      * exists data. split; [exact Hc | exact Hd].
      * exact Ht.
      * exact Hdir.
    + destruct Hatt as (Hd & Ht & evs2 & Htr & Hevs2).
      intros H. right. exists e, st2, (evs1 ++ evs2). repeat split.
      * exact H.
      * rewrite Htr. cbn [st1 emit st_trace set_net]. now rewrite <- app_assoc.
      * now rewrite forallb_app, Hun1, Hevs2.
      * rewrite Hnet2. exact Hsuf1.
      * exact Hd.
      * exact Ht.
  - intros H. inversion H; subst. left.
    apply (download_post_after_failure params st st1 evs1 (Throw e1) st1);
      try reflexivity; try assumption; [now right | apply download_post_throw_here].
Qed.

Lemma downloadAttachment_rt_post (budget : nat)
  (params : Fetcher.DownloadAttachmentParams) :
  forall rt st r st',
    Fetcher.maxRetries params <= rt + budget ->
    Fetcher.downloadAttachment_rt cookie budget params rt st = (r, st') ->
    Spec.download_post params st r st'.
Proof.
  induction budget as [| b IH]; intros rt st r st' Hb;
    cbn [Fetcher.downloadAttachment_rt];
    (destruct (Fetcher.newRequest (Fetcher.src params) GET) as [request |];
     [| intros H; inversion H; subst; apply download_post_throw_here]);
    intros H; apply first_attempt_cases in H as [H | H]; try exact H;
    destruct H as (e & st2 & evs & H & Htr & Hevs & Hsuf & Hd & Ht);
    (destruct (Fetcher.is_abort_or_fatal e);
     [ inversion H; subst;
       exact (download_post_after_failure params st st' evs _ st' Htr Hevs Hsuf Hd Ht
                (download_post_throw_here params st' _)) |]);
    (destruct (rt <? Fetcher.maxRetries params)%nat eqn:Hlt;
     [| inversion H; subst;
        exact (download_post_after_failure params st st' evs _ st' Htr Hevs Hsuf Hd Ht
                 (download_post_throw_here params st' _)) ]).
  - apply Nat.ltb_lt in Hlt. lia.
  - unfold bind, Fetcher.sleepBeforeExecute, bind, log, effect in H.
    apply (IH (S rt)) in H; [| lia].
    apply (download_post_after_failure params st st2 evs r st' Htr Hevs Hsuf Hd Ht).
    eapply (download_post_after_failure params st2 _ [_; _] r st'); [| | | | | exact H];
      cbn; try reflexivity.
    + now rewrite <- app_assoc.
    + reflexivity.
    + now right.
Qed.

End DownloadFiles.

(** ** A page depends on the site only *)

Lemma net_only_ret {A : Type} (a : A) : Spec.net_only (ret a).
Proof. intros st1 st2 H. split; [reflexivity | exact H]. Qed.

Lemma net_only_throw {A : Type} (e : JsError) : Spec.net_only (@throw A e).
Proof. intros st1 st2 H. split; [reflexivity | exact H]. Qed.

Lemma net_only_stuck {A : Type} : Spec.net_only (fun st : State => (@Stuck A, st)).
Proof. intros st1 st2 H. split; [reflexivity | exact H]. Qed.

Lemma net_only_emit (evs : list Event) : Spec.net_only (effect (emit evs)).
Proof. intros st1 st2 H. split; [reflexivity | exact H]. Qed.

Lemma net_only_bind {A B : Type} (m : M A) (k : A -> M B) :
  Spec.net_only m -> (forall a, Spec.net_only (k a)) -> Spec.net_only (bind m k).
Proof.
  intros Hm Hk st1 st2 H. unfold bind. destruct (Hm st1 st2 H) as [Hr Hn].
  destruct (m st1) as [r1 s1], (m st2) as [r2 s2]. cbn in Hr, Hn. subst r2.
  destruct r1 as [a | e |]; [apply Hk; exact Hn | |]; split; [reflexivity | exact Hn | reflexivity | exact Hn].
Qed.

Lemma net_only_try_catch {A : Type} (m : M A) (h : JsError -> M A) :
  Spec.net_only m -> (forall e, Spec.net_only (h e)) -> Spec.net_only (try_catch m h).
Proof.
  intros Hm Hh st1 st2 H. unfold try_catch. destruct (Hm st1 st2 H) as [Hr Hn].
  destruct (m st1) as [r1 s1], (m st2) as [r2 s2]. cbn in Hr, Hn. subst r2.
  destruct r1 as [a | e |]; [| apply Hh; exact Hn |]; split; [reflexivity | exact Hn | reflexivity | exact Hn].
Qed.

Section SiteOnly.

Context {W : World} {HS : Spec.Settling W}.

Variable config : DownloaderConfig.

Lemma fetchWithRedirectM_net_only (cookie : option string) (url : string)
  (method : Method) :
  Spec.net_only (Fetcher.fetchWithRedirectM cookie url method).
Proof.
  intros st1 st2 H. unfold Fetcher.fetchWithRedirectM. rewrite H.
  destruct (Fetcher.fetchWithRedirect cookie (st_net st2) url method true)
    as [[r evs] rest].
  split; reflexivity.
Qed.

Lemma fetchHTML_rt_net_only (cookie : option string) (budget : nat)
  (args : Fetcher.FetchArgs) :
  forall rt, Spec.net_only (Fetcher.fetchHTML_rt cookie budget args rt).
Proof.
  induction budget as [| b IH]; intros rt; cbn [Fetcher.fetchHTML_rt];
    (apply net_only_try_catch;
     [ apply net_only_bind; [apply fetchWithRedirectM_net_only |];
       intros res; apply net_only_bind; [| intros html; apply net_only_ret];
       unfold Fetcher.text; destruct (res_body res) as [[data | written e] |];
       [apply net_only_ret | apply net_only_throw | apply net_only_ret]
     | intros error;
       destruct (Fetcher.is_abort_or_fatal error); [apply net_only_throw |];
       destruct (rt <? Fetcher.fa_maxRetries args)%nat; [| apply net_only_throw] ]).
  - apply net_only_stuck.
  - apply net_only_bind; [apply net_only_emit | intros _].
    unfold Fetcher.sleepBeforeExecute.
    apply net_only_bind; [apply net_only_emit | intros _; apply IH].
Qed.

Lemma fetchThreadPage_state_free (url : string) (st1 st2 : State) :
  fst (fetchThreadPage config url st1) = fst (fetchThreadPage config url st2).
Proof.
  unfold fetchThreadPage, bind, fetchPage.
  pose proof (fetchHTML_rt_net_only (rq_cookie (request config))
                (rq_maxRetries (request config))
                {| Fetcher.fa_url := url;
                   Fetcher.fa_maxRetries := rq_maxRetries (request config);
                   Fetcher.fa_retryInterval := rq_minTime_page (request config) |} 0
                (set_net (site url) st1) (set_net (site url) st2) eq_refl) as [Hr _].
  unfold Fetcher.fetchHTML. cbn [Fetcher.fa_maxRetries] in *.
  destruct (Fetcher.fetchHTML_rt _ _ _ 0 (set_net (site url) st1)) as [r1 s1].
  destruct (Fetcher.fetchHTML_rt _ _ _ 0 (set_net (site url) st2)) as [r2 s2].
  cbn in Hr. subst r2. destruct r1 as [a | e |]; try reflexivity.
  destruct (Parser.parseThreadPage (fst a) url); reflexivity.
Qed.

Lemma threadPageAt_fetched (url : string) (st st1 : State) (threadPage : ThreadPage) :
  fetchThreadPage config url st = (Ret threadPage, st1) ->
  Spec.threadPageAt config url = Some threadPage.
Proof.
  intros H. unfold Spec.threadPageAt.
  rewrite (fetchThreadPage_state_free url Demo.state0 st), H. reflexivity.
Qed.

Lemma fetchThreadPage_quiet (url : string) :
  Spec.preserves Spec.quiet_step (fetchThreadPage config url).
Proof.
  unfold fetchThreadPage. preserves_step; [apply fetchPage_quiet |].
  destruct (Parser.parseThreadPage (fst a) url); preserves_step.
Qed.

Lemma fetchThreadPage_never_stuck (url : string) :
  Spec.never_stuck (fetchThreadPage config url).
Proof.
  unfold fetchThreadPage. never_stuck_step; [apply fetchPage_never_stuck |].
  destruct (Parser.parseThreadPage (fst a) url); never_stuck_step.
Qed.

End SiteOnly.

(** ** The markers of a thread *)

Lemma thread_step_trans (b1 b2 : list Z) (st1 st2 st3 : State) :
  Spec.thread_step b1 st1 st2 -> Spec.thread_step b2 st2 st3 ->
  Spec.thread_step (b1 ++ b2) st1 st3.
Proof.
  intros (e1 & T1 & M1 & S1) (e2 & T2 & M2 & S2). exists (e1 ++ e2). repeat split.
  - now rewrite T2, T1, app_assoc.
  - now apply marked_app.
  - rewrite status_ids_app. now apply sublist_app.
Qed.

Lemma thread_step_weaken (b b' : list Z) (st st' : State) :
  sublist b b' -> Spec.thread_step b st st' -> Spec.thread_step b' st st'.
Proof.
  intros Hb (evs & T & M & S). exists evs. repeat split; try assumption.
  etransitivity; eauto.
Qed.

Lemma page_thread_step (done : list Z) (st st' : State) :
  Spec.page_step done st st' -> Spec.thread_step done st st'.
Proof.
  intros (evs & T & M & _ & S & _). exists evs. repeat split; try assumption.
  now rewrite S.
Qed.

Lemma quiet_thread_step (b : list Z) (st st' : State) :
  Spec.quiet_step st st' -> Spec.thread_step b st st'.
Proof.
  intros H. apply (thread_step_weaken [] b); [apply sublist_nil_l |].
  apply page_thread_step. now apply quiet_page_step.
Qed.

Lemma strongly_sorted_sublist (l1 l2 : list Z) :
  sublist l1 l2 -> StronglySorted Z.le l2 -> StronglySorted Z.le l1.
Proof.
  intros Hs. induction Hs as [| x l1 l2 Hs IH | x l1 l2 Hs IH]; intros H.
  - constructor.
  - inversion H as [| ? ? Hl2 Hx]; subst. constructor; [now apply IH |].
    apply List.Forall_forall. intros y Hy.
    apply (proj1 (List.Forall_forall _ _) Hx).
    apply list_elem_of_In. eapply sublist_subseteq; [exact Hs |].
    now apply list_elem_of_In.
  - inversion H; subst. now apply IH.
Qed.

Lemma marked_follow (evs : list Event) :
  Spec.marked evs -> Spec.markers_follow_appends evs.
Proof.
  intros H. induction H as [| e evs He H IH | p m evs H IH | p q m s evs Hs H IH];
    intros pre q0 s0 post Heq.
  - destruct pre; discriminate.
  - destruct pre as [| e0 pre]; cbn in Heq; inversion Heq; subst.
    + discriminate.
    + destruct (IH pre q0 s0 post eq_refl) as (pre' & p & m & -> & Hm).
      exists (e0 :: pre'), p, m. split; [reflexivity | exact Hm].
  - destruct pre as [| e0 pre]; cbn in Heq; inversion Heq; subst.
    destruct (IH pre q0 s0 post eq_refl) as (pre' & p0 & m0 & -> & Hm).
    exists (EvSaveMessage p m :: pre'), p0, m0. split; [reflexivity | exact Hm].
  - destruct pre as [| e0 pre]; cbn in Heq; inversion Heq; subst.
    destruct pre as [| e1 pre]; cbn in *.
    + match goal with H : _ :: _ = _ :: _ |- _ => inversion H; subst end.
      exists [], p, m. split; [reflexivity | congruence].
    + match goal with H : _ :: _ = _ :: _ |- _ => inversion H; subst end.
      destruct (IH pre q0 s0 post eq_refl) as (pre' & p0 & m0 & -> & Hm).
      exists (EvSaveMessage p m :: EvSaveStatus q s :: pre'), p0, m0.
      split; [reflexivity | exact Hm].
Qed.

Lemma dropContinued_sublist (context : option DownloadThreadContext)
  (messages : list ThreadMessage) :
  sublist (map msg_id (dropContinued context messages)) (map msg_id messages).
Proof.
  unfold dropContinued. destruct context as [ctx |]; [| reflexivity].
  destruct (continueFromMessageID ctx) as [m |]; [| reflexivity].
  destruct (truthy_Z m); [| reflexivity].
  destruct (findIndex _ messages) as [i |]; [| reflexivity].
  rewrite <- (firstn_skipn (i + 1) messages) at 2. rewrite map_app.
  apply sublist_inserts_l. reflexivity.
Qed.

Section ThreadMarkers.

Context {W : World}.

Variable config : DownloaderConfig.

Lemma onError_quiet (error : JsError) : Spec.preserves Spec.quiet_step (onError error).
Proof.
  unfold onError. destruct (isErrorNonContinuable error); [preserves_step |].
  preserves_step; [apply xlog_quiet | apply updateStatsOnError_quiet].
Qed.

Lemma onError_never_stuck (error : JsError) : Spec.never_stuck (onError error).
Proof.
  unfold onError. destruct (isErrorNonContinuable error); [never_stuck_step |].
  never_stuck_step; [apply xlog_never_stuck | apply updateStatsOnError_never_stuck].
Qed.

Lemma checkPreviousDownload_quiet (thread : ThreadPage) (threadSavePath : string) :
  Spec.preserves Spec.quiet_step (checkPreviousDownload thread threadSavePath).
Proof.
  intros st r st' H. unfold checkPreviousDownload in H.
  destruct (existsSync _ st); [| inversion H; subst; reflexivity].
  destruct (st_files st !! _) as [[content | json] |];
    try (inversion H; subst; reflexivity).
  destruct (j_threadID json), (j_url json), (j_messageID json);
    try (inversion H; subst; reflexivity).
  destruct (negb _ || negb _ || negb _); inversion H; subst; reflexivity.
Qed.

Lemma resumeCheck_quiet (context : option DownloadThreadContext) (threadPage : ThreadPage) :
  Spec.preserves Spec.quiet_step (resumeCheck config context threadPage).
Proof.
  unfold resumeCheck. destruct (negb (is_continued context) && continue config);
    [| preserves_step].
  preserves_step; [apply checkPreviousDownload_quiet |].
  preserves_step; [apply xlog_quiet |].
  preserves_step; [apply xlog_quiet | preserves_step].
Qed.

Lemma resumeCheck_skipped (context : option DownloadThreadContext)
  (threadPage : ThreadPage) (st : State) :
  Spec.no_resume config context = true ->
  resumeCheck config context threadPage st = (Ret None, st).
Proof.
  unfold Spec.no_resume, resumeCheck. intros H.
  destruct (is_continued context), (continue config); cbn in *;
    try discriminate; reflexivity.
Qed.

Lemma afterThreadPage_bound (self : Call -> M unit) (n : nat)
  (threadPage : option ThreadPage) (st : State) (r : Res unit) (st' : State) :
  Spec.follows_chain config self n ->
  afterThreadPage config self threadPage st = (r, st') ->
  Spec.thread_step (Spec.rest_ids config n threadPage) st st'.
Proof.
  intros Hself H. unfold afterThreadPage in H. unfold Spec.rest_ids.
  destruct threadPage as [tp |].
  - destruct (tp_nextURL tp) as [nextURL |].
    + destruct (truthy_string nextURL).
      * eapply Hself; [| exact H].
        unfold Spec.no_resume. destruct (continue config); reflexivity.
      * inversion H; subst. apply quiet_thread_step. now apply quiet_step_set_stats.
    + inversion H; subst. apply quiet_thread_step. now apply quiet_step_set_stats.
  - inversion H; subst. apply quiet_thread_step. reflexivity.
Qed.

Lemma finishThreadPage_bound (self : Call -> M unit) (n : nat)
  (threadPage : option ThreadPage) (r0 : Res unit) (st : State) (r : Res unit)
  (st' : State) :
  Spec.follows_chain config self n ->
  finishThreadPage config self threadPage (r0, st) = (r, st') ->
  Spec.thread_step (Spec.rest_ids config n threadPage) st st'.
Proof.
  intros Hself H. unfold finishThreadPage in H. destruct r0 as [u | e |].
  - eapply afterThreadPage_bound; eauto.
  - unfold bind in H. pose proof (onError_quiet e st) as Hq.
    destruct (onError e st) as [[u | e' |] st1]; specialize (Hq _ _ eq_refl).
    + apply (thread_step_trans [] _ st st1 st'); [now apply quiet_thread_step |].
      eapply afterThreadPage_bound; eauto.
    + inversion H; subst. now apply quiet_thread_step.
    + inversion H; subst. now apply quiet_thread_step.
  - inversion H; subst. apply quiet_thread_step. reflexivity.
Qed.

(** A parsed page and what follows it, once no previous download is to be
    continued at another page. *)
Lemma page_and_rest_bound (self : Call -> M unit) (n : nat)
  (context : option DownloadThreadContext) (threadPage : ThreadPage)
  (st : State) (r : Res unit) (st' : State) :
  Spec.follows_chain config self n ->
  finishThreadPage config self
    (Some (Parser.with_messages threadPage
             (dropContinued context (tp_messages threadPage))))
    (persistPage config context
       (Parser.with_messages threadPage
          (dropContinued context (tp_messages threadPage))) st) = (r, st') ->
  Spec.thread_step
    (map msg_id (tp_messages threadPage) ++ Spec.rest_ids config n (Some threadPage)) st st'.
Proof.
  intros Hself H.
  destruct (persistPage config context _ st) as [r0 st1] eqn:Hp.
  apply persistPage_page_step in Hp as (done & Hpre & Hstep & _).
  cbn [Parser.with_messages tp_messages] in Hpre.
  apply (finishThreadPage_bound self n) in H; [| exact Hself].
  apply (thread_step_weaken (done ++ Spec.rest_ids config n (Some threadPage))).
  - apply sublist_app; [| reflexivity].
    etransitivity; [| apply dropContinued_sublist].
    destruct Hpre as [k ->]. apply sublist_inserts_r. reflexivity.
  - eapply thread_step_trans; [apply page_thread_step; exact Hstep | exact H].
Qed.

Lemma thread_ids_step (n : nat) (url : string) (threadPage : ThreadPage) :
  Spec.threadPageAt config url = Some threadPage ->
  Spec.thread_ids config (S n) url
  = map msg_id (tp_messages threadPage) ++ Spec.rest_ids config n (Some threadPage).
Proof. intros H. cbn [Spec.thread_ids]. now rewrite H. Qed.

Lemma thread_chain (fuel : nat) : Spec.follows_chain config (run config fuel) fuel.
Proof.
  induction fuel as [| n IH]; intros url context st r st' Hctx H.
  - inversion H; subst. apply quiet_thread_step. reflexivity.
  - cbn [run] in H. unfold downloadThread_with in H.
    pose proof (fetchThreadPage_quiet config url st) as Hq.
    destruct (fetchThreadPage config url st) as [[threadPage | e |] st1] eqn:Hf;
      specialize (Hq _ _ eq_refl).
    + rewrite (thread_ids_step n url threadPage (threadPageAt_fetched _ _ _ _ _ Hf)).
      rewrite (resumeCheck_skipped context threadPage st1 Hctx) in H.
      apply (thread_step_trans [] _ st st1 st'); [now apply quiet_thread_step |].
      eapply page_and_rest_bound; eauto.
    + apply (thread_step_trans [] _ st st1 st'); [now apply quiet_thread_step |].
      apply (thread_step_weaken (Spec.rest_ids config n None)); [apply sublist_nil_l |].
      eapply finishThreadPage_bound; eauto.
    + inversion H; subst. now apply quiet_thread_step.
Qed.

(** Whatever the context, the markers written by the thread handler are
    among the ids of a thread from some page on. *)
Lemma thread_markers_bound (fuel : nat) (url : string)
  (context : option DownloadThreadContext) (st : State) (r : Res unit) (st' : State) :
  run config fuel (CThread url context) st = (r, st') ->
  exists n u, Spec.thread_step (Spec.thread_ids config n u) st st'.
Proof.
  destruct fuel as [| n]; intros H.
  - inversion H; subst. exists 0, url. apply quiet_thread_step. reflexivity.
  - cbn [run] in H. unfold downloadThread_with in H.
    pose proof (fetchThreadPage_quiet config url st) as Hq.
    destruct (fetchThreadPage config url st) as [[threadPage | e |] st1] eqn:Hf;
      specialize (Hq _ _ eq_refl).
    + pose proof (resumeCheck_quiet context threadPage st1) as Hq2.
      destruct (resumeCheck config context threadPage st1) as [[[prev |] | e |] st2];
        specialize (Hq2 _ _ eq_refl).
      * exists n, (ds_url prev).
        apply (thread_step_trans [] _ st st2 st');
          [apply quiet_thread_step; etransitivity; eauto |].
        eapply (thread_chain n); [| exact H]. reflexivity.
      * exists (S n), url.
        rewrite (thread_ids_step n url threadPage (threadPageAt_fetched _ _ _ _ _ Hf)).
        apply (thread_step_trans [] _ st st2 st');
          [apply quiet_thread_step; etransitivity; eauto |].
        eapply page_and_rest_bound; [apply thread_chain | exact H].
      * exists (S n), url.
        rewrite (thread_ids_step n url threadPage (threadPageAt_fetched _ _ _ _ _ Hf)).
        apply (thread_step_trans [] _ st st2 st');
          [apply quiet_thread_step; etransitivity; eauto |].
        apply (thread_step_weaken (Spec.rest_ids config n (Some threadPage)));
          [apply sublist_inserts_l; reflexivity |].
        eapply finishThreadPage_bound; [apply thread_chain | exact H].
      * inversion H; subst. exists 0, url. apply quiet_thread_step.
        etransitivity; eauto.
    + exists 0, url.
      apply (thread_step_trans [] _ st st1 st'); [now apply quiet_thread_step |].
      apply (thread_step_weaken (Spec.rest_ids config n None)); [apply sublist_nil_l |].
      eapply finishThreadPage_bound; [apply thread_chain | exact H].
    + inversion H; subst. exists 0, url. now apply quiet_thread_step.
Qed.

End ThreadMarkers.

(** A url the site has no answer for leads to no page. *)
Lemma fetchHTML_rt_offline {W : World} (cookie : option string) (budget : nat)
  (args : Fetcher.FetchArgs) :
  forall rt st, st_net st = [] ->
    forall a, fst (Fetcher.fetchHTML_rt cookie budget args rt st) <> Ret a.
Proof.
  induction budget as [| b IH]; intros rt st Hnet a; cbn [Fetcher.fetchHTML_rt];
    unfold try_catch, bind at 1, Fetcher.fetchWithRedirectM; rewrite Hnet;
    cbn [Fetcher.fetchWithRedirect];
    (destruct (Fetcher.newRequest (Fetcher.fa_url args) GET); cbn [fst snd];
     (match goal with
      | |- context [Fetcher.is_abort_or_fatal ?e] =>
          destruct (Fetcher.is_abort_or_fatal e); [cbn; discriminate |]
      end);
     (destruct (rt <? Fetcher.fa_maxRetries args)%nat; [| cbn; discriminate])).
  - cbn. discriminate.
  - cbn. discriminate.
  - unfold bind, log, effect, Fetcher.sleepBeforeExecute, bind. apply IH. reflexivity.
  - unfold bind, log, effect, Fetcher.sleepBeforeExecute, bind. apply IH. reflexivity.
Qed.

Lemma threadPageAt_offline {W : World} (config : DownloaderConfig) (url : string) :
  site url = [] -> Spec.threadPageAt config url = None.
Proof.
  intros Hsite. unfold Spec.threadPageAt, fetchThreadPage, bind, fetchPage.
  pose proof (fetchHTML_rt_offline (rq_cookie (request config))
                (rq_maxRetries (request config))
                {| Fetcher.fa_url := url;
                   Fetcher.fa_maxRetries := rq_maxRetries (request config);
                   Fetcher.fa_retryInterval := rq_minTime_page (request config) |} 0
                (set_net (site url) Demo.state0) Hsite) as H.
  unfold Fetcher.fetchHTML. cbn [Fetcher.fa_maxRetries] in *.
  destruct (Fetcher.fetchHTML_rt _ _ _ 0 (set_net (site url) Demo.state0))
    as [[a | e |] st1]; cbn in *; [now contradiction (H a) | reflexivity | reflexivity].
Qed.

Ltac sorted_list :=
  repeat first
    [ apply SSorted_nil | apply SSorted_cons | apply List.Forall_nil
    | apply List.Forall_cons | lia ].

Lemma hello_ids_increase :
  Spec.ids_increase (W := Spec.helloWorld) (Demo.config None false true).
Proof.
  assert (H1 : Spec.threadPageAt (W := Spec.helloWorld) (Demo.config None false true)
                 Spec.helloURL = Some Spec.helloPage1) by (vm_compute; reflexivity).
  assert (H2 : Spec.threadPageAt (W := Spec.helloWorld) (Demo.config None false true)
                 Spec.helloURL2 = Some Spec.helloPage2) by (vm_compute; reflexivity).
  assert (Hpage2 : forall n,
            StronglySorted Z.le
              (Spec.thread_ids (W := Spec.helloWorld) (Demo.config None false true) n
                 Spec.helloURL2)).
  { intros [| n]; cbn [Spec.thread_ids]; [constructor |]. rewrite H2. cbn. sorted_list. }
  intros [| n] url; cbn [Spec.thread_ids]; [constructor |].
  destruct (String.eqb url Spec.helloURL) eqn:E1.
  - apply String.eqb_eq in E1. subst url. rewrite H1.
    cbn [Spec.helloPage1 Demo.threadPage tp_messages tp_nextURL map Demo.message msg_id].
    change (truthy_string Spec.helloURL2) with true. cbv iota.
    destruct n as [| n]; cbn [Spec.thread_ids]; [cbn; sorted_list |].
    rewrite H2. cbn. sorted_list.
  - destruct (String.eqb url Spec.helloURL2) eqn:E2.
    + apply String.eqb_eq in E2. subst url. apply (Hpage2 (S n)).
    + rewrite threadPageAt_offline; [constructor |].
      cbn [site Spec.helloWorld Demo.world]. now rewrite E1, E2.
Qed.

(** ** Forum traversal and cycles *)




(** ** Traversal of a well-founded link structure *)

Lemma never_stuck_for_each_in {A : Type} (f : A -> M unit) (l : list A) :
  (forall x, In x l -> Spec.never_stuck (f x)) -> Spec.never_stuck (for_each f l).
Proof.
  induction l as [| x l IH]; intros Hf; cbn [for_each].
  - apply never_stuck_ret.
  - apply never_stuck_bind; [apply Hf; now left | intros _; apply IH].
    intros y Hy. apply Hf. now right.
Qed.

Section Termination.

Context {W : World} {HS : Spec.Settling W}.

Variable config : DownloaderConfig.

Lemma fetchPage_state_free (url : string) (st1 st2 : State) :
  fst (fetchPage config url st1) = fst (fetchPage config url st2).
Proof.
  unfold fetchPage, Fetcher.fetchHTML.
  apply (fetchHTML_rt_net_only (rq_cookie (request config)) _ _ 0
           (set_net (site url) st1) (set_net (site url) st2) eq_refl).
Qed.

Lemma fetchForumPage_state_free (url : string) (st1 st2 : State) :
  fst (fetchForumPage config url st1) = fst (fetchForumPage config url st2).
Proof.
  unfold fetchForumPage, bind.
  pose proof (fetchPage_state_free url st1 st2) as Hr.
  destruct (fetchPage config url st1) as [r1 s1], (fetchPage config url st2) as [r2 s2].
  cbn in Hr. subst r2. destruct r1 as [a | e |]; try reflexivity.
  destruct (Parser.parseForumPage (fst a) url); reflexivity.
Qed.

Lemma forumPageAt_fetched (url : string) (st st1 : State) (forumPage : ForumPage) :
  fetchForumPage config url st = (Ret forumPage, st1) ->
  Spec.forumPageAt config url = Some forumPage.
Proof.
  intros H. unfold Spec.forumPageAt.
  rewrite (fetchForumPage_state_free url Demo.state0 st), H. reflexivity.
Qed.

Lemma genericPageAt_fetched (url : string) (st st1 : State) (r : string * string) :
  fetchPage config url st = (Ret r, st1) ->
  Spec.genericPageAt config url = Some (Parser.parseGenericPage (fst r) url).
Proof.
  intros H. unfold Spec.genericPageAt.
  rewrite (fetchPage_state_free url Demo.state0 st), H. reflexivity.
Qed.

Lemma fetchForumPage_never_stuck (url : string) :
  Spec.never_stuck (fetchForumPage config url).
Proof.
  unfold fetchForumPage. never_stuck_step; [apply fetchPage_never_stuck |].
  destruct (Parser.parseForumPage (fst a) url); never_stuck_step.
Qed.

Lemma attachments_never_stuck (attachmentSavePath : string) (message : ThreadMessage) :
  Spec.never_stuck (downloadAttachments config attachmentSavePath message).
Proof.
  unfold downloadAttachments.
  destruct (0 <? length (msg_attachments message))%nat; [| never_stuck_step].
  never_stuck_step; [unfold ensureDirSync; never_stuck_step |].
  never_stuck_step. apply downloadMessageAttachment_never_stuck.
Qed.

Lemma persistPage_never_stuck (context : option DownloadThreadContext)
  (threadPage : ThreadPage) :
  Spec.never_stuck (persistPage config context threadPage).
Proof.
  unfold persistPage. cbv zeta.
  never_stuck_step; [apply resolveFilenames_never_stuck |].
  never_stuck_step; [unfold ensureDirSync; never_stuck_step |].
  never_stuck_step.
  - intros st.
    match goal with
    | |- context [createMessageFile ?tp ?d ?o st] =>
        destruct (createMessageFile_returns tp d o st) as (mf & st' & ->)
    end.
    discriminate.
  - never_stuck_step. unfold processMessage.
    never_stuck_step; [apply attachments_never_stuck |].
    intros st. discriminate.
Qed.

Lemma resumeCheck_never_stuck (context : option DownloadThreadContext)
  (threadPage : ThreadPage) :
  Spec.never_stuck (resumeCheck config context threadPage).
Proof.
  unfold resumeCheck. destruct (negb (is_continued context) && continue config);
    [| never_stuck_step].
  never_stuck_step.
  - intros st. unfold checkPreviousDownload.
    destruct (existsSync _ st); [| discriminate].
    destruct (st_files st !! _) as [[content | json] |]; try discriminate.
    destruct (j_threadID json), (j_url json), (j_messageID json); try discriminate.
    destruct (negb _ || negb _ || negb _); discriminate.
  - apply never_stuck_bind; [apply xlog_never_stuck | intros _].
    apply never_stuck_bind; [apply xlog_never_stuck | intros _].
    apply never_stuck_ret.
Qed.

(** The links of the three kinds of pages are links of the url. *)

Lemma links_thread_next (url next : string) (threadPage : ThreadPage) :
  Spec.threadPageAt config url = Some threadPage ->
  In next (Spec.next_link (tp_nextURL threadPage)) ->
  In next (Spec.links config url).
Proof.
  intros H Hin. unfold Spec.links. rewrite H. apply in_or_app. now left.
Qed.

Lemma links_forum (url next : string) (forumPage : ForumPage) :
  Spec.forumPageAt config url = Some forumPage ->
  In next (map link_url (fp_threads forumPage) ++ map link_url (fp_subforums forumPage)
           ++ Spec.next_link (fp_nextURL forumPage)) ->
  In next (Spec.links config url).
Proof.
  intros H Hin. unfold Spec.links. rewrite H.
  apply in_or_app. right. apply in_or_app. now left.
Qed.

Lemma links_generic (url next : string) (page : GenericPage) :
  Spec.genericPageAt config url = Some page ->
  In next (map link_url (gp_forums page)) ->
  In next (Spec.links config url).
Proof.
  intros H Hin. unfold Spec.links. rewrite H.
  apply in_or_app. right. apply in_or_app. now right.
Qed.

(** The handlers are over when the calls they make on their links are. *)

Lemma afterThreadPage_ends (self : Call -> M unit) (threadPage : option ThreadPage) :
  (forall tp next context,
      threadPage = Some tp -> In next (Spec.next_link (tp_nextURL tp)) ->
      Spec.no_resume config context = true ->
      Spec.never_stuck (self (CThread next context))) ->
  Spec.never_stuck (afterThreadPage config self threadPage).
Proof.
  intros Hself. unfold afterThreadPage. destruct threadPage as [tp |]; [| never_stuck_step].
  specialize (Hself tp). unfold Spec.next_link in Hself.
  destruct (tp_nextURL tp) as [nextURL |]; [| never_stuck_step].
  destruct (truthy_string nextURL); [| never_stuck_step].
  apply Hself; [reflexivity | now left |].
  unfold Spec.no_resume. destruct (continue config); reflexivity.
Qed.

Lemma finishThreadPage_ends (self : Call -> M unit) (threadPage : option ThreadPage)
  (r : Res unit) (st : State) :
  (forall tp next context,
      threadPage = Some tp -> In next (Spec.next_link (tp_nextURL tp)) ->
      Spec.no_resume config context = true ->
      Spec.never_stuck (self (CThread next context))) ->
  r <> Stuck ->
  fst (finishThreadPage config self threadPage (r, st)) <> Stuck.
Proof.
  intros Hself Hr. unfold finishThreadPage. destruct r as [u | e |].
  - now apply afterThreadPage_ends.
  - apply never_stuck_bind; [apply onError_never_stuck |].
    intros _. now apply afterThreadPage_ends.
  - congruence.
Qed.

Lemma downloadThread_with_ends (self : Call -> M unit) (url : string)
  (context : option DownloadThreadContext) :
  (forall next context',
      In next (Spec.links config url) -> Spec.no_resume config context' = true ->
      Spec.never_stuck (self (CThread next context'))) ->
  (Spec.no_resume config context = true
   \/ forall other context',
        Spec.no_resume config context' = true ->
        Spec.never_stuck (self (CThread other context'))) ->
  Spec.never_stuck (downloadThread_with config self url context).
Proof.
  intros Hnext Hres st. unfold downloadThread_with.
  pose proof (fetchThreadPage_never_stuck config url st) as Hf.
  destruct (fetchThreadPage config url st) as [[threadPage | e |] st1] eqn:Ef.
  - apply threadPageAt_fetched in Ef.
    assert (Hlinks : forall tp next context',
               Some (Parser.with_messages threadPage
                       (dropContinued context (tp_messages threadPage))) = Some tp
               \/ Some threadPage = Some tp ->
               In next (Spec.next_link (tp_nextURL tp)) ->
               Spec.no_resume config context' = true ->
               Spec.never_stuck (self (CThread next context'))).
    { intros tp next context' Htp Hin Hctx. apply Hnext; [| exact Hctx].
      apply (links_thread_next url next threadPage Ef).
      destruct Htp as [Htp | Htp]; inversion Htp; subst; exact Hin. }
    pose proof (resumeCheck_never_stuck context threadPage st1) as Hc.
    destruct (resumeCheck config context threadPage st1) as [[[prev |] | e |] st2] eqn:Ec.
    + destruct Hres as [Hctx | Hany].
      * rewrite (resumeCheck_skipped config context threadPage st1 Hctx) in Ec.
        discriminate.
      * apply Hany. reflexivity.
    + pose proof (persistPage_never_stuck context
                    (Parser.with_messages threadPage
                       (dropContinued context (tp_messages threadPage))) st2) as Hp.
      destruct (persistPage config context _ st2) as [r0 st3].
      apply finishThreadPage_ends; [| exact Hp].
      intros tp next context' Htp. apply Hlinks. now left.
    + apply finishThreadPage_ends; [| discriminate].
      intros tp next context' Htp. apply Hlinks. now right.
    + exfalso. now apply Hc.
  - apply finishThreadPage_ends; [| discriminate]. intros tp next context' Htp. discriminate.
  - exfalso. now apply Hf.
Qed.

Lemma afterForumPage_ends (self : Call -> M unit) (forumPage : option ForumPage) :
  (forall fp next,
      forumPage = Some fp ->
      In next (map link_url (fp_subforums fp) ++ Spec.next_link (fp_nextURL fp)) ->
      Spec.never_stuck (self (CForum next))) ->
  Spec.never_stuck (afterForumPage self forumPage).
Proof.
  intros Hself. unfold afterForumPage. destruct forumPage as [fp |]; [| never_stuck_step].
  specialize (Hself fp).
  assert (Hsub : Spec.never_stuck
                   (do* (if (0 <? length (fp_subforums fp))%nat
                         then for_each (fun subforum => self (CForum (link_url subforum)))
                                (fp_subforums fp)
                         else ret tt) in
                    effect (set_stats incr_processedForumCount))).
  { never_stuck_step; [| never_stuck_step].
    destruct (0 <? length (fp_subforums fp))%nat; [| never_stuck_step].
    apply never_stuck_for_each_in. intros l Hl. apply Hself; [reflexivity |].
    apply in_or_app. left. now apply in_map. }
  unfold Spec.next_link in Hself.
  destruct (fp_nextURL fp) as [nextURL |]; [| exact Hsub].
  destruct (truthy_string nextURL); [| exact Hsub].
  apply Hself; [reflexivity |]. apply in_or_app. right. now left.
Qed.

Lemma downloadForum_with_ends (self : Call -> M unit) (url : string) :
  (forall next, In next (Spec.links config url) ->
     Spec.never_stuck (self (CProcess next)) /\ Spec.never_stuck (self (CForum next))) ->
  Spec.never_stuck (downloadForum_with config self url).
Proof.
  intros Hself st. unfold downloadForum_with.
  pose proof (fetchForumPage_never_stuck url st) as Hf.
  destruct (fetchForumPage config url st) as [[forumPage | e |] st1] eqn:Ef.
  - apply forumPageAt_fetched in Ef.
    assert (Hafter : Spec.never_stuck (afterForumPage self (Some forumPage))).
    { apply afterForumPage_ends. intros fp next Hfp Hin. inversion Hfp; subst fp.
      apply Hself. apply (links_forum url next forumPage Ef).
      apply in_or_app. now right. }
    assert (Hthreads : Spec.never_stuck
                         (if (0 <? length (fp_threads forumPage))%nat
                          then for_each (fun thread => self (CProcess (link_url thread)))
                                 (fp_threads forumPage)
                          else ret tt)).
    { destruct (0 <? length (fp_threads forumPage))%nat; [| never_stuck_step].
      apply never_stuck_for_each_in. intros l Hl. apply Hself.
      apply (links_forum url _ forumPage Ef). apply in_or_app. left. now apply in_map. }
    specialize (Hthreads st1). unfold finishForumPage.
    match type of Hthreads with
    | fst ?x <> _ => destruct x as [[u | e |] st2]; cbn in Hthreads
    end.
    + apply Hafter.
    + apply never_stuck_bind; [apply onError_never_stuck | intros _; exact Hafter].
    + congruence.
  - unfold finishForumPage.
    apply never_stuck_bind; [apply onError_never_stuck | intros _].
    apply afterForumPage_ends. discriminate.
  - exfalso. now apply Hf.
Qed.

Lemma downloadGeneric_with_ends (self : Call -> M unit) (url : string) :
  (forall next, In next (Spec.links config url) ->
     Spec.never_stuck (self (CProcess next))) ->
  Spec.never_stuck (downloadGeneric_with config self url).
Proof.
  intros Hself. unfold downloadGeneric_with.
  apply never_stuck_try_catch; [| intros e; apply onError_never_stuck].
  intros st. unfold bind.
  pose proof (fetchPage_never_stuck config url st) as Hf.
  destruct (fetchPage config url st) as [[r | e |] st1] eqn:Ef;
    [| discriminate | exfalso; now apply Hf].
  apply genericPageAt_fetched in Ef. clear Hf. revert st1.
  change (Spec.never_stuck
            (if (0 <? length (gp_forums (Parser.parseGenericPage (fst r) url)))%nat
             then for_each (fun forum => self (CProcess (link_url forum)))
                    (gp_forums (Parser.parseGenericPage (fst r) url))
             else ret tt)).
  destruct (0 <? length (gp_forums (Parser.parseGenericPage (fst r) url)))%nat;
    [| apply never_stuck_ret].
  apply never_stuck_for_each_in. intros l Hl. apply Hself.
  apply (links_generic url _ _ Ef). now apply in_map.
Qed.

Lemma process_with_ends (self : Call -> M unit) (url : string) :
  Spec.never_stuck (self (CThread url None)) ->
  Spec.never_stuck (self (CForum url)) ->
  Spec.never_stuck (self (CGeneric url)) ->
  Spec.never_stuck (process_with self url).
Proof.
  intros Ht Hf Hg. unfold process_with.
  destruct (URLHelper.getTargetTypeByURL url_href url) as [e | []];
    [never_stuck_step | assumption ..].
Qed.

Variable rank : string -> nat.

Variable bound : nat.

Hypothesis Hranked : Spec.ranked config rank bound.

(** The pages of a thread, once no previous download is looked for. *)
Lemma thread_pages_end (fuel : nat) :
  forall url context,
    Spec.no_resume config context = true -> rank url < fuel ->
    Spec.never_stuck (run config fuel (CThread url context)).
Proof.
  induction fuel as [| n IH]; intros url context Hctx Hfuel; [lia |].
  cbn [run]. apply downloadThread_with_ends; [| now left].
  intros next context' Hin Hctx'. apply IH; [exact Hctx' |].
  apply (proj2 Hranked) in Hin. lia.
Qed.

Lemma thread_ends (fuel : nat) (url : string) (context : option DownloadThreadContext) :
  bound + 1 < fuel -> Spec.never_stuck (run config fuel (CThread url context)).
Proof.
  destruct fuel as [| n]; intros Hfuel; [lia |].
  assert (Hall : forall other context',
             Spec.no_resume config context' = true ->
             Spec.never_stuck (run config n (CThread other context'))).
  { intros other context' Hctx'. apply thread_pages_end; [exact Hctx' |].
    pose proof (proj1 Hranked other). lia. }
  cbn [run]. apply downloadThread_with_ends; [| now right].
  intros next context' _. apply Hall.
Qed.

(** Forums, generic pages and [process], by the rank of their url. *)
Lemma calls_end (r : nat) :
  forall url fuel,
    rank url <= r ->
    (bound + 2 + 2 * r <= fuel ->
     Spec.never_stuck (run config fuel (CForum url))
     /\ Spec.never_stuck (run config fuel (CGeneric url)))
    /\ (bound + 3 + 2 * r <= fuel ->
        Spec.never_stuck (run config fuel (CProcess url))).
Proof.
  induction r as [| r IH]; intros url fuel Hr.
  - assert (Hnone : forall next, ~ In next (Spec.links config url)).
    { intros next Hin. apply (proj2 Hranked) in Hin. lia. }
    assert (Hfg : bound + 2 <= fuel ->
                  Spec.never_stuck (run config fuel (CForum url))
                  /\ Spec.never_stuck (run config fuel (CGeneric url))).
    { destruct fuel as [| n]; intros Hfuel; [lia |]. cbn [run]. split.
      - apply downloadForum_with_ends. intros next Hin. now apply Hnone in Hin.
      - apply downloadGeneric_with_ends. intros next Hin. now apply Hnone in Hin. }
    split; [intros Hfuel; apply Hfg; lia |].
    destruct fuel as [| n]; intros Hfuel; [lia |]. cbn [run].
    assert (Hn : bound + 2 <= n) by lia.
    assert (Hfg' : Spec.never_stuck (run config n (CForum url))
                   /\ Spec.never_stuck (run config n (CGeneric url))).
    { destruct n as [| m]; [lia |]. cbn [run]. split.
      - apply downloadForum_with_ends. intros next Hin. now apply Hnone in Hin.
      - apply downloadGeneric_with_ends. intros next Hin. now apply Hnone in Hin. }
    apply process_with_ends; [apply thread_ends; lia | apply Hfg' ..].
  - assert (Hlinks : forall next n, In next (Spec.links config url) ->
               bound + 1 + 2 * S r <= n ->
               Spec.never_stuck (run config n (CProcess next))
               /\ Spec.never_stuck (run config n (CForum next))).
    { intros next n Hin Hn. apply (proj2 Hranked) in Hin.
      assert (Hnext : rank next <= r) by lia.
      destruct (IH next n Hnext) as [Hfg Hp]. split; [apply Hp; lia |].
      apply Hfg. lia. }
    assert (Hfg : forall n, bound + 2 + 2 * S r <= n ->
                  Spec.never_stuck (run config n (CForum url))
                  /\ Spec.never_stuck (run config n (CGeneric url))).
    { intros [| n] Hn; [lia |]. cbn [run]. split.
      - apply downloadForum_with_ends. intros next Hin. apply Hlinks; [exact Hin | lia].
      - apply downloadGeneric_with_ends. intros next Hin.
        apply Hlinks; [exact Hin | lia]. }
    split; [apply Hfg |].
    destruct fuel as [| n]; intros Hfuel; [lia |]. cbn [run].
    apply process_with_ends; [apply thread_ends; lia | apply Hfg; lia ..].
Qed.

Lemma run_ends (c : Call) (st : State) :
  fst (run config (3 * bound + 3) c st) <> Stuck.
Proof.
  pose proof (proj1 Hranked) as Hb. destruct c as [url | url context | url | url].
  - apply (calls_end bound url); [apply Hb | lia].
  - apply thread_ends. lia.
  - apply (calls_end bound url (3 * bound + 3) (Hb url)). lia.
  - apply (calls_end bound url (3 * bound + 3) (Hb url)). lia.
Qed.


End Termination.

Lemma fetchPage_offline {W : World} (config : DownloaderConfig) (url : string)
  (st : State) :
  site url = [] -> forall r, fst (fetchPage config url st) <> Ret r.
Proof.
  intros Hsite r. unfold fetchPage, Fetcher.fetchHTML.
  apply fetchHTML_rt_offline. exact Hsite.
Qed.

Lemma links_offline {W : World} (config : DownloaderConfig) (url : string) :
  site url = [] -> Spec.links config url = [].
Proof.
  intros Hsite. unfold Spec.links.
  rewrite (threadPageAt_offline config url Hsite).
  unfold Spec.forumPageAt, Spec.genericPageAt, fetchForumPage, bind.
  pose proof (fetchPage_offline config url Demo.state0 Hsite) as H.
  destruct (fetchPage config url Demo.state0) as [[r | e |] st1]; cbn in *;
    [now contradiction (H r) | reflexivity | reflexivity].
Qed.

Lemma board_ranked :
  Spec.ranked (W := Spec.boardWorld) (Demo.config None false false) Spec.boardRank 2.
Proof.
  split; intros url.
  - unfold Spec.boardRank.
    destruct (String.eqb url Spec.boardURL); [lia |].
    destruct (String.eqb url Spec.helloURL); lia.
  - intros next Hin.
    destruct (String.eqb url Spec.boardURL) eqn:E1.
    { apply String.eqb_eq in E1. subst url.
      assert (L : Spec.links (W := Spec.boardWorld) (Demo.config None false false)
                    Spec.boardURL = [Spec.helloURL; Spec.subURL])
        by (vm_compute; reflexivity).
      rewrite L in Hin. destruct Hin as [<- | [<- | []]]; vm_compute; lia. }
    destruct (String.eqb url Spec.helloURL) eqn:E2.
    { apply String.eqb_eq in E2. subst url.
      assert (L : Spec.links (W := Spec.boardWorld) (Demo.config None false false)
                    Spec.helloURL = [Spec.helloURL2])
        by (vm_compute; reflexivity).
      rewrite L in Hin. destruct Hin as [<- | []]; vm_compute; lia. }
    destruct (String.eqb url Spec.subURL) eqn:E3.
    { apply String.eqb_eq in E3. subst url.
      assert (L : Spec.links (W := Spec.boardWorld) (Demo.config None false false)
                    Spec.subURL = [])
        by (vm_compute; reflexivity).
      rewrite L in Hin. destruct Hin. }
    destruct (String.eqb url Spec.helloURL2) eqn:E4.
    { apply String.eqb_eq in E4. subst url.
      assert (L : Spec.links (W := Spec.boardWorld) (Demo.config None false false)
                    Spec.helloURL2 = [])
        by (vm_compute; reflexivity).
      rewrite L in Hin. destruct Hin. }
    rewrite links_offline in Hin; [destruct Hin |].
    cbn [site Spec.boardWorld Demo.world]. now rewrite E1, E3, E2, E4.
Qed.

Ltac settles_by_cases :=
  intros u; cbn;
  repeat match goal with
         | |- context [String.eqb ?a ?b] => destruct (String.eqb a b)
         end;
  reflexivity.

Lemma board_settles : Spec.Settling Spec.boardWorld.
Proof. settles_by_cases. Qed.


(** That every fetch comes to an end is needed: a thread whose url
    redirects to itself has no links at all, and its download is not over
    with any amount of fuel. *)
Lemma redirect_to_itself_never_returns :
  Spec.ranked (W := Spec.mazeWorld) (Demo.config None false false) (fun _ => 0) 0
  /\ ~ Spec.crawl_ends (W := Spec.mazeWorld) (Demo.config None false false)
        (CThread Spec.mazeURL None) Demo.state0.
Proof.
  split; [split; [intros url; lia |] |].
  - intros url next Hin. exfalso.
    destruct (String.eqb url Spec.mazeURL) eqn:E.
    + apply String.eqb_eq in E. subst url.
      assert (L : Spec.links (W := Spec.mazeWorld) (Demo.config None false false)
                    Spec.mazeURL = [])
        by (vm_compute; reflexivity).
      rewrite L in Hin. destruct Hin.
    + rewrite links_offline in Hin; [destruct Hin |].
      cbn [site Spec.mazeWorld Demo.world]. now rewrite E.
  - intros [fuel H]. apply H. destruct fuel as [| n]; reflexivity.
Qed.

(** ** Errors and the boundaries of units *)

Lemma throws_only_ret (P : JsError -> bool) {A : Type} (a : A) :
  Spec.throws_only P (ret a).
Proof. intros st e H. discriminate. Qed.

Lemma throws_only_effect (P : JsError -> bool) (f : State -> State) :
  Spec.throws_only P (effect f).
Proof. intros st e H. discriminate. Qed.

Lemma throws_only_bind (P : JsError -> bool) {A B : Type} (m : M A) (k : A -> M B) :
  Spec.throws_only P m -> (forall a, Spec.throws_only P (k a)) ->
  Spec.throws_only P (bind m k).
Proof.
  intros Hm Hk st e. unfold bind. specialize (Hm st).
  destruct (m st) as [[a | e0 |] st1]; cbn in *.
  - apply Hk.
  - intros [= <-]. now apply Hm.
  - discriminate.
Qed.

(** Whatever the body throws, only the handler decides what leaves. *)
Lemma throws_only_try_catch (P : JsError -> bool) {A : Type} (m : M A)
  (h : JsError -> M A) :
  (forall e, Spec.throws_only P (h e)) -> Spec.throws_only P (try_catch m h).
Proof.
  intros Hh st e. unfold try_catch.
  destruct (m st) as [[a | e0 |] st1]; cbn; try discriminate. apply Hh.
Qed.

Lemma throws_only_for_each (P : JsError -> bool) {A : Type} (f : A -> M unit)
  (l : list A) :
  (forall x, In x l -> Spec.throws_only P (f x)) -> Spec.throws_only P (for_each f l).
Proof.
  induction l as [| x l IH]; intros Hf; cbn [for_each].
  - apply throws_only_ret.
  - apply throws_only_bind; [apply Hf; now left | intros _; apply IH].
    intros y Hy. apply Hf. now right.
Qed.


Section UnitBoundaries.

Context {W : World}.

Variable config : DownloaderConfig.




Lemma attachment_throws_only (attachment : ThreadMessageAttachment) (destDir : string) :
  Spec.throws_only isErrorNonContinuable
    (downloadMessageAttachment config attachment destDir).
Proof.
  intros st e. unfold downloadMessageAttachment.
  destruct (existsSync _ st && negb (overwrite config)); [discriminate |].
  revert st e. apply throws_only_try_catch. intros e0.
  destruct (isErrorNonContinuable e0) eqn:E.
  - intros st e [= <-]. exact E.
  - apply throws_only_bind; [| intros _].
    + unfold xlog. destruct (is_limiter_stop e0);
        [apply throws_only_ret | apply throws_only_effect].
    + unfold updateStatsOnError. destruct (negb (is_limiter_stop e0));
        [apply throws_only_effect | apply throws_only_ret].
Qed.










Lemma throws_only_map_each (P : JsError -> bool) {A B : Type} (f : A -> M B)
  (l : list A) :
  (forall x, In x l -> Spec.throws_only P (f x)) -> Spec.throws_only P (map_each f l).
Proof.
  induction l as [| x l IH]; intros Hf; cbn [map_each].
  - apply throws_only_ret.
  - apply throws_only_bind; [apply Hf; now left | intros y].
    apply throws_only_bind; [| intros ys; apply throws_only_ret].
    apply IH. intros z Hz. apply Hf. now right.
Qed.




Lemma setAttachmentFilename_throws_only (attachment : ThreadMessageAttachment) :
  Spec.throws_only isErrorNonContinuable (setAttachmentFilename config attachment).
Proof.
  unfold setAttachmentFilename. apply throws_only_try_catch. intros e0.
  destruct (isErrorNonContinuable e0) eqn:E.
  - intros st e [= <-]. exact E.
  - apply throws_only_bind; [| intros _; apply throws_only_ret].
    unfold xlog, log. destruct (is_limiter_stop e0);
      [apply throws_only_ret | apply throws_only_effect].
Qed.

Lemma resolveFilenames_throws_only (messages : list ThreadMessage) :
  Spec.throws_only isErrorNonContinuable (resolveFilenames config messages).
Proof.
  unfold resolveFilenames. apply throws_only_map_each. intros msg _.
  apply throws_only_bind; [| intros atts; apply throws_only_ret].
  apply throws_only_map_each. intros attachment _.
  destruct (negb (truthy_opt (att_filename attachment)));
    [apply setAttachmentFilename_throws_only | apply throws_only_ret].
Qed.

(** What leaves the body of a page: the errors of its attachments and of
    the lookups of their names are caught where they are raised, so the
    body throws only errors that cannot be continued from. *)
Lemma persistPage_throws_only (context : option DownloadThreadContext)
  (threadPage : ThreadPage) :
  Spec.throws_only isErrorNonContinuable (persistPage config context threadPage).
Proof.
  unfold persistPage. cbv zeta.
  apply throws_only_bind; [apply resolveFilenames_throws_only | intros messages].
  apply throws_only_bind; [apply throws_only_effect | intros _].
  apply throws_only_bind.
  - intros st e.
    match goal with
    | |- context [createMessageFile ?tp ?d ?o st] =>
        destruct (createMessageFile_returns tp d o st) as (mf & st' & ->)
    end.
    discriminate.
  - intros messageFile. apply throws_only_for_each. intros message _.
    unfold processMessage. apply throws_only_bind.
    + unfold downloadAttachments.
      destruct (0 <? length (msg_attachments message))%nat; [| apply throws_only_ret].
      apply throws_only_bind; [apply throws_only_effect | intros _].
      apply throws_only_for_each. intros attachment _. apply attachment_throws_only.
    + intros _ st e. discriminate.
Qed.



End UnitBoundaries.



(** The attachment that is gone is counted as an error, and the one after
    it is downloaded. *)
Lemma lossy_attachments_both_visited :
  fst (for_each
         (fun attachment =>
            downloadMessageAttachment (W := Spec.lossyWorld)
              (Demo.config None false false) attachment "/out/attachments")
         [Spec.brokenAttachment; Spec.pngAttachment] Demo.state0) = Ret tt
  /\ st_stats
       (snd (for_each
               (fun attachment =>
                  downloadMessageAttachment (W := Spec.lossyWorld)
                    (Demo.config None false false) attachment "/out/attachments")
               [Spec.brokenAttachment; Spec.pngAttachment] Demo.state0))
     = {| processedForumCount := 0; processedThreadCount := 0;
          processedMessageCount := 0; skippedExistingAttachmentCount := 0;
          downloadedAttachmentCount := 1; errorCount := 1 |}.
Proof. vm_compute. split; reflexivity. Qed.

(** ** A marker that is not on the page *)

Section MarkerAbsent.

Context {W : World}.

Variable config : DownloaderConfig.

(** C10: the thread handler is called with a continuing context that carries
    the message id [m], and no message of the parsed page has that id.  Then
    no message is dropped: the handler persists the page as parsed.  What is
    appended, counted and marked is a first part of the messages of the
    page, in their order, and all of them when the page is persisted without
    an error; the only errors that end the page before its last message are
    those that cannot be continued from (a cancellation, a fatal error), and
    the page comes to an end when no server redirects without end. *)
Theorem C10_marker_absent_keeps_every_message (self : Call -> M unit) (url : string)
  (m : Z) (st st1 : State) (threadPage : ThreadPage) :
  fetchThreadPage config url st = (Ret threadPage, st1) ->
  ~ In m (map msg_id (tp_messages threadPage)) ->
  dropContinued (Spec.continuingFrom m) (tp_messages threadPage) = tp_messages threadPage
  /\ downloadThread_with config self url (Spec.continuingFrom m) st
     = finishThreadPage config self (Some threadPage)
         (persistPage config (Spec.continuingFrom m) threadPage st1)
  /\ (forall st2,
        persistPage config (Spec.continuingFrom m) threadPage st1 = (Ret tt, st2) ->
        Spec.page_step (map msg_id (tp_messages threadPage)) st1 st2)
  /\ (forall r st2,
        persistPage config (Spec.continuingFrom m) threadPage st1 = (r, st2) ->
        (exists done,
            done `prefix_of` map msg_id (tp_messages threadPage)
            /\ Spec.page_step done st1 st2
            /\ (r = Ret tt -> done = map msg_id (tp_messages threadPage)))
        /\ (forall e, r = Throw e -> isErrorNonContinuable e = true)
        /\ (Spec.Settling W -> r <> Stuck)).
Proof.
  intros Hfetch Hnot.
  pose proof (dropContinued_absent m (tp_messages threadPage) Hnot) as Hdrop.
  split; [exact Hdrop |]. split; [| split].
  - rewrite (downloadThread_continued config self url m st st1 threadPage Hfetch).
    now rewrite Hdrop, with_messages_same.
  - intros st2 Hp. apply persistPage_page_step in Hp as (done & _ & H2 & H3).
    now rewrite <- (H3 eq_refl).
  - intros r st2 Hp. split; [| split].
    + apply persistPage_page_step in Hp as (done & H1 & H2 & H3).
      exists done. repeat split; assumption.
    + intros e ->.
      apply (persistPage_throws_only config (Spec.continuingFrom m) threadPage st1).
      now rewrite Hp.
    + intros HS ->.
      apply (persistPage_never_stuck config (Spec.continuingFrom m) threadPage st1).
      now rewrite Hp.
Qed.

End MarkerAbsent.

Lemma hello_settles : Spec.Settling Spec.helloWorld.
Proof. settles_by_cases. Qed.

Lemma C10_marker_absent_keeps_every_message_witness :
  dropContinued (Spec.continuingFrom 99) (tp_messages Spec.helloPage1)
  = tp_messages Spec.helloPage1
  /\ downloadThread_with (W := Spec.helloWorld) (Demo.config None false true)
       Spec.noCalls Spec.helloURL (Spec.continuingFrom 99) Demo.state0
     = finishThreadPage (Demo.config None false true) Spec.noCalls (Some Spec.helloPage1)
         (persistPage (W := Spec.helloWorld) (Demo.config None false true) (Spec.continuingFrom 99)
            Spec.helloPage1 Spec.afterHelloPage1)
  /\ exists st2,
       persistPage (W := Spec.helloWorld) (Demo.config None false true)
         (Spec.continuingFrom 99) Spec.helloPage1 Spec.afterHelloPage1 = (Ret tt, st2)
       /\ Spec.page_step [10; 20; 30]%Z Spec.afterHelloPage1 st2.
Proof.
  assert (Hnot : ~ In 99%Z (map msg_id (tp_messages Spec.helloPage1))).
  { cbn. intros H. repeat (destruct H as [H | H]; [discriminate |]). exact H. }
  destruct (C10_marker_absent_keeps_every_message (W := Spec.helloWorld)
              (Demo.config None false true) Spec.noCalls Spec.helloURL 99 Demo.state0
              Spec.afterHelloPage1 Spec.helloPage1 hello_page1_fetched Hnot)
    as (H1 & H2 & H3 & _).
  split; [exact H1 |]. split; [exact H2 |].
  eexists. split; [vm_compute; reflexivity |].
  apply (H3 _). vm_compute. reflexivity.
Defined.

(** * Further properties of the code *)

(** ** URLHelper: what the two patterns accept and what they return *)

Lemma append_cons (x : ascii) (a b : string) :
  String x a +:+ b = String x (a +:+ b).
Proof. reflexivity. Qed.

Lemma append_nil_l (a : string) : "" +:+ a = a.
Proof. reflexivity. Qed.

Ltac norm_append := rewrite ?append_cons, ?append_nil_l in *.

Lemma append_assoc (a b c : string) : (a +:+ b) +:+ c = a +:+ (b +:+ c).
Proof.
  induction a as [| x a IH]; [reflexivity |].
  change (String x ((a +:+ b) +:+ c) = String x (a +:+ (b +:+ c))). now f_equal.
Qed.

Lemma append_nil_r (a : string) : a +:+ "" = a.
Proof.
  induction a as [| x a IH]; [reflexivity |].
  change (String x (a +:+ "") = String x a). now f_equal.
Qed.

Lemma strip_prefix_sound (p s rest : string) :
  URLHelper.strip_prefix p s = Some rest -> s = p +:+ rest.
Proof.
  revert s. induction p as [| a p IH]; intros s H; cbn in H.
  - now inversion H.
  - destruct s as [| b s]; [discriminate |].
    destruct (Ascii.eqb a b) eqn:E; [| discriminate].
    apply Ascii.eqb_eq in E. subst b. norm_append. f_equal. now apply IH.
Qed.

Lemma strip_prefix_append (p rest : string) :
  URLHelper.strip_prefix p (p +:+ rest) = Some rest.
Proof.
  induction p as [| a p IH]; norm_append; cbn; [reflexivity |].
  now rewrite Ascii.eqb_refl.
Qed.

(** A text at least as long as [p] that does not start with [p] still does
    not when it is continued. *)
Lemma strip_prefix_none_append (p s t : string) :
  URLHelper.strip_prefix p s = None -> String.length p <= String.length s ->
  URLHelper.strip_prefix p (s +:+ t) = None.
Proof.
  revert s. induction p as [| a p IH]; intros s H Hlen; cbn in H; [discriminate |].
  destruct s as [| b s]; [cbn in Hlen; lia |]. norm_append. cbn.
  destruct (Ascii.eqb a b); [| reflexivity]. apply IH; [exact H | cbn in Hlen; lia].
Qed.

Lemma take_digits_split (s : string) :
  exists post,
    s = URLHelper.take_digits s +:+ post
    /\ Spec.all_digits (URLHelper.take_digits s) = true
    /\ URLHelper.starts_with_digit post = false.
Proof.
  induction s as [| c s (post & Hs & Hd & Hp)]; cbn.
  - exists "". repeat split.
  - destruct (URLHelper.is_digit c) eqn:Ec.
    + exists post. norm_append. cbn. rewrite Ec, Hd.
      repeat split; [now f_equal | exact Hp].
    + exists (String c s). repeat split. exact Ec.
Qed.

Lemma take_digits_nonempty (s : string) :
  URLHelper.starts_with_digit s = true -> URLHelper.take_digits s <> "".
Proof. destruct s as [| c s]; cbn; [discriminate |]. now intros ->. Qed.

Lemma take_digits_exact (ds post : string) :
  Spec.all_digits ds = true -> URLHelper.starts_with_digit post = false ->
  URLHelper.take_digits (ds +:+ post) = ds.
Proof.
  intros Hd Hp. induction ds as [| c ds IH]; norm_append; cbn in *.
  - destruct post as [| c post]; cbn in *; [reflexivity | now rewrite Hp].
  - apply andb_true_iff in Hd as [Hc Hd]. rewrite Hc. f_equal. now apply IH.
Qed.

Lemma substring_whole_prefix (a b : string) :
  substring 0 (String.length a) (a +:+ b) = a.
Proof.
  induction a as [| x a IH]; norm_append; cbn.
  - destruct b; reflexivity.
  - now rewrite IH.
Qed.

(** A dot is no part of a line terminator: whether one starts at a place
    before the dot does not depend on what follows the dot. *)
Lemma line_terminator_at_before_dot (c : ascii) (m rest : string) :
  URLHelper.line_terminator_at (String c (m +:+ String "." rest))
  = URLHelper.line_terminator_at (String c m).
Proof.
  unfold URLHelper.line_terminator_at. f_equal. f_equal.
  destruct m as [| c1 [| c2 m]]; norm_append.
  - destruct rest; reflexivity.
  - cbn. now rewrite andb_false_r.
  - reflexivity.
Qed.

Lemma line_terminator_at_dot (rest : string) :
  URLHelper.line_terminator_at (String "." rest) = false.
Proof. reflexivity. Qed.

(** What [(.+)\.(\d+)] returns is in the text it was matched against. *)
Lemma match_slug_id_sound (s : string) :
  forall n k ds,
    URLHelper.match_slug_id n s = Some (k, ds) ->
    exists m post,
      s = m +:+ "." +:+ ds +:+ post
      /\ k = n + String.length m
      /\ 0 < k
      /\ Spec.one_line m = true
      /\ ds <> ""
      /\ Spec.all_digits ds = true
      /\ URLHelper.starts_with_digit post = false.
Proof.
  induction s as [| c s IH]; intros n k ds H; cbn [URLHelper.match_slug_id] in H;
    [discriminate |].
  destruct (URLHelper.line_terminator_at (String c s)) eqn:Ec; [discriminate |].
  destruct (URLHelper.match_slug_id (S n) s) as [[k' ds'] |] eqn:Er.
  - inversion H; subst k' ds'.
    destruct (IH _ _ _ Er) as (m & post & Hs & Hk & Hpos & Hm & Hne & Hd & Hp).
    exists (String c m), post. norm_append. subst s.
    rewrite line_terminator_at_before_dot in Ec.
    cbn [Spec.one_line String.length]. rewrite Ec, Hm.
    repeat split; try assumption; lia.
  - destruct (Ascii.eqb c "."%char && (0 <? n)%nat && URLHelper.starts_with_digit s)
      eqn:Eb; [| discriminate].
    apply andb_true_iff in Eb as [Eb Hsd]. apply andb_true_iff in Eb as [Edot Hn].
    apply Ascii.eqb_eq in Edot. apply Nat.ltb_lt in Hn. inversion H; subst k ds c.
    destruct (take_digits_split s) as (post & Hs & Hd & Hp).
    exists "", post. norm_append. cbn. repeat split; try assumption.
    + now f_equal.
    + lia.
    + now apply take_digits_nonempty.
Qed.

Lemma regex_exec_sound (marker s m ds : string) :
  URLHelper.regex_exec marker s = Some (m, ds) ->
  exists pre post,
    s = Spec.slug_url pre marker m ds post
    /\ m <> "" /\ Spec.one_line m = true
    /\ ds <> "" /\ Spec.all_digits ds = true
    /\ URLHelper.starts_with_digit post = false.
Proof.
  induction s as [| c s IH]; cbn [URLHelper.regex_exec]; unfold URLHelper.match_here.
  - destruct (URLHelper.strip_prefix marker "") as [rest |] eqn:Ep; [| discriminate].
    apply strip_prefix_sound in Ep.
    destruct (URLHelper.match_slug_id 0 rest) as [[k ds'] |] eqn:Em; [| discriminate].
    apply match_slug_id_sound in Em as (m' & post & Hs & _).
    subst rest. destruct marker, m'; discriminate.
  - destruct (URLHelper.strip_prefix marker (String c s)) as [rest |] eqn:Ep.
    + destruct (URLHelper.match_slug_id 0 rest) as [[k ds'] |] eqn:Em.
      * intros [= <- <-]. apply strip_prefix_sound in Ep.
        apply match_slug_id_sound in Em as (m' & post & Hs & Hk & Hpos & Hm & Hne & Hd & Hp).
        cbn in Hk. subst k. rewrite Hs, substring_whole_prefix.
        exists "", post. unfold Spec.slug_url. norm_append.
        repeat split; try assumption; [now rewrite Ep, Hs |].
        intros ->. cbn in Hpos. lia.
      * intros H. destruct (IH H) as (pre & post & Hs & Hrest).
        exists (String c pre), post. split; [| exact Hrest].
        unfold Spec.slug_url in *. norm_append. now f_equal.
    + intros H. destruct (IH H) as (pre & post & Hs & Hrest).
      exists (String c pre), post. split; [| exact Hrest].
      unfold Spec.slug_url in *. norm_append. now f_equal.
Qed.

Lemma all_digits_truthy (ds : string) : ds <> "" -> truthy_string ds = true.
Proof. destruct ds; [congruence | reflexivity]. Qed.

(** Below [2^53] every natural number is a double. *)
Lemma round_to_double_small (n : Z) :
  (n < 2 ^ 53)%Z -> round_to_double n = n.
Proof.
  intros Hn. unfold round_to_double. cbv zeta.
  destruct (Z.leb_spec (Z.log2 n - 52) 0) as [_ | He]; [reflexivity |]. exfalso.
  destruct (Z.le_gt_cases n 0) as [H0 | H0].
  - rewrite (Z.log2_nonpos n H0) in He. lia.
  - assert (Z.log2 n < 53)%Z by (apply Z.log2_lt_pow2; lia). lia.
Qed.

Lemma round_to_double_nonneg (n : Z) :
  (0 <= n)%Z -> (0 <= round_to_double n)%Z.
Proof.
  intros Hn. unfold round_to_double. cbv zeta.
  destruct (Z.log2 n - 52 <=? 0)%Z; [exact Hn |].
  match goal with
  | |- context [(Infinity <=? ?v)%Z] => assert (Hv : (0 <= v)%Z)
  end.
  { apply Z.shiftl_nonneg.
    assert (Hq : (0 <= Z.shiftr n (Z.log2 n - 52))%Z) by (now apply Z.shiftr_nonneg).
    repeat match goal with
           | |- context [if ?c then _ else _] => destruct c
           end; lia. }
  destruct (Infinity <=? _)%Z; [| exact Hv].
  unfold Infinity. apply Z.pow_nonneg. lia.
Qed.

(** The double a number is read as is the nearest: a multiple of the gap
    [2^e] between the doubles of that size, no further from the number
    than half that gap. *)
Lemma round_to_double_nearest (n : Z) :
  (0 < Z.log2 n - 52)%Z -> round_to_double n <> Infinity ->
  let gap := (2 ^ (Z.log2 n - 52))%Z in
  (exists q, (0 <= q <= 2 ^ 53)%Z /\ round_to_double n = (q * gap)%Z)
  /\ (2 * Z.abs (round_to_double n - n) <= gap)%Z.
Proof.
  intros He Hfin. cbv zeta. revert Hfin. unfold round_to_double. cbv zeta.
  destruct (Z.leb_spec (Z.log2 n - 52) 0) as [Hle | _]; [lia |].
  set (e := (Z.log2 n - 52)%Z) in *.
  assert (Hn : (0 < n)%Z).
  { destruct (Z.le_gt_cases n 0) as [H0 | H0]; [| exact H0].
    subst e. rewrite (Z.log2_nonpos n H0) in He. lia. }
  rewrite !Z.shiftl_mul_pow2, Z.shiftr_div_pow2 by lia.
  assert (Hgap : (2 ^ e = 2 * 2 ^ (e - 1))%Z).
  { rewrite <- Z.pow_succ_r by lia. f_equal. lia. }
  assert (Hhalf : (0 < 2 ^ (e - 1))%Z) by (apply Z.pow_pos_nonneg; lia).
  pose proof (Z.div_mod n (2 ^ e) ltac:(lia)) as Hdm.
  pose proof (Z.mod_pos_bound n (2 ^ e) ltac:(lia)) as Hmod.
  assert (Hq : (2 ^ 52 <= n / 2 ^ e < 2 ^ 53)%Z).
  { pose proof (Z.log2_spec n Hn) as [Hlo Hhi].
    replace (Z.log2 n) with (52 + e)%Z in Hlo by (subst e; lia).
    replace (Z.succ (Z.log2 n)) with (53 + e)%Z in Hhi by (subst e; lia).
    rewrite Z.pow_add_r in Hlo, Hhi by lia. split.
    - apply Z.div_le_lower_bound; lia.
    - apply Z.div_lt_upper_bound; lia. }
  set (q := (n / 2 ^ e)%Z) in *. set (r := (n mod 2 ^ e)%Z) in *.
  set (h := (2 ^ (e - 1))%Z) in *.
  replace (n - q * 2 ^ e)%Z with r by lia.
  rewrite Z.mul_1_l. rewrite Hgap in *.
  destruct (Z.ltb_spec r h) as [Hlt | Hge].
  - destruct (Infinity <=? _)%Z; [congruence |]. intros _. split.
    + exists q. split; [lia | reflexivity].
    + lia.
  - destruct (Z.ltb_spec h r) as [Hgt | Heq].
    + destruct (Infinity <=? _)%Z; [congruence |]. intros _. split.
      * exists (q + 1)%Z. split; [lia | reflexivity].
      * lia.
    + destruct (Z.even q).
      * destruct (Infinity <=? _)%Z; [congruence |]. intros _. split.
        -- exists q. split; [lia | reflexivity].
        -- lia.
      * destruct (Infinity <=? _)%Z; [congruence |]. intros _. split.
        -- exists (q + 1)%Z. split; [lia | reflexivity].
        -- lia.
Qed.

(** What [parseThreadURL] and [parseForumURL] return is read off the url:
    the slug and a run of digits stand in it, after the marker and around a
    dot, and the id is the double nearest to the number the digits write:
    that number itself when it is below [2^53]. *)
Theorem parsed_url_is_in_the_url (u : string) (p : URLHelper.ParsedURL) :
  (URLHelper.parseThreadURL (Some u) = Some p ->
   exists pre ds post,
     u = Spec.slug_url pre "/threads/" (URLHelper.slug p) ds post
     /\ URLHelper.slug p <> "" /\ ds <> "" /\ Spec.all_digits ds = true
     /\ URLHelper.starts_with_digit post = false
     /\ URLHelper.id p = URLHelper.Number ds /\ (0 <= URLHelper.id p)%Z
     /\ URLHelper.id p = round_to_double (Z.of_N (URLHelper.digits_value 0 ds))
     /\ ((Z.of_N (URLHelper.digits_value 0 ds) < 2 ^ 53)%Z ->
         URLHelper.id p = Z.of_N (URLHelper.digits_value 0 ds)))
  /\ (URLHelper.parseForumURL (Some u) = Some p ->
      exists pre ds post,
        u = Spec.slug_url pre "/forums/" (URLHelper.slug p) ds post
        /\ URLHelper.slug p <> "" /\ ds <> "" /\ Spec.all_digits ds = true
        /\ URLHelper.starts_with_digit post = false
        /\ URLHelper.id p = URLHelper.Number ds /\ (0 <= URLHelper.id p)%Z
        /\ URLHelper.id p = round_to_double (Z.of_N (URLHelper.digits_value 0 ds))
        /\ ((Z.of_N (URLHelper.digits_value 0 ds) < 2 ^ 53)%Z ->
            URLHelper.id p = Z.of_N (URLHelper.digits_value 0 ds))).
Proof.
  split; intros H; cbn in H;
    (destruct (negb (truthy_string u)); [discriminate |]);
    match type of H with
    | context [URLHelper.regex_exec ?marker u] =>
        destruct (URLHelper.regex_exec marker u) as [[m ds] |] eqn:E; [| discriminate]
    end;
    (destruct (truthy_string ds); [| discriminate]);
    inversion H; subst p; cbn [URLHelper.slug URLHelper.id];
    apply regex_exec_sound in E as (pre & post & Hs & Hm & _ & Hne & Hd & Hp);
    exists pre, ds, post; repeat split; try assumption;
    unfold URLHelper.Number;
    first [apply round_to_double_nonneg; lia | now apply round_to_double_small].
Qed.

(** The id of a thread whose url writes [2^53 + 1] is [2^53], and one that
    writes [2^53 + 3] has the id [2^53 + 4]. *)
Lemma parsed_url_is_in_the_url_witness :
  URLHelper.parseThreadURL (Some "https://site.example/threads/a.9007199254740993/")
  = Some {| URLHelper.slug := "a"; URLHelper.id := 9007199254740992 |}
  /\ URLHelper.parseThreadURL (Some "https://site.example/threads/a.9007199254740995/")
     = Some {| URLHelper.slug := "a"; URLHelper.id := 9007199254740996 |}
  /\ exists pre ds post,
       "https://site.example/threads/hello.42/page-2"
       = Spec.slug_url pre "/threads/" "hello" ds post
       /\ 42%Z = Z.of_N (URLHelper.digits_value 0 ds).
Proof.
  split; [reflexivity |]. split; [reflexivity |].
  destruct (proj1 (parsed_url_is_in_the_url
                     "https://site.example/threads/hello.42/page-2"
                     {| URLHelper.slug := "hello"; URLHelper.id := 42 |}) eq_refl)
    as (pre & ds & post & Hu & _ & _ & _ & _ & Hid & _ & _ & Hsmall).
  exists pre, ds, post. split; [exact Hu |].
  apply Hsmall. cbn [URLHelper.id] in Hid.
  destruct (Z.lt_ge_cases (Z.of_N (URLHelper.digits_value 0 ds)) (2 ^ 53)) as [Hlt | Hge];
    [exact Hlt | exfalso].
  unfold URLHelper.Number in Hid.
  assert (Hlog : (53 <= Z.log2 (Z.of_N (URLHelper.digits_value 0 ds)))%Z)
    by (apply Z.log2_le_pow2; lia).
  destruct (round_to_double_nearest (Z.of_N (URLHelper.digits_value 0 ds))) as [_ Hn];
    [lia | rewrite <- Hid; discriminate |].
  rewrite <- Hid in Hn.
  assert (Hpow : (2 ^ Z.log2 (Z.of_N (URLHelper.digits_value 0 ds))
                  <= Z.of_N (URLHelper.digits_value 0 ds))%Z)
    by (apply Z.log2_spec; lia).
  assert (Hsplit : (2 ^ Z.log2 (Z.of_N (URLHelper.digits_value 0 ds))
                    = 2 ^ 52 * 2 ^ (Z.log2 (Z.of_N (URLHelper.digits_value 0 ds)) - 52))%Z).
  { rewrite <- Z.pow_add_r by lia. f_equal. lia. }
  assert (Hg : (0 < 2 ^ (Z.log2 (Z.of_N (URLHelper.digits_value 0 ds)) - 52))%Z)
    by (apply Z.pow_pos_nonneg; lia).
  lia.
Defined.

Lemma starts_with_digit_append (ds post : string) :
  ds <> "" -> Spec.all_digits ds = true ->
  URLHelper.starts_with_digit (ds +:+ post) = true.
Proof.
  destruct ds as [| c ds]; [congruence |]. intros _ H. norm_append. cbn in *.
  now apply andb_true_iff in H as [Hc _].
Qed.

(** The pattern matches wherever a slug, a dot and a digit follow. *)
Lemma match_slug_id_complete (m rest : string) :
  forall n,
    Spec.one_line m = true -> 0 < n + String.length m ->
    URLHelper.starts_with_digit rest = true ->
    is_Some (URLHelper.match_slug_id n (m +:+ "." +:+ rest)).
Proof.
  induction m as [| c m IH]; intros n Hm Hn Hr; norm_append;
    cbn [URLHelper.match_slug_id].
  - rewrite line_terminator_at_dot.
    destruct (URLHelper.match_slug_id (S n) rest) as [r |]; [now exists r |].
    assert (Hpos : (0 <? n)%nat = true) by (apply Nat.ltb_lt; cbn in Hn; lia).
    rewrite Hpos, Hr. cbn. eauto.
  - cbn [Spec.one_line] in Hm. apply andb_true_iff in Hm as [Hc Hm].
    apply negb_true_iff in Hc.
    rewrite line_terminator_at_before_dot, Hc.
    cbn [String.length] in Hn.
    destruct (IH (S n) Hm ltac:(lia) Hr) as [r Hr']. norm_append.
    rewrite Hr'. now exists r.
Qed.

Lemma regex_exec_here (marker s : string) (r : string * string) :
  URLHelper.match_here marker s = Some r -> URLHelper.regex_exec marker s = Some r.
Proof. intros H. destruct s; cbn [URLHelper.regex_exec]; now rewrite H. Qed.

Lemma regex_exec_complete (marker pre m ds post : string) :
  m <> "" -> Spec.one_line m = true -> ds <> "" -> Spec.all_digits ds = true ->
  is_Some (URLHelper.regex_exec marker (Spec.slug_url pre marker m ds post)).
Proof.
  intros Hne Hm Hds Hd. unfold Spec.slug_url.
  assert (Hhere : is_Some (URLHelper.match_here marker
                             (marker +:+ m +:+ "." +:+ ds +:+ post))).
  { unfold URLHelper.match_here. rewrite strip_prefix_append.
    destruct (match_slug_id_complete m (ds +:+ post) 0 Hm) as [[k ds'] Hk].
    - destruct m; [congruence | cbn; lia].
    - now apply starts_with_digit_append.
    - rewrite Hk. eauto. }
  induction pre as [| c pre IH].
  - destruct Hhere as [r Hr]. exists r. now apply regex_exec_here.
  - rewrite append_cons. cbn [URLHelper.regex_exec].
    destruct (URLHelper.match_here marker (String c _)) as [r |]; [eauto | exact IH].
Qed.

Lemma regex_exec_digits (marker u m ds : string) :
  URLHelper.regex_exec marker u = Some (m, ds) -> truthy_string ds = true.
Proof.
  intros H. apply regex_exec_sound in H as (_ & _ & _ & _ & _ & Hne & _).
  now apply all_digits_truthy.
Qed.

Section Targets.

Context {W : World}.

(** Every url that holds [/forums/<slug>.<digits>] is a forum target, even
    when it holds a thread path as well; one that holds
    [/threads/<slug>.<digits>] and no forum path is a thread target. *)
Theorem url_with_marker_is_recognised (url u pre slug ds post : string) :
  url_href url = Some u ->
  slug <> "" -> Spec.one_line slug = true -> ds <> "" -> Spec.all_digits ds = true ->
  (u = Spec.slug_url pre "/forums/" slug ds post ->
   URLHelper.getTargetTypeByURL url_href url = inr URLHelper.TForum)
  /\ (u = Spec.slug_url pre "/threads/" slug ds post ->
      URLHelper.parseForumURL (Some u) = None ->
      URLHelper.getTargetTypeByURL url_href url = inr URLHelper.TThread).
Proof.
  intros Hu Hne Hm Hds Hd. unfold URLHelper.getTargetTypeByURL. rewrite Hu.
  split.
  - intros ->. unfold URLHelper.parseForumURL.
    destruct (regex_exec_complete "/forums/" pre slug ds post Hne Hm Hds Hd)
      as [[m1 m2] Hr].
    rewrite Hr, (regex_exec_digits _ _ _ _ Hr).
    destruct (negb (truthy_string _)) eqn:E; [| reflexivity].
    apply negb_true_iff in E. unfold truthy_string in E. apply negb_false_iff in E.
    apply String.eqb_eq in E. rewrite E in Hr. discriminate.
  - intros -> Hf. rewrite Hf. unfold URLHelper.parseThreadURL.
    destruct (regex_exec_complete "/threads/" pre slug ds post Hne Hm Hds Hd)
      as [[m1 m2] Hr].
    rewrite Hr, (regex_exec_digits _ _ _ _ Hr).
    destruct (negb (truthy_string _)) eqn:E; [| reflexivity].
    apply negb_true_iff in E. unfold truthy_string in E. apply negb_false_iff in E.
    apply String.eqb_eq in E. rewrite E in Hr. discriminate.
Qed.

End Targets.

Lemma url_with_marker_is_recognised_witness :
  (URLHelper.getTargetTypeByURL (url_href (World := Spec.emptyWorld))
     "https://site.example/forums/news.7/threads/hello.42/" = inr URLHelper.TForum)
  /\ (URLHelper.getTargetTypeByURL (url_href (World := Spec.emptyWorld))
        "https://site.example/threads/hello.42/page-2" = inr URLHelper.TThread).
Proof.
  split.
  - apply (proj1 (url_with_marker_is_recognised (W := Spec.emptyWorld)
                    "https://site.example/forums/news.7/threads/hello.42/"
                    "https://site.example/forums/news.7/threads/hello.42/"
                    "https://site.example" "news" "7" "/threads/hello.42/"
                    eq_refl ltac:(discriminate) eq_refl ltac:(discriminate) eq_refl)).
    reflexivity.
  - apply (proj2 (url_with_marker_is_recognised (W := Spec.emptyWorld)
                    "https://site.example/threads/hello.42/page-2"
                    "https://site.example/threads/hello.42/page-2"
                    "https://site.example" "hello" "42" "/page-2"
                    eq_refl ltac:(discriminate) eq_refl ltac:(discriminate) eq_refl));
      reflexivity.
Defined.

(** The slug is as long as it can be: the dot taken is the last one that
    a digit follows. *)
Lemma match_slug_id_none (s : string) :
  forall n, Spec.has_dot_digit s = false -> URLHelper.match_slug_id n s = None.
Proof.
  induction s as [| c s IH]; intros n H; cbn [URLHelper.match_slug_id];
    [reflexivity |].
  cbn [Spec.has_dot_digit] in H. apply orb_false_iff in H as [Hc Hs].
  rewrite (IH (S n) Hs).
  destruct (URLHelper.line_terminator_at (String c s)); [reflexivity |].
  destruct (Ascii.eqb c "."); cbn in Hc |- *; [| reflexivity].
  rewrite Hc. now rewrite andb_false_r.
Qed.

Lemma has_dot_digit_digits (ds post : string) :
  Spec.all_digits ds = true -> Spec.has_dot_digit post = false ->
  Spec.has_dot_digit (ds +:+ post) = false.
Proof.
  intros Hd Hp. induction ds as [| c ds IH]; norm_append; [exact Hp |].
  cbn in Hd. apply andb_true_iff in Hd as [Hc Hd].
  cbn [Spec.has_dot_digit]. rewrite (IH Hd), orb_false_r.
  destruct (Ascii.eqb c ".") eqn:E; [| reflexivity].
  apply Ascii.eqb_eq in E. subst c. discriminate.
Qed.

Lemma match_slug_id_last_dot (m ds post : string) :
  forall n,
    Spec.one_line m = true -> 0 < n + String.length m ->
    ds <> "" -> Spec.all_digits ds = true ->
    URLHelper.starts_with_digit post = false -> Spec.has_dot_digit post = false ->
    URLHelper.match_slug_id n (m +:+ "." +:+ ds +:+ post)
    = Some (n + String.length m, ds).
Proof.
  induction m as [| c m IH]; intros n Hm Hn Hne Hd Hp Hdd; norm_append;
    cbn [URLHelper.match_slug_id].
  - rewrite line_terminator_at_dot.
    rewrite match_slug_id_none by (now apply has_dot_digit_digits).
    assert (Hpos : (0 <? n)%nat = true) by (apply Nat.ltb_lt; cbn in Hn; lia).
    rewrite Hpos, starts_with_digit_append by assumption.
    cbn. rewrite take_digits_exact by assumption. do 2 f_equal. lia.
  - cbn [Spec.one_line] in Hm. apply andb_true_iff in Hm as [Hc Hm].
    apply negb_true_iff in Hc.
    rewrite line_terminator_at_before_dot, Hc.
    cbn [String.length] in Hn.
    pose proof (IH (S n) Hm ltac:(lia) Hne Hd Hp Hdd) as Hrec. norm_append.
    rewrite Hrec. cbn. do 2 f_equal. lia.
Qed.

Lemma regex_exec_first_marker (marker_body pre rest : string) (r : string * string) :
  Spec.occurs_in (marker_body +:+ "/") (pre +:+ marker_body) = false ->
  URLHelper.match_here (marker_body +:+ "/") (marker_body +:+ "/" +:+ rest) = Some r ->
  URLHelper.regex_exec (marker_body +:+ "/") (pre +:+ marker_body +:+ "/" +:+ rest)
  = Some r.
Proof.
  intros Hocc Hhere. induction pre as [| c pre IH].
  - now apply regex_exec_here.
  - rewrite append_cons in Hocc |- *. cbn [Spec.occurs_in] in Hocc.
    destruct (URLHelper.strip_prefix (marker_body +:+ "/")
                (String c (pre +:+ marker_body))) eqn:Es; [discriminate |].
    cbn [URLHelper.regex_exec]. unfold URLHelper.match_here at 1.
    replace (String c (pre +:+ marker_body +:+ "/" +:+ rest))
      with (String c (pre +:+ marker_body) +:+ ("/" +:+ rest))
      by (norm_append; now rewrite append_assoc).
    rewrite strip_prefix_none_append; [now apply IH | exact Es |].
    rewrite !string_length_append. cbn. rewrite string_length_append. lia.
Qed.

(** A url built from a slug and an id is read back as that slug and that
    id; what follows the id (a page suffix, [/unread]) does not count as
    long as it holds no dot before a digit. *)
Theorem built_url_is_read_back (pre slug ds post : string) :
  slug <> "" -> Spec.one_line slug = true ->
  ds <> "" -> Spec.all_digits ds = true ->
  URLHelper.starts_with_digit post = false -> Spec.has_dot_digit post = false ->
  (Spec.occurs_in "/threads/" (pre +:+ "/threads") = false ->
   URLHelper.parseThreadURL (Some (Spec.slug_url pre "/threads/" slug ds post))
   = Some {| URLHelper.slug := slug; URLHelper.id := URLHelper.Number ds |})
  /\ (Spec.occurs_in "/forums/" (pre +:+ "/forums") = false ->
      URLHelper.parseForumURL (Some (Spec.slug_url pre "/forums/" slug ds post))
      = Some {| URLHelper.slug := slug; URLHelper.id := URLHelper.Number ds |}).
Proof.
  intros Hne Hm Hds Hd Hp Hdd.
  assert (Hhere : forall marker,
             URLHelper.match_here marker (marker +:+ slug +:+ "." +:+ ds +:+ post)
             = Some (slug, ds)).
  { intros marker. unfold URLHelper.match_here. rewrite strip_prefix_append.
    rewrite (match_slug_id_last_dot slug ds post 0) by
      (assumption || (destruct slug; [congruence | cbn; lia])).
    cbn [Nat.add]. now rewrite substring_whole_prefix. }
  assert (Htruthy : forall marker,
             truthy_string (Spec.slug_url pre marker slug ds post) = true).
  { intros marker. unfold Spec.slug_url.
    destruct pre, marker, slug; try congruence; reflexivity. }
  split; intros Hocc.
  - assert (Hr : URLHelper.regex_exec "/threads/"
                   (Spec.slug_url pre "/threads/" slug ds post) = Some (slug, ds)).
    { apply (regex_exec_first_marker "/threads" pre
               (slug +:+ "." +:+ ds +:+ post) (slug, ds) Hocc). apply Hhere. }
    unfold URLHelper.parseThreadURL. rewrite Htruthy, Hr. cbn [negb].
    now rewrite all_digits_truthy.
  - assert (Hr : URLHelper.regex_exec "/forums/"
                   (Spec.slug_url pre "/forums/" slug ds post) = Some (slug, ds)).
    { apply (regex_exec_first_marker "/forums" pre
               (slug +:+ "." +:+ ds +:+ post) (slug, ds) Hocc). apply Hhere. }
    unfold URLHelper.parseForumURL. rewrite Htruthy, Hr. cbn [negb].
    now rewrite all_digits_truthy.
Qed.

Lemma built_url_is_read_back_witness :
  URLHelper.parseThreadURL (Some "https://site.example/threads/v1.2-notes.42/page-3")
  = Some {| URLHelper.slug := "v1.2-notes"; URLHelper.id := 42 |}
  /\ URLHelper.parseForumURL (Some "/forums/news.7/")
     = Some {| URLHelper.slug := "news"; URLHelper.id := 7 |}
  /\ URLHelper.parseForumURL (Some "/forums/big.9007199254740993/")
     = Some {| URLHelper.slug := "big"; URLHelper.id := 9007199254740992 |}.
Proof.
  split; [| split].
  - apply (proj1 (built_url_is_read_back "https://site.example" "v1.2-notes" "42"
                    "/page-3" ltac:(discriminate) eq_refl ltac:(discriminate)
                    eq_refl eq_refl eq_refl)).
    reflexivity.
  - apply (proj2 (built_url_is_read_back "" "news" "7" "/"
                    ltac:(discriminate) eq_refl ltac:(discriminate)
                    eq_refl eq_refl eq_refl)).
    reflexivity.
  - apply (proj2 (built_url_is_read_back "" "big" "9007199254740993" "/"
                    ltac:(discriminate) eq_refl ltac:(discriminate)
                    eq_refl eq_refl eq_refl)).
    reflexivity.
Defined.

(** A text with U+2028 in its slug is no thread url: the dot of the pattern
    does not match a line terminator. *)
Lemma line_separator_ends_the_slug :
  Spec.one_line (String (ascii_of_nat 226)
                   (String (ascii_of_nat 128) (String (ascii_of_nat 168) "b"))) = false
  /\ URLHelper.parseThreadURL
       (Some ("/threads/a"
              +:+ String (ascii_of_nat 226)
                    (String (ascii_of_nat 128) (String (ascii_of_nat 168) "b.42"))))
     = None
  /\ URLHelper.parseThreadURL
       (Some ("/threads/a"
              +:+ String (ascii_of_nat 226)
                    (String (ascii_of_nat 128) (String (ascii_of_nat 167) "b.42"))))
     = Some {| URLHelper.slug :=
                 "a" +:+ String (ascii_of_nat 226)
                           (String (ascii_of_nat 128) (String (ascii_of_nat 167) "b"));
               URLHelper.id := 42 |}.
Proof. vm_compute. repeat split. Qed.

(** ** Fetcher: the requests of a chain of redirects *)

Section RequestHeaders.

Context {W : World}.

Variable cookie : option string.

Lemma requests_cons_request (r : Request) (evs : list Event) :
  Spec.requests (EvRequest r :: evs) = r :: Spec.requests evs.
Proof. reflexivity. Qed.

(** A property of the headers that [#setHeaders] gives every request holds
    of every request of a chain. *)
Lemma fetchWithRedirect_requests (P : Request -> Prop) (method : Method)
  (net : list FetchOutcome) :
  (forall url request0 useCookie,
      Fetcher.newRequest url method = Some request0 ->
      P (Fetcher.setHeaders cookie request0 useCookie)) ->
  forall url useCookie,
    Forall P
      (Spec.requests
         (snd (fst (Fetcher.fetchWithRedirect cookie net url method useCookie)))).
Proof.
  intros HP. induction net as [| o net' IH]; intros url useCookie;
    cbn [Fetcher.fetchWithRedirect].
  - destruct (Fetcher.newRequest url method) as [request0 |] eqn:E; cbn.
    + constructor; [exact (HP url request0 useCookie E) | constructor].
    + constructor.
  - destruct (Fetcher.newRequest url method) as [request0 |] eqn:E; [| constructor].
    pose proof (HP url request0 useCookie E) as H0.
    destruct o as [e | res | res]; [cbn; now repeat constructor | |].
    2:{ destruct (Fetcher.is_redirect res); [| cbn; now repeat constructor].
        destruct (res_location res) as [toURL |]; [| cbn; now repeat constructor].
        destruct (truthy_string toURL); [| cbn; now repeat constructor].
        destruct (url_host url) as [host |]; [| cbn; now repeat constructor].
        destruct (url_host toURL) as [toHost |]; cbn; now repeat constructor. }
    destruct (Fetcher.is_redirect res); [| cbn; now repeat constructor].
    assert (Hfallback :
      Forall P
        (Spec.requests
           (snd (fst (let '(r, rest) := Fetcher.fetch_on net' in
                      (r, [EvRequest (Fetcher.setHeaders cookie request0 useCookie);
                           EvRequest (Fetcher.setHeaders cookie request0 useCookie)],
                       rest)))))).
    { destruct (Fetcher.fetch_on net') as [r rest]. cbn. now repeat constructor. }
    destruct (res_location res) as [toURL |]; [| exact Hfallback].
    destruct (truthy_string toURL); [| exact Hfallback].
    destruct (url_host url) as [host |]; [| cbn; now repeat constructor].
    destruct (url_host toURL) as [toHost |]; [| cbn; now repeat constructor].
    specialize (IH toURL (String.eqb host toHost)).
    destruct (Fetcher.fetchWithRedirect cookie net' toURL method (String.eqb host toHost))
      as [[r evs] rest].
    cbn in IH |- *. now constructor.
Qed.

(** Every request of a fetch, whatever redirects it follows, has the
    User-Agent header of the program and the method the fetch was called
    with, and carries either no cookie or the configured one. *)
Theorem every_request_has_the_headers (net : list FetchOutcome) (url : string)
  (method : Method) (useCookie : bool) :
  Forall
    (fun r =>
       req_userAgent r = Some Fetcher.USER_AGENT
       /\ req_method r = method
       /\ (req_cookie r = None \/ req_cookie r = cookie))
    (Spec.requests
       (snd (fst (Fetcher.fetchWithRedirect cookie net url method useCookie)))).
Proof.
  apply fetchWithRedirect_requests. intros u request0 uc H.
  unfold Fetcher.newRequest in H. destruct (url_host u); [| discriminate].
  inversion H; subst request0. unfold Fetcher.setHeaders.
  destruct (truthy_opt cookie && uc); cbn; auto.
Qed.

(** With no cookie configured ([null], or the empty text, which is falsy)
    no request carries a cookie. *)
Theorem no_cookie_configured_none_sent (net : list FetchOutcome) (url : string)
  (method : Method) (useCookie : bool) :
  truthy_opt cookie = false ->
  Forall (fun r => req_cookie r = None)
    (Spec.requests
       (snd (fst (Fetcher.fetchWithRedirect cookie net url method useCookie)))).
Proof.
  intros Hc. apply fetchWithRedirect_requests. intros u request0 uc H.
  unfold Fetcher.newRequest in H. destruct (url_host u); [| discriminate].
  inversion H; subst request0. unfold Fetcher.setHeaders. now rewrite Hc.
Qed.

(** When every redirect stays on the host of the url first asked for, every
    request of the chain carries the configured cookie. *)
Theorem same_host_chain_keeps_cookie (host : string) (method : Method)
  (net : list FetchOutcome) :
  truthy_opt cookie = true ->
  Spec.stays_on host net = true ->
  forall url,
    url_host url = Some host ->
    Forall (fun r => req_cookie r = cookie)
      (Spec.requests
         (snd (fst (Fetcher.fetchWithRedirect cookie net url method true)))).
Proof.
  intros Hc. induction net as [| o net' IH]; intros Hnet url Hurl;
    cbn [Fetcher.fetchWithRedirect]; unfold Fetcher.newRequest; rewrite Hurl;
    unfold Fetcher.setHeaders; rewrite Hc; cbn [andb req_url req_method req_userAgent].
  - cbn. now repeat constructor.
  - cbn [Spec.stays_on forallb] in Hnet. apply andb_true_iff in Hnet as [Ho Hnet].
    destruct o as [e | res | res]; [cbn; now repeat constructor | |].
    2:{ destruct (Fetcher.is_redirect res); [| cbn; now repeat constructor].
        destruct (res_location res) as [toURL |]; [| cbn; now repeat constructor].
        destruct (truthy_string toURL); [| cbn; now repeat constructor].
        destruct (url_host toURL) as [toHost |]; cbn; now repeat constructor. }
    destruct (Fetcher.is_redirect res); [| cbn; now repeat constructor].
    cbn [negb orb] in Ho.
    destruct (res_location res) as [toURL |].
    2:{ destruct (Fetcher.fetch_on net') as [r rest]. cbn. now repeat constructor. }
    destruct (truthy_string toURL).
    2:{ destruct (Fetcher.fetch_on net') as [r rest]. cbn. now repeat constructor. }
    destruct (url_host toURL) as [toHost |] eqn:Eto; [| cbn; now repeat constructor].
    rewrite Ho. apply String.eqb_eq in Ho. subst toHost.
    specialize (IH Hnet toURL Eto).
    destruct (Fetcher.fetchWithRedirect cookie net' toURL method true) as [[r evs] rest].
    cbn in IH |- *. now constructor.
Qed.

End RequestHeaders.

Lemma no_cookie_configured_none_sent_witness :
  Forall (fun r => req_cookie r = None)
    (Spec.requests
       (snd (fst (Fetcher.fetchWithRedirect (W := Spec.emptyWorld) (Some "")
                    [Demo.redirect "https://site.example/y"; Demo.ok "page"]
                    "https://site.example/x" GET true)))).
Proof.
  exact (no_cookie_configured_none_sent (W := Spec.emptyWorld) (Some "")
           [Demo.redirect "https://site.example/y"; Demo.ok "page"]
           "https://site.example/x" GET true eq_refl).
Defined.

Lemma same_host_chain_keeps_cookie_witness :
  Forall (fun r => req_cookie r = Some "sid=1")
    (Spec.requests
       (snd (fst (Fetcher.fetchWithRedirect (W := Spec.emptyWorld) (Some "sid=1")
                    [Demo.redirect "https://site.example/y";
                     Demo.redirect "https://site.example/z"; Demo.ok "page"]
                    "https://site.example/x" HEAD true)))).
Proof.
  exact (same_host_chain_keeps_cookie (W := Spec.emptyWorld) (Some "sid=1")
           "site.example" HEAD
           [Demo.redirect "https://site.example/y";
            Demo.redirect "https://site.example/z"; Demo.ok "page"]
           eq_refl eq_refl "https://site.example/x" eq_refl).
Defined.

(** ** Fetcher: retries of a page fetch *)

Lemma repeat_snoc {A : Type} (x : A) (n : nat) : repeat x n ++ [x] = repeat x (S n).
Proof. induction n as [| n IH]; cbn; [reflexivity | now rewrite IH]. Qed.

Lemma sleeps_app (a b : list Event) : Spec.sleeps (a ++ b) = Spec.sleeps a ++ Spec.sleeps b.
Proof. apply omap_app. Qed.

Lemma urls_requested_app (a b : list Event) :
  Spec.urls_requested (a ++ b) = Spec.urls_requested a ++ Spec.urls_requested b.
Proof. apply omap_app. Qed.

Lemma retrying_one_more (url : string) (ms : Z) (k : nat)
  (rest : list FetchOutcome) (st st1 st2 : State) (request : Request) :
  Spec.retrying url ms k (st_net st1) st st1 ->
  req_url request = url ->
  st_net st2 = rest -> st_stats st2 = st_stats st1 -> st_files st2 = st_files st1 ->
  st_dirs st2 = st_dirs st1 -> st_trace st2 = st_trace st1 ++ [EvRequest request] ->
  Spec.retried url ms k rest st st2.
Proof.
  intros (_ & Hs & Hf & Hd & evs & Ht & Hsl & Hu) Hreq Hn2 Hs2 Hf2 Hd2 Ht2.
  repeat split; try congruence.
  exists (evs ++ [EvRequest request]). repeat split.
  - now rewrite Ht2, Ht, app_assoc.
  - rewrite sleeps_app, Hsl. cbn. apply app_nil_r.
  - rewrite urls_requested_app, Hu. cbn. rewrite Hreq. apply repeat_snoc.
Qed.

Section PageRetries.

Context {W : World}.

Variable cookie : option string.

Variable args : Fetcher.FetchArgs.

Lemma fetchWithRedirectM_rejects (url host : string) (method : Method) (e : JsError)
  (net' : list FetchOutcome) (st : State) :
  url_host url = Some host -> st_net st = Rejects e :: net' ->
  exists request,
    req_url request = url
    /\ Fetcher.fetchWithRedirectM cookie url method st
       = (Throw e, emit [EvRequest request] (set_net net' st)).
Proof.
  intros Hu Hn. unfold Fetcher.fetchWithRedirectM. rewrite Hn.
  cbn [Fetcher.fetchWithRedirect]. unfold Fetcher.newRequest. rewrite Hu.
  eexists. split; [| reflexivity].
  unfold Fetcher.setHeaders. destruct (truthy_opt cookie && true); reflexivity.
Qed.

Lemma fetchWithRedirectM_final (url host : string) (method : Method) (res : Response)
  (net' : list FetchOutcome) (st : State) :
  url_host url = Some host -> st_net st = Resolves res :: net' ->
  Spec.final_response res = true ->
  exists request,
    req_url request = url
    /\ Fetcher.fetchWithRedirectM cookie url method st
       = (Ret res, emit [EvRequest request] (set_net net' st)).
Proof.
  intros Hu Hn Hf. unfold Fetcher.fetchWithRedirectM. rewrite Hn.
  cbn [Fetcher.fetchWithRedirect]. unfold Fetcher.newRequest. rewrite Hu.
  unfold Spec.final_response in Hf. apply negb_true_iff in Hf. rewrite Hf.
  eexists. split; [| reflexivity].
  unfold Fetcher.setHeaders. destruct (truthy_opt cookie && true); reflexivity.
Qed.

(** The attempts that fail and are followed by another one. *)
Lemma fetchHTML_rt_retries (host : string) (errs : list JsError)
  (tail : list FetchOutcome) :
  url_host (Fetcher.fa_url args) = Some host ->
  forallb Spec.retriable errs = true ->
  forall b rt st,
    rt + length errs <= Fetcher.fa_maxRetries args ->
    st_net st = map Rejects errs ++ tail ->
    exists st1,
      Fetcher.fetchHTML_rt cookie (length errs + b) args rt st
      = Fetcher.fetchHTML_rt cookie b args (rt + length errs) st1
      /\ Spec.retrying (Fetcher.fa_url args) (Fetcher.fa_retryInterval args)
           (length errs) tail st st1.
Proof.
  intros Hu. induction errs as [| e errs IH]; intros Hr b rt st Hrt Hn.
  - exists st. cbn [length Nat.add]. rewrite Nat.add_0_r. split; [reflexivity |].
    repeat split; try assumption. exists []. now rewrite app_nil_r.
  - cbn [forallb] in Hr. apply andb_true_iff in Hr as [He Hr].
    cbn [map app] in Hn. cbn [length] in Hrt.
    destruct (fetchWithRedirectM_rejects _ host GET e _ st Hu Hn) as (request & Hq & Hf).
    set (st0 := emit [EvSleep (Fetcher.fa_retryInterval args)]
                  (emit [EvLog "Fetcher" LError "Error fetching - will retry" (Some e)]
                     (emit [EvRequest request] (set_net (map Rejects errs ++ tail) st)))).
    destruct (IH Hr b (S rt) st0 ltac:(lia) eq_refl)
      as (st1 & Hrun & Hn1 & Hs & Hfi & Hd & evs & Ht & Hsl & Hur).
    exists st1. split.
    + cbn [length Nat.add Fetcher.fetchHTML_rt]. unfold try_catch, bind at 1.
      rewrite Hf. unfold Spec.retriable in He. apply negb_true_iff in He. rewrite He.
      assert (Hlt : (rt <? Fetcher.fa_maxRetries args)%nat = true)
        by (apply Nat.ltb_lt; lia).
      rewrite Hlt. unfold bind, log, effect, Fetcher.sleepBeforeExecute, bind, effect.
      fold st0. rewrite Hrun. f_equal. lia.
    + split; [exact Hn1 |]. split; [exact Hs |]. split; [exact Hfi |].
      split; [exact Hd |].
      exists ([EvRequest request;
               EvLog "Fetcher" LError "Error fetching - will retry" (Some e);
               EvSleep (Fetcher.fa_retryInterval args)] ++ evs).
      repeat split.
      * rewrite Ht. cbn. now rewrite <- !app_assoc.
      * rewrite sleeps_app, Hsl. reflexivity.
      * rewrite urls_requested_app, Hur. cbn. now rewrite Hq.
Qed.

(** A page fetch answers with the text of the first response that is no
    redirect, whatever the status of that response: errors of the network
    before it are retried, each after a wait of [retryInterval], as long as
    there are no more of them than [maxRetries]. *)
Theorem fetchHTML_returns_after_retries (host : string) (errs : list JsError)
  (res : Response) (data : string) (rest : list FetchOutcome) (st : State) :
  url_host (Fetcher.fa_url args) = Some host ->
  forallb Spec.retriable errs = true ->
  length errs <= Fetcher.fa_maxRetries args ->
  Spec.final_response res = true ->
  Spec.body_text res = Some data ->
  st_net st = map Rejects errs ++ Resolves res :: rest ->
  fst (Fetcher.fetchHTML cookie args st) = Ret (data, res_url res)
  /\ Spec.retried (Fetcher.fa_url args) (Fetcher.fa_retryInterval args) (length errs)
       rest st (snd (Fetcher.fetchHTML cookie args st)).
Proof.
  intros Hu Hr Hlen Hfin Hbody Hn. unfold Fetcher.fetchHTML.
  destruct (fetchHTML_rt_retries host errs _ Hu Hr
              (Fetcher.fa_maxRetries args - length errs) 0 st ltac:(lia) Hn)
    as (st1 & Hrun & Hst1).
  replace (length errs + (Fetcher.fa_maxRetries args - length errs))
    with (Fetcher.fa_maxRetries args) in Hrun by lia.
  rewrite Hrun. pose proof Hst1 as (Hn1 & _).
  destruct (fetchWithRedirectM_final _ host GET res rest st1 Hu Hn1 Hfin)
    as (request & Hq & Hf).
  assert (Hlast : Fetcher.fetchHTML_rt cookie (Fetcher.fa_maxRetries args - length errs)
                    args (0 + length errs) st1
                  = (Ret (data, res_url res), emit [EvRequest request] (set_net rest st1))).
  { destruct (Fetcher.fa_maxRetries args - length errs) as [| b];
      cbn [Fetcher.fetchHTML_rt]; unfold try_catch, bind at 1; rewrite Hf;
      unfold bind, Fetcher.text; unfold Spec.body_text in Hbody;
      destruct (res_body res) as [[d | w e] |]; inversion Hbody; subst; reflexivity. }
  rewrite Hlast. cbn [fst snd]. split; [reflexivity |].
  apply (retrying_one_more _ _ _ rest st st1 _ request);
    [rewrite Hn1; exact Hst1 | exact Hq | reflexivity ..].
Qed.

(** When more errors come than [maxRetries] allows, the fetch ends with a
    [FetcherError] that is not fatal and carries the message of the last
    error and the number of retries; it has waited [maxRetries] times and
    sent [maxRetries + 1] requests. *)
Theorem fetchHTML_gives_up (host : string) (errs : list JsError) (e : JsError)
  (rest : list FetchOutcome) (st : State) :
  url_host (Fetcher.fa_url args) = Some host ->
  forallb Spec.retriable errs = true ->
  Spec.retriable e = true ->
  length errs = Fetcher.fa_maxRetries args ->
  st_net st = map Rejects errs ++ Rejects e :: rest ->
  fst (Fetcher.fetchHTML cookie args st)
  = Throw (FetcherError
             (error_message e +:+ Fetcher.retriedMsg (Fetcher.fa_maxRetries args))
             (Fetcher.fa_url args) false)
  /\ Spec.retried (Fetcher.fa_url args) (Fetcher.fa_retryInterval args)
       (Fetcher.fa_maxRetries args) rest st (snd (Fetcher.fetchHTML cookie args st)).
Proof.
  intros Hu Hr He Hlen Hn. unfold Fetcher.fetchHTML.
  destruct (fetchHTML_rt_retries host errs _ Hu Hr 0 0 st ltac:(lia) Hn)
    as (st1 & Hrun & Hst1).
  rewrite Nat.add_0_r, Hlen in Hrun. rewrite Hrun. pose proof Hst1 as (Hn1 & _).
  destruct (fetchWithRedirectM_rejects _ host GET e rest st1 Hu Hn1)
    as (request & Hq & Hf).
  assert (Hlast : Fetcher.fetchHTML_rt cookie 0 args (0 + Fetcher.fa_maxRetries args) st1
                  = (Throw (FetcherError
                              (error_message e
                               +:+ Fetcher.retriedMsg (Fetcher.fa_maxRetries args))
                              (Fetcher.fa_url args) false),
                     emit [EvRequest request] (set_net rest st1))).
  { cbn [Fetcher.fetchHTML_rt Nat.add]. unfold try_catch, bind at 1. rewrite Hf.
    unfold Spec.retriable in He. apply negb_true_iff in He. rewrite He.
    now rewrite Nat.ltb_irrefl. }
  rewrite Hlast. cbn [fst snd]. split; [reflexivity |].
  rewrite Hlen in Hst1.
  apply (retrying_one_more _ _ _ rest st st1 _ request);
    [rewrite Hn1; exact Hst1 | exact Hq | reflexivity ..].
Qed.

(** A cancellation or a fatal error, at the first attempt or after
    retries, leaves the fetch as it is: no wait follows it and nothing
    more is asked of the network. *)
Theorem fetchHTML_abort_is_not_retried (host : string) (errs : list JsError)
  (e : JsError) (rest : list FetchOutcome) (st : State) :
  url_host (Fetcher.fa_url args) = Some host ->
  forallb Spec.retriable errs = true ->
  Fetcher.is_abort_or_fatal e = true ->
  length errs <= Fetcher.fa_maxRetries args ->
  st_net st = map Rejects errs ++ Rejects e :: rest ->
  fst (Fetcher.fetchHTML cookie args st) = Throw e
  /\ Spec.retried (Fetcher.fa_url args) (Fetcher.fa_retryInterval args) (length errs)
       rest st (snd (Fetcher.fetchHTML cookie args st)).
Proof.
  intros Hu Hr He Hlen Hn. unfold Fetcher.fetchHTML.
  destruct (fetchHTML_rt_retries host errs _ Hu Hr
              (Fetcher.fa_maxRetries args - length errs) 0 st ltac:(lia) Hn)
    as (st1 & Hrun & Hst1).
  replace (length errs + (Fetcher.fa_maxRetries args - length errs))
    with (Fetcher.fa_maxRetries args) in Hrun by lia.
  rewrite Hrun. pose proof Hst1 as (Hn1 & _).
  destruct (fetchWithRedirectM_rejects _ host GET e rest st1 Hu Hn1)
    as (request & Hq & Hf).
  assert (Hlast : Fetcher.fetchHTML_rt cookie (Fetcher.fa_maxRetries args - length errs)
                    args (0 + length errs) st1
                  = (Throw e, emit [EvRequest request] (set_net rest st1))).
  { destruct (Fetcher.fa_maxRetries args - length errs) as [| b];
      cbn [Fetcher.fetchHTML_rt]; unfold try_catch, bind at 1; rewrite Hf;
      now rewrite He. }
  rewrite Hlast. cbn [fst snd]. split; [reflexivity |].
  apply (retrying_one_more _ _ _ rest st st1 _ request);
    [rewrite Hn1; exact Hst1 | exact Hq | reflexivity ..].
Qed.

End PageRetries.

Lemma fetchHTML_returns_after_retries_witness :
  fst (Fetcher.fetchHTML (W := Spec.emptyWorld) None Spec.pageArgs
         (Spec.answering Spec.flakyAnswers))
  = Ret ("<html>gone</html>", "https://site.example/x")
  /\ Spec.retried "https://site.example/x" 500 2 [Demo.ok "next"]
       (Spec.answering Spec.flakyAnswers)
       (snd (Fetcher.fetchHTML (W := Spec.emptyWorld) None Spec.pageArgs
               (Spec.answering Spec.flakyAnswers))).
Proof.
  exact (fetchHTML_returns_after_retries (W := Spec.emptyWorld) None Spec.pageArgs
           "site.example" [Spec.resetError; Spec.resetError] Spec.errorPage
           "<html>gone</html>" [Demo.ok "next"] (Spec.answering Spec.flakyAnswers)
           eq_refl eq_refl ltac:(cbn; lia) eq_refl eq_refl eq_refl).
Defined.

Lemma fetchHTML_gives_up_witness :
  fst (Fetcher.fetchHTML (W := Spec.emptyWorld) None Spec.pageArgs
         (Spec.answering Spec.deadAnswers))
  = Throw (FetcherError "ETIMEDOUT (retried 3 times)" "https://site.example/x" false)
  /\ Spec.retried "https://site.example/x" 500 3 [Demo.ok "late"]
       (Spec.answering Spec.deadAnswers)
       (snd (Fetcher.fetchHTML (W := Spec.emptyWorld) None Spec.pageArgs
               (Spec.answering Spec.deadAnswers))).
Proof.
  exact (fetchHTML_gives_up (W := Spec.emptyWorld) None Spec.pageArgs
           "site.example" [Spec.resetError; Spec.resetError; Spec.resetError]
           (PlainError "ETIMEDOUT") [Demo.ok "late"] (Spec.answering Spec.deadAnswers)
           eq_refl eq_refl eq_refl eq_refl eq_refl).
Defined.

Lemma fetchHTML_abort_is_not_retried_witness :
  fst (Fetcher.fetchHTML (W := Spec.emptyWorld) None Spec.pageArgs
         (Spec.answering Spec.abortedAnswers))
  = Throw (AbortError "aborted")
  /\ Spec.retried "https://site.example/x" 500 1 [Demo.ok "late"]
       (Spec.answering Spec.abortedAnswers)
       (snd (Fetcher.fetchHTML (W := Spec.emptyWorld) None Spec.pageArgs
               (Spec.answering Spec.abortedAnswers))).
Proof.
  exact (fetchHTML_abort_is_not_retried (W := Spec.emptyWorld) None Spec.pageArgs
           "site.example" [Spec.resetError] (AbortError "aborted") [Demo.ok "late"]
           (Spec.answering Spec.abortedAnswers)
           eq_refl eq_refl eq_refl ltac:(cbn; lia) eq_refl).
Defined.

(** ** Fetcher: a url that is no url *)

Section MalformedURL.

Context {W : World}.

Variable cookie : option string.

Lemma fetchHTML_rt_malformed (args : Fetcher.FetchArgs) (b : nat) :
  url_host (Fetcher.fa_url args) = None ->
  forall rt st,
    rt + b = Fetcher.fa_maxRetries args ->
    exists st' evs,
      Fetcher.fetchHTML_rt cookie b args rt st
      = (Throw (FetcherError
                  ("Invalid URL" +:+ Fetcher.retriedMsg (Fetcher.fa_maxRetries args))
                  (Fetcher.fa_url args) false), st')
      /\ st_net st' = st_net st
      /\ st_trace st' = st_trace st ++ evs
      /\ Spec.sleeps evs = repeat (Fetcher.fa_retryInterval args) b
      /\ Spec.requests evs = [].
Proof.
  intros Hu.
  assert (Hfetch : forall st,
             (let* res := Fetcher.fetchWithRedirectM cookie (Fetcher.fa_url args) GET in
              let* html := Fetcher.text res in
              ret (html, res_url res)) st
             = (Throw (PlainError "Invalid URL"), emit [] (set_net (st_net st) st))).
  { intros st. unfold bind at 1, Fetcher.fetchWithRedirectM.
    destruct (st_net st) as [| o net']; cbn [Fetcher.fetchWithRedirect];
      unfold Fetcher.newRequest; now rewrite Hu. }
  induction b as [| b IH]; intros rt st Hrt;
    cbn [Fetcher.fetchHTML_rt]; unfold try_catch; rewrite Hfetch;
    cbn [Fetcher.is_abort_or_fatal].
  - assert (Hlt : (rt <? Fetcher.fa_maxRetries args)%nat = false)
      by (apply Nat.ltb_ge; lia).
    rewrite Hlt. replace rt with (Fetcher.fa_maxRetries args) by lia.
    eexists _, []. split; [reflexivity |]. cbn. now rewrite !app_nil_r.
  - assert (Hlt : (rt <? Fetcher.fa_maxRetries args)%nat = true)
      by (apply Nat.ltb_lt; lia).
    rewrite Hlt. unfold bind, log, effect, Fetcher.sleepBeforeExecute, bind, effect.
    match goal with
    | |- context [Fetcher.fetchHTML_rt cookie b args (S rt) ?s] =>
        destruct (IH (S rt) s ltac:(lia)) as (st' & evs & Hrun & Hn & Ht & Hsl & Hq)
    end.
    rewrite Hrun.
    exists st',
      ([EvLog "Fetcher" LError "Error fetching - will retry"
          (Some (PlainError "Invalid URL"));
        EvSleep (Fetcher.fa_retryInterval args)] ++ evs).
    split; [reflexivity |]. split; [exact Hn |].
    split; [rewrite Ht; cbn; rewrite app_nil_r; now rewrite <- !app_assoc |].
    split; [rewrite sleeps_app, Hsl; reflexivity |].
    unfold Spec.requests in *. rewrite omap_app, Hq. reflexivity.
Qed.

(** A page fetch of a text that is no url sends nothing, yet waits
    [maxRetries] times before it fails; the lookup of a file name and the
    download of an attachment fail at once, and nothing is retried. *)
Theorem malformed_url_is_retried_only_by_fetchHTML :
  (forall args st,
      url_host (Fetcher.fa_url args) = None ->
      exists evs,
        fst (Fetcher.fetchHTML cookie args st)
        = Throw (FetcherError
                   ("Invalid URL" +:+ Fetcher.retriedMsg (Fetcher.fa_maxRetries args))
                   (Fetcher.fa_url args) false)
        /\ st_net (snd (Fetcher.fetchHTML cookie args st)) = st_net st
        /\ st_trace (snd (Fetcher.fetchHTML cookie args st)) = st_trace st ++ evs
        /\ Spec.sleeps evs
           = repeat (Fetcher.fa_retryInterval args) (Fetcher.fa_maxRetries args)
        /\ Spec.requests evs = [])
  /\ (forall args st,
        url_href (Fetcher.fa_url args) = None ->
        Fetcher.fetchFilenameByHeaders cookie args st
        = (Throw (PlainError "Invalid URL"), st))
  /\ (forall params st,
        url_host (Fetcher.src params) = None ->
        Fetcher.downloadAttachment cookie params st
        = (Throw (PlainError "Invalid URL"), st)).
Proof.
  split; [| split].
  - intros args st Hu. unfold Fetcher.fetchHTML.
    destruct (fetchHTML_rt_malformed args (Fetcher.fa_maxRetries args) Hu 0 st eq_refl)
      as (st' & evs & Hrun & Hn & Ht & Hsl & Hq).
    exists evs. rewrite Hrun. cbn [fst snd]. repeat split; assumption.
  - intros args st Hu. unfold Fetcher.fetchFilenameByHeaders.
    destruct (Fetcher.fa_maxRetries args); cbn [Fetcher.fetchFilenameByHeaders_rt];
      now rewrite Hu.
  - intros params st Hu. unfold Fetcher.downloadAttachment.
    destruct (Fetcher.maxRetries params); cbn [Fetcher.downloadAttachment_rt];
      unfold Fetcher.newRequest; now rewrite Hu.
Qed.

End MalformedURL.

Lemma malformed_url_is_retried_only_by_fetchHTML_witness :
  exists evs,
    fst (Fetcher.fetchHTML (W := Spec.emptyWorld) None
           {| Fetcher.fa_url := "not a url"; Fetcher.fa_maxRetries := 3;
              Fetcher.fa_retryInterval := 500 |} Demo.state0)
    = Throw (FetcherError "Invalid URL (retried 3 times)" "not a url" false)
    /\ st_net (snd (Fetcher.fetchHTML (W := Spec.emptyWorld) None
                      {| Fetcher.fa_url := "not a url"; Fetcher.fa_maxRetries := 3;
                         Fetcher.fa_retryInterval := 500 |} Demo.state0))
       = st_net Demo.state0
    /\ st_trace (snd (Fetcher.fetchHTML (W := Spec.emptyWorld) None
                        {| Fetcher.fa_url := "not a url"; Fetcher.fa_maxRetries := 3;
                           Fetcher.fa_retryInterval := 500 |} Demo.state0))
       = st_trace Demo.state0 ++ evs
    /\ Spec.sleeps evs = [500; 500; 500]%Z
    /\ Spec.requests evs = [].
Proof.
  exact (proj1 (malformed_url_is_retried_only_by_fetchHTML (W := Spec.emptyWorld) None)
           {| Fetcher.fa_url := "not a url"; Fetcher.fa_maxRetries := 3;
              Fetcher.fa_retryInterval := 500 |} Demo.state0 eq_refl).
Defined.

(** ** Fetcher: retries of a download *)

Lemma local_step_preorder : PreOrder Spec.local_step.
Proof.
  split.
  - intros st. repeat split; reflexivity.
  - intros st1 st2 st3 (N1 & S1 & E1) (N2 & S2 & E2).
    repeat split; try congruence. etransitivity; eauto.
Qed.

#[export] Existing Instance local_step_preorder.

Lemma local_step_files (evs : list Event) (g : gmap string File -> gmap string File)
  (st : State) :
  forallb Spec.local_event evs = true ->
  Spec.local_step st (emit evs (set_files g st)).
Proof.
  intros HP. repeat split; try reflexivity. exists evs. split; [reflexivity | exact HP].
Qed.

Lemma local_step_dirs (evs : list Event) (g : gset string -> gset string) (st : State) :
  forallb Spec.local_event evs = true ->
  Spec.local_step st (emit evs (set_dirs g st)).
Proof.
  intros HP. repeat split; try reflexivity. exists evs. split; [reflexivity | exact HP].
Qed.

Lemma local_step_quiet_network (st st' : State) :
  Spec.local_step st st' ->
  exists evs,
    st_trace st' = st_trace st ++ evs /\ Spec.sleeps evs = []
    /\ Spec.urls_requested evs = [].
Proof.
  intros (_ & _ & evs & Ht & HP). exists evs. split; [exact Ht |].
  clear Ht. induction evs as [| e evs IH]; [split; reflexivity |].
  cbn [forallb] in HP. apply andb_true_iff in HP as [He HP].
  destruct (IH HP) as [Hs Hu]. destruct e; cbn in *; try discriminate; now split.
Qed.

Section DownloadRetries.

Context {W : World}.

Variable cookie : option string.

Variable params : Fetcher.DownloadAttachmentParams.

Lemma cleanupDownload_local_step (p : string) :
  Spec.preserves Spec.local_step (Fetcher.cleanupDownload p).
Proof.
  intros st r st' H. unfold Fetcher.cleanupDownload, unlinkSync, effect in H.
  destruct (existsSync p st); inversion H; subst; [| reflexivity].
  now apply local_step_files.
Qed.

Lemma saveBody_local_step (body : Body) (destFilePath : string) :
  Spec.preserves Spec.local_step (Fetcher.saveBody body destFilePath).
Proof.
  unfold Fetcher.saveBody. preserves_step.
  - preserves_step.
    { apply preserves_effect; preorder. intros st. now apply local_step_dirs. }
    preserves_step.
    + unfold Fetcher.pipeline. destruct body as [data | written e].
      * apply preserves_effect; preorder. intros st. now apply local_step_files.
      * preserves_step; [| preserves_step].
        apply preserves_effect; preorder. intros st. now apply local_step_files.
    + unfold Fetcher.commitDownload. preserves_step.
      * preserves_step.
        -- intros st r st' H. unfold lstatSync in H.
           destruct (existsSync _ st); inversion H; subst; reflexivity.
        -- apply preserves_effect; preorder. intros st. now apply local_step_files.
      * apply cleanupDownload_local_step.
  - preserves_step; [apply cleanupDownload_local_step | preserves_step].
Qed.

(** An answer with a bad status is an attempt that failed: nothing is
    written, and the next attempt follows a wait. *)
Lemma downloadAttachment_rt_retries (host : string) (bads : list Response)
  (tail : list FetchOutcome) :
  url_host (Fetcher.src params) = Some host ->
  forallb Spec.bad_status bads = true ->
  forall b rt st,
    rt + length bads <= Fetcher.maxRetries params ->
    st_net st = map Resolves bads ++ tail ->
    exists st1,
      Fetcher.downloadAttachment_rt cookie (length bads + b) params rt st
      = Fetcher.downloadAttachment_rt cookie b params (rt + length bads) st1
      /\ Spec.retrying (Fetcher.src params) (Fetcher.retryInterval params)
           (length bads) tail st st1.
Proof.
  intros Hu. induction bads as [| res bads IH]; intros Hr b rt st Hrt Hn.
  - exists st. cbn [length Nat.add]. rewrite Nat.add_0_r. split; [reflexivity |].
    repeat split; try assumption. exists []. now rewrite app_nil_r.
  - cbn [forallb] in Hr. apply andb_true_iff in Hr as [Hres Hr].
    unfold Spec.bad_status in Hres. apply andb_true_iff in Hres as [Hfin Hbad].
    apply negb_true_iff in Hbad.
    cbn [map app] in Hn. cbn [length] in Hrt.
    destruct (fetchWithRedirectM_final cookie _ host GET res _ st Hu Hn Hfin)
      as (request & Hq & Hf).
    set (e := FetcherError (Spec.status_line res) (Fetcher.src params) false).
    set (st0 := emit [EvSleep (Fetcher.retryInterval params)]
                  (emit [EvLog "Fetcher" LError
                           "Error downloading attachment - will retry" (Some e)]
                     (emit [EvRequest request]
                        (set_net (map Resolves bads ++ tail) st)))).
    destruct (IH Hr b (S rt) st0 ltac:(lia) eq_refl)
      as (st1 & Hrun & Hn1 & Hs & Hfi & Hd & evs & Ht & Hsl & Hur).
    exists st1. split.
    + cbn [length Nat.add Fetcher.downloadAttachment_rt].
      unfold Fetcher.newRequest. rewrite Hu. unfold bind at 1. rewrite Hf.
      unfold try_catch, Fetcher.attemptDownload, bind at 1, Fetcher.assertResponseOK.
      rewrite Hbad. cbn [negb throw Fetcher.is_abort_or_fatal].
      assert (Hlt : (rt <? Fetcher.maxRetries params)%nat = true)
        by (apply Nat.ltb_lt; lia).
      rewrite Hlt. unfold bind, log, effect, Fetcher.sleepBeforeExecute, bind, effect.
      fold (Spec.status_line res). fold e. fold st0. rewrite Hrun. f_equal. lia.
    + split; [exact Hn1 |]. split; [exact Hs |]. split; [exact Hfi |].
      split; [exact Hd |].
      exists ([EvRequest request;
               EvLog "Fetcher" LError "Error downloading attachment - will retry" (Some e);
               EvSleep (Fetcher.retryInterval params)] ++ evs).
      repeat split.
      * rewrite Ht. cbn. now rewrite <- !app_assoc.
      * rewrite sleeps_app, Hsl. reflexivity.
      * rewrite urls_requested_app, Hur. cbn. now rewrite Hq.
Qed.

(** A download whose first answers have a bad status is tried again after
    each of them, as long as there are no more of them than [maxRetries];
    the first good answer is saved at the destination, and the [.part]
    file is gone. *)
Theorem downloadAttachment_succeeds_after_bad_answers (host : string)
  (bads : list Response) (good : Response) (data : string)
  (rest : list FetchOutcome) (st : State) :
  url_host (Fetcher.src params) = Some host ->
  forallb Spec.bad_status bads = true ->
  length bads <= Fetcher.maxRetries params ->
  Spec.final_response good = true -> res_ok good = true ->
  res_body good = Some (BodyOk data) ->
  st_net st = map Resolves bads ++ Resolves good :: rest ->
  fst (Fetcher.downloadAttachment cookie params st) = Ret tt
  /\ st_files (snd (Fetcher.downloadAttachment cookie params st)) !! Fetcher.dest params
     = Some (FData data)
  /\ st_files (snd (Fetcher.downloadAttachment cookie params st))
       !! Fetcher.tmpFilePathOf (Fetcher.dest params) = None
  /\ st_net (snd (Fetcher.downloadAttachment cookie params st)) = rest
  /\ exists evs,
       st_trace (snd (Fetcher.downloadAttachment cookie params st)) = st_trace st ++ evs
       /\ Spec.sleeps evs = repeat (Fetcher.retryInterval params) (length bads)
       /\ Spec.urls_requested evs = repeat (Fetcher.src params) (S (length bads)).
Proof.
  intros Hu Hr Hlen Hfin Hok Hbody Hn. unfold Fetcher.downloadAttachment.
  destruct (downloadAttachment_rt_retries host bads _ Hu Hr
              (Fetcher.maxRetries params - length bads) 0 st ltac:(lia) Hn)
    as (st1 & Hrun & Hn1 & Hs1 & Hf1 & Hd1 & evs1 & Ht1 & Hsl1 & Hur1).
  replace (length bads + (Fetcher.maxRetries params - length bads))
    with (Fetcher.maxRetries params) in Hrun by lia.
  rewrite Hrun.
  destruct (fetchWithRedirectM_final cookie _ host GET good rest st1 Hu Hn1 Hfin)
    as (request & Hq & Hf).
  set (st2 := emit [EvRequest request] (set_net rest st1)) in Hf.
  destruct (saveBody_ok data (Fetcher.dest params) st2)
    as (st3 & tail & Hsave & Hdest & Htmp & _ & Hn3 & _ & _).
  pose proof (saveBody_local_step _ _ _ _ _ Hsave) as Hlocal.
  apply local_step_quiet_network in Hlocal as (evs3 & Ht3 & Hsl3 & Hur3).
  assert (Hlast : Fetcher.downloadAttachment_rt cookie
                    (Fetcher.maxRetries params - length bads) params
                    (0 + length bads) st1 = (Ret tt, st3)).
  { destruct (Fetcher.maxRetries params - length bads) as [| b];
      cbn [Fetcher.downloadAttachment_rt]; unfold Fetcher.newRequest; rewrite Hu;
      unfold bind at 1; rewrite Hf;
      unfold try_catch, Fetcher.attemptDownload, bind at 1, Fetcher.assertResponseOK;
      rewrite Hok, Hbody; cbn [negb ret]; now rewrite Hsave. }
  rewrite Hlast. cbn [fst snd]. split; [reflexivity |]. split; [exact Hdest |].
  split; [exact Htmp |]. split; [now rewrite Hn3 |].
  exists (evs1 ++ [EvRequest request] ++ evs3). split; [| split].
  - rewrite Ht3. cbn. rewrite Ht1. now rewrite <- !app_assoc.
  - rewrite !sleeps_app, Hsl1, Hsl3.
    change (Spec.sleeps [EvRequest request]) with (@nil Z).
    cbn [app]. now rewrite app_nil_r.
  - rewrite !urls_requested_app, Hur1, Hur3.
    change (Spec.urls_requested [EvRequest request]) with [req_url request].
    rewrite Hq. cbn [app]. apply repeat_snoc.
Qed.

(** When the status is bad more often than [maxRetries] allows, the
    download ends with a [FetcherError] that is not fatal and carries the
    status line and the number of retries; files are as they were. *)
Theorem downloadAttachment_gives_up_on_bad_status (host : string)
  (bads : list Response) (res : Response) (rest : list FetchOutcome) (st : State) :
  url_host (Fetcher.src params) = Some host ->
  forallb Spec.bad_status bads = true ->
  Spec.bad_status res = true ->
  length bads = Fetcher.maxRetries params ->
  st_net st = map Resolves bads ++ Resolves res :: rest ->
  fst (Fetcher.downloadAttachment cookie params st)
  = Throw (FetcherError
             (Spec.status_line res +:+ Fetcher.retriedMsg (Fetcher.maxRetries params))
             (Fetcher.src params) false)
  /\ Spec.retried (Fetcher.src params) (Fetcher.retryInterval params)
       (Fetcher.maxRetries params) rest st
       (snd (Fetcher.downloadAttachment cookie params st)).
Proof.
  intros Hu Hr Hres Hlen Hn. unfold Fetcher.downloadAttachment.
  destruct (downloadAttachment_rt_retries host bads _ Hu Hr 0 0 st ltac:(lia) Hn)
    as (st1 & Hrun & Hst1).
  rewrite Nat.add_0_r, Hlen in Hrun. rewrite Hrun. pose proof Hst1 as (Hn1 & _).
  unfold Spec.bad_status in Hres. apply andb_true_iff in Hres as [Hfin Hbad].
  apply negb_true_iff in Hbad.
  destruct (fetchWithRedirectM_final cookie _ host GET res rest st1 Hu Hn1 Hfin)
    as (request & Hq & Hf).
  assert (Hlast : Fetcher.downloadAttachment_rt cookie 0 params
                    (0 + Fetcher.maxRetries params) st1
                  = (Throw (FetcherError
                              (Spec.status_line res
                               +:+ Fetcher.retriedMsg (Fetcher.maxRetries params))
                              (Fetcher.src params) false),
                     emit [EvRequest request] (set_net rest st1))).
  { cbn [Fetcher.downloadAttachment_rt Nat.add]. unfold Fetcher.newRequest. rewrite Hu.
    unfold bind at 1. rewrite Hf.
    unfold try_catch, Fetcher.attemptDownload, bind at 1, Fetcher.assertResponseOK.
    rewrite Hbad. cbn [negb throw Fetcher.is_abort_or_fatal].
    now rewrite Nat.ltb_irrefl. }
  rewrite Hlast. cbn [fst snd]. split; [reflexivity |].
  rewrite Hlen in Hst1.
  apply (retrying_one_more _ _ _ rest st st1 _ request);
    [rewrite Hn1; exact Hst1 | exact Hq | reflexivity ..].
Qed.

End DownloadRetries.

Lemma downloadAttachment_succeeds_after_bad_answers_witness :
  fst (Fetcher.downloadAttachment (W := Spec.emptyWorld) None Spec.downloadParams
         (Spec.answering [Resolves Spec.busy; Resolves Spec.busy;
                          Resolves Spec.pngResponse])) = Ret tt
  /\ st_files (snd (Fetcher.downloadAttachment (W := Spec.emptyWorld) None
                      Spec.downloadParams
                      (Spec.answering [Resolves Spec.busy; Resolves Spec.busy;
                                       Resolves Spec.pngResponse])))
       !! "/out/attachments/attach-5 - a.png" = Some (FData "png")
  /\ st_files (snd (Fetcher.downloadAttachment (W := Spec.emptyWorld) None
                      Spec.downloadParams
                      (Spec.answering [Resolves Spec.busy; Resolves Spec.busy;
                                       Resolves Spec.pngResponse])))
       !! "/out/attachments/attach-5 - a.png.part" = None
  /\ st_net (snd (Fetcher.downloadAttachment (W := Spec.emptyWorld) None
                    Spec.downloadParams
                    (Spec.answering [Resolves Spec.busy; Resolves Spec.busy;
                                     Resolves Spec.pngResponse]))) = []
  /\ exists evs,
       st_trace (snd (Fetcher.downloadAttachment (W := Spec.emptyWorld) None
                        Spec.downloadParams
                        (Spec.answering [Resolves Spec.busy; Resolves Spec.busy;
                                         Resolves Spec.pngResponse])))
       = st_trace (Spec.answering [Resolves Spec.busy; Resolves Spec.busy;
                                   Resolves Spec.pngResponse]) ++ evs
       /\ Spec.sleeps evs = [200; 200]%Z
       /\ Spec.urls_requested evs
          = repeat "https://site.example/attachments/a-png.5/" 3.
Proof.
  exact (downloadAttachment_succeeds_after_bad_answers (W := Spec.emptyWorld) None
           Spec.downloadParams "site.example" [Spec.busy; Spec.busy] Spec.pngResponse
           "png" []
           (Spec.answering [Resolves Spec.busy; Resolves Spec.busy;
                            Resolves Spec.pngResponse])
           eq_refl eq_refl ltac:(cbn; lia) eq_refl eq_refl eq_refl eq_refl).
Defined.

Lemma downloadAttachment_gives_up_on_bad_status_witness :
  fst (Fetcher.downloadAttachment (W := Spec.emptyWorld) None Spec.downloadParams
         (Spec.answering [Resolves Spec.busy; Resolves Spec.busy; Resolves Spec.busy;
                          Resolves Spec.busy; Resolves Spec.pngResponse]))
  = Throw (FetcherError "503 - Service Unavailable (retried 3 times)"
             "https://site.example/attachments/a-png.5/" false)
  /\ Spec.retried "https://site.example/attachments/a-png.5/" 200 3
       [Resolves Spec.pngResponse]
       (Spec.answering [Resolves Spec.busy; Resolves Spec.busy; Resolves Spec.busy;
                        Resolves Spec.busy; Resolves Spec.pngResponse])
       (snd (Fetcher.downloadAttachment (W := Spec.emptyWorld) None Spec.downloadParams
               (Spec.answering [Resolves Spec.busy; Resolves Spec.busy;
                                Resolves Spec.busy; Resolves Spec.busy;
                                Resolves Spec.pngResponse]))).
Proof.
  exact (downloadAttachment_gives_up_on_bad_status (W := Spec.emptyWorld) None
           Spec.downloadParams "site.example" [Spec.busy; Spec.busy; Spec.busy]
           Spec.busy [Resolves Spec.pngResponse]
           (Spec.answering [Resolves Spec.busy; Resolves Spec.busy; Resolves Spec.busy;
                            Resolves Spec.busy; Resolves Spec.pngResponse])
           eq_refl eq_refl eq_refl eq_refl eq_refl).
Defined.

(** ** The [.part] file and the destination of a download *)

Section WriteThenRename.

Context {W : World}.

Variable cookie : option string.

(** C5: what a call of [downloadAttachment] writes to [dest] is written by
    renaming [dest.part], and only right after a whole body of a successful
    response was piped into that file.  When the call returns, [dest] holds
    such a whole body, the [.part] file is gone and the directory of [dest]
    exists.  When the call throws, by any error, an abort included, [dest]
    is what it was before the call, and the [.part] file is gone (or, when
    no attempt came to write it, what it was before the call).  A
    successful answer whose body is read to its end is saved: the directory
    is made, the body piped into [dest.part], that file renamed to [dest],
    and the call returns.  A body that breaks off by a cancellation or a
    fatal error leaves [dest] as it was: what was piped into [dest.part] is
    deleted and the error thrown.  The call comes to an end unless a server
    redirects without end. *)
Theorem C5_download_writes_then_renames (params : Fetcher.DownloadAttachmentParams)
  (st : State) :
  let r := fst (Fetcher.downloadAttachment cookie params st) in
  let st' := snd (Fetcher.downloadAttachment cookie params st) in
  let destPath := Fetcher.dest params in
  let tmpPath := Fetcher.tmpFilePathOf destPath in
  (Spec.settles (st_net st) = true -> r <> Stuck)
  /\ (exists evs,
        st_trace st' = st_trace st ++ evs
        /\ Spec.whole_commits (st_net st) destPath evs)
  /\ (r = Ret tt ->
      (exists data,
         Spec.complete_body (st_net st) data
         /\ st_files st' !! destPath = Some (FData data))
      /\ st_files st' !! tmpPath = None
      /\ path_dirname destPath ∈ st_dirs st')
  /\ (forall e, r = Throw e ->
      st_files st' !! destPath = st_files st !! destPath
      /\ (st_files st' !! tmpPath = None
          \/ st_files st' !! tmpPath = st_files st !! tmpPath))
  /\ (forall host res data rest,
        url_host (Fetcher.src params) = Some host ->
        st_net st = Resolves res :: rest ->
        Spec.final_response res = true -> res_ok res = true ->
        res_body res = Some (BodyOk data) ->
        r = Ret tt
        /\ st_files st' !! destPath = Some (FData data)
        /\ st_files st' !! tmpPath = None
        /\ exists request tail,
             st_trace st'
             = st_trace st
               ++ [EvRequest request; EvEnsureDir (path_dirname destPath);
                   EvPipe tmpPath data; EvRename tmpPath destPath] ++ tail
             /\ forallb (fun ev => negb (Spec.writes_path destPath ev)) tail = true)
  /\ (forall host res written e rest,
        url_host (Fetcher.src params) = Some host ->
        st_net st = Resolves res :: rest ->
        Spec.final_response res = true -> res_ok res = true ->
        res_body res = Some (BodyFails written e) ->
        Fetcher.is_abort_or_fatal e = true ->
        r = Throw e
        /\ st_files st' !! destPath = st_files st !! destPath
        /\ st_files st' !! tmpPath = None
        /\ exists request,
             st_trace st'
             = st_trace st
               ++ [EvRequest request; EvEnsureDir (path_dirname destPath);
                   EvPipe tmpPath written; EvUnlink tmpPath]).
Proof.
  intros r st' destPath tmpPath. subst r st' destPath tmpPath.
  pose proof (downloadAttachment_rt_post cookie (Fetcher.maxRetries params) params 0 st)
    as H.
  unfold Fetcher.downloadAttachment.
  destruct (Fetcher.downloadAttachment_rt cookie (Fetcher.maxRetries params) params 0 st)
    as [r st'] eqn:Erun.
  specialize (H r st' ltac:(lia) eq_refl). destruct H as (Hev & _ & Hr). cbn [fst snd].
  split; [intros Hs ->; congruence |]. split; [exact Hev |].
  split; [intros ->; exact Hr |]. split; [intros e ->; exact Hr |]. split.
  - intros host res data rest Hu Hn Hfin Hok Hbody.
    destruct (fetchWithRedirectM_final cookie _ host GET res rest st Hu Hn Hfin)
      as (request & Hq & Hf).
    set (st2 := emit [EvRequest request] (set_net rest st)) in Hf.
    destruct (saveBody_ok data (Fetcher.dest params) st2)
      as (st3 & tail & Hsave & Hdest & Htmp & _ & _ & Htr & Htail).
    assert (Hrun : Fetcher.downloadAttachment_rt cookie (Fetcher.maxRetries params)
                     params 0 st = (Ret tt, st3)).
    { destruct (Fetcher.maxRetries params) as [| b];
        cbn [Fetcher.downloadAttachment_rt]; unfold Fetcher.newRequest; rewrite Hu;
        unfold bind at 1; rewrite Hf;
        unfold try_catch, Fetcher.attemptDownload, bind at 1, Fetcher.assertResponseOK;
        rewrite Hok, Hbody; cbn [negb ret]; now rewrite Hsave. }
    rewrite Hrun in Erun. inversion Erun; subst r st'.
    split; [reflexivity |]. split; [exact Hdest |]. split; [exact Htmp |].
    exists request, tail. split; [| exact Htail].
    rewrite Htr. cbn. now rewrite <- !app_assoc.
  - intros host res written e rest Hu Hn Hfin Hok Hbody He.
    destruct (fetchWithRedirectM_final cookie _ host GET res rest st Hu Hn Hfin)
      as (request & Hq & Hf).
    set (st2 := emit [EvRequest request] (set_net rest st)) in Hf.
    destruct (saveBody_fails written (Fetcher.dest params) e st2)
      as (st3 & Hsave & Hdest & Htmp & _ & Htr).
    assert (Hrun : Fetcher.downloadAttachment_rt cookie (Fetcher.maxRetries params)
                     params 0 st = (Throw e, st3)).
    { destruct (Fetcher.maxRetries params) as [| b];
        cbn [Fetcher.downloadAttachment_rt]; unfold Fetcher.newRequest; rewrite Hu;
        unfold bind at 1; rewrite Hf;
        unfold try_catch, Fetcher.attemptDownload, bind at 1, Fetcher.assertResponseOK;
        rewrite Hok, Hbody; cbn [negb ret]; rewrite Hsave; now rewrite He. }
    rewrite Hrun in Erun. inversion Erun; subst r st'.
    split; [reflexivity |]. split; [exact Hdest |]. split; [exact Htmp |].
    exists request. rewrite Htr. cbn. now rewrite <- !app_assoc.
Qed.

End WriteThenRename.

Lemma C5_download_writes_then_renames_witness :
  fst (Fetcher.downloadAttachment (W := Spec.emptyWorld) None Spec.downloadParams
         (Spec.answering [Resolves Spec.pngResponse])) = Ret tt
  /\ st_files (snd (Fetcher.downloadAttachment (W := Spec.emptyWorld) None
                      Spec.downloadParams (Spec.answering [Resolves Spec.pngResponse])))
       !! "/out/attachments/attach-5 - a.png" = Some (FData "png")
  /\ st_files (snd (Fetcher.downloadAttachment (W := Spec.emptyWorld) None
                      Spec.downloadParams (Spec.answering [Resolves Spec.pngResponse])))
       !! "/out/attachments/attach-5 - a.png.part" = None
  /\ exists request tail,
       st_trace (snd (Fetcher.downloadAttachment (W := Spec.emptyWorld) None
                        Spec.downloadParams
                        (Spec.answering [Resolves Spec.pngResponse])))
       = [EvRequest request; EvEnsureDir "/out/attachments";
          EvPipe "/out/attachments/attach-5 - a.png.part" "png";
          EvRename "/out/attachments/attach-5 - a.png.part"
            "/out/attachments/attach-5 - a.png"] ++ tail
       /\ forallb
            (fun ev => negb (Spec.writes_path "/out/attachments/attach-5 - a.png" ev))
            tail = true.
Proof.
  exact (proj1 (proj2 (proj2 (proj2 (proj2
           (C5_download_writes_then_renames (W := Spec.emptyWorld) None
              Spec.downloadParams (Spec.answering [Resolves Spec.pngResponse]))))))
           "site.example" Spec.pngResponse "png" [] eq_refl eq_refl eq_refl eq_refl
           eq_refl).
Defined.

(** ** The download-status record *)

Section StatusRecord.

Context {W : World}.

Variable config : DownloaderConfig.

(** What [#saveDownloadStatus] writes is what [#checkPreviousDownload]
    reads back, as long as the thread id, the url and the message id are
    truthy. *)
Theorem saved_status_is_read_back (thread : ThreadPage) (message : ThreadMessage)
  (threadSavePath : string) (st : State) :
  tp_id thread <> 0%Z -> tp_url thread <> "" -> msg_id message <> 0%Z ->
  checkPreviousDownload thread threadSavePath
    (snd (saveDownloadStatus thread message threadSavePath st))
  = (Ret (Some (Spec.marker_of thread message)),
     snd (saveDownloadStatus thread message threadSavePath st)).
Proof.
  intros Hid Hurl Hmsg. unfold saveDownloadStatus, effect. cbn [snd].
  unfold checkPreviousDownload, existsSync. cbn [st_files emit set_files].
  rewrite lookup_insert_eq. cbn [is_Some].
  rewrite bool_decide_eq_true_2 by eauto. cbn [orb j_threadID j_url j_messageID
    ds_threadID ds_url ds_messageID].
  rewrite !truthy_Z_true by assumption.
  assert (Hu : truthy_string (tp_url thread) = true)
    by (destruct (tp_url thread); [congruence | reflexivity]).
  rewrite Hu. reflexivity.
Qed.

(** [#checkPreviousDownload] answers [false] when there is no status file,
    and otherwise takes the stored record as it is when its three fields
    are truthy, whatever thread the record names; a record with a field
    that is missing, zero or empty is an error.  It changes nothing. *)
Theorem stored_status_is_taken_as_it_is (thread : ThreadPage) (threadSavePath : string)
  (st : State) :
  (existsSync (getDownloadStatusFilePath thread threadSavePath) st = false ->
   checkPreviousDownload thread threadSavePath st = (Ret None, st))
  /\ (forall j d,
        st_files st !! getDownloadStatusFilePath thread threadSavePath = Some (FJson j) ->
        Spec.well_formed_record j = Some d ->
        checkPreviousDownload thread threadSavePath st = (Ret (Some d), st))
  /\ (forall j,
        st_files st !! getDownloadStatusFilePath thread threadSavePath = Some (FJson j) ->
        Spec.well_formed_record j = None ->
        exists e, checkPreviousDownload thread threadSavePath st = (Throw e, st)
                  /\ isErrorNonContinuable e = false).
Proof.
  split; [| split].
  - intros H. unfold checkPreviousDownload. now rewrite H.
  - intros j d Hf Hj. unfold checkPreviousDownload.
    rewrite (existsSync_file _ _ _ Hf), Hf. unfold Spec.well_formed_record in Hj.
    destruct (j_threadID j) as [t |], (j_url j) as [u |], (j_messageID j) as [m |];
      try discriminate.
    destruct (truthy_Z t), (truthy_string u), (truthy_Z m); cbn in *;
      try discriminate; now inversion Hj.
  - intros j Hf Hj. unfold checkPreviousDownload.
    rewrite (existsSync_file _ _ _ Hf), Hf. unfold Spec.well_formed_record in Hj.
    destruct (j_threadID j) as [t |], (j_url j) as [u |], (j_messageID j) as [m |];
      try (eexists; split; reflexivity).
    destruct (truthy_Z t), (truthy_string u), (truthy_Z m); cbn in *;
      try discriminate; eexists; split; reflexivity.
Qed.

(** A status file that cannot be used does not fail the thread: with
    [continue] on, [#downloadThread] logs the error, ignores the flag and
    goes on as if nothing had been downloaded; the error is not counted
    and no file is touched. *)
Theorem unreadable_status_is_ignored (context : option DownloadThreadContext)
  (threadPage : ThreadPage) (st : State) (e : JsError) :
  continue config = true -> is_continued context = false ->
  fst (checkPreviousDownload threadPage (getThreadSavePath config threadPage) st)
  = Throw e ->
  fst (resumeCheck config context threadPage st) = Ret None
  /\ st_stats (snd (resumeCheck config context threadPage st)) = st_stats st
  /\ st_files (snd (resumeCheck config context threadPage st)) = st_files st
  /\ Spec.requests
       (drop (length (st_trace st))
          (st_trace (snd (resumeCheck config context threadPage st)))) = [].
Proof.
  intros Hc Hctx He. unfold resumeCheck. rewrite Hc, Hctx. cbn [negb andb].
  unfold try_catch.
  assert (Hst : snd (checkPreviousDownload threadPage
                       (getThreadSavePath config threadPage) st) = st).
  { unfold checkPreviousDownload. destruct (existsSync _ st); [| reflexivity].
    destruct (st_files st !! _) as [[content | json] |]; try reflexivity.
    destruct (j_threadID json), (j_url json), (j_messageID json); try reflexivity.
    destruct (negb _ || negb _ || negb _); reflexivity. }
  destruct (checkPreviousDownload threadPage (getThreadSavePath config threadPage) st)
    as [r st0]. cbn in He, Hst. subst r st0.
  unfold bind, xlog, log, effect, ret.
  destruct (is_limiter_stop e); cbn [fst snd st_stats st_files st_trace emit];
    (repeat split; [reflexivity ..|]);
    rewrite <- ?app_assoc, drop_app_length; reflexivity.
Qed.

End StatusRecord.

Lemma saved_status_is_read_back_witness :
  checkPreviousDownload (W := Spec.helloWorld) Spec.helloPage1 "/out/Site/ForumB.7/Hello.42"
    (snd (saveDownloadStatus (W := Spec.helloWorld) Spec.helloPage1 (Demo.message 30 [])
            "/out/Site/ForumB.7/Hello.42" Demo.state0))
  = (Ret (Some (Spec.marker_of Spec.helloPage1 (Demo.message 30 []))),
     snd (saveDownloadStatus (W := Spec.helloWorld) Spec.helloPage1 (Demo.message 30 [])
            "/out/Site/ForumB.7/Hello.42" Demo.state0)).
Proof.
  apply (saved_status_is_read_back (W := Spec.helloWorld) Spec.helloPage1
           (Demo.message 30 []) "/out/Site/ForumB.7/Hello.42" Demo.state0);
    discriminate.
Defined.

Lemma stored_status_is_taken_as_it_is_witness :
  checkPreviousDownload (W := Spec.helloWorld) Spec.helloPage1 "/out/Site/ForumB.7/Hello.42"
    Spec.diskWithForeignRecord
  = (Ret (Some {| ds_threadID := 7;
                  ds_url := "https://site.example/threads/other.7/page-4";
                  ds_messageID := 99 |}), Spec.diskWithForeignRecord).
Proof.
  apply (proj1 (proj2 (stored_status_is_taken_as_it_is (W := Spec.helloWorld)
                         Spec.helloPage1 "/out/Site/ForumB.7/Hello.42"
                         Spec.diskWithForeignRecord)) Spec.foreignRecord).
  - vm_compute. reflexivity.
  - reflexivity.
Defined.

Lemma unreadable_status_is_ignored_witness :
  fst (resumeCheck (W := Spec.helloWorld) (Demo.config None false true) None
         Spec.helloPage1 Spec.diskWithBrokenRecord) = Ret None
  /\ st_stats (snd (resumeCheck (W := Spec.helloWorld) (Demo.config None false true) None
                      Spec.helloPage1 Spec.diskWithBrokenRecord))
     = st_stats Spec.diskWithBrokenRecord
  /\ st_files (snd (resumeCheck (W := Spec.helloWorld) (Demo.config None false true) None
                      Spec.helloPage1 Spec.diskWithBrokenRecord))
     = st_files Spec.diskWithBrokenRecord
  /\ Spec.requests
       (drop (length (st_trace Spec.diskWithBrokenRecord))
          (st_trace (snd (resumeCheck (W := Spec.helloWorld)
                            (Demo.config None false true) None
                            Spec.helloPage1 Spec.diskWithBrokenRecord)))) = [].
Proof.
  apply (unreadable_status_is_ignored (W := Spec.helloWorld)
           (Demo.config None false true) None Spec.helloPage1
           Spec.diskWithBrokenRecord (PlainError "Unexpected token in JSON")).
  - reflexivity.
  - reflexivity.
  - vm_compute. reflexivity.
Defined.

(** ** Attachments: counters and file names *)

Section AttachmentUnits.

Context {W : World}.

Variable config : DownloaderConfig.



(** When every attachment of a page comes with a file name, no [HEAD]
    request is made for it: the messages stay as they are and so does
    everything else. *)
Theorem named_attachments_need_no_lookup (messages : list ThreadMessage) (st : State) :
  Spec.all_named messages = true ->
  resolveFilenames config messages st = (Ret messages, st).
Proof.
  unfold resolveFilenames. induction messages as [| m messages IH]; intros H;
    [reflexivity |].
  cbn [Spec.all_named forallb] in H. apply andb_true_iff in H as [Hm H].
  cbn [map_each]. unfold bind at 1.
  assert (Hatt : forall attachments st0,
             forallb (fun a => truthy_opt (att_filename a)) attachments = true ->
             map_each
               (fun attachment =>
                  if negb (truthy_opt (att_filename attachment))
                  then setAttachmentFilename config attachment
                  else ret attachment) attachments st0
             = (Ret attachments, st0)).
  { induction attachments as [| a attachments IHa]; intros st0 Ha; [reflexivity |].
    cbn [forallb] in Ha. apply andb_true_iff in Ha as [Ha1 Ha].
    cbn [map_each]. rewrite Ha1. cbn [negb]. unfold bind at 1, ret at 1.
    cbv beta iota. unfold bind at 1. now rewrite (IHa st0 Ha). }
  unfold bind at 1. rewrite (Hatt _ st Hm). unfold ret at 1. cbv beta iota.
  unfold bind at 1. rewrite (IH H). unfold ret. destruct m; reflexivity.
Qed.



End AttachmentUnits.

(** The download of an attachment whose url redirects to itself never
    returns: the redirects are followed without a count. *)
Lemma attachment_download_may_never_return :
  Spec.settles (site (World := Spec.mazeWorld) Spec.mazeURL) = false
  /\ fst (downloadMessageAttachment (W := Spec.mazeWorld) (Demo.config None false false)
            (Demo.attachment 9 Spec.mazeURL (Some "a.png")) "/out/attachments"
            Demo.state0) = Stuck.
Proof. vm_compute. split; reflexivity. Qed.


Lemma named_attachments_need_no_lookup_witness :
  resolveFilenames (W := Spec.emptyWorld) (Demo.config None false false)
    [Demo.message 10 [Spec.pngAttachment]; Demo.message 20 []] Demo.state0
  = (Ret [Demo.message 10 [Spec.pngAttachment]; Demo.message 20 []], Demo.state0).
Proof.
  exact (named_attachments_need_no_lookup (W := Spec.emptyWorld)
           (Demo.config None false false)
           [Demo.message 10 [Spec.pngAttachment]; Demo.message 20 []] Demo.state0
           eq_refl).
Defined.

(** ** The whole crawl: what is counted is what is appended *)

Lemma crawl_step_preorder : PreOrder Spec.crawl_step.
Proof.
  split.
  - intros st. exists []. apply quiet_page_step. reflexivity.
  - intros st1 st2 st3 [ids1 H1] [ids2 H2]. exists (ids1 ++ ids2).
    eapply page_step_trans; eauto.
Qed.

#[export] Existing Instance crawl_step_preorder.

Lemma quiet_crawl_step (st st' : State) : Spec.quiet_step st st' -> Spec.crawl_step st st'.
Proof. intros H. exists []. now apply quiet_page_step. Qed.

Section WholeCrawl.

Context {W : World}.

Variable config : DownloaderConfig.

Lemma fetchForumPage_quiet (url : string) :
  Spec.preserves Spec.quiet_step (fetchForumPage config url).
Proof.
  unfold fetchForumPage. preserves_step; [apply fetchPage_quiet |].
  destruct (Parser.parseForumPage (fst a) url); preserves_step.
Qed.

Lemma counter_crawl_step (f : DownloadStats -> DownloadStats) :
  (forall s, processedMessageCount (f s) = processedMessageCount s) ->
  Spec.preserves Spec.crawl_step (effect (set_stats f)).
Proof.
  intros Hf. apply preserves_effect; preorder. intros st.
  apply quiet_crawl_step. now apply quiet_step_set_stats.
Qed.

Lemma onError_crawl_step (error : JsError) :
  Spec.preserves Spec.crawl_step (onError error).
Proof.
  eapply preserves_weaken; [apply quiet_crawl_step | apply onError_quiet].
Qed.

Lemma persistPage_crawl_step (context : option DownloadThreadContext)
  (threadPage : ThreadPage) :
  Spec.preserves Spec.crawl_step (persistPage config context threadPage).
Proof.
  intros st r st' H. apply persistPage_page_step in H as (done & _ & Hstep & _).
  now exists done.
Qed.

Section Handlers.

Variable self : Call -> M unit.

Hypothesis Hself : forall c, Spec.preserves Spec.crawl_step (self c).

Lemma afterThreadPage_crawl_step (threadPage : option ThreadPage) :
  Spec.preserves Spec.crawl_step (afterThreadPage config self threadPage).
Proof.
  unfold afterThreadPage. destruct threadPage as [tp |]; [| preserves_step].
  destruct (tp_nextURL tp) as [nextURL |]; [| now apply counter_crawl_step].
  destruct (truthy_string nextURL); [apply Hself | now apply counter_crawl_step].
Qed.

Lemma finishThreadPage_crawl_step (threadPage : option ThreadPage) (r0 : Res unit)
  (st0 : State) (r : Res unit) (st' : State) :
  finishThreadPage config self threadPage (r0, st0) = (r, st') ->
  Spec.crawl_step st0 st'.
Proof.
  unfold finishThreadPage. destruct r0 as [u | e |].
  - apply afterThreadPage_crawl_step.
  - apply (preserves_bind Spec.crawl_step); [apply onError_crawl_step |].
    intros _. apply afterThreadPage_crawl_step.
  - intros [= <- <-]. reflexivity.
Qed.

Lemma downloadThread_with_crawl_step (url : string)
  (context : option DownloadThreadContext) :
  Spec.preserves Spec.crawl_step (downloadThread_with config self url context).
Proof.
  intros st r st' H. unfold downloadThread_with in H.
  pose proof (fetchThreadPage_quiet config url st) as Hq.
  destruct (fetchThreadPage config url st) as [[threadPage | e |] st1];
    specialize (Hq _ _ eq_refl); apply quiet_crawl_step in Hq.
  - pose proof (resumeCheck_quiet config context threadPage st1) as Hq2.
    destruct (resumeCheck config context threadPage st1) as [[[prev |] | e |] st2];
      specialize (Hq2 _ _ eq_refl); apply quiet_crawl_step in Hq2.
    + transitivity st1; [exact Hq |]. transitivity st2; [exact Hq2 |].
      eapply Hself; eauto.
    + destruct (persistPage config context _ st2) as [r0 st3] eqn:Hp.
      apply persistPage_crawl_step in Hp. apply finishThreadPage_crawl_step in H.
      transitivity st1; [exact Hq |]. transitivity st2; [exact Hq2 |].
      transitivity st3; assumption.
    + apply finishThreadPage_crawl_step in H.
      transitivity st1; [exact Hq |]. transitivity st2; assumption.
    + inversion H; subst. transitivity st1; assumption.
  - apply finishThreadPage_crawl_step in H. transitivity st1; assumption.
  - inversion H; subst. exact Hq.
Qed.

Lemma afterForumPage_crawl_step (forumPage : option ForumPage) :
  Spec.preserves Spec.crawl_step (afterForumPage self forumPage).
Proof.
  unfold afterForumPage. destruct forumPage as [fp |]; [| preserves_step].
  assert (Hsub : Spec.preserves Spec.crawl_step
                   (do* (if (0 <? length (fp_subforums fp))%nat
                         then for_each (fun subforum => self (CForum (link_url subforum)))
                                (fp_subforums fp)
                         else ret tt) in
                    effect (set_stats incr_processedForumCount))).
  { preserves_step; [| now apply counter_crawl_step].
    destruct (0 <? length (fp_subforums fp))%nat; [| preserves_step].
    preserves_step. apply Hself. }
  destruct (fp_nextURL fp) as [nextURL |]; [| exact Hsub].
  destruct (truthy_string nextURL); [apply Hself | exact Hsub].
Qed.

Lemma downloadForum_with_crawl_step (url : string) :
  Spec.preserves Spec.crawl_step (downloadForum_with config self url).
Proof.
  intros st r st' H. unfold downloadForum_with in H.
  pose proof (fetchForumPage_quiet url st) as Hq.
  assert (Hfinish : forall forumPage r0 st0,
             finishForumPage self forumPage (r0, st0) = (r, st') ->
             Spec.crawl_step st0 st').
  { intros forumPage r0 st0. unfold finishForumPage. destruct r0 as [u | e |].
    - apply afterForumPage_crawl_step.
    - apply (preserves_bind Spec.crawl_step); [apply onError_crawl_step |].
      intros _. apply afterForumPage_crawl_step.
    - intros [= <- <-]. reflexivity. }
  destruct (fetchForumPage config url st) as [[forumPage | e |] st1];
    specialize (Hq _ _ eq_refl); apply quiet_crawl_step in Hq.
  - assert (Hthreads : Spec.preserves Spec.crawl_step
                         (if (0 <? length (fp_threads forumPage))%nat
                          then for_each (fun thread => self (CProcess (link_url thread)))
                                 (fp_threads forumPage)
                          else ret tt)).
    { destruct (0 <? length (fp_threads forumPage))%nat; [| preserves_step].
      preserves_step. apply Hself. }
    specialize (Hthreads st1).
    match type of H with
    | finishForumPage _ _ ?x = _ => destruct x as [r0 st2]
    end.
    specialize (Hthreads _ _ eq_refl). apply Hfinish in H.
    transitivity st1; [exact Hq |]. transitivity st2; assumption.
  - apply Hfinish in H. transitivity st1; assumption.
  - inversion H; subst. exact Hq.
Qed.

Lemma downloadGeneric_with_crawl_step (url : string) :
  Spec.preserves Spec.crawl_step (downloadGeneric_with config self url).
Proof.
  unfold downloadGeneric_with. preserves_step; [| apply onError_crawl_step].
  preserves_step.
  - eapply preserves_weaken; [apply quiet_crawl_step | apply fetchPage_quiet].
  - destruct (0 <? length (gp_forums _))%nat; [| preserves_step].
    preserves_step. apply Hself.
Qed.

Lemma process_with_crawl_step (url : string) :
  Spec.preserves Spec.crawl_step (process_with self url).
Proof.
  unfold process_with.
  destruct (URLHelper.getTargetTypeByURL url_href url) as [e | []];
    [preserves_step | apply Hself ..].
Qed.

End Handlers.

Lemma run_crawl_step (fuel : nat) :
  forall c, Spec.preserves Spec.crawl_step (run config fuel c).
Proof.
  induction fuel as [| n IH]; intros c; cbn [run].
  - apply stuck_preserves; preorder.
  - destruct c as [url | url context | url | url].
    + now apply process_with_crawl_step.
    + now apply downloadThread_with_crawl_step.
    + now apply downloadForum_with_crawl_step.
    + now apply downloadGeneric_with_crawl_step.
Qed.

(** Whatever is crawled (a thread, a forum with its subforums, a page of
    forum links) and however the crawl ends: the messages counted as
    processed are the messages appended to transcripts, no more and no
    less, and after each of them comes the status record that names it. *)
Theorem crawl_counts_what_it_appends (fuel : nat) (c : Call) (st : State) :
  exists evs,
    st_trace (snd (run config fuel c st)) = st_trace st ++ evs
    /\ Spec.marked evs
    /\ Spec.status_ids evs = Spec.saved_ids evs
    /\ processedMessageCount (st_stats (snd (run config fuel c st)))
       = processedMessageCount (st_stats st) + length (Spec.saved_ids evs).
Proof.
  destruct (run config fuel c st) as [r st'] eqn:H.
  apply run_crawl_step in H as (ids & evs & T & M & S & U & C).
  exists evs. cbn [snd]. repeat split; try assumption; congruence.
Qed.

End WholeCrawl.

(** ** The fuel of the traversal *)

Lemma over_as_refl {A : Type} (m : M A) : Spec.over_as m m.
Proof. intros st r st' H _. exact H. Qed.

Lemma over_as_bind {A B : Type} (m m' : M A) (k k' : A -> M B) :
  Spec.over_as m m' -> (forall a, Spec.over_as (k a) (k' a)) ->
  Spec.over_as (bind m k) (bind m' k').
Proof.
  intros Hm Hk st r st' H Hr. unfold bind in *.
  destruct (m st) as [[a | e |] st1] eqn:E.
  - rewrite (Hm st (Ret a) st1 E) by discriminate. now apply Hk.
  - rewrite (Hm st (Throw e) st1 E) by discriminate. exact H.
  - inversion H; subst r. congruence.
Qed.

Lemma over_as_try_catch {A : Type} (m m' : M A) (h : JsError -> M A) :
  Spec.over_as m m' -> Spec.over_as (try_catch m h) (try_catch m' h).
Proof.
  intros Hm st r st' H Hr. unfold try_catch in *.
  destruct (m st) as [[a | e |] st1] eqn:E.
  - rewrite (Hm st (Ret a) st1 E) by discriminate. exact H.
  - rewrite (Hm st (Throw e) st1 E) by discriminate. exact H.
  - inversion H; subst r. congruence.
Qed.

Lemma over_as_for_each {A : Type} (f f' : A -> M unit) (l : list A) :
  (forall x, Spec.over_as (f x) (f' x)) -> Spec.over_as (for_each f l) (for_each f' l).
Proof.
  intros Hf. induction l as [| x l IH]; cbn [for_each]; [apply over_as_refl |].
  apply over_as_bind; [apply Hf | intros _; exact IH].
Qed.

Section Fuel.

Context {W : World}.

Variable config : DownloaderConfig.

Variables self self' : Call -> M unit.

Hypothesis Hself : forall c, Spec.over_as (self c) (self' c).

Lemma afterThreadPage_over_as (threadPage : option ThreadPage) :
  Spec.over_as (afterThreadPage config self threadPage)
    (afterThreadPage config self' threadPage).
Proof.
  unfold afterThreadPage. destruct threadPage as [tp |]; [| apply over_as_refl].
  destruct (tp_nextURL tp) as [nextURL |]; [| apply over_as_refl].
  destruct (truthy_string nextURL); [apply Hself | apply over_as_refl].
Qed.

Lemma finishThreadPage_over_as (threadPage : option ThreadPage)
  (x : Res unit * State) (r : Res unit) (st' : State) :
  finishThreadPage config self threadPage x = (r, st') -> r <> Stuck ->
  finishThreadPage config self' threadPage x = (r, st').
Proof.
  destruct x as [[u | e |] st]; cbn [finishThreadPage].
  - apply afterThreadPage_over_as.
  - apply over_as_bind; [apply over_as_refl | intros _; apply afterThreadPage_over_as].
  - intros H Hr. inversion H; subst r. congruence.
Qed.

Lemma downloadThread_with_over_as (url : string)
  (context : option DownloadThreadContext) :
  Spec.over_as (downloadThread_with config self url context)
    (downloadThread_with config self' url context).
Proof.
  intros st r st'. unfold downloadThread_with.
  destruct (fetchThreadPage config url st) as [[threadPage | e |] st1].
  - destruct (resumeCheck config context threadPage st1) as [[[prev |] | e |] st2].
    + apply Hself.
    + apply finishThreadPage_over_as.
    + apply finishThreadPage_over_as.
    + intros H Hr. inversion H; subst r. congruence.
  - apply finishThreadPage_over_as.
  - intros H Hr. inversion H; subst r. congruence.
Qed.

Lemma afterForumPage_over_as (forumPage : option ForumPage) :
  Spec.over_as (afterForumPage self forumPage) (afterForumPage self' forumPage).
Proof.
  unfold afterForumPage. destruct forumPage as [fp |]; [| apply over_as_refl].
  assert (Hsub : Spec.over_as
                   (do* (if (0 <? length (fp_subforums fp))%nat
                         then for_each (fun subforum => self (CForum (link_url subforum)))
                                (fp_subforums fp)
                         else ret tt) in
                    effect (set_stats incr_processedForumCount))
                   (do* (if (0 <? length (fp_subforums fp))%nat
                         then for_each (fun subforum => self' (CForum (link_url subforum)))
                                (fp_subforums fp)
                         else ret tt) in
                    effect (set_stats incr_processedForumCount))).
  { apply over_as_bind; [| intros _; apply over_as_refl].
    destruct (0 <? length (fp_subforums fp))%nat; [| apply over_as_refl].
    apply over_as_for_each. intros l. apply Hself. }
  destruct (fp_nextURL fp) as [nextURL |]; [| exact Hsub].
  destruct (truthy_string nextURL); [apply Hself | exact Hsub].
Qed.

Lemma finishForumPage_over_as (forumPage : option ForumPage)
  (x : Res unit * State) (r : Res unit) (st' : State) :
  finishForumPage self forumPage x = (r, st') -> r <> Stuck ->
  finishForumPage self' forumPage x = (r, st').
Proof.
  destruct x as [[u | e |] st]; cbn [finishForumPage].
  - apply afterForumPage_over_as.
  - apply over_as_bind; [apply over_as_refl | intros _; apply afterForumPage_over_as].
  - intros H Hr. inversion H; subst r. congruence.
Qed.

Lemma finishForumPage_stuck (forumPage : option ForumPage) (st : State) :
  finishForumPage self forumPage (Stuck, st) = (Stuck, st).
Proof. reflexivity. Qed.

Lemma downloadForum_with_over_as (url : string) :
  Spec.over_as (downloadForum_with config self url)
    (downloadForum_with config self' url).
Proof.
  intros st r st'. unfold downloadForum_with.
  destruct (fetchForumPage config url st) as [[forumPage | e |] st1].
  - assert (Hthreads :
              Spec.over_as
                (if (0 <? length (fp_threads forumPage))%nat
                 then for_each (fun thread => self (CProcess (link_url thread)))
                        (fp_threads forumPage)
                 else ret tt)
                (if (0 <? length (fp_threads forumPage))%nat
                 then for_each (fun thread => self' (CProcess (link_url thread)))
                        (fp_threads forumPage)
                 else ret tt)).
    { destruct (0 <? length (fp_threads forumPage))%nat; [| apply over_as_refl].
      apply over_as_for_each. intros l. apply Hself. }
    specialize (Hthreads st1).
    destruct ((if (0 <? length (fp_threads forumPage))%nat
               then for_each (fun thread => self (CProcess (link_url thread)))
                      (fp_threads forumPage)
               else ret tt) st1) as [r1 st2] eqn:E.
    destruct r1 as [u | e |].
    + rewrite (Hthreads _ _ eq_refl) by discriminate. apply finishForumPage_over_as.
    + rewrite (Hthreads _ _ eq_refl) by discriminate. apply finishForumPage_over_as.
    + rewrite finishForumPage_stuck. intros H Hr. inversion H; subst r. congruence.
  - apply finishForumPage_over_as.
  - intros H Hr. inversion H; subst r. congruence.
Qed.

Lemma downloadGeneric_with_over_as (url : string) :
  Spec.over_as (downloadGeneric_with config self url)
    (downloadGeneric_with config self' url).
Proof.
  unfold downloadGeneric_with. apply over_as_try_catch.
  apply over_as_bind; [apply over_as_refl | intros r].
  destruct (0 <? length (gp_forums _))%nat; [| apply over_as_refl].
  apply over_as_for_each. intros l. apply Hself.
Qed.

Lemma process_with_over_as (url : string) :
  Spec.over_as (process_with self url) (process_with self' url).
Proof.
  unfold process_with.
  destruct (URLHelper.getTargetTypeByURL url_href url) as [e | []];
    [apply over_as_refl | apply Hself ..].
Qed.

End Fuel.

(** A call that is over with some fuel is over in the same way with one
    unit more. *)
Lemma run_one_more {W : World} (config : DownloaderConfig) (n : nat) :
  forall c, Spec.over_as (run config n c) (run config (S n) c).
Proof.
  induction n as [| n IH]; intros c.
  - intros st r st' H Hr. inversion H; subst r. congruence.
  - destruct c as [url | url context | url | url]; cbn [run].
    + now apply process_with_over_as.
    + now apply downloadThread_with_over_as.
    + now apply downloadForum_with_over_as.
    + now apply downloadGeneric_with_over_as.
Qed.

Lemma run_more {W : World} (config : DownloaderConfig) (n m : nat) (c : Call) :
  n <= m -> Spec.over_as (run config n c) (run config m c).
Proof.
  induction 1 as [| m Hle IH]; [apply over_as_refl |].
  intros st r st' H Hr. apply run_one_more; [| exact Hr]. now apply IH.
Qed.

Section EnoughFuel.

Context {W : World} {HS : Spec.Settling W}.

Variable config : DownloaderConfig.

Variables (rank : string -> nat) (bound : nat).

Hypothesis Hranked : Spec.ranked config rank bound.

(** The fuel is no part of the program: a call that is over with some fuel
    ends in the same way, in the same state, with any more.  So when every
    fetch comes to an end and a rank with an upper bound [bound] falls
    along every link of the site, every call of [#process],
    [#downloadThread], [#downloadForum] and [#downloadGeneric] has one
    outcome, which every fuel from [3 * bound + 3] on gives. *)
Theorem traversal_has_one_outcome (c : Call) (st : State) (fuel : nat) :
  3 * bound + 3 <= fuel ->
  fst (run config fuel c st) <> Stuck
  /\ run config fuel c st = run config (3 * bound + 3) c st
  /\ (forall n m r st',
        n <= m -> run config n c st = (r, st') -> r <> Stuck ->
        run config m c st = (r, st')).
Proof.
  intros Hfuel.
  pose proof (run_ends config rank bound Hranked c st) as Hends.
  assert (Heq : run config fuel c st = run config (3 * bound + 3) c st).
  { destruct (run config (3 * bound + 3) c st) as [r st'] eqn:E.
    apply (run_more config (3 * bound + 3) fuel c Hfuel st r st' E). exact Hends. }
  split; [now rewrite Heq |]. split; [exact Heq |].
  intros n m r st' Hle. now apply run_more.
Qed.

End EnoughFuel.

Lemma traversal_has_one_outcome_witness :
  fst (run (W := Spec.boardWorld) (Demo.config None false false) 20
         (CProcess Spec.boardURL) Demo.state0) <> Stuck
  /\ run (W := Spec.boardWorld) (Demo.config None false false) 20
       (CProcess Spec.boardURL) Demo.state0
     = run (W := Spec.boardWorld) (Demo.config None false false) (3 * 2 + 3)
         (CProcess Spec.boardURL) Demo.state0.
Proof.
  destruct (traversal_has_one_outcome (W := Spec.boardWorld) (HS := board_settles)
              (Demo.config None false false) Spec.boardRank 2 board_ranked
              (CProcess Spec.boardURL) Demo.state0 20 ltac:(lia)) as (H1 & H2 & _).
  split; [exact H1 | exact H2].
Defined.

(** ** The marker of a thread moves forward, message by message *)

Lemma marked_lengths (evs : list Event) :
  Spec.marked evs -> length (Spec.status_ids evs) <= length (Spec.saved_ids evs).
Proof.
  intros H. induction H as [| e evs He H IH | p m evs H IH | p q m s evs Hs H IH].
  - reflexivity.
  - destruct e; cbn in *; try discriminate; exact IH.
  - change (length (Spec.status_ids evs) <= S (length (Spec.saved_ids evs))). lia.
  - change (S (length (Spec.status_ids evs)) <= S (length (Spec.saved_ids evs))). lia.
Qed.

Lemma marked_paired (evs : list Event) :
  Spec.marked evs -> Spec.status_ids evs = Spec.saved_ids evs ->
  Spec.appends_are_marked evs.
Proof.
  intros H. induction H as [| e evs He H IH | p m evs H IH | p q m s evs Hs H IH];
    intros Heq.
  - constructor.
  - apply Spec.am_other; [exact He |]. apply IH.
    destruct e; cbn in *; try discriminate; exact Heq.
  - exfalso. pose proof (marked_lengths evs H) as Hlen.
    change (Spec.status_ids evs = msg_id m :: Spec.saved_ids evs) in Heq.
    rewrite Heq in Hlen. cbn [length] in Hlen. lia.
  - change (ds_messageID s :: Spec.status_ids evs = msg_id m :: Spec.saved_ids evs)
      in Heq.
    inversion Heq. apply Spec.am_pair; [exact Hs | now apply IH].
Qed.

Section MarkerPerMessage.

Context {W : World}.

Variable config : DownloaderConfig.

(** C2: message ids grow within each page and from page to page of the
    threads of the site.  Then in one run of the thread handler, with any
    fuel and from any context, the [messageID]s written to the
    download-status record never decrease, and every one of them is written
    right after the transcript append of the message it names.  The marker
    moves message by message: every append is followed at once by the
    status record of its message, so the ids written to the record are the
    ids of the messages appended, one for one and in their order. *)
Theorem C2_resume_marker_only_advances (fuel : nat) (url : string)
  (context : option DownloadThreadContext) (st : State) :
  Spec.ids_increase config ->
  exists evs,
    st_trace (snd (downloadThread config fuel url context st)) = st_trace st ++ evs
    /\ StronglySorted Z.le (Spec.status_ids evs)
    /\ Spec.markers_follow_appends evs
    /\ Spec.appends_are_marked evs
    /\ Spec.status_ids evs = Spec.saved_ids evs.
Proof.
  intros Hsorted. unfold downloadThread.
  destruct (run config fuel (CThread url context) st) as [r st'] eqn:H.
  pose proof (run_crawl_step config fuel (CThread url context) st r st' H)
    as (ids & evs' & T' & M' & Sv' & St' & _).
  apply thread_markers_bound in H as (n & u & evs & T & M & S).
  assert (evs' = evs) by (rewrite T in T'; now apply app_inv_head in T').
  subst evs'.
  assert (Heq : Spec.status_ids evs = Spec.saved_ids evs) by congruence.
  exists evs. cbn [snd]. repeat split.
  - exact T.
  - eapply strongly_sorted_sublist; [exact S | apply Hsorted].
  - now apply marked_follow.
  - now apply marked_paired.
  - exact Heq.
Qed.

End MarkerPerMessage.

Lemma C2_resume_marker_only_advances_witness :
  exists evs,
    st_trace (snd (downloadThread (W := Spec.helloWorld) (Demo.config None false true) 5
                     Spec.helloURL None Demo.state0))
    = st_trace Demo.state0 ++ evs
    /\ StronglySorted Z.le (Spec.status_ids evs)
    /\ Spec.markers_follow_appends evs
    /\ Spec.appends_are_marked evs
    /\ Spec.status_ids evs = [10; 20; 30; 40; 50]%Z.
Proof.
  destruct (C2_resume_marker_only_advances (W := Spec.helloWorld)
              (Demo.config None false true) 5 Spec.helloURL None Demo.state0
              hello_ids_increase) as (evs & T & Hs & Hf & Hm & Heq).
  exists evs. repeat split; try assumption.
  rewrite Heq. change (st_trace Demo.state0 ++ evs) with evs in T. rewrite <- T.
  vm_compute. reflexivity.
Defined.

(** ** After a page: the marker a later run finds *)

Lemma for_each_last {A : Type} (f : A -> M unit) (l : list A) (x : A) :
  forall st st',
    for_each f (l ++ [x]) st = (Ret tt, st') ->
    exists st1, f x st1 = (Ret tt, st').
Proof.
  induction l as [| a l IH]; intros st st' H; cbn [app for_each] in H;
    unfold bind in H.
  - destruct (f x st) as [[[] | e |] st1] eqn:E; inversion H; subst. now exists st.
  - destruct (f a st) as [[[] | e |] st1]; try discriminate. eapply IH. exact H.
Qed.

Section LastMarker.

Context {W : World}.

Variable config : DownloaderConfig.

Lemma processMessage_leaves_marker (threadPage : ThreadPage)
  (attachmentSavePath threadSavePath messageFile : string) (message : ThreadMessage)
  (st st' : State) :
  processMessage config threadPage attachmentSavePath threadSavePath messageFile message st
  = (Ret tt, st') ->
  st_files st' !! getDownloadStatusFilePath threadPage threadSavePath
  = Some (FJson {| j_threadID := Some (tp_id threadPage);
                   j_url := Some (tp_url threadPage);
                   j_messageID := Some (msg_id message) |}).
Proof.
  unfold processMessage, bind, saveMessage, saveDownloadStatus, effect. intros H.
  destruct (downloadAttachments config attachmentSavePath message st)
    as [[[] | e |] st1]; inversion H; subst.
  cbn. apply lookup_insert_eq.
Qed.

(** When a page with messages has been persisted, the status file of the
    thread names the last message of the page: a later run with [continue]
    reads back the thread, its url and that message. *)
Theorem persisted_page_leaves_its_last_marker (context : option DownloadThreadContext)
  (threadPage : ThreadPage) (lastMessage : ThreadMessage) (st st' : State) :
  persistPage config context threadPage st = (Ret tt, st') ->
  last (tp_messages threadPage) = Some lastMessage ->
  tp_id threadPage <> 0%Z -> tp_url threadPage <> "" -> msg_id lastMessage <> 0%Z ->
  checkPreviousDownload threadPage (getThreadSavePath config threadPage) st'
  = (Ret (Some (Spec.marker_of threadPage lastMessage)), st').
Proof.
  intros H Hlast Hid Hurl Hmsg. unfold persistPage in H. unfold bind at 1 in H.
  destruct (resolveFilenames config (tp_messages threadPage) st)
    as [[messages | e |] st1] eqn:Er; try discriminate.
  apply resolveFilenames_ids in Er.
  assert (Hlast' : exists l x, messages = l ++ [x] /\ msg_id x = msg_id lastMessage).
  { apply last_Some in Hlast as [l0 Hl0]. rewrite Hl0, map_app in Er. cbn in Er.
    destruct (decide (messages = [])) as [-> | Hne]; [now destruct (map msg_id l0) |].
    destruct (exists_last Hne) as (l & x & ->). exists l, x. split; [reflexivity |].
    rewrite map_app in Er. cbn in Er. now apply app_inj_tail in Er as [_ Hx]. }
  destruct Hlast' as (l & x & -> & Hx).
  unfold bind at 1 in H. cbn [ensureDirSync effect] in H.
  unfold bind at 1 in H.
  match type of H with
  | context [createMessageFile ?tp ?d ?o ?s] =>
      destruct (createMessageFile tp d o s) as [[messageFile | e |] st2];
      try discriminate
  end.
  cbn [Parser.with_messages tp_messages] in H.
  apply for_each_last in H as (st3 & H).
  apply processMessage_leaves_marker in H.
  cbn [Parser.with_messages tp_id tp_url] in H.
  change (getThreadSavePath config (Parser.with_messages threadPage (l ++ [x])))
    with (getThreadSavePath config threadPage) in H.
  change (getDownloadStatusFilePath (Parser.with_messages threadPage (l ++ [x])))
    with (getDownloadStatusFilePath threadPage) in H.
  unfold checkPreviousDownload. rewrite (existsSync_file _ _ _ H), H.
  cbn [j_threadID j_url j_messageID]. rewrite Hx.
  rewrite !truthy_Z_true by assumption.
  assert (Hu : truthy_string (tp_url threadPage) = true)
    by (destruct (tp_url threadPage); [congruence | reflexivity]).
  rewrite Hu. reflexivity.
Qed.

End LastMarker.

Lemma persisted_page_leaves_its_last_marker_witness :
  checkPreviousDownload (W := Spec.helloWorld) Spec.helloPage1
    (getThreadSavePath (W := Spec.helloWorld) (Demo.config None false true)
       Spec.helloPage1)
    (snd (persistPage (W := Spec.helloWorld) (Demo.config None false true) None
            Spec.helloPage1 Demo.state0))
  = (Ret (Some (Spec.marker_of Spec.helloPage1 (Demo.message 30 []))),
     snd (persistPage (W := Spec.helloWorld) (Demo.config None false true) None
            Spec.helloPage1 Demo.state0)).
Proof.
  apply (persisted_page_leaves_its_last_marker (W := Spec.helloWorld)
           (Demo.config None false true) None Spec.helloPage1 (Demo.message 30 [])
           Demo.state0).
  - vm_compute. reflexivity.
  - reflexivity.
  - discriminate.
  - discriminate.
  - discriminate.
Defined.

(** ** Directory layout with the immediate parent only *)

Section ImmediateParent.

Context {W : World}.

Lemma last_cons_snoc {A : Type} (x y : A) (l : list A) : last (x :: l ++ [y]) = Some y.
Proof. change (x :: l ++ [y]) with ((x :: l) ++ [y]). apply last_snoc. Qed.

(** With the site directory, the immediate parent and the thread directory
    enabled, the save path has three segments whatever the number of
    breadcrumbs: the site, the last breadcrumb with its forum id, and the
    thread with its id; the breadcrumbs between are left out.  With no
    directory enabled everything goes straight into [outDir]. *)
Theorem immediate_parent_save_path (out target : string) (attachments ow ct : bool)
  (rq : RequestConfig) (thread : ThreadPage) (siteCrumb parentCrumb : Crumb)
  (between : list Crumb) (p : URLHelper.ParsedURL) :
  tp_breadcrumbs thread = siteCrumb :: between ++ [parentCrumb] ->
  crumb_title siteCrumb <> "" -> crumb_title parentCrumb <> "" ->
  tp_title thread <> "" -> tp_id thread <> 0%Z ->
  URLHelper.parseForumURL (Some (crumb_url parentCrumb)) = Some p ->
  URLHelper.id p <> 0%Z ->
  getThreadSavePath (Spec.immediateDirs out attachments rq ow ct target) thread
  = path_resolve out
      (String.concat path_sep
         [ sanitizeFilename (crumb_title siteCrumb);
           sanitizeFilename
             (crumb_title parentCrumb +:+ "." +:+ number_to_string (URLHelper.id p));
           sanitizeFilename
             (tp_title thread +:+ "." +:+ number_to_string (tp_id thread)) ])
  /\ getThreadSavePath (Spec.flatDirs out rq ow ct target) thread
     = path_resolve out (String.concat path_sep []).
Proof.
  intros Hc Hs Hp Ht Hid Hparse Hpid.
  assert (Htruthy : forall s, s <> "" -> truthy_string s = true)
    by (intros [| c s] H; [congruence | reflexivity]).
  split.
  - unfold getThreadSavePath, Spec.immediateDirs. rewrite Hc.
    cbn [dirStructure dir_site dir_parentForumsAndSections dir_thread outDir andb].
    rewrite last_cons_snoc, !Htruthy by assumption.
    assert (Hlen : (1 <? length (siteCrumb :: between ++ [parentCrumb]))%nat = true).
    { apply Nat.ltb_lt. cbn. rewrite length_app. cbn. lia. }
    rewrite Hlen, (crumb_forum_id_parsed _ _ Hparse). unfold pushPathPart.
    rewrite !truthy_Z_true by assumption. reflexivity.
  - unfold getThreadSavePath, Spec.flatDirs.
    cbn [dirStructure dir_site dir_parentForumsAndSections dir_thread outDir andb].
    destruct (tp_breadcrumbs thread); destruct (1 <? _)%nat; reflexivity.
Qed.

End ImmediateParent.

(** ** Parser: what a parsed page is known to have *)

Section ParsedPages.

Context {W : World}.

(** Pages that the parser lets through have a thread or forum id that is
    not zero, a url and a title, and no message without an id; the errors
    it throws are errors after which the crawl goes on. *)
Theorem parsed_pages_are_well_formed (html originURL : string) :
  (forall threadPage,
      Parser.parseThreadPage html originURL = inr threadPage ->
      tp_id threadPage <> 0%Z /\ tp_url threadPage <> "" /\ tp_title threadPage <> ""
      /\ Forall (fun m => msg_id m <> 0%Z) (tp_messages threadPage))
  /\ (forall forumPage,
        Parser.parseForumPage html originURL = inr forumPage ->
        fp_id forumPage <> 0%Z /\ fp_url forumPage <> "" /\ fp_title forumPage <> "")
  /\ (forall e,
        Parser.parseThreadPage html originURL = inl e
        \/ Parser.parseForumPage html originURL = inl e ->
        isErrorNonContinuable e = false).
Proof.
  assert (HZ : forall z, truthy_Z z = true -> z <> 0%Z).
  { intros z H ->. discriminate. }
  assert (HS : forall s, truthy_string s = true -> s <> "").
  { intros s H ->. discriminate. }
  split; [| split].
  - intros threadPage. unfold Parser.parseThreadPage.
    destruct (truthy_Z (tp_id _)) eqn:Ei; [| discriminate]. cbn [negb].
    destruct (truthy_string (tp_url _)) eqn:Eu; [| discriminate].
    destruct (truthy_string (tp_title _)) eqn:Et; [| discriminate].
    cbn [negb orb]. intros [= <-]. cbn [Parser.with_messages tp_id tp_url tp_title
      tp_messages]. repeat split; auto.
    apply List.Forall_forall. intros m Hm. apply List.filter_In in Hm as [_ Hm]. auto.
  - intros forumPage. unfold Parser.parseForumPage.
    destruct (truthy_Z (fp_id _)) eqn:Ei; [| discriminate]. cbn [negb].
    destruct (truthy_string (fp_url _)) eqn:Eu; [| discriminate].
    destruct (truthy_string (fp_title _)) eqn:Et; [| discriminate].
    cbn [negb orb]. intros [= <-]. repeat split; auto.
  - intros e [H | H]; revert H;
      unfold Parser.parseThreadPage, Parser.parseForumPage;
      repeat match goal with
             | |- context [if ?b then _ else _] => destruct b
             end; intros [= <-]; reflexivity.
Qed.

End ParsedPages.

Lemma immediate_parent_save_path_witness :
  getThreadSavePath (W := Spec.emptyWorld)
    (Spec.immediateDirs "/out" true (request (Demo.config None false false)) false false "")
    (Spec.helloPage "https://site.example/"
       "https://site.example/forums/categorya.3/"
       "https://site.example/forums/forumb.7/"
       "https://site.example/threads/hello.42/" [] 1 1 None)
  = "/out/Site/ForumB.7/Hello.42"
  /\ getThreadSavePath (W := Spec.emptyWorld)
       (Spec.flatDirs "/out" (request (Demo.config None false false)) false false "")
       (Spec.helloPage "https://site.example/"
          "https://site.example/forums/categorya.3/"
          "https://site.example/forums/forumb.7/"
          "https://site.example/threads/hello.42/" [] 1 1 None)
     = "/out".
Proof.
  exact (immediate_parent_save_path (W := Spec.emptyWorld) "/out" "" true false false
           (request (Demo.config None false false))
           (Spec.helloPage "https://site.example/"
              "https://site.example/forums/categorya.3/"
              "https://site.example/forums/forumb.7/"
              "https://site.example/threads/hello.42/" [] 1 1 None)
           {| crumb_url := "https://site.example/"; crumb_title := "Site" |}
           {| crumb_url := "https://site.example/forums/forumb.7/";
              crumb_title := "ForumB" |}
           [ {| crumb_url := "https://site.example/forums/categorya.3/";
                crumb_title := "CategoryA" |} ]
           {| URLHelper.slug := "forumb"; URLHelper.id := 7 |}
           eq_refl ltac:(discriminate) ltac:(discriminate) ltac:(discriminate)
           ltac:(discriminate) eq_refl ltac:(discriminate)).
Defined.

(** ** Continuing a previous download *)

Section Restart.

Context {W : World}.

Variable config : DownloaderConfig.

(** With [continue] on, a thread whose status file holds a record is not
    downloaded from the page asked for: nothing of that page is saved, and
    the handler starts again at the url of the record, to go on after the
    message of the record. *)
Theorem previous_download_restarts_at_stored_url (fuel : nat) (url : string)
  (context : option DownloadThreadContext) (st st1 : State) (threadPage : ThreadPage)
  (j : StatusJson) (d : DownloadStatus) :
  continue config = true -> is_continued context = false ->
  fetchThreadPage config url st = (Ret threadPage, st1) ->
  st_files st1
    !! getDownloadStatusFilePath threadPage (getThreadSavePath config threadPage)
  = Some (FJson j) ->
  Spec.well_formed_record j = Some d ->
  run config (S fuel) (CThread url context) st
  = run config fuel
      (CThread (ds_url d)
         (Some {| continued := true; continueFromMessageID := Some (ds_messageID d) |}))
      st1.
Proof.
  intros Hc Hctx Hf Hfile Hj. cbn [run]. unfold downloadThread_with. rewrite Hf.
  unfold resumeCheck. rewrite Hc, Hctx. cbn [negb andb]. unfold try_catch.
  unfold checkPreviousDownload. rewrite (existsSync_file _ _ _ Hfile), Hfile.
  unfold Spec.well_formed_record in Hj.
  destruct (j_threadID j) as [t |], (j_url j) as [u |], (j_messageID j) as [m |];
    try discriminate.
  destruct (truthy_Z t), (truthy_string u), (truthy_Z m); cbn in Hj |- *;
    try discriminate.
  inversion Hj; subst d. reflexivity.
Qed.

End Restart.

Lemma previous_download_restarts_at_stored_url_witness :
  run (W := Spec.helloWorld) (Demo.config None false true) 3
    (CThread Spec.helloURL None) Spec.diskWithForeignRecord
  = run (W := Spec.helloWorld) (Demo.config None false true) 2
      (CThread "https://site.example/threads/other.7/page-4"
         (Some {| continued := true; continueFromMessageID := Some 99%Z |}))
      (snd (fetchThreadPage (W := Spec.helloWorld) (Demo.config None false true)
              Spec.helloURL Spec.diskWithForeignRecord)).
Proof.
  apply (previous_download_restarts_at_stored_url (W := Spec.helloWorld)
           (Demo.config None false true) 2 Spec.helloURL None
           Spec.diskWithForeignRecord
           (snd (fetchThreadPage (W := Spec.helloWorld) (Demo.config None false true)
                   Spec.helloURL Spec.diskWithForeignRecord))
           Spec.helloPage1 Spec.foreignRecord
           {| ds_threadID := 7; ds_url := "https://site.example/threads/other.7/page-4";
              ds_messageID := 99 |}).
  - reflexivity.
  - reflexivity.
  - vm_compute. reflexivity.
  - vm_compute. reflexivity.
  - reflexivity.
Defined.

(** ** The header of a thread's transcript *)

Section ThreadHeader.

Import ThreadHeaderTemplate.

Lemma lacks_app (c : ascii) (a b : string) :
  Spec.lacks c (a +:+ b) = Spec.lacks c a && Spec.lacks c b.
Proof.
  induction a as [| d a IH]; norm_append; cbn; [reflexivity |].
  rewrite IH. now rewrite andb_assoc.
Qed.

Lemma expand_app_plain (a replacement matched before after : string) :
  Spec.lacks "$" a = true ->
  expand (a +:+ replacement) matched before after
  = a +:+ expand replacement matched before after.
Proof.
  induction a as [| d a IH]; intros H; norm_append; [reflexivity |].
  cbn [Spec.lacks] in H. apply andb_true_iff in H as [Hd Ha].
  cbn [expand]. rewrite Ascii.eqb_sym.
  destruct (Ascii.eqb "$" d); [discriminate |].
  now rewrite IH.
Qed.

Lemma expand_plain (replacement matched before after : string) :
  Spec.lacks "$" replacement = true ->
  expand replacement matched before after = replacement.
Proof.
  intros H.
  rewrite <- (append_nil_r replacement) at 1.
  rewrite expand_app_plain by exact H. cbn. apply append_nil_r.
Qed.

Variables (c0 : ascii) (search' replacement : string).

Let search : string := String c0 search'.

Lemma scan_nil (fuel : nat) (before : string) :
  replaceAll_scan search replacement fuel before "" = "".
Proof. destruct fuel; reflexivity. Qed.

(** More fuel than the text is long changes nothing. *)
Lemma scan_fuel (f1 f2 : nat) (before s : string) :
  String.length s <= f1 -> String.length s <= f2 ->
  replaceAll_scan search replacement f1 before s
  = replaceAll_scan search replacement f2 before s.
Proof.
  revert f2 before s. induction f1 as [| f1 IH]; intros f2 before s H1 H2.
  - destruct s; [| cbn in H1; lia]. now rewrite !scan_nil.
  - destruct f2 as [| f2].
    + destruct s; [| cbn in H2; lia]. now rewrite !scan_nil.
    + cbn [replaceAll_scan].
      destruct (URLHelper.strip_prefix search s) as [after |] eqn:E.
      * apply strip_prefix_sound in E. subst s.
        unfold search in H1, H2. norm_append. cbn [String.length] in H1, H2.
        rewrite string_length_append in H1, H2.
        f_equal. apply IH; lia.
      * destruct s as [| c s]; [reflexivity |].
        cbn [String.length] in H1, H2. f_equal. apply IH; lia.
Qed.

(** The scan passes a text in which the first character of [search] is
    not found. *)
Lemma scan_passes (a : string) :
  Spec.lacks c0 a = true ->
  forall (fuel : nat) (before rest : string),
    String.length (a +:+ rest) <= fuel ->
    replaceAll_scan search replacement fuel before (a +:+ rest)
    = a +:+ replaceAll_scan search replacement fuel (before +:+ a) rest.
Proof.
  induction a as [| d a IH]; intros H fuel before rest Hlen; norm_append.
  - now rewrite append_nil_r.
  - cbn [Spec.lacks] in H. apply andb_true_iff in H as [Hd Ha].
    cbn [String.length] in Hlen.
    destruct fuel as [| fuel]; [lia |].
    cbn [replaceAll_scan]. unfold search at 1. cbn [URLHelper.strip_prefix].
    destruct (Ascii.eqb c0 d); [discriminate |].
    f_equal.
    rewrite (scan_fuel fuel (S fuel)) by lia.
    rewrite IH by (exact Ha || (try lia)).
    f_equal. f_equal. rewrite append_assoc. reflexivity.
Qed.

Lemma scan_clean (a : string) (fuel : nat) (before : string) :
  Spec.lacks c0 a = true -> String.length a <= fuel ->
  replaceAll_scan search replacement fuel before a = a.
Proof.
  intros H Hlen.
  rewrite <- (append_nil_r a) at 1.
  rewrite scan_passes; [| exact H | now rewrite append_nil_r].
  now rewrite scan_nil, append_nil_r.
Qed.

Lemma scan_match (fuel : nat) (before rest : string) :
  replaceAll_scan search replacement (S fuel) before (search +:+ rest)
  = expand replacement search before rest
      +:+ replaceAll_scan search replacement fuel (before +:+ search) rest.
Proof. cbn [replaceAll_scan]. now rewrite strip_prefix_append. Qed.

(** The scan up to and over the first match. *)
Lemma scan_first_match (a rest : string) (fuel : nat) (before : string) :
  Spec.lacks c0 a = true ->
  String.length (a +:+ search +:+ rest) <= fuel ->
  replaceAll_scan search replacement fuel before (a +:+ search +:+ rest)
  = a +:+ expand replacement search (before +:+ a) rest
      +:+ replaceAll_scan search replacement fuel (before +:+ a +:+ search) rest.
Proof.
  intros H Hlen.
  rewrite scan_passes by assumption.
  f_equal.
  rewrite !string_length_append in Hlen.
  assert (Hs : String.length search = S (String.length search')) by reflexivity.
  rewrite (scan_fuel fuel (S fuel) (before +:+ a) (search +:+ rest))
    by (rewrite ?string_length_append; lia).
  rewrite scan_match. now rewrite append_assoc.
Qed.

End ThreadHeader.

Lemma replaceAll_once (c0 : ascii) (search' replacement a b : string) :
  Spec.lacks c0 a = true -> Spec.lacks c0 b = true ->
  ThreadHeaderTemplate.replaceAll (String c0 search') replacement
    (a +:+ String c0 search' +:+ b)
  = a +:+ ThreadHeaderTemplate.expand replacement (String c0 search') a b +:+ b.
Proof.
  intros Ha Hb. unfold ThreadHeaderTemplate.replaceAll.
  rewrite scan_first_match by (exact Ha || lia).
  rewrite scan_clean; [reflexivity | exact Hb |].
  rewrite !string_length_append. lia.
Qed.

Lemma replaceAll_twice (c0 : ascii) (search' replacement a m b : string) :
  Spec.lacks c0 a = true -> Spec.lacks c0 m = true -> Spec.lacks c0 b = true ->
  ThreadHeaderTemplate.replaceAll (String c0 search') replacement
    (a +:+ String c0 search' +:+ m +:+ String c0 search' +:+ b)
  = a +:+ ThreadHeaderTemplate.expand replacement (String c0 search') a
            (m +:+ String c0 search' +:+ b)
      +:+ m +:+ ThreadHeaderTemplate.expand replacement (String c0 search')
                  (a +:+ String c0 search' +:+ m) b
      +:+ b.
Proof.
  intros Ha Hm Hb. unfold ThreadHeaderTemplate.replaceAll.
  rewrite scan_first_match by (exact Ha || lia).
  rewrite scan_first_match
    by (exact Hm || (rewrite !string_length_append; lia)).
  rewrite scan_clean;
    [rewrite ?append_nil_l, ?append_assoc; reflexivity | exact Hb |].
  rewrite !string_length_append. lia.
Qed.

(** The first replacement, of the title, on the template. *)
Lemma title_replaced (title : string) :
  ThreadHeaderTemplate.replaceAll "{thread.title}" title
    ThreadHeaderTemplate.THREAD_HEADER_TEMPLATE
  = (ThreadHeaderTemplate.RULE +:+ ThreadHeaderTemplate.NL)
    +:+ ThreadHeaderTemplate.expand title "{thread.title}"
          (ThreadHeaderTemplate.RULE +:+ ThreadHeaderTemplate.NL)
          (ThreadHeaderTemplate.NL +:+ "{thread.url}" +:+ ThreadHeaderTemplate.NL
           +:+ ThreadHeaderTemplate.RULE +:+ ThreadHeaderTemplate.NL
           +:+ ThreadHeaderTemplate.NL)
    +:+ (ThreadHeaderTemplate.NL +:+ "{thread.url}" +:+ ThreadHeaderTemplate.NL
         +:+ ThreadHeaderTemplate.RULE +:+ ThreadHeaderTemplate.NL
         +:+ ThreadHeaderTemplate.NL).
Proof. vm_compute. reflexivity. Qed.

Lemma header_from_title_line (line url : string) :
  Spec.lacks "{" line = true -> Spec.lacks "$" url = true ->
  ThreadHeaderTemplate.replaceAll "{thread.url}" url
    ((ThreadHeaderTemplate.RULE +:+ ThreadHeaderTemplate.NL)
     +:+ line
     +:+ (ThreadHeaderTemplate.NL +:+ "{thread.url}" +:+ ThreadHeaderTemplate.NL
          +:+ ThreadHeaderTemplate.RULE +:+ ThreadHeaderTemplate.NL
          +:+ ThreadHeaderTemplate.NL))
  = Spec.header_of line url.
Proof.
  intros Hl Hu.
  replace ((ThreadHeaderTemplate.RULE +:+ ThreadHeaderTemplate.NL)
           +:+ line
           +:+ (ThreadHeaderTemplate.NL +:+ "{thread.url}" +:+ ThreadHeaderTemplate.NL
                +:+ ThreadHeaderTemplate.RULE +:+ ThreadHeaderTemplate.NL
                +:+ ThreadHeaderTemplate.NL))
    with ((ThreadHeaderTemplate.RULE +:+ ThreadHeaderTemplate.NL
           +:+ line +:+ ThreadHeaderTemplate.NL)
          +:+ "{thread.url}"
          +:+ (ThreadHeaderTemplate.NL +:+ ThreadHeaderTemplate.RULE
               +:+ ThreadHeaderTemplate.NL +:+ ThreadHeaderTemplate.NL))
    by (rewrite !append_assoc; reflexivity).
  rewrite replaceAll_once.
  - rewrite expand_plain by exact Hu.
    unfold Spec.header_of. rewrite !append_assoc. reflexivity.
  - rewrite !lacks_app, Hl. reflexivity.
  - reflexivity.
Qed.

(** A title with no opening brace and no dollar sign, and a URL with
    no dollar sign, are put into the header as they are: the rule, the
    title, the URL, the rule and an empty line.  Braces in the URL do no
    harm, the URL being put in last. *)
Theorem plain_title_gives_the_header (title url : string) :
  Spec.plain_text title = true -> Spec.lacks "$" url = true ->
  ThreadHeaderTemplate.format title url = Spec.header_of title url.
Proof.
  intros Ht Hu. apply andb_true_iff in Ht as [Hb Hd].
  unfold ThreadHeaderTemplate.format.
  rewrite title_replaced, expand_plain by exact Hd.
  now apply header_from_title_line.
Qed.

Lemma plain_title_gives_the_header_witness :
  ThreadHeaderTemplate.format "Hello"
    "https://forum.example/threads/hello.7/?a={thread.title}"
  = Spec.header_of "Hello"
      "https://forum.example/threads/hello.7/?a={thread.title}".
Proof. apply plain_title_gives_the_header; reflexivity. Defined.

(** A title is not taken as it is when it holds the text
    [{thread.url}]: the second replacement puts the URL there too. *)
Theorem placeholder_in_title_is_replaced (a b url : string) :
  Spec.plain_text a = true -> Spec.plain_text b = true ->
  Spec.lacks "$" url = true ->
  ThreadHeaderTemplate.format (a +:+ "{thread.url}" +:+ b) url
  = Spec.header_of (a +:+ url +:+ b) url.
Proof.
  intros Ha Hb Hu.
  apply andb_true_iff in Ha as [Ha1 Ha2]. apply andb_true_iff in Hb as [Hb1 Hb2].
  unfold ThreadHeaderTemplate.format.
  rewrite title_replaced, expand_plain
    by (rewrite !lacks_app, Ha2, Hb2; reflexivity).
  replace ((ThreadHeaderTemplate.RULE +:+ ThreadHeaderTemplate.NL)
           +:+ (a +:+ "{thread.url}" +:+ b)
           +:+ (ThreadHeaderTemplate.NL +:+ "{thread.url}" +:+ ThreadHeaderTemplate.NL
                +:+ ThreadHeaderTemplate.RULE +:+ ThreadHeaderTemplate.NL
                +:+ ThreadHeaderTemplate.NL))
    with ((ThreadHeaderTemplate.RULE +:+ ThreadHeaderTemplate.NL +:+ a)
          +:+ "{thread.url}"
          +:+ (b +:+ ThreadHeaderTemplate.NL)
          +:+ "{thread.url}"
          +:+ (ThreadHeaderTemplate.NL +:+ ThreadHeaderTemplate.RULE
               +:+ ThreadHeaderTemplate.NL +:+ ThreadHeaderTemplate.NL))
    by (rewrite !append_assoc; reflexivity).
  rewrite replaceAll_twice.
  - rewrite !expand_plain by exact Hu.
    unfold Spec.header_of. rewrite !append_assoc. reflexivity.
  - rewrite !lacks_app, Ha1. reflexivity.
  - rewrite !lacks_app, Hb1. reflexivity.
  - reflexivity.
Qed.

Lemma placeholder_in_title_is_replaced_witness :
  ThreadHeaderTemplate.format ("See " +:+ "{thread.url}" +:+ " here")
    "https://forum.example/threads/hello.7/"
  = Spec.header_of
      ("See " +:+ "https://forum.example/threads/hello.7/" +:+ " here")
      "https://forum.example/threads/hello.7/".
Proof. apply placeholder_in_title_is_replaced; reflexivity. Defined.

(** A dollar sign in the title is read as a pattern of the replacement
    text: of two dollar signs in a row, one is left in the header. *)
Theorem doubled_dollar_in_title_is_halved (a b url : string) :
  Spec.plain_text a = true -> Spec.plain_text b = true ->
  Spec.lacks "$" url = true ->
  ThreadHeaderTemplate.format (a +:+ "$$" +:+ b) url
  = Spec.header_of (a +:+ "$" +:+ b) url.
Proof.
  intros Ha Hb Hu.
  apply andb_true_iff in Ha as [Ha1 Ha2]. apply andb_true_iff in Hb as [Hb1 Hb2].
  unfold ThreadHeaderTemplate.format.
  rewrite title_replaced, expand_app_plain by exact Ha2.
  norm_append. cbn [ThreadHeaderTemplate.expand Ascii.eqb Bool.eqb].
  rewrite expand_plain by exact Hb2.
  apply header_from_title_line; [| exact Hu].
  rewrite !lacks_app, Ha1. norm_append. cbn [Spec.lacks]. now rewrite Hb1.
Qed.

Lemma doubled_dollar_in_title_is_halved_witness :
  ThreadHeaderTemplate.format ("Selling for 5" +:+ "$$" +:+ " each")
    "https://forum.example/threads/hello.7/"
  = Spec.header_of ("Selling for 5" +:+ "$" +:+ " each")
      "https://forum.example/threads/hello.7/".
Proof. apply doubled_dollar_in_title_is_halved; reflexivity. Defined.
